(** * atomVis: the scene and animation engine of the molecule viewer

    A shallow embedding of [src/components/AtomViewer.tsx] (geometry
    primitives, atom and bond model builders, scene rebuild, animation
    tick, React effects) and of the bond-list code of the application
    ([handleAddBond], [parseSDF], [parsePDB], [knownMolecules]).

    JavaScript numbers are idealised as real numbers: rounding, NaN and
    the float32 storage of buffer attributes are outside the model.
    Array indices that the source compares or subtracts are integers
    ([Z]); lengths and loop counters are natural numbers.  [Math.random]
    is an explicit stream of draws that is threaded through the code in
    call order. *)

From Stdlib Require Import Reals Lra Lia ZArith List String Ascii Bool.
From stdpp Require Import base option list.
Import ListNotations.

Open Scope R_scope.

(* ================================================================== *)
(** * THREE.Vector3 and THREE.Quaternion *)
(* ================================================================== *)

Record Vector3 : Type := mkV3 { vx : R; vy : R; vz : R }.

(** [new THREE.Vector3()] *)
Definition v3_zero : Vector3 := mkV3 0 0 0.

Definition v3_add (a b : Vector3) : Vector3 :=
  mkV3 (vx a + vx b) (vy a + vy b) (vz a + vz b).

(** [subVectors(a, b)] *)
Definition subVectors (a b : Vector3) : Vector3 :=
  mkV3 (vx a - vx b) (vy a - vy b) (vz a - vz b).

Definition multiplyScalar (v : Vector3) (s : R) : Vector3 :=
  mkV3 (vx v * s) (vy v * s) (vz v * s).

(** [divideScalar(s)] is [multiplyScalar(1 / s)]. *)
Definition divideScalar (v : Vector3) (s : R) : Vector3 :=
  multiplyScalar v (1 / s).

Definition v3_dot (a b : Vector3) : R :=
  vx a * vx b + vy a * vy b + vz a * vz b.

Definition v3_length (v : Vector3) : R :=
  sqrt (vx v * vx v + vy v * vy v + vz v * vz v).

Definition distanceToSquared (a b : Vector3) : R :=
  let dx := vx a - vx b in
  let dy := vy a - vy b in
  let dz := vz a - vz b in
  dx * dx + dy * dy + dz * dz.

Definition distanceTo (a b : Vector3) : R := sqrt (distanceToSquared a b).

(** [this.lerp(v, alpha)]: [this.x += (v.x - this.x) * alpha]. *)
Definition lerp (this v : Vector3) (alpha : R) : Vector3 :=
  mkV3 (vx this + (vx v - vx this) * alpha)
       (vy this + (vy v - vy this) * alpha)
       (vz this + (vz v - vz this) * alpha).

(** [lerpVectors(v1, v2, alpha)]: [v1.x + (v2.x - v1.x) * alpha]. *)
Definition lerpVectors (v1 v2 : Vector3) (alpha : R) : Vector3 :=
  mkV3 (vx v1 + (vx v2 - vx v1) * alpha)
       (vy v1 + (vy v2 - vy v1) * alpha)
       (vz v1 + (vz v2 - vz v1) * alpha).

(** [normalize()]: [divideScalar(this.length() || 1)]. *)
Definition v3_normalize (v : Vector3) : Vector3 :=
  let l := v3_length v in
  divideScalar v (if Req_dec_T l 0 then 1 else l).

Record Quaternion : Type := mkQ { qx : R; qy : R; qz : R; qw : R }.

Definition q_identity : Quaternion := mkQ 0 0 0 1.

Definition q_length (q : Quaternion) : R :=
  sqrt (qx q * qx q + qy q * qy q + qz q * qz q + qw q * qw q).

(** [Quaternion.normalize()]: the identity when the length is zero. *)
Definition q_normalize (q : Quaternion) : Quaternion :=
  let l := q_length q in
  if Req_dec_T l 0 then q_identity
  else let k := 1 / l in mkQ (qx q * k) (qy q * k) (qz q * k) (qw q * k).

(** [Number.EPSILON] *)
Definition Number_EPSILON : R := / (2 ^ 52).

(** [1e-8] *)
Definition EPSILON_1e8 : R := / (10 ^ 8).

(** [setFromUnitVectors(vFrom, vTo)] of three.js, which the application
    imports without fixing a release.  [threshold] is the bound of the
    test [r < threshold] for opposite vectors, the one place where the
    releases differ: [Number.EPSILON] in the older ones, [1e-8] in the
    newer ones. *)
Definition setFromUnitVectors (threshold : R) (vFrom vTo : Vector3) : Quaternion :=
  let r := v3_dot vFrom vTo + 1 in
  q_normalize
    (if Rlt_dec r threshold then
       if Rlt_dec (Rabs (vz vFrom)) (Rabs (vx vFrom))
       then mkQ (- vy vFrom) (vx vFrom) 0 0
       else mkQ 0 (- vz vFrom) (vy vFrom) 0
     else
       mkQ (vy vFrom * vz vTo - vz vFrom * vy vTo)
           (vz vFrom * vx vTo - vx vFrom * vz vTo)
           (vx vFrom * vy vTo - vy vFrom * vx vTo)
           r).

(** [setFromAxisAngle(axis, angle)] *)
Definition setFromAxisAngle (axis : Vector3) (angle : R) : Quaternion :=
  let halfAngle := angle / 2 in
  let s := sin halfAngle in
  mkQ (vx axis * s) (vy axis * s) (vz axis * s) (cos halfAngle).

(** [a.multiply(b)] *)
Definition q_multiply (a b : Quaternion) : Quaternion :=
  mkQ (qx a * qw b + qw a * qx b + qy a * qz b - qz a * qy b)
      (qy a * qw b + qw a * qy b + qz a * qx b - qx a * qz b)
      (qz a * qw b + qw a * qz b + qx a * qy b - qy a * qx b)
      (qw a * qw b - qx a * qx b - qy a * qy b - qz a * qz b).

(* ================================================================== *)
(** * Math.random, threaded as an explicit stream of draws *)
(* ================================================================== *)

(** The sequence of values the next calls of [Math.random()] return. *)
Definition RandomSource : Type := nat -> R.

(** Computations that draw from [Math.random]. *)
Definition Rand (A : Type) : Type := RandomSource -> A * RandomSource.

Definition rand_ret {A} (a : A) : Rand A := fun g => (a, g).

Definition rand_bind {A B} (m : Rand A) (k : A -> Rand B) : Rand B :=
  fun g => let (a, g') := m g in k a g'.

Notation "'let*' x ':=' m 'in' k" := (rand_bind m (fun x => k))
  (at level 10, x name, m at level 100, k at level 200).

(** [Math.random()] *)
Definition Math_random : Rand R := fun g => (g 0%nat, fun n => g (S n)).

(** Every draw lies in the half-open unit interval. *)
Definition unit_draws (g : RandomSource) : Prop := forall n, 0 <= g n < 1.

(** Run [f] over a list from left to right ([Array.prototype.forEach]
    with a body that draws). *)
Fixpoint rand_mapM {A B} (f : A -> Rand B) (l : list A) : Rand (list B) :=
  match l with
  | [] => rand_ret []
  | a :: l' =>
      let* b := f a in
      let* bs := rand_mapM f l' in
      rand_ret (b :: bs)
  end.

(* ================================================================== *)
(** * Geometry primitives *)
(* ================================================================== *)

(** [Math.cbrt] *)
Definition Math_cbrt (x : R) : R :=
  if Rlt_dec 0 x then Rpower x (/ 3)
  else if Rlt_dec x 0 then - Rpower (- x) (/ 3)
  else 0.

(** [getRandomPointInSphere(radius)] *)
Definition getRandomPointInSphere (radius : R) : Rand Vector3 :=
  let* u := Math_random in
  let* v := Math_random in
  let theta := 2 * PI * u in
  let phi := acos (2 * v - 1) in
  let* w := Math_random in
  let r := radius * Math_cbrt w in
  rand_ret (mkV3 (r * sin phi * cos theta)
                 (r * sin phi * sin theta)
                 (r * cos phi)).

(** The golden angle, [Math.PI * (3 - Math.sqrt(5))]. *)
Definition golden_angle : R := PI * (3 - sqrt 5).

(** The body of the loop of [getSpherePoints] at index [i]. *)
Definition spherePoint (samples : Z) (radius : R) (i : nat) : Vector3 :=
  let y := 1 - (INR i / (IZR samples - 1)) * 2 in
  let r := sqrt (1 - y * y) in
  let theta := golden_angle * INR i in
  let x := cos theta * r in
  let z := sin theta * r in
  multiplyScalar (mkV3 x y z) radius.

(** [getSpherePoints(samples, radius)] *)
Definition getSpherePoints (samples : Z) (radius : R) : list Vector3 :=
  if (samples <=? 0)%Z then []
  else if (samples =? 1)%Z then [mkV3 0 radius 0]
  else map (spherePoint samples radius) (seq 0 (Z.to_nat samples)).

(* ================================================================== *)
(** * Strings: the JavaScript string operations the source uses *)
(* ================================================================== *)

Definition is_digit (c : ascii) : bool :=
  let n := nat_of_ascii c in (48 <=? n)%nat && (n <=? 57)%nat.

Definition is_alpha (c : ascii) : bool :=
  let n := nat_of_ascii c in
  ((65 <=? n)%nat && (n <=? 90)%nat) || ((97 <=? n)%nat && (n <=? 122)%nat).

(** The ASCII part of the regular-expression class [\s]. *)
Definition is_space (c : ascii) : bool :=
  let n := nat_of_ascii c in ((9 <=? n)%nat && (n <=? 13)%nat) || (n =? 32)%nat.

Definition digit_value (c : ascii) : Z := Z.of_nat (nat_of_ascii c) - 48.

(** The longest prefix whose characters satisfy [p], and the rest. *)
Fixpoint span (p : ascii -> bool) (s : list ascii) : list ascii * list ascii :=
  match s with
  | c :: s' =>
      if p c then let (a, b) := span p s' in (c :: a, b) else ([], s)
  | [] => ([], [])
  end.

(** The value of a run of decimal digits. *)
Definition decimal_value (ds : list ascii) : Z :=
  fold_left (fun acc c => (acc * 10 + digit_value c)%Z) ds 0%Z.

(** [parseInt(s, 10)]: leading white space, an optional sign, then the
    longest run of digits; [None] stands for [NaN]. *)
Definition parseInt (s : list ascii) : option Z :=
  let s1 := snd (span is_space s) in
  let '(neg, s2) :=
    match s1 with
    | "-"%char :: r => (true, r)
    | "+"%char :: r => (false, r)
    | _ => (false, s1)
    end in
  match fst (span is_digit s2) with
  | [] => None
  | ds => Some (if neg then (- decimal_value ds)%Z else decimal_value ds)
  end.

(** [s.charAt(i)] as a list of at most one character. *)
Definition charAt (s : string) (i : nat) : list ascii :=
  match String.get i s with Some c => [c] | None => [] end.

(* ================================================================== *)
(** * Scene-graph objects *)
(* ================================================================== *)

Inductive Geometry : Type :=
| SphereGeometry (radius : R) (widthSegments heightSegments : nat)
| TorusGeometry (radius tube : R) (radialSegments tubularSegments : nat)
| CylinderGeometry (radiusTop radiusBottom height : R) (radialSegments : nat).

Record Material : Type := mkMaterial { mat_color : Z; mat_opacity : R }.

(** A mesh or a group, with its local position and Euler rotation. *)
#[warnings="-register-all"]
Inductive Object3D : Type :=
| Mesh (geometry : Geometry) (material : Material) (position rotation : Vector3)
| Group (children : list Object3D) (position rotation : Vector3).

Definition set_position (o : Object3D) (p : Vector3) : Object3D :=
  match o with
  | Mesh g m _ r => Mesh g m p r
  | Group c _ r => Group c p r
  end.

Definition object_children (o : Object3D) : list Object3D :=
  match o with
  | Mesh _ _ _ _ => []
  | Group c _ _ => c
  end.

(** The point [v] of an object's local frame in the frame of its parent:
    [Matrix4.compose(position, quaternion, scale)] applied to [v]. *)
Definition compose_apply (position : Vector3) (q : Quaternion) (scale v : Vector3)
  : Vector3 :=
  let x2 := qx q + qx q in
  let y2 := qy q + qy q in
  let z2 := qz q + qz q in
  let xx := qx q * x2 in let xy := qx q * y2 in let xz := qx q * z2 in
  let yy := qy q * y2 in let yz := qy q * z2 in let zz := qz q * z2 in
  let wx := qw q * x2 in let wy := qw q * y2 in let wz := qw q * z2 in
  mkV3 ((1 - (yy + zz)) * vx scale * vx v + (xy - wz) * vy scale * vy v
        + (xz + wy) * vz scale * vz v + vx position)
       ((xy + wz) * vx scale * vx v + (1 - (xx + zz)) * vy scale * vy v
        + (yz - wx) * vz scale * vz v + vy position)
       ((xz - wy) * vx scale * vx v + (yz + wx) * vy scale * vy v
        + (1 - (xx + yy)) * vz scale * vz v + vz position).

Definition v3_one : Vector3 := mkV3 1 1 1.

(** The rotation an object of orientation [q] applies to a direction. *)
Definition rotate_by (q : Quaternion) (v : Vector3) : Vector3 :=
  compose_apply v3_zero q v3_one v.

(* ================================================================== *)
(** * Constants of AtomViewer.tsx *)
(* ================================================================== *)

Definition ELECTRON_SIZE : R := 8 / 100.
Definition NUCLEUS_SCALE_FACTOR : R := 3 / 10.
Definition SHELL_BASE_RADIUS : R := 25 / 10.
Definition SHELL_SPACING : R := 18 / 10.
Definition BOND_RADIUS : R := 15 / 100.
Definition DOUBLE_BOND_SPACING : R := 35 / 100.
Definition TRIPLE_BOND_SPACING : R := 35 / 100.
Definition ORBITAL_OPACITY : R := 35 / 100.
Definition ORBITAL_COLORS_s : Z := 0x6495ED.
Definition ORBITAL_COLORS_p : Z := 0xFFD700.
Definition ORBITAL_COLORS_d : Z := 0xBA55D3.
Definition ORBITAL_COLORS_f : Z := 0x3CB371.
Definition QUANTUM_TRAIL_LENGTH : nat := 15.
Definition ELECTRON_TARGET_THRESHOLD : R := 5 / 10.
Definition ELECTRON_MOVE_SPEED : R := 8 / 100.

(* ================================================================== *)
(** * Input data (types.ts) *)
(* ================================================================== *)

(** The fields of [Atom] the viewer reads. *)
Record Atom : Type := mkAtom {
  symbol : string;
  atomicMass : R;
  shells : list Z;
  electronConfigurationSemantic : string;
  cpkHex : option string
}.

Record Bond : Type := mkBond { pair : Z * Z; type : Z }.

Inductive VisualizationMode : Type := bohr | quantum.

(* ================================================================== *)
(** * Random points in an orbital *)
(* ================================================================== *)

(** [parseInt(orbitalKey.charAt(0), 10)] as a number; [0] stands for the
    [NaN] of a key that does not start with a digit. *)
Definition principal_of (orbitalKey : string) : R :=
  match parseInt (charAt orbitalKey 0) with
  | Some n => IZR n
  | None => 0
  end.

Definition type_is (orbitalKey : string) (t : ascii) : bool :=
  match charAt orbitalKey 1 with
  | [c] => Ascii.eqb c t
  | _ => false
  end.

(** [getRandomPointInOrbital(orbitalKey, scale)] *)
Definition getRandomPointInOrbital (orbitalKey : string) (scale : R) : Rand Vector3 :=
  let principal := principal_of orbitalKey in
  let baseRadius := 9 / 10 * principal * scale in
  if type_is orbitalKey "s" then getRandomPointInSphere baseRadius
  else if type_is orbitalKey "p" then
    let lobeSize := baseRadius * (7 / 10) in
    let* a := Math_random in
    let axisIndex := Zfloor (a * 3) in
    let* d := Math_random in
    let direction := if Rlt_dec d (5 / 10) then 1 else -1 in
    let* pointInLobe := getRandomPointInSphere lobeSize in
    rand_ret
      (if (axisIndex =? 0)%Z then
         mkV3 (vx pointInLobe + direction * baseRadius) (vy pointInLobe) (vz pointInLobe)
       else if (axisIndex =? 1)%Z then
         mkV3 (vx pointInLobe) (vy pointInLobe + direction * baseRadius) (vz pointInLobe)
       else
         mkV3 (vx pointInLobe) (vy pointInLobe) (vz pointInLobe + direction * baseRadius))
  else if type_is orbitalKey "d" then getRandomPointInSphere (baseRadius * (15 / 10))
  else if type_is orbitalKey "f" then getRandomPointInSphere (baseRadius * (18 / 10))
  else rand_ret v3_zero.

(* ================================================================== *)
(** * The Quantum (orbital) atom model *)
(* ================================================================== *)

(** A JavaScript object used as a map with string keys: the keys in
    insertion order.  [obj_set] is the assignment [config[k] = v]. *)
Definition JsObject (V : Type) : Type := list (string * V).

Fixpoint obj_set {V} (o : JsObject V) (k : string) (v : V) : JsObject V :=
  match o with
  | [] => [(k, v)]
  | (k', v') :: o' =>
      if String.eqb k' k then (k, v) :: o' else (k', v') :: obj_set o' k v
  end.

Fixpoint obj_get {V} (o : JsObject V) (k : string) : option V :=
  match o with
  | [] => None
  | (k', v') :: o' => if String.eqb k' k then Some v' else obj_get o' k
  end.

(** [s.replace(/\[[A-Za-z]+\]\s*/, '')]: the first bracketed run of
    letters, with the white space after it, is removed. *)
Fixpoint strip_core (s : list ascii) : list ascii :=
  match s with
  | [] => []
  | c :: rest =>
      if Ascii.eqb c "["%char then
        match span is_alpha rest with
        | (_ :: _, "]"%char :: after) => snd (span is_space after)
        | _ => c :: strip_core rest
        end
      else c :: strip_core rest
  end.

Definition is_spdf (c : ascii) : bool :=
  Ascii.eqb c "s" || Ascii.eqb c "p" || Ascii.eqb c "d" || Ascii.eqb c "f".

(** The loop [while ((match = orbitalRegex.exec(s)) !== null)] for
    [/(\d+[spdf])(\d+)/g]: at each start position the match, if any, is a
    maximal run of digits, one of [s p d f], and a maximal, non-empty run
    of digits; the search resumes after the match.  [fuel] bounds the
    number of start positions and is the length of the string. *)
Fixpoint scan_orbitals (fuel : nat) (s : list ascii) (config : JsObject Z)
  : JsObject Z :=
  match fuel with
  | O => config
  | S fuel' =>
      match s with
      | [] => config
      | c :: rest =>
          match span is_digit s with
          | ((_ :: _) as ds, t :: after) =>
              if is_spdf t then
                match span is_digit after with
                | ((_ :: _) as cnt, after') =>
                    scan_orbitals fuel' after'
                      (obj_set config (string_of_list_ascii (ds ++ [t]))
                               (decimal_value cnt))
                | _ => scan_orbitals fuel' rest config
                end
              else scan_orbitals fuel' rest config
          | _ => scan_orbitals fuel' rest config
          end
      end
  end.

(** [parseElectronConfiguration(semanticConfig)] *)
Definition parseElectronConfiguration (semanticConfig : string) : JsObject Z :=
  let justOrbitals := strip_core (list_ascii_of_string semanticConfig) in
  scan_orbitals (length justOrbitals) justOrbitals [].

Definition orbitalMaterial (color : Z) : Material := mkMaterial color ORBITAL_OPACITY.

(** The objects [createOrbitalShapes] adds to the group for one orbital
    key of the configuration (the body of its [for ... in] loop). *)
Definition orbital_shapes_for (orbitalKey : string) (count : Z) (scale : R)
  : list Object3D :=
  if (count =? 0)%Z then []            (* [if (!config[orbitalKey]) continue] *)
  else
    let principal := principal_of orbitalKey in
    let baseRadius := 9 / 10 * principal * scale in
    if type_is orbitalKey "s" then
      [Mesh (SphereGeometry baseRadius 32 32) (orbitalMaterial ORBITAL_COLORS_s)
            v3_zero v3_zero]
    else if type_is orbitalKey "p" then
      let lobeSize := baseRadius * (7 / 10) in
      let lobeGeometry := SphereGeometry lobeSize 16 16 in
      let material := orbitalMaterial ORBITAL_COLORS_p in
      let createDumbbell (axis : R -> Vector3) :=
        Group [Mesh lobeGeometry material (axis baseRadius) v3_zero;
               Mesh lobeGeometry material (axis (- baseRadius)) v3_zero]
              v3_zero v3_zero in
      [createDumbbell (fun a => mkV3 a 0 0);
       createDumbbell (fun a => mkV3 0 a 0);
       createDumbbell (fun a => mkV3 0 0 a)]
    else if type_is orbitalKey "d" then
      let lobeSize := baseRadius * (5 / 10) in
      let lobeGeometry := SphereGeometry lobeSize 16 16 in
      let material := orbitalMaterial ORBITAL_COLORS_d in
      let dz2 :=
        Group [Mesh lobeGeometry material (mkV3 0 0 baseRadius) v3_zero;
               Mesh lobeGeometry material (mkV3 0 0 (- baseRadius)) v3_zero;
               Mesh (TorusGeometry (baseRadius * (9 / 10)) (lobeSize * (4 / 10)) 8 50)
                    material v3_zero (mkV3 (PI / 2) 0 0)]
              v3_zero (mkV3 0 (5 / 10) 0) in
      let clover :=
        Group [Mesh lobeGeometry material (mkV3 baseRadius baseRadius 0) v3_zero;
               Mesh lobeGeometry material (mkV3 (- baseRadius) (- baseRadius) 0) v3_zero;
               Mesh lobeGeometry material (mkV3 (- baseRadius) baseRadius 0) v3_zero;
               Mesh lobeGeometry material (mkV3 baseRadius (- baseRadius) 0) v3_zero]
              v3_zero (mkV3 0 0 (7 / 10)) in
      [dz2; clover]
    else if type_is orbitalKey "f" then
      [Mesh (SphereGeometry (baseRadius * (18 / 10)) 32 32)
            (orbitalMaterial ORBITAL_COLORS_f) v3_zero v3_zero]
    else [].

(** [createOrbitalShapes(config, scale)] *)
Definition createOrbitalShapes (config : JsObject Z) (scale : R) : Object3D :=
  Group (flat_map (fun kv => orbital_shapes_for (fst kv) (snd kv) scale) config)
        v3_zero v3_zero.

(** The nucleus mesh: a unit sphere scaled by the atom scale. *)
Record Nucleus : Type := mkNucleus {
  nucleus_position : Vector3;
  nucleus_scale : R;
  nucleus_color : string;
  userData : option (string * nat)     (* [{ symbol, atomIndex }] *)
}.

(** [`#${atom.cpkHex || fallback}`] *)
Definition css_color (atom : Atom) (fallback : string) : string :=
  String.append "#"
    (match cpkHex atom with
     | Some h => if String.eqb h EmptyString then fallback else h
     | None => fallback
     end).

Definition atomScale_of (atom : Atom) : R :=
  Rmax (5 / 10) (Math_cbrt (atomicMass atom) * NUCLEUS_SCALE_FACTOR).

Definition new_nucleus (atom : Atom) (position : Vector3) : Nucleus :=
  mkNucleus position (atomScale_of atom) (css_color atom "cccccc") None.

Record ElectronAnimationState : Type := mkAnim {
  orbitalKey : string;
  currentPosition : Vector3;
  targetPosition : Vector3
}.

(** A [THREE.Points] object: the position attribute (one [Vector3] per
    item), the brightness factor of each item's colour, the material
    opacity, the object's position and, for an electron cloud,
    [geometry.userData.electronAnimations]. *)
Record Points : Type := mkPoints {
  positions : list Vector3;
  brightness : list R;
  points_color : string;
  points_size : R;
  points_opacity : R;
  points_position : Vector3;
  electronAnimations : list ElectronAnimationState
}.

Record QuantumAnimatedObject : Type := mkQuantum {
  q_nucleus : Nucleus;
  orbitals : Object3D;
  electronCloud : option Points
}.

(** The brightness of the slots of one electron's trail,
    [1.0 - i / trailLength] for [i < trailLength]. *)
Definition trail_brightness (trailLength : nat) : list R :=
  map (fun i => 1 - INR i / INR trailLength) (seq 0 trailLength).

(** [createQuantumAtomModel(atom, position)] *)
Definition createQuantumAtomModel (atom : Atom) (position : Vector3)
  : Rand QuantumAnimatedObject :=
  let atomScale := atomScale_of atom in
  let nucleus := new_nucleus atom position in
  let valenceConfig := parseElectronConfiguration (electronConfigurationSemantic atom) in
  let orbitals := createOrbitalShapes valenceConfig atomScale in
  let valenceElectronsList :=
    flat_map (fun kv => replicate (Z.to_nat (snd kv)) (fst kv)) valenceConfig in
  match valenceElectronsList with
  | [] => rand_ret (mkQuantum nucleus orbitals None)
  | _ =>
      let* anims :=
        rand_mapM (fun key =>
                     let* startPos := getRandomPointInOrbital key atomScale in
                     let* target := getRandomPointInOrbital key atomScale in
                     rand_ret (mkAnim key startPos target))
                  valenceElectronsList in
      let cloud :=
        mkPoints
          (flat_map (fun a => replicate QUANTUM_TRAIL_LENGTH (currentPosition a)) anims)
          (flat_map (fun _ => trail_brightness QUANTUM_TRAIL_LENGTH) anims)
          (css_color atom "00ffff") (ELECTRON_SIZE * 2) 1 v3_zero anims in
      rand_ret (mkQuantum nucleus orbitals (Some cloud))
  end.

(* ================================================================== *)
(** * The Classical (Bohr) atom model *)
(* ================================================================== *)

(** A shell ring: a torus of the shell radius. *)
Record ShellPath : Type := mkShellPath {
  shell_radius : R;
  shell_tube : R;
  shell_position : Vector3;
  shell_opacity : R
}.

(** An electron pivot, a bare [Object3D]. *)
Record Pivot : Type := mkPivot {
  pivot_position : Vector3;
  pivot_quaternion : Quaternion
}.

(** [electrons !! i] is the local position of the electron mesh whose
    parent is [electronPivots !! i]: the two arrays of the source are
    filled together, and the shared index is the parent link. *)
Record AnimatedObject : Type := mkAnimated {
  nucleus : Nucleus;
  shellPaths : list ShellPath;
  electronPivots : list Pivot;
  electrons : list Vector3;
  electronTrails : option Points
}.

Definition new_pivot : Pivot := mkPivot v3_zero q_identity.

(** The electrons of one shell: the loop [for (i = 0; i < numElectrons;
    i++)] with [electron.position.copy(points[i])], which throws when
    [points[i]] is undefined ([None]). *)
Definition shell_electrons (numElectrons : Z) (points : list Vector3)
  : option (list Vector3) :=
  mapM (fun i => points !! i) (seq 0 (Z.to_nat numElectrons)).

(** [shellRadius] of the shell of index [shellIndex]. *)
Definition shellRadius_at (atomScale : R) (shellIndex : nat) : R :=
  (SHELL_BASE_RADIUS + INR shellIndex * SHELL_SPACING) * atomScale.

(** One iteration of [atom.shells.forEach]: the ring of the shell and the
    electrons placed on it. *)
Definition build_shell (atomScale : R) (shellIndex : nat) (numElectrons : Z)
  : option (ShellPath * list Vector3) :=
  let shellRadius := shellRadius_at atomScale shellIndex in
  let shellPath := mkShellPath shellRadius (2 / 100 * atomScale) v3_zero (3 / 10) in
  let points := getSpherePoints numElectrons shellRadius in
  match shell_electrons numElectrons points with
  | Some es => Some (shellPath, es)
  | None => None
  end.

(** The world position of an electron at [local] in a pivot that is a
    child of an object at [parent_position] with uniform scale
    [parent_scale] and no rotation. *)
Definition world_position_under (parent_position : Vector3) (parent_scale : R)
           (p : Pivot) (local : Vector3) : Vector3 :=
  compose_apply parent_position q_identity
                (mkV3 parent_scale parent_scale parent_scale)
                (compose_apply (pivot_position p) (pivot_quaternion p) v3_one local).

(** [electron.getWorldPosition] for a pivot attached to the model group,
    which, like the scene, is never moved. *)
Definition getWorldPosition (p : Pivot) (local : Vector3) : Vector3 :=
  compose_apply (pivot_position p) (pivot_quaternion p) v3_one local.

(** [createAtomModel(atom, position, trailLength, trailOpacity)];
    [None] when the construction throws. *)
Definition createAtomModel (atom : Atom) (position : Vector3)
           (trailLength : Z) (trailOpacity : R) : option AnimatedObject :=
  let atomScale := atomScale_of atom in
  let nucleus := new_nucleus atom position in
  match mapM (fun '(shellIndex, numElectrons) =>
                build_shell atomScale shellIndex numElectrons)
             (imap (fun i n => (i, n)) (shells atom)) with
  | None => None
  | Some built =>
      let shellPaths := map fst built in
      let electrons := flat_map snd built in
      let electronPivots := map (fun _ => new_pivot) electrons in
      let electronTrails :=
        if (0 <? length electrons)%nat && (0 <? trailLength)%Z then
          let len := Z.to_nat trailLength in
          Some (mkPoints
                  (flat_map
                     (fun e => replicate len
                                 (world_position_under position atomScale new_pivot e))
                     electrons)
                  (flat_map (fun _ => trail_brightness len) electrons)
                  (css_color atom "00ffff") (ELECTRON_SIZE * (25 / 10))
                  trailOpacity v3_zero [])
        else None in
      Some (mkAnimated nucleus shellPaths electronPivots electrons electronTrails)
  end.

(* ================================================================== *)
(** * Bond models and the scene rebuild *)
(* ================================================================== *)

(** One cylinder of a bond group: its offset [position.x] and the
    opacity of its material. *)
Record BondMesh : Type := mkBondMesh { bond_offset : R; bond_opacity : R }.

Record BondGroup : Type := mkBondGroup {
  bg_pair : Z * Z;                      (* [userData.pair] *)
  bg_children : list BondMesh;
  bg_position : Vector3;
  bg_quaternion : Quaternion;
  bg_scale : Vector3;
  bg_visible : bool
}.

(** The cylinders of a bond of the given order; the material starts
    with opacity [0]. *)
Definition bond_children (type : Z) : list BondMesh :=
  if (type =? 3)%Z then
    [mkBondMesh (- TRIPLE_BOND_SPACING) 0; mkBondMesh 0 0;
     mkBondMesh TRIPLE_BOND_SPACING 0]
  else if (type =? 2)%Z then
    [mkBondMesh (- DOUBLE_BOND_SPACING / 2) 0; mkBondMesh (DOUBLE_BOND_SPACING / 2) 0]
  else [mkBondMesh 0 0].

Definition new_bond_group (bondInfo : Bond) : BondGroup :=
  mkBondGroup (pair bondInfo) (bond_children (type bondInfo))
              v3_zero q_identity v3_one false.

(** The guard of the bond loop:
    [pair[0] < atoms.length && pair[1] < atoms.length]. *)
Definition bond_in_range (natoms : nat) (bondInfo : Bond) : bool :=
  (fst (pair bondInfo) <? Z.of_nat natoms)%Z
  && (snd (pair bondInfo) <? Z.of_nat natoms)%Z.

(** The bond groups a rebuild creates. *)
Definition build_bonds (natoms : nat) (bondingPairs : list Bond) : list BondGroup :=
  if (0 <? length bondingPairs)%nat && (1 <? natoms)%nat then
    map new_bond_group (List.filter (bond_in_range natoms) bondingPairs)
  else [].

(** What the viewer keeps in [animatedObjectsRef], [quantumObjectsRef]
    and [bondsRef]. *)
Record Scene : Type := mkScene {
  animatedObjects : list AnimatedObject;
  quantumObjects : list QuantumAnimatedObject;
  bonds : list BondGroup
}.

Definition empty_scene : Scene := mkScene [] [] [].

Definition set_userData (n : Nucleus) (sym : string) (atomIndex : nat) : Nucleus :=
  mkNucleus (nucleus_position n) (nucleus_scale n) (nucleus_color n)
            (Some (sym, atomIndex)).

(** [atomPositions[index] || new THREE.Vector3()] *)
Definition position_of (atomPositions : list Vector3) (index : nat) : Vector3 :=
  default v3_zero (atomPositions !! index).

(** The body of the [setTimeout] callback of the rebuild effect: the old
    models are dropped, one model is built per atom in the variant of
    the mode, then the bond groups.  [None] when a builder throws. *)
Definition rebuild (atoms : list Atom) (atomPositions : list Vector3)
           (bondingPairs : list Bond) (visualizationMode : VisualizationMode)
           (trailLength : Z) (trailOpacity : R) : Rand (option Scene) :=
  let bondGroups := build_bonds (length atoms) bondingPairs in
  match visualizationMode with
  | bohr =>
      rand_ret
        (match mapM (fun '(index, atom) =>
                       match createAtomModel atom (position_of atomPositions index)
                                             trailLength trailOpacity with
                       | Some o =>
                           Some (mkAnimated
                                   (set_userData (nucleus o) (symbol atom) index)
                                   (shellPaths o) (electronPivots o) (electrons o)
                                   (electronTrails o))
                       | None => None
                       end)
                    (imap (fun i a => (i, a)) atoms) with
         | Some objs => Some (mkScene objs [] bondGroups)
         | None => None
         end)
  | quantum =>
      let* objs :=
        rand_mapM (fun '(index, atom) =>
                     let* o := createQuantumAtomModel atom
                                 (position_of atomPositions index) in
                     rand_ret (mkQuantum
                                 (set_userData (q_nucleus o) (symbol atom) index)
                                 (orbitals o) (electronCloud o)))
                  (imap (fun i a => (i, a)) atoms) in
      rand_ret (Some (mkScene [] objs bondGroups))
  end.

(* ================================================================== *)
(** * The animation tick *)
(* ================================================================== *)

(** [animationStateRef.current] *)
Record AnimationState : Type := mkAnimationState {
  speed : R;
  state_bondingProgress : R
}.

(** [array[i]] for a number [i] that holds an integer: [undefined]
    ([None]) below zero and from the length on. *)
Definition js_index {A} (l : list A) (i : Z) : option A :=
  if (i <? 0)%Z then None else l !! Z.to_nat i.

(** [positions.getX/Y/Z(i)] and [positions.setXYZ(i, x, y, z)] on a
    buffer attribute; a write past the end of the typed array is
    dropped. *)
Definition getXYZ (positions : list Vector3) (i : nat) : Vector3 :=
  default v3_zero (positions !! i).

Definition setXYZ (positions : list Vector3) (i : nat) (v : Vector3) : list Vector3 :=
  <[i := v]> positions.

(** The loop [for (let i = trailLen - 1; i > 0; i--)] that moves every
    sample of one electron one slot toward the tail. *)
Definition shift_trail (positions : list Vector3) (trailStartIndex trailLen : nat)
  : list Vector3 :=
  fold_left (fun ps i => setXYZ ps (trailStartIndex + i)
                                (getXYZ ps (trailStartIndex + i - 1)))
            (rev (seq 1 (trailLen - 1))) positions.

(** The shift followed by the write of the head sample. *)
Definition push_sample (positions : list Vector3) (electronIndex trailLen : nat)
           (head : Vector3) : list Vector3 :=
  let trailStartIndex := (electronIndex * trailLen)%nat in
  setXYZ (shift_trail positions trailStartIndex trailLen) trailStartIndex head.

Definition set_positions (pts : Points) (ps : list Vector3) : Points :=
  mkPoints ps (brightness pts) (points_color pts) (points_size pts)
           (points_opacity pts) (points_position pts) (electronAnimations pts).

(** *** Classical mode *)

(** The nucleus positions of the bond partners of atom [atomIndex] that
    have a built model, one entry per bond of [bondingPairs]. *)
Definition bondPartnersPositions (bondingPairs : list Bond)
           (objs : list AnimatedObject) (atomIndex : nat) : list Vector3 :=
  flat_map
    (fun bond =>
       let partnerIndex :=
         if (fst (pair bond) =? Z.of_nat atomIndex)%Z then snd (pair bond)
         else if (snd (pair bond) =? Z.of_nat atomIndex)%Z then fst (pair bond)
         else (-1)%Z in
       if negb (partnerIndex =? -1)%Z then
         match js_index objs partnerIndex with
         | Some o => [nucleus_position (nucleus o)]
         | None => []
         end
       else [])
    bondingPairs.

(** [bondCentroid]: the sum of the positions divided by their number. *)
Definition centroid (ps : list Vector3) : Vector3 :=
  divideScalar (fold_left v3_add ps v3_zero) (INR (length ps)).

(** [targetPosition] of atom [atomIndex]. *)
Definition bonding_target (bondingProgress : R) (bondingPairs : list Bond)
           (objs : list AnimatedObject) (atomIndex : nat) (obj : AnimatedObject)
  : Vector3 :=
  let own := nucleus_position (nucleus obj) in
  if Rlt_dec 0 bondingProgress then
    match bondPartnersPositions bondingPairs objs atomIndex with
    | [] => own
    | ps => centroid ps
    end
  else own.

Definition rotateY (p : Pivot) (angle : R) : Pivot :=
  mkPivot (pivot_position p)
          (q_multiply (pivot_quaternion p) (setFromAxisAngle (mkV3 0 1 0) angle)).

Definition rotateX (p : Pivot) (angle : R) : Pivot :=
  mkPivot (pivot_position p)
          (q_multiply (pivot_quaternion p) (setFromAxisAngle (mkV3 1 0 0) angle)).

(** The body of [obj.electronPivots.forEach((pivot, i) => ...)]. *)
Definition update_pivot (delta spd bondingProgress : R) (own target : Vector3)
           (i : nat) (pivot : Pivot) : Pivot :=
  let orbitalCenter := lerpVectors own target bondingProgress in
  let speedFactor := spd * (2185 / 100) / (25 / 10) in
  let rotationX := delta * speedFactor * (5 / 10 + INR (i mod 5) * (1 / 10)) in
  let rotationY := delta * speedFactor * (5 / 10 + INR (i mod 7) * (1 / 10)) in
  rotateX (rotateY (mkPivot orbitalCenter (pivot_quaternion pivot)) rotationY) rotationX.

(** The first loop over the atoms of the Classical branch: rings follow
    the nucleus and fade, pivots move to the orbital centre and turn.
    [objs] is the whole list, read for the nuclei of the partners, which
    the loop does not move. *)
Definition bohr_update_object (delta spd bondingProgress : R)
           (bondingPairs : list Bond) (objs : list AnimatedObject)
           (atomIndex : nat) (obj : AnimatedObject) : AnimatedObject :=
  let own := nucleus_position (nucleus obj) in
  let target := bonding_target bondingProgress bondingPairs objs atomIndex obj in
  mkAnimated (nucleus obj)
    (map (fun sh => mkShellPath (shell_radius sh) (shell_tube sh) own
                                (3 / 10 * (1 - bondingProgress)))
         (shellPaths obj))
    (imap (update_pivot delta spd bondingProgress own target) (electronPivots obj))
    (electrons obj) (electronTrails obj).

(** The trail of every electron of one buffer, electron by electron:
    [heads] are the samples written at the head, in electron order. *)
Fixpoint push_samples (positions : list Vector3) (electronIndex trailLen : nat)
         (heads : list Vector3) : list Vector3 :=
  match heads with
  | [] => positions
  | h :: heads' =>
      push_samples (push_sample positions electronIndex trailLen h)
                   (S electronIndex) trailLen heads'
  end.

(** The world positions of the electrons of an object: electron [i]
    under pivot [i]. *)
Definition electron_world_positions (obj : AnimatedObject) : list Vector3 :=
  imap (fun i e => getWorldPosition (default new_pivot (electronPivots obj !! i)) e)
       (electrons obj).

(** The second loop of the Classical branch: the trail update, which
    reads [trailLen = positions.count / obj.electrons.length]; the count
    is a multiple of the number of electrons for every buffer that
    [createAtomModel] allocates. *)
Definition bohr_update_trails (obj : AnimatedObject) : AnimatedObject :=
  match electronTrails obj with
  | None => obj
  | Some trails =>
      if (length (electrons obj) =? 0)%nat then obj
      else
        let trailLen := (length (positions trails) / length (electrons obj))%nat in
        mkAnimated (nucleus obj) (shellPaths obj) (electronPivots obj) (electrons obj)
          (Some (set_positions trails
                   (push_samples (positions trails) 0 trailLen
                                 (electron_world_positions obj))))
  end.

(** *** Quantum mode *)

(** The body of [animations.forEach((anim, electronIndex) => ...)],
    threaded over the electrons of one cloud: the random walk of each
    electron and the update of its trail. *)
Fixpoint quantum_update_electrons (atomScale : R)
         (animations : list ElectronAnimationState) (electronIndex : nat)
         (ps : list Vector3)
  : Rand (list ElectronAnimationState * list Vector3) :=
  match animations with
  | [] => rand_ret ([], ps)
  | anim :: rest =>
      let* target :=
        if Rlt_dec (distanceTo (currentPosition anim) (targetPosition anim))
                   ELECTRON_TARGET_THRESHOLD
        then getRandomPointInOrbital (orbitalKey anim) atomScale
        else rand_ret (targetPosition anim) in
      let current := lerp (currentPosition anim) target ELECTRON_MOVE_SPEED in
      let ps' := push_sample ps electronIndex QUANTUM_TRAIL_LENGTH current in
      let* r := quantum_update_electrons atomScale rest (S electronIndex) ps' in
      rand_ret (mkAnim (orbitalKey anim) current target :: fst r, snd r)
  end.

(** The body of [quantumObjects.forEach(obj => ...)]. *)
Definition quantum_update_object (obj : QuantumAnimatedObject)
  : Rand QuantumAnimatedObject :=
  let own := nucleus_position (q_nucleus obj) in
  let orbitals' := set_position (orbitals obj) own in
  match electronCloud obj with
  | None => rand_ret (mkQuantum (q_nucleus obj) orbitals' None)
  | Some cloud =>
      let atomScale := nucleus_scale (q_nucleus obj) in
      let* r := quantum_update_electrons atomScale (electronAnimations cloud) 0
                                         (positions cloud) in
      rand_ret
        (mkQuantum (q_nucleus obj) orbitals'
           (Some (mkPoints (snd r) (brightness cloud) (points_color cloud)
                           (points_size cloud) (points_opacity cloud) own (fst r))))
  end.

(** *** Bonds *)

Definition bondUpVector : Vector3 := mkV3 0 1 0.

(** The body of [bonds.forEach(bondGroup => ...)]: the opacity of every
    cylinder first, then, unless an endpoint is missing from [nuclei],
    the pose.  [threshold] is the bound of the installed
    [setFromUnitVectors]. *)
Definition update_bond (threshold : R) (nuclei : list Nucleus) (bondingProgress : R)
           (bondGroup : BondGroup) : BondGroup :=
  let children :=
    map (fun mesh => mkBondMesh (bond_offset mesh) bondingProgress)
        (bg_children bondGroup) in
  match js_index nuclei (fst (bg_pair bondGroup)),
        js_index nuclei (snd (bg_pair bondGroup)) with
  | Some nA, Some nB =>
      let posA := nucleus_position nA in
      let posB := nucleus_position nB in
      let distance := distanceTo posA posB in
      let bondDirection := v3_normalize (subVectors posB posA) in
      mkBondGroup (bg_pair bondGroup) children
                  (lerp posA posB (5 / 10))
                  (setFromUnitVectors threshold bondUpVector bondDirection)
                  (mkV3 1 distance 1)
                  true
  | _, _ =>
      mkBondGroup (bg_pair bondGroup) children (bg_position bondGroup)
                  (bg_quaternion bondGroup) (bg_scale bondGroup)
                  (bg_visible bondGroup)
  end.

Definition scene_nuclei (visualizationMode : VisualizationMode) (scene : Scene)
  : list Nucleus :=
  match visualizationMode with
  | bohr => map nucleus (animatedObjects scene)
  | quantum => map q_nucleus (quantumObjects scene)
  end.

(** One call of [animate]: [visualizationMode] and [bondingPairs] are
    the values the closure captured, [delta] is [clock.getDelta()], the
    animation state and the scene are read from the refs; [threshold] is
    the bound of the installed [setFromUnitVectors]. *)
Definition animate (threshold : R) (visualizationMode : VisualizationMode)
           (bondingPairs : list Bond)
           (delta : R) (st : AnimationState) (scene : Scene) : Rand Scene :=
  let spd := speed st in
  let bondingProgress := state_bondingProgress st in
  let nuclei := scene_nuclei visualizationMode scene in
  if (length nuclei =? 0)%nat then rand_ret scene
  else
    let* scene1 :=
      match visualizationMode with
      | bohr =>
          let objs := animatedObjects scene in
          rand_ret
            (mkScene
               (map bohr_update_trails
                    (imap (bohr_update_object delta spd bondingProgress
                                              bondingPairs objs) objs))
               (quantumObjects scene) (bonds scene))
      | quantum =>
          let* qs := rand_mapM quantum_update_object (quantumObjects scene) in
          rand_ret (mkScene (animatedObjects scene) qs (bonds scene))
      end in
    rand_ret
      (mkScene (animatedObjects scene1) (quantumObjects scene1)
         (if (0 <? length (bonds scene1))%nat && (1 <? length nuclei)%nat
          then map (update_bond threshold nuclei bondingProgress) (bonds scene1)
          else bonds scene1)).

(** A run of ticks of one closure: each tick has its own [delta] and
    reads the animation state of its moment. *)
Fixpoint run_ticks (threshold : R) (visualizationMode : VisualizationMode)
         (bondingPairs : list Bond)
         (inputs : list (R * AnimationState)) (scene : Scene) : Rand Scene :=
  match inputs with
  | [] => rand_ret scene
  | (delta, st) :: rest =>
      let* scene' := animate threshold visualizationMode bondingPairs delta st scene in
      run_ticks threshold visualizationMode bondingPairs rest scene'
  end.

(** Where a vertex [v] of a [THREE.Points] object is drawn: the object
    sits in the model group, without rotation or scale, at its own
    position. *)
Definition points_world (pts : Points) (v : Vector3) : Vector3 :=
  v3_add (points_position pts) v.

(** The buffers of a scene hold [len] samples per electron in the
    Classical models and [QUANTUM_TRAIL_LENGTH] in the Quantum models,
    and every electron of a Classical model has its pivot. *)
Definition bohr_trails_ok (len : nat) (obj : AnimatedObject) : Prop :=
  length (electronPivots obj) = length (electrons obj)
  /\ match electronTrails obj with
     | Some t => length (positions t) = (length (electrons obj) * len)%nat
                 /\ (1 <= len)%nat /\ (1 <= length (electrons obj))%nat
     | None => True
     end.

Definition quantum_trails_ok (obj : QuantumAnimatedObject) : Prop :=
  match electronCloud obj with
  | Some c => length (positions c)
              = (length (electronAnimations c) * QUANTUM_TRAIL_LENGTH)%nat
  | None => True
  end.

Definition trails_ok (len : nat) (scene : Scene) : Prop :=
  Forall (bohr_trails_ok len) (animatedObjects scene)
  /\ Forall quantum_trails_ok (quantumObjects scene).

(* ================================================================== *)
(** * The React effects of the AtomViewer component *)
(* ================================================================== *)

(** An array or a function held in a prop: React compares such values by
    identity, which [ref_id] stands for; a state setter that returns its
    argument keeps the identity, a new array has a new one. *)
Record Ref (A : Type) : Type := mkRef { ref_id : nat; ref_val : A }.
Arguments mkRef {A} _ _.
Arguments ref_id {A} _.
Arguments ref_val {A} _.

Record AtomViewerProps : Type := mkProps {
  atoms : Ref (list Atom);
  atomPositions : Ref (list Vector3);
  onAtomPositionChange : nat;           (* identity of the callback *)
  bondingPairs : Ref (list Bond);
  bondingProgress : R;
  electronSpeed : R;
  setIsLoading : nat;
  onAtomRightClick : nat;
  visualizationMode : VisualizationMode;
  trailLength : Z;
  trailOpacity : R
}.

(** A value in a dependency array. *)
Inductive Dep : Type :=
| DepRef (id : nat)
| DepNum (r : R)
| DepInt (z : Z)
| DepMode (m : VisualizationMode).

Definition mode_eqb (a b : VisualizationMode) : bool :=
  match a, b with
  | bohr, bohr | quantum, quantum => true
  | _, _ => false
  end.

(** [Object.is] on two dependencies. *)
Definition dep_same (a b : Dep) : bool :=
  match a, b with
  | DepRef i, DepRef j => (i =? j)%nat
  | DepNum x, DepNum y => if Req_dec_T x y then true else false
  | DepInt x, DepInt y => (x =? y)%Z
  | DepMode m, DepMode n => mode_eqb m n
  | _, _ => false
  end.

Fixpoint deps_same (old new : list Dep) : bool :=
  match old, new with
  | a :: old', b :: new' => dep_same a b && deps_same old' new'
  | _, _ => true
  end.

(** An effect runs after the first render and after every render in
    which one of its dependencies differs from the previous render. *)
Definition effect_fires (deps : AtomViewerProps -> list Dep)
           (prev : option AtomViewerProps) (cur : AtomViewerProps) : bool :=
  match prev with
  | None => true
  | Some p => negb (deps_same (deps p) (deps cur))
  end.

(** [[electronSpeed, bondingProgress, visualizationMode]] *)
Definition animationState_deps (p : AtomViewerProps) : list Dep :=
  [DepNum (electronSpeed p); DepNum (bondingProgress p);
   DepMode (visualizationMode p)].

(** [[onAtomRightClick, bondingPairs]] *)
Definition init_deps (p : AtomViewerProps) : list Dep :=
  [DepRef (onAtomRightClick p); DepRef (ref_id (bondingPairs p))].

(** [[atoms, atomPositions, bondingPairs, setIsLoading,
      onAtomPositionChange, visualizationMode, trailLength, trailOpacity]] *)
Definition rebuild_deps (p : AtomViewerProps) : list Dep :=
  [DepRef (ref_id (atoms p)); DepRef (ref_id (atomPositions p));
   DepRef (ref_id (bondingPairs p)); DepRef (setIsLoading p);
   DepRef (onAtomPositionChange p); DepMode (visualizationMode p);
   DepInt (trailLength p); DepNum (trailOpacity p)].

(** [[trailOpacity, visualizationMode]] *)
Definition trailOpacity_deps (p : AtomViewerProps) : list Dep :=
  [DepNum (trailOpacity p); DepMode (visualizationMode p)].

(** Whether the render [cur] that follows the render [prev] schedules a
    scene rebuild (the renderer refs are set by the earlier effect). *)
Definition rebuild_fires (prev cur : AtomViewerProps) : bool :=
  effect_fires rebuild_deps (Some prev) cur.

(** The body of the effect that updates [animationStateRef]. *)
Definition animationState_effect (p : AtomViewerProps) : AnimationState :=
  mkAnimationState
    (match visualizationMode p with bohr => electronSpeed p | quantum => 0 end)
    (bondingProgress p).

(** [animationStateRef.current] after the effects of a render have run:
    [prev] is the previous render, if any, and [st] the value before
    (at mount, the initial value of the ref, which holds the electron
    speed of the first render). *)
Definition animationState_commit (prev : option AtomViewerProps)
           (cur : AtomViewerProps) (st : AnimationState) : AnimationState :=
  if effect_fires animationState_deps prev cur then animationState_effect cur
  else st.

(** The animation state after the renders [p :: ps], in order. *)
Fixpoint animationState_after (prev : option AtomViewerProps)
         (st : AnimationState) (renders : list AtomViewerProps) : AnimationState :=
  match renders with
  | [] => st
  | p :: ps => animationState_after (Some p) (animationState_commit prev p st) ps
  end.

(** The body of the effect that updates the trail opacity in place. *)
Definition trailOpacity_effect (p : AtomViewerProps) (objs : list AnimatedObject)
  : list AnimatedObject :=
  match visualizationMode p with
  | bohr =>
      map (fun obj =>
             match electronTrails obj with
             | Some t =>
                 mkAnimated (nucleus obj) (shellPaths obj) (electronPivots obj)
                   (electrons obj)
                   (Some (mkPoints (positions t) (brightness t) (points_color t)
                                   (points_size t) (trailOpacity p)
                                   (points_position t) (electronAnimations t)))
             | None => obj
             end) objs
  | quantum => objs
  end.

(** The next render after one control changed alone. *)
Definition with_bondingProgress (p : AtomViewerProps) (v : R) : AtomViewerProps :=
  mkProps (atoms p) (atomPositions p) (onAtomPositionChange p) (bondingPairs p) v
          (electronSpeed p) (setIsLoading p) (onAtomRightClick p)
          (visualizationMode p) (trailLength p) (trailOpacity p).

Definition with_electronSpeed (p : AtomViewerProps) (v : R) : AtomViewerProps :=
  mkProps (atoms p) (atomPositions p) (onAtomPositionChange p) (bondingPairs p)
          (bondingProgress p) v (setIsLoading p) (onAtomRightClick p)
          (visualizationMode p) (trailLength p) (trailOpacity p).

Definition with_trailOpacity (p : AtomViewerProps) (v : R) : AtomViewerProps :=
  mkProps (atoms p) (atomPositions p) (onAtomPositionChange p) (bondingPairs p)
          (bondingProgress p) (electronSpeed p) (setIsLoading p) (onAtomRightClick p)
          (visualizationMode p) (trailLength p) v.

Definition with_visualizationMode (p : AtomViewerProps) (v : VisualizationMode)
  : AtomViewerProps :=
  mkProps (atoms p) (atomPositions p) (onAtomPositionChange p) (bondingPairs p)
          (bondingProgress p) (electronSpeed p) (setIsLoading p) (onAtomRightClick p)
          v (trailLength p) (trailOpacity p).

Definition with_atomPositions (p : AtomViewerProps) (v : Ref (list Vector3))
  : AtomViewerProps :=
  mkProps (atoms p) v (onAtomPositionChange p) (bondingPairs p)
          (bondingProgress p) (electronSpeed p) (setIsLoading p) (onAtomRightClick p)
          (visualizationMode p) (trailLength p) (trailOpacity p).

(* ================================================================== *)
(** * The bond list of the application *)
(* ================================================================== *)

(** [[fromIndex, toIndex].sort((a, b) => a - b)] *)
Definition sort_pair (fromIndex toIndex : Z) : Z * Z :=
  if (toIndex <? fromIndex)%Z then (toIndex, fromIndex) else (fromIndex, toIndex).

(** The state update of [handleAddBond(fromIndex, toIndex, type)]. *)
Definition handleAddBond (fromIndex toIndex type : Z) (currentBonds : list Bond)
  : list Bond :=
  let newPair := sort_pair fromIndex toIndex in
  let exists_ :=
    existsb (fun b => (fst (pair b) =? fst newPair)%Z && (snd (pair b) =? snd newPair)%Z)
            currentBonds in
  if negb exists_ then currentBonds ++ [mkBond newPair type] else currentBonds.

(** [bond.pair.includes(atomIndex)] and the update of [handleRemoveBonds]. *)
Definition handleRemoveBonds (atomIndex : Z) (currentBonds : list Bond) : list Bond :=
  List.filter (fun bond => negb ((fst (pair bond) =? atomIndex)%Z
                                 || (snd (pair bond) =? atomIndex)%Z))
              currentBonds.

(** The [pairs] of the entries of [knownMolecules] (data/molecules.ts). *)
Definition single (a b : Z) : Bond := mkBond (a, b) 1.

Definition knownMolecules : list (string * (string * list Bond)) :=
  [("OHH", ("Water", [single 0 1; single 0 2]));
   ("CHHHH", ("Methane", [single 0 1; single 0 2; single 0 3; single 0 4]));
   ("NHHH", ("Ammonia", [single 0 1; single 0 2; single 0 3]));
   ("COO", ("Carbon Dioxide", [mkBond (0, 1)%Z 2; mkBond (0, 2)%Z 2]));
   ("CCHHHH", ("Ethene", [mkBond (0, 1)%Z 2; single 0 2; single 0 3; single 1 4;
                          single 1 5]));
   ("OOHH", ("Hydrogen Peroxide", [single 0 1; single 0 2; single 1 3]));
   ("HCCH", ("Acetylene", [single 0 1; mkBond (1, 2)%Z 3; single 2 3]));
   ("NN", ("Dinitrogen", [mkBond (0, 1)%Z 3]));
   ("CCHHHHHOH", ("Ethanol", [single 0 1; single 0 2; single 0 3; single 0 4;
                              single 1 5; single 1 6; single 1 7; single 7 8]));
   ("CHHHCHHOH", ("Ethanol", [single 0 1; single 0 2; single 0 3; single 0 4;
                              single 4 5; single 4 6; single 4 7; single 7 8]))]%string.

(* ================================================================== *)
(** * The SDF and PDB parsers *)
(* ================================================================== *)

(** [s.split(sep)] for a one-character separator. *)
Fixpoint split_on (sep : ascii) (s : list ascii) : list (list ascii) :=
  match s with
  | [] => [[]]
  | c :: s' =>
      if Ascii.eqb c sep then [] :: split_on sep s'
      else match split_on sep s' with
           | h :: t => (c :: h) :: t
           | [] => [[c]]
           end
  end.

(** [s.split(/\s+/)]; [in_sep] holds inside a run of white space. *)
Fixpoint split_ws_from (in_sep : bool) (s : list ascii) : list (list ascii) :=
  match s with
  | [] => [[]]
  | c :: s' =>
      if is_space c then
        if in_sep then split_ws_from true s' else [] :: split_ws_from true s'
      else match split_ws_from false s' with
           | h :: t => (c :: h) :: t
           | [] => [[c]]
           end
  end.

Definition split_ws (s : list ascii) : list (list ascii) := split_ws_from false s.

(** [s.trim()] *)
Definition trim (s : list ascii) : list ascii :=
  rev (snd (span is_space (rev (snd (span is_space s))))).

(** [s.substring(a, b)] for [a <= b]. *)
Definition substring (a b : nat) (s : list ascii) : list ascii :=
  firstn (b - a) (skipn a s).

Fixpoint startsWith (s prefix : list ascii) : bool :=
  match prefix, s with
  | [], _ => true
  | p :: prefix', c :: s' => Ascii.eqb c p && startsWith s' prefix'
  | _ :: _, [] => false
  end.

Definition toUpperCase (s : list ascii) : list ascii :=
  map (fun c => let n := nat_of_ascii c in
                if (97 <=? n)%nat && (n <=? 122)%nat then ascii_of_nat (n - 32) else c)
      s.

(** [parseInt(parts[i], 10)] where [parts[i]] may be [undefined]. *)
Definition parseInt_at (parts : list (list ascii)) (i : nat) : option Z :=
  match parts !! i with
  | Some t => parseInt t
  | None => None
  end.

Record ParsedMoleculeData : Type := mkParsed {
  pm_name : string;
  pm_symbols : list string;
  pm_positions : list Vector3;
  pm_bonds : list Bond
}.

(** The errors the parsers throw. *)
Inductive ParseError : Type :=
| InvalidSDF
| NoCounts
| TooLarge (atomCount : Z).

(** The covalent radii table of the PDB parser. *)
Definition covalentRadii : list (string * R) :=
  [("H", 0.37); ("He", 0.32); ("Li", 1.34); ("Be", 0.9); ("B", 0.82); ("C", 0.77);
   ("N", 0.75); ("O", 0.73); ("F", 0.71); ("Ne", 0.69); ("Na", 1.54); ("Mg", 1.3);
   ("Al", 1.18); ("Si", 1.11); ("P", 1.06); ("S", 1.02); ("Cl", 0.99); ("Ar", 0.97);
   ("K", 1.96); ("Ca", 1.74); ("Sc", 1.44); ("Ti", 1.36); ("V", 1.25); ("Cr", 1.27);
   ("Mn", 1.39); ("Fe", 1.25); ("Co", 1.26); ("Ni", 1.21); ("Cu", 1.38); ("Zn", 1.31);
   ("Ga", 1.26); ("Ge", 1.22); ("As", 1.19); ("Se", 1.16); ("Br", 1.14); ("Kr", 1.1);
   ("Rb", 2.11); ("Sr", 1.92); ("Y", 1.62); ("Zr", 1.48); ("Nb", 1.37); ("Mo", 1.45);
   ("Tc", 1.56); ("Ru", 1.26); ("Rh", 1.35); ("Pd", 1.31); ("Ag", 1.53); ("Cd", 1.48);
   ("In", 1.44); ("Sn", 1.41); ("Sb", 1.38); ("Te", 1.35); ("I", 1.33); ("Xe", 1.3);
   ("Cs", 2.25); ("Ba", 1.98); ("DEFAULT", 1.0)]%string.

(** [covalentRadii[symbol] || covalentRadii.DEFAULT] *)
Definition covalent_radius (sym : string) : R :=
  match obj_get covalentRadii sym with
  | Some r => r
  | None => 1
  end.

Section Parsers.

(** [parseFloat], the built-in, with [None] for [NaN]. *)
Variable parseFloat : list ascii -> option R.

Definition parseFloat_at (parts : list (list ascii)) (i : nat) : option R :=
  match parts !! i with
  | Some t => parseFloat t
  | None => None
  end.

(** One iteration of the atom loop of [parseSDF]: the position and the
    symbol the line contributes, if any. *)
Definition sdf_atom (lines : list (list ascii)) (i : nat)
  : option (Vector3 * string) :=
  match lines !! (4 + i)%nat with
  | None | Some [] => None                              (* [if (!line) continue] *)
  | Some line =>
      let parts := split_ws (trim line) in
      match parseFloat_at parts 0, parseFloat_at parts 1, parseFloat_at parts 2,
            parts !! 3%nat with
      | Some x, Some y, Some z, Some (c :: sym) =>
          Some (mkV3 x y z, string_of_list_ascii (c :: sym))
      | _, _, _, _ => None
      end
  end.

(** One iteration of the bond loop of [parseSDF]. *)
Definition sdf_bond (lines : list (list ascii)) (bondBlockStart : Z) (i : nat)
  : option Bond :=
  match js_index lines (bondBlockStart + Z.of_nat i) with
  | None | Some [] => None                              (* [if (!line) continue] *)
  | Some line =>
      let parts := split_ws (trim line) in
      match parseInt_at parts 0, parseInt_at parts 1, parseInt_at parts 2 with
      | Some f, Some t, Some ty =>
          let from := (f - 1)%Z in
          let to := (t - 1)%Z in
          if (ty =? 1)%Z || (ty =? 2)%Z || (ty =? 3)%Z
          then Some (mkBond (Z.min from to, Z.max from to) ty)
          else None
      | _, _, _ => None
      end
  end.

(** [parseSDF(sdfData, name)] *)
Definition parseSDF (sdfData name : string) : ParseError + ParsedMoleculeData :=
  let lines := split_on "010"%char (list_ascii_of_string sdfData) in
  if (length lines <? 4)%nat then inl InvalidSDF
  else
    let countsLine := split_ws (trim (default [] (lines !! 3%nat))) in
    match parseInt_at countsLine 0, parseInt_at countsLine 1 with
    | Some atomCount, Some bondCount =>
        if (100 <? atomCount)%Z then inl (TooLarge atomCount)
        else
          let parsed_atoms :=
            omap (sdf_atom lines) (seq 0 (Z.to_nat atomCount)) in
          let bondBlockStart := (4 + atomCount)%Z in
          let parsed_bonds :=
            omap (sdf_bond lines bondBlockStart) (seq 0 (Z.to_nat bondCount)) in
          inr (mkParsed name (map snd parsed_atoms) (map fst parsed_atoms)
                        parsed_bonds)
    | _, _ => inl NoCounts
    end.

Definition PDB_MAX_ATOMS : nat := 500.

(** The symbol of an atom line: columns 77-78, or else the first
    character of the atom name. *)
Definition pdb_symbol (line : list ascii) : list ascii :=
  match toUpperCase (trim (substring 76 78 line)) with
  | [] => toUpperCase (firstn 1 (trim (substring 12 16 line)))
  | sym => sym
  end.

(** The body of [atomLines.forEach((line, index) => ...)]: positions,
    symbols and the map from PDB serial (with [None] for a serial that
    is [NaN]) to the index of the line.  Later entries for a serial
    replace earlier ones, as [Map.set] does. *)
Fixpoint pdb_atoms (atomLines : list (list ascii)) (index : nat)
         (acc : list Vector3 * list string * list (option Z * nat))
  : list Vector3 * list string * list (option Z * nat) :=
  match atomLines with
  | [] => acc
  | line :: rest =>
      let '(ps, syms, atomMap) := acc in
      let symbol := pdb_symbol line in
      let serial := parseInt (substring 6 11 line) in
      pdb_atoms rest (S index)
        (match parseFloat (substring 30 38 line), parseFloat (substring 38 46 line),
               parseFloat (substring 46 54 line), symbol with
         | Some x, Some y, Some z, _ :: _ =>
             (ps ++ [mkV3 x y z], syms ++ [string_of_list_ascii symbol],
              (serial, index) :: atomMap)
         | _, _, _, _ => acc
         end)
  end.

Definition serial_eqb (a b : option Z) : bool :=
  match a, b with
  | Some x, Some y => (x =? y)%Z
  | None, None => true
  | _, _ => false
  end.

(** [atomMap.get(serial)] *)
Fixpoint atomMap_get (atomMap : list (option Z * nat)) (serial : option Z)
  : option nat :=
  match atomMap with
  | [] => None
  | (k, v) :: m => if serial_eqb k serial then Some v else atomMap_get m serial
  end.

(** The set of bond keys; the key [`${a}-${b}`] of two indices
    determines the pair [(a, b)], which stands for it here. *)
Definition bondSet_has (bondSet : list (nat * nat)) (k : nat * nat) : bool :=
  existsb (fun k' => (fst k' =? fst k)%nat && (snd k' =? snd k)%nat) bondSet.

(** The inner loop of a CONECT record, over [parts[1..]]. *)
Fixpoint conect_targets (atomMap : list (option Z * nat)) (fromIndex : nat)
         (targets : list (option Z)) (acc : list Bond * list (nat * nat))
  : list Bond * list (nat * nat) :=
  match targets with
  | [] => acc
  | toSerial :: rest =>
      conect_targets atomMap fromIndex rest
        (match atomMap_get atomMap toSerial with
         | Some toIndex =>
             let pr := (Nat.min fromIndex toIndex, Nat.max fromIndex toIndex) in
             if bondSet_has (snd acc) pr then acc
             else (fst acc ++ [mkBond (Z.of_nat (fst pr), Z.of_nat (snd pr)) 1],
                   pr :: snd acc)
         | None => acc
         end)
  end.

(** [conectLines.forEach(line => ...)] *)
Fixpoint conect_lines (atomMap : list (option Z * nat))
         (conectLines : list (list ascii)) (acc : list Bond * list (nat * nat))
  : list Bond * list (nat * nat) :=
  match conectLines with
  | [] => acc
  | line :: rest =>
      let parts := map parseInt (skipn 1 (split_ws (trim line))) in
      conect_lines atomMap rest
        (match parts with
         | fromSerial :: targets =>
             match atomMap_get atomMap fromSerial with
             | Some fromIndex => conect_targets atomMap fromIndex targets acc
             | None => acc
             end
         | [] => acc
         end)
  end.

(** The bonds inferred from the distances: the pairs [i < j] of
    positions closer than the sum of the covalent radii plus the
    tolerance, in the order of the two nested loops. *)
Definition inferred_bonds (ps : list Vector3) (syms : list string) : list Bond :=
  let bondTolerance := 45 / 100 in
  flat_map
    (fun i =>
       flat_map
         (fun j =>
            let r1 := covalent_radius (default EmptyString (syms !! i)) in
            let r2 := covalent_radius (default EmptyString (syms !! j)) in
            let maxDist := r1 + r2 + bondTolerance in
            if Rlt_dec (distanceTo (default v3_zero (ps !! i))
                                   (default v3_zero (ps !! j))) maxDist
            then [mkBond (Z.of_nat i, Z.of_nat j) 1]
            else [])
         (seq (i + 1) (length ps - (i + 1))))
    (seq 0 (length ps)).

(** [parsePDB(pdbData, name)] *)
Definition parsePDB (pdbData name : string) : ParseError + ParsedMoleculeData :=
  let lines := split_on "010"%char (list_ascii_of_string pdbData) in
  let atomLines :=
    List.filter (fun line => startsWith line (list_ascii_of_string "ATOM")
                             || startsWith line (list_ascii_of_string "HETATM"))
                lines in
  if (PDB_MAX_ATOMS <? length atomLines)%nat
  then inl (TooLarge (Z.of_nat (length atomLines)))
  else
    let '(ps, syms, atomMap) := pdb_atoms atomLines 0 ([], [], []) in
    let conectLines :=
      List.filter (fun line => startsWith line (list_ascii_of_string "CONECT"))
                  lines in
    let explicit := fst (conect_lines atomMap conectLines ([], [])) in
    let all_bonds :=
      if (length explicit =? 0)%nat && (1 <? length atomLines)%nat
      then inferred_bonds ps syms
      else explicit in
    inr (mkParsed name syms ps all_bonds).

End Parsers.

(** The values the application gives its bond list ([setBondingPairs]):
    the empty list when the atoms change, the pairs of a known molecule,
    the bonds of a molecule loaded from a database (SDF or PDB), and the
    updates of [handleAddBond] and [handleRemoveBonds]. *)
Inductive bond_list_state (parseFloat : list ascii -> option R)
  : list Bond -> Prop :=
| bls_reset : bond_list_state parseFloat []
| bls_known (signature name : string) (pairs : list Bond) :
    In (signature, (name, pairs)) knownMolecules ->
    bond_list_state parseFloat pairs
| bls_sdf (sdfData name : string) (data : ParsedMoleculeData) :
    parseSDF parseFloat sdfData name = inr data ->
    bond_list_state parseFloat (pm_bonds data)
| bls_pdb (pdbData name : string) (data : ParsedMoleculeData) :
    parsePDB parseFloat pdbData name = inr data ->
    bond_list_state parseFloat (pm_bonds data)
| bls_add (currentBonds : list Bond) (fromIndex toIndex type : Z) :
    bond_list_state parseFloat currentBonds ->
    bond_list_state parseFloat (handleAddBond fromIndex toIndex type currentBonds)
| bls_remove (currentBonds : list Bond) (atomIndex : Z) :
    bond_list_state parseFloat currentBonds ->
    bond_list_state parseFloat (handleRemoveBonds atomIndex currentBonds).

(* ================================================================== *)
(** * Specification-side definitions *)
(* ================================================================== *)

(** The golden-angle point as the specification words it:
    [radius * (cos(theta_i) * r_i, y_i, sin(theta_i) * r_i)] with
    [y_i = 1 - 2i/(count-1)], [r_i = sqrt(1 - y_i^2)] and
    [theta_i = i * pi * (3 - sqrt 5)]. *)
Definition spec_golden_point (count : Z) (radius : R) (i : nat) : Vector3 :=
  let y_i := 1 - 2 * INR i / (IZR count - 1) in
  let r_i := sqrt (1 - y_i ^ 2) in
  let theta_i := INR i * (PI * (3 - sqrt 5)) in
  mkV3 (radius * (cos theta_i * r_i)) (radius * y_i) (radius * (sin theta_i * r_i)).

(** The point of spherical coordinates [(rho, theta, phi)] as the
    specification of the uniform sampler words it. *)
Definition spec_spherical (rho theta phi : R) : Vector3 :=
  mkV3 (rho * sin phi * cos theta) (rho * sin phi * sin theta) (rho * cos phi).

(** A bond whose pair is stored in ascending order. *)
Definition bond_sorted (b : Bond) : Prop := (fst (pair b) <= snd (pair b))%Z.

(** Two atoms share a bond of the list, in either order of the pair. *)
Definition share_bond (bs : list Bond) (a b : Z) : Prop :=
  exists bd, In bd bs /\ (pair bd = (a, b) \/ pair bd = (b, a)).

(** The midpoint of two points. *)
Definition spec_midpoint (a b : Vector3) : Vector3 :=
  mkV3 ((vx a + vx b) / 2) ((vy a + vy b) / 2) ((vz a + vz b) / 2).

(** The partner entries of atom [a], one for every bond of the list with
    [a] at one end: the index at the other end.  A partner that two
    bonds of the list join to [a] is entered twice. *)
Definition spec_partners (bondingPairs : list Bond) (a : nat) : list Z :=
  flat_map (fun b =>
              if (fst (pair b) =? Z.of_nat a)%Z then [snd (pair b)]
              else if (snd (pair b) =? Z.of_nat a)%Z then [fst (pair b)]
              else [])
           bondingPairs.

(** The current nucleus positions of the partners that have a built
    model. *)
Definition spec_partner_positions (bondingPairs : list Bond)
           (objs : list AnimatedObject) (a : nat) : list Vector3 :=
  flat_map (fun j => match js_index objs j with
                     | Some o => [nucleus_position (nucleus o)]
                     | None => []
                     end)
           (spec_partners bondingPairs a).

(** The bond partners of atom [a] as atoms: every partner once, by
    however many bonds of the list it is joined to [a]. *)
Definition spec_partner_atoms (bondingPairs : list Bond) (a : nat) : list Z :=
  nodup Z.eq_dec (spec_partners bondingPairs a).

(** The current nucleus positions of the partner atoms that have a built
    model: the points whose centroid the specification names. *)
Definition spec_partner_atom_positions (bondingPairs : list Bond)
           (objs : list AnimatedObject) (a : nat) : list Vector3 :=
  flat_map (fun j => match js_index objs j with
                     | Some o => [nucleus_position (nucleus o)]
                     | None => []
                     end)
           (spec_partner_atoms bondingPairs a).

(** The centroid of a list of points: the mean of each coordinate. *)
Definition spec_centroid (ps : list Vector3) : Vector3 :=
  let n := INR (length ps) in
  mkV3 (fold_right Rplus 0 (map vx ps) / n)
       (fold_right Rplus 0 (map vy ps) / n)
       (fold_right Rplus 0 (map vz ps) / n).

(** The linear interpolation [(1 - t) a + t b]. *)
Definition spec_lerp (a b : Vector3) (t : R) : Vector3 :=
  mkV3 ((1 - t) * vx a + t * vx b) ((1 - t) * vy a + t * vy b)
       ((1 - t) * vz a + t * vz b).

(* ================================================================== *)
(** * Example inputs *)
(* ================================================================== *)

Definition hydrogen : Atom := mkAtom "H" 1.008 [1%Z] "1s1" (Some "ffffff"%string).

Definition oxygen : Atom :=
  mkAtom "O" 15.999 [2%Z; 6%Z] "[He] 2s2 2p4" (Some "ff0d0d"%string).

(** A Classical model with one electron and a two-sample trail. *)
Definition example_bohr_object (p : Vector3) : AnimatedObject :=
  mkAnimated (mkNucleus p 1 "#ffffff" None) [] [new_pivot] [mkV3 1 0 0]
             (Some (mkPoints [mkV3 1 0 0; mkV3 2 0 0] [1; 1 / 2] "#00ffff"
                             (2 / 10) 1 v3_zero [])).

(** A Quantum model with one electron on its way to a far target. *)
Definition example_quantum_object (p : Vector3) : QuantumAnimatedObject :=
  mkQuantum (mkNucleus p 1 "#ffffff" None) (Group [] v3_zero v3_zero)
            (Some (mkPoints (replicate QUANTUM_TRAIL_LENGTH v3_zero)
                            (trail_brightness QUANTUM_TRAIL_LENGTH) "#00ffff"
                            (16 / 100) 1 v3_zero
                            [mkAnim "1s" v3_zero (mkV3 1 0 0)])).

Definition example_bohr_scene : Scene :=
  mkScene [example_bohr_object v3_zero; example_bohr_object (mkV3 0 2 0)] []
          [new_bond_group (mkBond (0, 1)%Z 1)].

Definition example_quantum_scene : Scene :=
  mkScene [] [example_quantum_object (mkV3 1 0 0); example_quantum_object (mkV3 0 2 0)]
          [new_bond_group (mkBond (0, 1)%Z 1)].

Definition example_state : AnimationState := mkAnimationState (2 / 10) (1 / 2).

(** A bond list that names the bond between atoms 0 and 1 twice, as an
    SDF record with a repeated bond line gives it. *)
Definition example_repeated_bonds : list Bond :=
  [mkBond (0, 1)%Z 1; mkBond (0, 1)%Z 1; mkBond (0, 2)%Z 1].

(** The props of a render of water in Classical mode. *)
Definition example_props : AtomViewerProps :=
  mkProps (mkRef 1 [oxygen; hydrogen; hydrogen])
          (mkRef 2 [v3_zero; mkV3 0 15 0; mkV3 0 (-15) 0])
          3
          (mkRef 4 [mkBond (0, 1)%Z 1; mkBond (0, 2)%Z 1])
          1 (2 / 10) 5 6 bohr 15 1.

(* ================================================================== *)
(** * The context menu of an atom (ContextMenu.tsx) *)
(* ================================================================== *)

(** [bondingPairs.some(bond => bond.pair.includes(atomIndex))] *)
Definition hasBonds (bondingPairs : list Bond) (atomIndex : Z) : bool :=
  existsb (fun bond => (fst (pair bond) =? atomIndex)%Z || (snd (pair bond) =? atomIndex)%Z)
          bondingPairs.

(** [atoms.map((_, i) => i).filter(i => i !== atomIndex)] *)
Definition otherAtoms (natoms : nat) (atomIndex : Z) : list nat :=
  List.filter (fun i => negb (Z.of_nat i =? atomIndex)%Z) (seq 0 natoms).

(** [bondingPairs.find(b => ...)]: the first bond between the two atoms,
    in either order of its pair. *)
Definition existingBond (bondingPairs : list Bond) (atomIndex index : Z) : option Bond :=
  List.find (fun b => ((fst (pair b) =? atomIndex)%Z && (snd (pair b) =? index)%Z)
                      || ((fst (pair b) =? index)%Z && (snd (pair b) =? atomIndex)%Z))
            bondingPairs.

(** A row of the list: the label of the existing bond, or the three
    buttons that call [onAddBond(atomIndex, index, type)]. *)
Inductive MenuRow : Type :=
| BondLabel (index : nat) (label : string)
| AddButtons (index : nat).

Definition bond_label (type : Z) : string :=
  if (type =? 3)%Z then "Triple" else if (type =? 2)%Z then "Double" else "Single".

Record Menu : Type := mkMenu {
  menu_x : R;
  menu_y : R;
  menu_rows : list MenuRow;
  menu_remove : bool                    (* the "Remove All Bonds" button *)
}.

(** The position the layout effect gives the menu so that it stays in
    the viewport. *)
Definition menu_position (x y menuWidth menuHeight innerWidth innerHeight : R) : R * R :=
  let newX := if Rlt_dec innerWidth (x + menuWidth) then innerWidth - menuWidth - 10
              else x in
  let newY := if Rlt_dec innerHeight (y + menuHeight) then innerHeight - menuHeight - 10
              else y in
  (newX, newY).

(** What the component renders: nothing when [atoms[atomIndex]] is
    undefined. *)
Definition ContextMenu (x y menuWidth menuHeight innerWidth innerHeight : R)
           (atomIndex : Z) (natoms : nat) (bondingPairs : list Bond) : option Menu :=
  if (0 <=? atomIndex)%Z && (atomIndex <? Z.of_nat natoms)%Z then
    let p := menu_position x y menuWidth menuHeight innerWidth innerHeight in
    Some (mkMenu (fst p) (snd p)
            (map (fun index =>
                    match existingBond bondingPairs atomIndex (Z.of_nat index) with
                    | Some b => BondLabel index (bond_label (type b))
                    | None => AddButtons index
                    end)
                 (otherAtoms natoms atomIndex))
            (hasBonds bondingPairs atomIndex))
  else None.

(* ================================================================== *)
(** * The formula input of the application *)
(* ================================================================== *)

Definition is_upper (c : ascii) : bool :=
  let n := nat_of_ascii c in (65 <=? n)%nat && (n <=? 90)%nat.

Definition is_lower (c : ascii) : bool :=
  let n := nat_of_ascii c in (97 <=? n)%nat && (n <=? 122)%nat.

Definition toLowerCase (s : list ascii) : list ascii :=
  map (fun c => if is_upper c then ascii_of_nat (nat_of_ascii c + 32) else c) s.

Fixpoint ascii_list_eqb (a b : list ascii) : bool :=
  match a, b with
  | [], [] => true
  | x :: a', y :: b' => Ascii.eqb x y && ascii_list_eqb a' b'
  | _, _ => false
  end.

(** The fields of [ElementInfo] (types.ts). *)
Record ElementInfo : Type := mkElementInfo {
  el_number : Z;
  el_name : string;
  el_symbol : string
}.

(** [new Map(elementList.map(el => [el.symbol.toLowerCase(), el.symbol]))
    .get(key)]: of the entries for a key the last one counts. *)
Definition elementSymbolMap_get (elementList : list ElementInfo) (key : list ascii)
  : option string :=
  match List.find (fun el => ascii_list_eqb
                               (toLowerCase (list_ascii_of_string (el_symbol el))) key)
                  (rev elementList) with
  | Some el => Some (el_symbol el)
  | None => None
  end.

(** The messages [setFormulaError] is called with. *)
Inductive FormulaError : Type :=
| ElementDataLoading
| FormulaEmpty
| InvalidElementSymbol (matched : list ascii)
| InvalidCount (normalizedSymbol : string)
| InvalidFormat (part : list ascii)
| NoAtoms
| TooManyAtoms (n : nat)
| DatabaseParseFailed.

(** The first capital letter of [s] and what follows it: where the
    regular expression of the formula (a capital letter, an optional
    small letter, then a possibly empty run of digits) finds its next
    match. *)
Fixpoint find_upper (s : list ascii) : option (ascii * list ascii) :=
  match s with
  | [] => None
  | c :: rest => if is_upper c then Some (c, rest) else find_upper rest
  end.

(** The loop [while ((match = regex.exec(part)) !== null)] from the
    position after the last match ([rem] is what is left of the part
    there), followed by the test [lastIndex !== part.length].  [fuel]
    bounds the number of matches. *)
Fixpoint scan_part (fuel : nat) (elementList : list ElementInfo) (part rem : list ascii)
         (newSymbols : list string) : FormulaError + list string :=
  match find_upper rem with
  | None =>
      match rem with
      | [] => inr newSymbols
      | _ :: _ => inl (InvalidFormat part)
      end
  | Some (c, after) =>
      match fuel with
      | O => inl (InvalidFormat part)
      | S fuel' =>
          let '(low, after1) :=
            match after with
            | l :: after' => if is_lower l then ([l], after') else ([], after)
            | [] => ([], [])
            end in
          let '(digits, after2) := span is_digit after1 in
          match elementSymbolMap_get elementList (toLowerCase (c :: low)) with
          | None => inl (InvalidElementSymbol (c :: low))
          | Some normalizedSymbol =>
              let count := match digits with
                           | [] => 1%Z
                           | _ :: _ => decimal_value digits
                           end in
              if (count <? 1)%Z then inl (InvalidCount normalizedSymbol)
              else scan_part fuel' elementList part after2
                             (newSymbols ++ replicate (Z.to_nat count) normalizedSymbol)
          end
      end
  end.

(** [for (const part of parts)] *)
Fixpoint scan_parts (elementList : list ElementInfo) (parts : list (list ascii))
         (newSymbols : list string) : FormulaError + list string :=
  match parts with
  | [] => inr newSymbols
  | [] :: rest => scan_parts elementList rest newSymbols      (* [continue] *)
  | part :: rest =>
      match scan_part (length part) elementList part part newSymbols with
      | inl e => inl e
      | inr newSymbols' => scan_parts elementList rest newSymbols'
      end
  end.

(** The body of [handleFormulaCreate]: the error it reports, or the
    symbols it passes to [setAtomSymbols] (and whose number it passes to
    [setTotalAtoms]). *)
Definition handleFormulaCreate (elementList : list ElementInfo) (formula : string)
  : FormulaError + list string :=
  if (length elementList =? 0)%nat then inl ElementDataLoading
  else
    match trim (list_ascii_of_string formula) with
    | [] => inl FormulaEmpty
    | _ :: _ =>
        let parts :=
          split_on "."%char
                   (List.filter (fun c => negb (is_space c))
                                (list_ascii_of_string formula)) in
        match scan_parts elementList parts [] with
        | inl e => inl e
        | inr newSymbols =>
            if (length newSymbols =? 0)%nat then inl NoAtoms
            else if (100 <? length newSymbols)%nat
                 then inl (TooManyAtoms (length newSymbols))
                 else inr newSymbols
        end
    end.

(* ================================================================== *)
(** * The state of the application and its handlers *)
(* ================================================================== *)

(** [getAtomVisualRadius(atom)] *)
Definition getAtomVisualRadius (atom : Atom) : R :=
  let massScale := Rmax (5 / 10) (Math_cbrt (atomicMass atom) * NUCLEUS_SCALE_FACTOR) in
  let shellRadius :=
    if (0 <? length (shells atom))%nat
    then SHELL_BASE_RADIUS + INR (length (shells atom) - 1) * SHELL_SPACING
    else SHELL_BASE_RADIUS in
  shellRadius * massScale.

(** [l.slice(0, end)] for an integer [end]: a negative [end] counts from
    the end of the array. *)
Definition slice_to {A} (l : list A) (end_ : Z) : list A :=
  if (end_ <? 0)%Z then firstn (Z.to_nat (Z.of_nat (length l) + end_)) l
  else firstn (Z.to_nat end_) l.

(** The updater the effect on [totalAtoms] passes to [setAtomSymbols]. *)
Definition resize_symbols (totalAtoms : Z) (currentSymbols : list string) : list string :=
  let newSize := totalAtoms in
  let currentSize := Z.of_nat (length currentSymbols) in
  if (currentSize <? newSize)%Z then
    currentSymbols ++ replicate (Z.to_nat (newSize - currentSize)) "H"%string
  else if (newSize <? currentSize)%Z then slice_to currentSymbols newSize
  else currentSymbols.

(** The positions the loading effect gives [validAtoms] atoms: the first
    at the origin, the others on a sphere of radius 15 around it. *)
Definition default_positions (validAtoms : nat) : list Vector3 :=
  if (0 <? validAtoms)%nat then
    v3_zero :: (if (1 <? validAtoms)%nat
                then getSpherePoints (Z.of_nat validAtoms - 1) 15
                else [])
  else [].

(** The position array after the loading effect: it is replaced only
    when its length is not the number of atoms. *)
Definition layout_positions (atomPositions : list Vector3) (validAtoms : nat)
  : list Vector3 :=
  if (length atomPositions =? validAtoms)%nat then atomPositions
  else default_positions validAtoms.

(** The state variables of [App] that the handlers below write. *)
Record AppState : Type := mkApp {
  atomSymbols : list string;
  totalAtoms : Z;
  app_bondingPairs : list Bond;
  app_atomPositions : list Vector3;
  moleculeName : option string;
  formula : string;
  app_bondingProgress : R;
  formulaError : option FormulaError
}.

(** [handleFormulaCreate] as a state update. *)
Definition formula_create (elementList : list ElementInfo) (st : AppState) : AppState :=
  match handleFormulaCreate elementList (formula st) with
  | inl e =>
      mkApp (atomSymbols st) (totalAtoms st) (app_bondingPairs st) (app_atomPositions st)
            (moleculeName st) (formula st) (app_bondingProgress st) (Some e)
  | inr newSymbols =>
      mkApp newSymbols (Z.of_nat (length newSymbols)) (app_bondingPairs st)
            (app_atomPositions st) (moleculeName st) (formula st)
            (app_bondingProgress st) None
  end.

(** The effect on [totalAtoms]: the symbols are resized, the bonds and
    the bonding progress reset. *)
Definition totalAtoms_effect (st : AppState) : AppState :=
  mkApp (resize_symbols (totalAtoms st) (atomSymbols st)) (totalAtoms st) []
        (app_atomPositions st) (moleculeName st) (formula st) 0 (formulaError st).

(** [Box3.setFromPoints] on a non-empty array: the componentwise minimum
    and maximum. *)
Definition v3_min (a b : Vector3) : Vector3 :=
  mkV3 (Rmin (vx a) (vx b)) (Rmin (vy a) (vy b)) (Rmin (vz a) (vz b)).

Definition v3_max (a b : Vector3) : Vector3 :=
  mkV3 (Rmax (vx a) (vx b)) (Rmax (vy a) (vy b)) (Rmax (vz a) (vz b)).

Definition box_min (p : Vector3) (ps : list Vector3) : Vector3 := fold_left v3_min ps p.
Definition box_max (p : Vector3) (ps : list Vector3) : Vector3 := fold_left v3_max ps p.

(** The centring and scaling of [handleLoadMoleculeFromData] on the
    non-empty array [p :: ps]. *)
Definition load_center (p : Vector3) (ps : list Vector3) : Vector3 :=
  multiplyScalar (v3_add (box_min p ps) (box_max p ps)) (5 / 10).

Definition load_maxDim (p : Vector3) (ps : list Vector3) : R :=
  let size := subVectors (box_max p ps) (box_min p ps) in
  Rmax (Rmax (vx size) (vy size)) (vz size).

Definition load_scale (p : Vector3) (ps : list Vector3) : R :=
  let maxDim := load_maxDim p ps in
  let desiredSize := 25 in
  if Rlt_dec 0 maxDim then desiredSize / maxDim else 1.

Definition centeredPositions (positions : list Vector3) : list Vector3 :=
  match positions with
  | [] => []
  | p :: ps =>
      map (fun q => multiplyScalar (subVectors q (load_center p ps)) (load_scale p ps))
          positions
  end.

(** [handleLoadMoleculeFromData(data)] *)
Definition handleLoadMoleculeFromData (data : option ParsedMoleculeData) (st : AppState)
  : AppState :=
  match data with
  | None =>
      mkApp (atomSymbols st) (totalAtoms st) (app_bondingPairs st) (app_atomPositions st)
            (moleculeName st) (formula st) (app_bondingProgress st)
            (Some DatabaseParseFailed)
  | Some data =>
      if (length (pm_symbols data) =? 0)%nat then
        mkApp (atomSymbols st) (totalAtoms st) (app_bondingPairs st)
              (app_atomPositions st) (moleculeName st) (formula st)
              (app_bondingProgress st) (Some DatabaseParseFailed)
      else if (length (pm_positions data) =? 0)%nat then st
      else
        mkApp (pm_symbols data) (Z.of_nat (length (pm_symbols data))) (pm_bonds data)
              (centeredPositions (pm_positions data)) (Some (pm_name data))
              (pm_name data)
              (if (0 <? length (pm_bonds data))%nat then 1 else 0)
              (formulaError st)
  end.

(** [handleRemoveBonds] as a state update: the bonding progress is reset
    when no bond is left. *)
Definition remove_bonds (atomIndex : Z) (st : AppState) : AppState :=
  let newBonds := handleRemoveBonds atomIndex (app_bondingPairs st) in
  mkApp (atomSymbols st) (totalAtoms st) newBonds (app_atomPositions st)
        (moleculeName st) (formula st)
        (if (length newBonds =? 0)%nat then 0 else app_bondingProgress st)
        (formulaError st).

(** ** The electron-speed controls *)

Record SpeedControls : Type := mkSpeed {
  sp_electronSpeed : R;
  sp_speedInputValue : list ascii;
  sp_isSlowMotion : bool;
  sp_previousElectronSpeed : R
}.

(** [value.endsWith('.')] *)
Definition endsWith_dot (value : list ascii) : bool :=
  match rev value with
  | c :: _ => Ascii.eqb c "."
  | [] => false
  end.

(** [handleSlowMotionToggle] with [e.target.checked = checked]. *)
Definition handleSlowMotionToggle (checked : bool) (st : SpeedControls) : SpeedControls :=
  if checked then
    mkSpeed (sp_electronSpeed st / 100) (sp_speedInputValue st) checked
            (sp_electronSpeed st)
  else
    mkSpeed (sp_previousElectronSpeed st) (sp_speedInputValue st) checked
            (sp_previousElectronSpeed st).

Section SpeedInput.

(** [parseFloat], the built-in, with [None] for [NaN]. *)
Variable parseFloat : list ascii -> option R.

(** [handleSpeedInputChange] with [e.target.value = value]. *)
Definition handleSpeedInputChange (value : list ascii) (st : SpeedControls)
  : SpeedControls :=
  let st1 := mkSpeed (sp_electronSpeed st) value (sp_isSlowMotion st)
                     (sp_previousElectronSpeed st) in
  match value with
  | [] => st1
  | _ :: _ =>
      if endsWith_dot value then st1
      else
        match parseFloat value with
        | Some percentage =>
            if Rle_dec 0 percentage then
              if Rle_dec percentage 100000 then
                mkSpeed (percentage / 100) value (sp_isSlowMotion st)
                        (sp_previousElectronSpeed st)
              else st1
            else st1
        | None => st1
        end
  end.

(** [handleSpeedInputBlur] with [e.target.value = value]. *)
Definition handleSpeedInputBlur (value : list ascii) (st : SpeedControls)
  : SpeedControls :=
  let percentage :=
    match parseFloat value with
    | None => 0
    | Some p => if Rlt_dec p 0 then 0 else if Rlt_dec 100000 p then 100000 else p
    end in
  mkSpeed (percentage / 100) (sp_speedInputValue st) (sp_isSlowMotion st)
          (sp_previousElectronSpeed st).

End SpeedInput.

(* ================================================================== *)
(** * The database search (DatabaseSearch) *)
(* ================================================================== *)

Inductive Database : Type := pubchem | pdb.

(** The messages [setError] is called with. *)
Inductive SearchError : Type :=
| EnterQuery
| NotFoundInPubChem
| PdbIdLength
| NotFoundInPDB
| ParserError (e : ParseError).

(** The test of the PDB identifier: exactly four letters or digits. *)
Definition pdb_id_ok (pdbId : list ascii) : bool :=
  (length pdbId =? 4)%nat && forallb (fun c => is_digit c || is_alpha c) pdbId.

Section Search.

Variable parseFloat : list ascii -> option R.

(** [handleSearch]: [response] is the body of the answer of the server
    when the answer is [ok]; the result is the error the component shows
    and the state of the application after the calls of
    [onMoleculeLoad]. *)
Definition handleSearch (query : string) (database : Database) (response : option string)
           (st : AppState) : option SearchError * AppState :=
  match trim (list_ascii_of_string query) with
  | [] => (Some EnterQuery, st)
  | _ :: _ =>
      let st1 := handleLoadMoleculeFromData None st in
      match database with
      | pubchem =>
          match response with
          | None => (Some NotFoundInPubChem, st1)
          | Some sdfData =>
              match parseSDF parseFloat sdfData query with
              | inl e => (Some (ParserError e), st1)
              | inr parsedData => (None, handleLoadMoleculeFromData (Some parsedData) st1)
              end
          end
      | pdb =>
          if pdb_id_ok (list_ascii_of_string query) then
            match response with
            | None => (Some NotFoundInPDB, st1)
            | Some pdbData =>
                match parsePDB parseFloat pdbData query with
                | inl e => (Some (ParserError e), st1)
                | inr parsedData => (None, handleLoadMoleculeFromData (Some parsedData) st1)
                end
            end
          else (Some PdbIdLength, st1)
      end
  end.

End Search.

(* ================================================================== *)
(** * The exports of the application *)
(* ================================================================== *)

(** [(moleculeName || 'Molecule').replace(/[^a-z0-9]/gi, '_').toLowerCase()] *)
Definition export_baseName (moleculeName : option string) : list ascii :=
  let name := match moleculeName with
              | Some n => if String.eqb n EmptyString then "Molecule"%string else n
              | None => "Molecule"%string
              end in
  toLowerCase (map (fun c => if is_digit c || is_alpha c then c else "_"%char)
                   (list_ascii_of_string name)).

(** A mesh of the exported group: a nucleus or an electron. *)
Inductive ExportMesh : Type :=
| ExportNucleus (radius : R) (color : string) (position : Vector3)
| ExportElectron (position : Vector3).

(** The body of [atoms.forEach((atom, index) => ...)] of
    [handleExportGLTF]: nothing for an atom without a position. *)
Definition export_atom (atomPositions : list Vector3) (index : nat) (atom : Atom)
  : list ExportMesh :=
  match atomPositions !! index with
  | None => []
  | Some atomCenter =>
      let atomScale := Rmax (5 / 10) (Math_cbrt (atomicMass atom) * NUCLEUS_SCALE_FACTOR) in
      ExportNucleus atomScale (css_color atom "cccccc") atomCenter
      :: concat (imap (fun shellIndex numElectrons =>
                         let shellRadius :=
                           (SHELL_BASE_RADIUS + INR shellIndex * SHELL_SPACING) * atomScale in
                         map (fun pos => ExportElectron (v3_add atomCenter pos))
                             (getSpherePoints numElectrons shellRadius))
                      (shells atom))
  end.

(** The cylinders of an exported bond; the material is opaque. *)
Definition export_bond_children (type : Z) : list BondMesh :=
  if (type =? 3)%Z then
    [mkBondMesh (- TRIPLE_BOND_SPACING) 1; mkBondMesh 0 1; mkBondMesh TRIPLE_BOND_SPACING 1]
  else if (type =? 2)%Z then
    [mkBondMesh (- DOUBLE_BOND_SPACING / 2) 1; mkBondMesh (DOUBLE_BOND_SPACING / 2) 1]
  else [mkBondMesh 0 1].

(** The body of [bondingPairs.forEach(bondInfo => ...)] of
    [handleExportGLTF]: nothing when an endpoint has no position.
    [threshold] is the bound of the installed [setFromUnitVectors]. *)
Definition export_bond (threshold : R) (atomPositions : list Vector3) (bondInfo : Bond)
  : option BondGroup :=
  match js_index atomPositions (fst (pair bondInfo)),
        js_index atomPositions (snd (pair bondInfo)) with
  | Some posA, Some posB =>
      let distance := distanceTo posA posB in
      let direction := subVectors posB posA in
      Some (mkBondGroup (pair bondInfo) (export_bond_children (type bondInfo))
                        (lerp posA posB (5 / 10))
                        (setFromUnitVectors threshold (mkV3 0 1 0)
                                            (v3_normalize direction))
                        (mkV3 1 distance 1) true)
  | _, _ => None
  end.

(** What [handleExportGLTF] puts into the exported group; [None] when
    there is no atom (the handler alerts and returns). *)
Definition handleExportGLTF (threshold : R) (atoms : list Atom)
           (atomPositions : list Vector3)
           (bondingPairs : list Bond) (moleculeName : option string)
  : option (list ascii * list ExportMesh * list BondGroup) :=
  if (length atoms =? 0)%nat then None
  else
    Some (export_baseName moleculeName ++ list_ascii_of_string ".glb",
          concat (imap (export_atom atomPositions) atoms),
          omap (export_bond threshold atomPositions) bondingPairs).

(** [snakeToCamel(str)]: every [-] or [_] that is followed by a small
    letter is removed and the letter made a capital. *)
Fixpoint snakeToCamel (str : list ascii) : list ascii :=
  match str with
  | c :: rest =>
      match rest with
      | l :: rest' =>
          if (Ascii.eqb c "-" || Ascii.eqb c "_") && is_lower l
          then ascii_of_nat (nat_of_ascii l - 32) :: snakeToCamel rest'
          else c :: snakeToCamel rest
      | [] => [c]
      end
  | [] => []
  end.

(** ** Formulas in the format of the input field *)

(** An element symbol with its count as they are written in a formula:
    a capital letter, possibly a small letter, and a possibly empty run
    of digits. *)
Record FormulaItem : Type := mkItem {
  item_upper : ascii;
  item_lower : option ascii;
  item_digits : list ascii
}.

Definition item_symbol (it : FormulaItem) : list ascii :=
  item_upper it :: match item_lower it with Some l => [l] | None => [] end.

Definition item_text (it : FormulaItem) : list ascii :=
  item_symbol it ++ item_digits it.

(** The count an item stands for: one when no digit is written. *)
Definition item_count (it : FormulaItem) : Z :=
  match item_digits it with
  | [] => 1%Z
  | _ :: _ => decimal_value (item_digits it)
  end.

Definition item_ok (it : FormulaItem) : Prop :=
  is_upper (item_upper it) = true
  /\ (forall l, item_lower it = Some l -> is_lower l = true)
  /\ Forall (fun d => is_digit d = true) (item_digits it).

(** The parts of a formula, written with a dot between them. *)
Fixpoint join_dots (parts : list (list ascii)) : list ascii :=
  match parts with
  | [] => []
  | [p] => p
  | p :: rest => p ++ "."%char :: join_dots rest
  end.

(** The text of a formula made of groups of items, as in [CH3.CH2.OH]. *)
Definition formula_text (groups : list (list FormulaItem)) : list ascii :=
  join_dots (map (fun g => concat (map item_text g)) groups).

(** An element of the list has the symbol [s]. *)
Definition known_symbol (elementList : list ElementInfo) (s : string) : Prop :=
  exists el, In el elementList /\ el_symbol el = s.

(** The formula of a list of items and what it expands to. *)

Section Grammar.

(** The element list and the symbol the list gives for an item. *)
Variable elementList : list ElementInfo.
Variable symbol_of : FormulaItem -> string.

(** Every item names an element of the list and has a count of at least
    one. *)
Definition items_known (items : list FormulaItem) : Prop :=
  forall it, In it items ->
    elementSymbolMap_get elementList (toLowerCase (item_symbol it)) = Some (symbol_of it)
    /\ (1 <= item_count it)%Z.

Definition expansion (items : list FormulaItem) : list string :=
  flat_map (fun it => replicate (Z.to_nat (item_count it)) (symbol_of it)) items.

End Grammar.

(* ================================================================== *)
(** * Predicates on the scene *)
(* ================================================================== *)

(** What a computation that draws from [Math.random] establishes when
    every draw lies in the unit interval: [Q] of its result, and a random
    source whose draws still lie in the unit interval. *)
Definition rand_post {A} (m : Rand A) (Q : A -> Prop) : Prop :=
  forall g, unit_draws g -> Q (fst (m g)) /\ unit_draws (snd (m g)).

(** The orbital key starts with a digit, its principal quantum number. *)
Definition key_has_principal (key : string) : Prop :=
  exists c, String.get 0 key = Some c /\ is_digit c = true.

(** [baseRadius] of an orbital, and the largest distance from the
    nucleus at which [getRandomPointInOrbital] places an electron. *)
Definition baseRadius_of (key : string) (scale : R) : R :=
  9 / 10 * principal_of key * scale.

Definition orbital_reach (key : string) (scale : R) : R :=
  18 / 10 * baseRadius_of key scale.

(** The point [p] lies in the ball of a sphere mesh. *)
Definition sphere_mesh_contains (o : Object3D) (p : Vector3) : Prop :=
  match o with
  | Mesh (SphereGeometry r _ _) _ pos _ => distanceTo p pos <= r
  | _ => False
  end.

(** The point [p] lies in a sphere mesh that is [o] or a child of the
    group [o], a group that is neither moved nor turned. *)
Definition shape_contains (o : Object3D) (p : Vector3) : Prop :=
  match o with
  | Mesh _ _ _ _ => sphere_mesh_contains o p
  | Group children pos rot =>
      pos = v3_zero /\ rot = v3_zero
      /\ exists child, In child children /\ sphere_mesh_contains child p
  end.

(** An electron of a Quantum cloud and its target are within the reach
    of its orbital. *)
Definition electron_within (scale : R) (anim : ElectronAnimationState) : Prop :=
  key_has_principal (orbitalKey anim)
  /\ v3_length (currentPosition anim) <= orbital_reach (orbitalKey anim) scale
  /\ v3_length (targetPosition anim) <= orbital_reach (orbitalKey anim) scale.

Definition cloud_within (obj : QuantumAnimatedObject) : Prop :=
  0 <= nucleus_scale (q_nucleus obj)
  /\ match electronCloud obj with
     | None => True
     | Some cloud =>
         Forall (electron_within (nucleus_scale (q_nucleus obj)))
                (electronAnimations cloud)
     end.

(** A quaternion of length one. *)
Definition q_unit (q : Quaternion) : Prop :=
  qx q * qx q + qy q * qy q + qz q * qz q + qw q * qw q = 1.

(** The electrons of a Classical model lie on the shells of [atom], one
    pivot each, and every pivot has an orientation of length one. *)
Definition on_shells (atom : Atom) (obj : AnimatedObject) : Prop :=
  electrons obj
  = concat (imap (fun i n => getSpherePoints n (shellRadius_at (atomScale_of atom) i))
                 (shells atom))
  /\ length (electronPivots obj) = length (electrons obj)
  /\ Forall (fun pv => q_unit (pivot_quaternion pv)) (electronPivots obj).

(** The ends of the axis of a bond cylinder of height one, in the frame
    of its group, and a point of that frame in the world. *)
Definition bond_axis_end (mesh : BondMesh) (top : bool) : Vector3 :=
  mkV3 (bond_offset mesh) (if top then 1 / 2 else - (1 / 2)) 0.

Definition bond_world (bg : BondGroup) (v : Vector3) : Vector3 :=
  compose_apply (bg_position bg) (bg_quaternion bg) (bg_scale bg) v.

(** The atoms of the scene carry their shells through the ticks. *)
Definition scene_on_shells (atoms : list Atom) (scene : Scene) : Prop :=
  Forall2 on_shells atoms (animatedObjects scene).

(* ================================================================== *)
(** * Predicates on parsed and loaded molecules *)
(* ================================================================== *)

(** The bonds and the set of bond keys the CONECT loops have built. *)
Definition conect_ok (N : nat) (acc : list Bond * list (nat * nat)) : Prop :=
  Forall (fun b => type b = 1%Z) (fst acc)
  /\ NoDup (map pair (fst acc))
  /\ Forall (fun b => (0 <= fst (pair b) <= snd (pair b))%Z
                      /\ (snd (pair b) < Z.of_nat N)%Z) (fst acc)
  /\ forall pr, bondSet_has (snd acc) pr = true
                <-> In (Z.of_nat (fst pr), Z.of_nat (snd pr)) (map pair (fst acc)).

(** The affine map of the centring: [q |-> (q - c) * s]. *)
Definition recenter (c : Vector3) (s : R) (q : Vector3) : Vector3 :=
  multiplyScalar (subVectors q c) s.

(** An orbital key as the regular expression of the configuration
    matches it: a non-empty run of digits and one of [s p d f]. *)
Definition orbital_key (key : string) : Prop :=
  exists ds t,
    key = string_of_list_ascii (ds ++ [t])
    /\ ds <> [] /\ Forall (fun c => is_digit c = true) ds /\ is_spdf t = true.

(** The number of electrons of a configuration. *)
Definition electron_count (config : JsObject Z) : nat :=
  list_sum (map (fun kv => Z.to_nat (snd kv)) config).

(** The keys of a configuration are orbital keys without repetition and
    the counts are not negative. *)
Definition config_ok (config : JsObject Z) : Prop :=
  Forall (fun kv => orbital_key (fst kv) /\ (0 <= snd kv)%Z) config
  /\ NoDup (map fst config).

(** The characters of an exported file's base name: digits, small
    letters and the underscore. *)
Definition file_char (c : ascii) : bool :=
  is_digit c || is_lower c || Ascii.eqb c "_".

(** The electron speed and the speed that slow motion restores lie in
    the range of the speed input, 0 to 100000 percent. *)
Definition speed_in_range (st : SpeedControls) : Prop :=
  0 <= sp_electronSpeed st <= 1000 /\ 0 <= sp_previousElectronSpeed st <= 1000.

(** An edit of the speed input: a change event or a blur event with the
    text of the field. *)
Inductive SpeedEdit : Type :=
| EditChange (value : list ascii)
| EditBlur (value : list ascii).

Definition speed_edit (parseFloat : list ascii -> option R) (st : SpeedControls)
           (e : SpeedEdit) : SpeedControls :=
  match e with
  | EditChange value => handleSpeedInputChange parseFloat value st
  | EditBlur value => handleSpeedInputBlur parseFloat value st
  end.

(** The events of a list of edits, handled in order. *)
Definition speed_edits (parseFloat : list ascii -> option R)
           (edits : list SpeedEdit) (st : SpeedControls) : SpeedControls :=
  fold_left (speed_edit parseFloat) edits st.

(* ================================================================== *)
(** * Example inputs of the application *)
(* ================================================================== *)

(** A [parseFloat] for texts that hold whole numbers. *)
Definition example_parseFloat (s : list ascii) : option R :=
  match parseInt s with
  | Some z => Some (IZR z)
  | None => None
  end.

Definition text_of_lines (ls : list string) : string :=
  String.concat (String "010"%char EmptyString) ls.

(** Water as an SDF record with whole coordinates. *)
Definition example_sdf : string :=
  text_of_lines
    ["water"; "  example"; " ";
     "  3  2  0  0  0  0  0  0  0  0999 V2000";
     "    0    0    0 O   0  0";
     "    1    0    0 H   0  0";
     "   -1    0    0 H   0  0";
     "  1  2  1  0";
     "  1  3  1  0";
     "M  END"]%string.

(** Two carbon atoms one unit apart as a PDB record without CONECT
    lines. *)
Definition example_pdb : string :=
  text_of_lines
    ["HEADER    EXAMPLE";
     "ATOM      1  C1  MOL A   1       0       0       0     1.00  0.00           C";
     "ATOM      2  C2  MOL A   1       1       0       0     1.00  0.00           C";
     "END"]%string.

Definition example_elements : list ElementInfo :=
  [mkElementInfo 1 "Hydrogen" "H"; mkElementInfo 6 "Carbon" "C";
   mkElementInfo 8 "Oxygen" "O"]%string.

(** The items of the formula [C2H6O]. *)
Definition example_items : list (list FormulaItem) :=
  [[mkItem "C" None ["2"%char]; mkItem "H" None ["6"%char]; mkItem "O" None []]].

Definition example_symbol_of (it : FormulaItem) : string :=
  string_of_list_ascii (item_symbol it).

(** What [parseSDF] reads from [example_sdf]. *)
Definition example_sdf_data : ParsedMoleculeData :=
  mkParsed "water" ["O"; "H"; "H"]%string
           [mkV3 0 0 0; mkV3 1 0 0; mkV3 (-1) 0 0]
           [mkBond (0, 1)%Z 1; mkBond (0, 2)%Z 1].

(** What [parsePDB] reads from [example_pdb]. *)
Definition example_pdb_data : ParsedMoleculeData :=
  mkParsed "cc" ["C"; "C"]%string [mkV3 0 0 0; mkV3 1 0 0]
           (inferred_bonds [mkV3 0 0 0; mkV3 1 0 0] ["C"; "C"]%string).

(** Two nuclei two units apart on the vertical axis, and the draws of a
    random source that always returns one half. *)
Definition example_nuclei : list Nucleus :=
  [mkNucleus v3_zero 1 "#ffffff" None; mkNucleus (mkV3 0 2 0) 1 "#ffffff" None].

Definition example_draws : RandomSource := fun _ => 1 / 2.

(* ================================================================== *)
(** * Theorems *)
(* ================================================================== *)

(** ** Vector facts *)

Lemma v3_length_multiplyScalar (v : Vector3) (s : R) :
  v3_length (multiplyScalar v s) = v3_length v * Rabs s.
Proof.
  unfold v3_length, multiplyScalar; simpl.
  replace (vx v * s * (vx v * s) + vy v * s * (vy v * s) + vz v * s * (vz v * s))
    with ((vx v * vx v + vy v * vy v + vz v * vz v) * (s * s)) by ring.
  rewrite sqrt_mult_alt by nra.
  f_equal. fold (Rsqr s). apply sqrt_Rsqr_abs.
Qed.

(** ** Math.cbrt is the real cube root *)

Lemma Rpower_third_cube (x : R) : 0 < x -> Rpower x (/ 3) ^ 3 = x.
Proof.
  intros Hx.
  rewrite <- (Rpower_pow 3) by apply exp_pos.
  rewrite Rpower_mult.
  replace (/ 3 * INR 3) with 1 by (simpl; field).
  now apply Rpower_1.
Qed.

Lemma Math_cbrt_cube (x : R) : Math_cbrt x ^ 3 = x.
Proof.
  unfold Math_cbrt.
  destruct (Rlt_dec 0 x) as [Hp|Hp].
  - now apply Rpower_third_cube.
  - destruct (Rlt_dec x 0) as [Hn|Hn].
    + replace ((- Rpower (- x) (/ 3)) ^ 3) with (- (Rpower (- x) (/ 3) ^ 3)) by ring.
      rewrite Rpower_third_cube; lra.
    + replace x with 0 by lra. ring.
Qed.

Lemma Math_cbrt_unit (w : R) : 0 <= w <= 1 -> 0 <= Math_cbrt w <= 1.
Proof.
  intros [H0 H1]. unfold Math_cbrt.
  destruct (Rlt_dec 0 w) as [Hp|Hp].
  - split.
    + left. apply exp_pos.
    + destruct (Rle_lt_dec (Rpower w (/ 3)) 1) as [Hle|Hgt]; [exact Hle|].
      exfalso.
      pose proof (Rpower_third_cube w Hp) as Hc.
      assert (1 < Rpower w (/ 3) ^ 3) by (simpl; nra).
      lra.
  - destruct (Rlt_dec w 0); lra.
Qed.

(** ** Geometry primitives *)

Lemma spec_spherical_length (rho theta phi : R) :
  v3_length (spec_spherical rho theta phi) = Rabs rho.
Proof.
  unfold v3_length, spec_spherical; simpl.
  pose proof (sin2_cos2 theta) as Ht. pose proof (sin2_cos2 phi) as Hp.
  unfold Rsqr in Ht, Hp.
  replace (rho * sin phi * cos theta * (rho * sin phi * cos theta) +
           rho * sin phi * sin theta * (rho * sin phi * sin theta) +
           rho * cos phi * (rho * cos phi))
    with (rho * rho * (sin phi * sin phi * (sin theta * sin theta + cos theta * cos theta)
                       + cos phi * cos phi)) by ring.
  rewrite Ht, Rmult_1_r, Hp, Rmult_1_r.
  fold (Rsqr rho). apply sqrt_Rsqr_abs.
Qed.

(** C8. With the three draws [u], [v], [w] of [Math.random] in the unit
    interval and a radius [r >= 0], [getRandomPointInSphere r] returns the
    point of spherical coordinates [rho = r * cbrt w], [theta = 2 pi u],
    [phi = acos (2 v - 1)]; its distance from the origin is [r * cbrt w],
    which is at most [r]; exactly three draws are consumed. *)
Theorem getRandomPointInSphere_within (radius : R) (g : RandomSource) :
  0 <= radius ->
  0 <= g 0%nat <= 1 -> 0 <= g 1%nat <= 1 -> 0 <= g 2%nat <= 1 ->
  let u := g 0%nat in
  let v := g 1%nat in
  let w := g 2%nat in
  let p := fst (getRandomPointInSphere radius g) in
  p = spec_spherical (radius * Math_cbrt w) (2 * PI * u) (acos (2 * v - 1))
  /\ v3_length p = radius * Math_cbrt w
  /\ v3_length p <= radius
  /\ distanceTo p v3_zero <= radius
  /\ Math_cbrt w ^ 3 = w
  /\ (forall n, snd (getRandomPointInSphere radius g) n = g (3 + n)%nat).
Proof.
  intros Hr Hu Hv Hw u v w p.
  assert (Hp : p = spec_spherical (radius * Math_cbrt w) (2 * PI * u) (acos (2 * v - 1)))
    by reflexivity.
  pose proof (Math_cbrt_unit w Hw) as [Hc0 Hc1].
  assert (Hlen : v3_length p = radius * Math_cbrt w).
  { rewrite Hp, spec_spherical_length. apply Rabs_right. nra. }
  repeat split.
  - exact Hlen.
  - rewrite Hlen. nra.
  - replace (distanceTo p v3_zero) with (v3_length p).
    + rewrite Hlen. nra.
    + unfold distanceTo, distanceToSquared, v3_length, v3_zero; simpl.
      f_equal. ring.
  - apply Math_cbrt_cube.
Qed.

Lemma getRandomPointInSphere_within_witness :
  v3_length (fst (getRandomPointInSphere 2 (fun _ => 1 / 2))) <= 2.
Proof.
  apply (getRandomPointInSphere_within 2 (fun _ => 1 / 2)); lra.
Defined.

Lemma spherePoint_length (samples : Z) (radius : R) (i : nat) :
  (1 < samples)%Z -> (i < Z.to_nat samples)%nat ->
  v3_length (spherePoint samples radius i) = Rabs radius.
Proof.
  intros Hs Hi. unfold spherePoint.
  rewrite v3_length_multiplyScalar.
  set (y := 1 - INR i / (IZR samples - 1) * 2).
  assert (Hn : 0 < IZR samples - 1).
  { apply IZR_lt in Hs. lra. }
  assert (Hi' : 0 <= INR i <= IZR samples - 1).
  { split; [apply pos_INR|].
    rewrite INR_IZR_INZ, <- minus_IZR. apply IZR_le. lia. }
  assert (Hq : 0 <= INR i / (IZR samples - 1) <= 1).
  { split.
    - apply Rmult_le_pos; [lra | left; now apply Rinv_0_lt_compat].
    - apply Rmult_le_reg_r with (IZR samples - 1); [lra|].
      unfold Rdiv. rewrite Rmult_assoc, Rinv_l by lra. lra. }
  assert (Hy : 0 <= 1 - y * y) by (unfold y; nra).
  replace (v3_length _) with 1; [ring|].
  unfold v3_length; simpl.
  set (r := sqrt (1 - y * y)).
  assert (Hr : r * r = 1 - y * y) by (apply sqrt_sqrt; exact Hy).
  pose proof (sin2_cos2 (golden_angle * INR i)) as Ht. unfold Rsqr in Ht.
  set (c := cos (golden_angle * INR i)) in *.
  set (s := sin (golden_angle * INR i)) in *.
  replace (c * r * (c * r) + y * y + s * r * (s * r))
    with ((s * s + c * c) * (r * r) + y * y) by ring.
  rewrite Ht, Hr. replace (1 * (1 - y * y) + y * y) with 1 by ring.
  symmetry. apply sqrt_1.
Qed.

Lemma spherePoint_spec (samples : Z) (radius : R) (i : nat) :
  spherePoint samples radius i = spec_golden_point samples radius i.
Proof.
  unfold spherePoint, spec_golden_point, multiplyScalar, golden_angle; simpl.
  replace (1 - INR i / (IZR samples - 1) * 2)
    with (1 - 2 * INR i / (IZR samples - 1)) by (unfold Rdiv; ring).
  set (y := 1 - 2 * INR i / (IZR samples - 1)).
  replace (y * (y * 1)) with (y * y) by ring.
  replace (PI * (3 - sqrt 5) * INR i) with (INR i * (PI * (3 - sqrt 5))) by ring.
  f_equal; ring.
Qed.

Lemma getSpherePoints_length (samples : Z) (radius : R) :
  length (getSpherePoints samples radius) = Z.to_nat samples.
Proof.
  unfold getSpherePoints.
  destruct (Z.leb_spec samples 0) as [H|H]; [simpl; lia|].
  destruct (Z.eqb_spec samples 1) as [->|H1]; [reflexivity|].
  now rewrite length_map, length_seq.
Qed.

Lemma getSpherePoints_on_sphere (samples : Z) (radius : R) (p : Vector3) :
  In p (getSpherePoints samples radius) -> v3_length p = Rabs radius.
Proof.
  unfold getSpherePoints.
  destruct (Z.leb_spec samples 0) as [H|H]; [intros []|].
  destruct (Z.eqb_spec samples 1) as [->|H1].
  - intros [<-|[]]. unfold v3_length; simpl.
    replace (0 * 0 + radius * radius + 0 * 0) with (Rsqr radius) by (unfold Rsqr; ring).
    apply sqrt_Rsqr_abs.
  - intros Hin. apply in_map_iff in Hin as (i & <- & Hi).
    apply in_seq in Hi. apply spherePoint_length; lia.
Qed.

(** C3. [getSpherePoints count radius] is a function of its arguments
    and, for [count >= 0], returns exactly [count] points: none for
    [count = 0], the pole [(0, radius, 0)] for [count = 1], and otherwise
    at each index [i < count] the golden-angle point of the
    specification.  Every returned point lies at distance [|radius|] from
    the origin, which is [radius] for a radius that is not negative. *)
Theorem getSpherePoints_spec (count : Z) (radius : R) :
  (0 <= count)%Z ->
  length (getSpherePoints count radius) = Z.to_nat count
  /\ (count = 0%Z -> getSpherePoints count radius = [])
  /\ (count = 1%Z -> getSpherePoints count radius = [mkV3 0 radius 0])
  /\ ((1 < count)%Z -> forall i : nat, (i < Z.to_nat count)%nat ->
        getSpherePoints count radius !! i
        = Some (spec_golden_point count radius i))
  /\ (forall p, In p (getSpherePoints count radius) -> v3_length p = Rabs radius)
  /\ (0 <= radius ->
      forall p, In p (getSpherePoints count radius) ->
                v3_length p = radius /\ distanceTo p v3_zero = radius).
Proof.
  intros Hc. split; [apply getSpherePoints_length|].
  split; [intros ->; reflexivity|].
  split; [intros ->; reflexivity|].
  split.
  - intros H1 i Hi. unfold getSpherePoints.
    destruct (Z.leb_spec count 0) as [H|H]; [lia|].
    destruct (Z.eqb_spec count 1) as [->|Hne]; [lia|].
    rewrite list_lookup_fmap, lookup_seq_lt by exact Hi.
    simpl. f_equal. apply spherePoint_spec.
  - split; [apply getSpherePoints_on_sphere|].
    intros Hr p Hp.
    assert (Hl : v3_length p = radius).
    { rewrite (getSpherePoints_on_sphere _ _ _ Hp). now apply Rabs_right, Rle_ge. }
    split; [exact Hl|].
    rewrite <- Hl. unfold distanceTo, distanceToSquared, v3_length, v3_zero; simpl.
    f_equal. ring.
Qed.

Lemma getSpherePoints_spec_witness :
  length (getSpherePoints 3 2) = 3%nat
  /\ getSpherePoints 3 2 !! 1%nat = Some (spec_golden_point 3 2 1).
Proof.
  pose proof (getSpherePoints_spec 3 2 ltac:(lia)) as (Hlen & _ & _ & Hpt & _).
  split; [exact Hlen|].
  apply Hpt; [lia|]. simpl. lia.
Defined.

(** ** Atom models *)

Lemma mapM_lookup_seq {A} (l : list A) :
  mapM (fun i => l !! i) (seq 0 (length l)) = Some l.
Proof.
  apply mapM_Some_2, Forall2_same_length_lookup_2.
  - now rewrite length_seq.
  - intros i x y Hx Hy. apply lookup_seq in Hx as [-> _]. exact Hy.
Qed.

Lemma shell_electrons_total (numElectrons : Z) (radius : R) :
  shell_electrons numElectrons (getSpherePoints numElectrons radius)
  = Some (getSpherePoints numElectrons radius).
Proof.
  unfold shell_electrons.
  rewrite <- (getSpherePoints_length numElectrons radius).
  apply mapM_lookup_seq.
Qed.

Lemma build_shell_total (atomScale : R) (shellIndex : nat) (numElectrons : Z) :
  build_shell atomScale shellIndex numElectrons
  = Some (mkShellPath (shellRadius_at atomScale shellIndex) (2 / 100 * atomScale)
                      v3_zero (3 / 10),
          getSpherePoints numElectrons (shellRadius_at atomScale shellIndex)).
Proof.
  unfold build_shell. now rewrite shell_electrons_total.
Qed.

(** What [atom.shells.forEach] builds, shell by shell. *)
Lemma build_shells_total (atomScale : R) (shs : list Z) :
  mapM (fun '(shellIndex, numElectrons) =>
          build_shell atomScale shellIndex numElectrons)
       (imap (fun i n => (i, n)) shs)
  = Some (imap (fun i n =>
                  (mkShellPath (shellRadius_at atomScale i) (2 / 100 * atomScale)
                               v3_zero (3 / 10),
                   getSpherePoints n (shellRadius_at atomScale i))) shs).
Proof.
  apply mapM_Some_2, Forall2_same_length_lookup_2.
  - now rewrite !length_imap.
  - intros i [j n] y Hx Hy.
    rewrite list_lookup_imap in Hx. rewrite list_lookup_imap in Hy.
    destruct (shs !! i) as [n'|]; simpl in *; [|discriminate].
    injection Hx as <- <-. injection Hy as <-.
    apply build_shell_total.
Qed.

Lemma flat_map_concat_map {A B} (f : A -> list B) (l : list A) :
  flat_map f l = concat (map f l).
Proof. induction l as [|a l IH]; simpl; [reflexivity|now rewrite IH]. Qed.

(** The electrons of the shells, shell by shell. *)
Lemma length_concat_spherePoints (atomScale : R) (shs : list Z) (k : nat) :
  length (concat (imap (fun i n => getSpherePoints n (shellRadius_at atomScale (k + i)))
                       shs))
  = list_sum (map Z.to_nat shs).
Proof.
  revert k. induction shs as [|n shs IH]; intros k; [reflexivity|].
  simpl. rewrite length_app, getSpherePoints_length. f_equal.
  rewrite <- (IH (S k)). do 2 f_equal. apply imap_ext. intros i x _. simpl.
  do 2 f_equal. lia.
Qed.

Lemma createAtomModel_total (atom : Atom) (position : Vector3)
      (trailLength : Z) (trailOpacity : R) :
  exists m,
    createAtomModel atom position trailLength trailOpacity = Some m
    /\ nucleus m = new_nucleus atom position
    /\ shellPaths m
       = imap (fun i _ => mkShellPath (shellRadius_at (atomScale_of atom) i)
                                      (2 / 100 * atomScale_of atom) v3_zero (3 / 10))
              (shells atom)
    /\ electrons m
       = concat (imap (fun i n => getSpherePoints n (shellRadius_at (atomScale_of atom) i))
                      (shells atom))
    /\ electronPivots m = map (fun _ => new_pivot) (electrons m).
Proof.
  unfold createAtomModel. rewrite build_shells_total.
  eexists. split; [reflexivity|]. simpl.
  split; [reflexivity|].
  split.
  { change (map fst ?l) with (fst <$> l). now rewrite fmap_imap. }
  split; [|reflexivity].
  rewrite flat_map_concat_map. f_equal.
  change (map snd ?l) with (snd <$> l). now rewrite fmap_imap.
Qed.

Lemma orbital_shapes_for_zero (key : string) (scale : R) :
  orbital_shapes_for key 0 scale = [].
Proof. reflexivity. Qed.

Lemma createOrbitalShapes_skips_zero (config : JsObject Z) (scale : R) :
  createOrbitalShapes (List.filter (fun kv => negb (snd kv =? 0)%Z) config) scale
  = createOrbitalShapes config scale.
Proof.
  unfold createOrbitalShapes. f_equal.
  induction config as [|[k n] config IH]; [reflexivity|].
  simpl. destruct (Z.eqb_spec n 0) as [->|Hn]; simpl.
  - exact IH.
  - now rewrite IH.
Qed.

(** C7, as the code has it.  For every atom the Classical builder
    succeeds and makes one ring-path object per shell entry, also for an
    entry of zero electrons; the electrons, one pivot each, are those of
    the shells in order, so that a shell entry of zero electrons adds no
    electron and no pivot.  In the Orbital variant an orbital key mapped
    to zero electrons adds no shape: the group is the one built from the
    configuration without its zero entries. *)
Theorem zero_electrons_geometry (atom : Atom) (position : Vector3)
        (trailLength : Z) (trailOpacity : R) :
  (exists m,
      createAtomModel atom position trailLength trailOpacity = Some m
      /\ length (shellPaths m) = length (shells atom)
      /\ electrons m
         = concat (imap (fun i n => getSpherePoints n (shellRadius_at (atomScale_of atom) i))
                        (shells atom))
      /\ length (electrons m) = list_sum (map Z.to_nat (shells atom))
      /\ length (electronPivots m) = length (electrons m))
  /\ (forall shellIndex,
         exists ring, build_shell (atomScale_of atom) shellIndex 0 = Some (ring, []))
  /\ (forall key scale, orbital_shapes_for key 0 scale = [])
  /\ (forall config scale,
         createOrbitalShapes (List.filter (fun kv => negb (snd kv =? 0)%Z) config) scale
         = createOrbitalShapes config scale).
Proof.
  split.
  - destruct (createAtomModel_total atom position trailLength trailOpacity)
      as (m & Hm & _ & Hsh & Hel & Hpv).
    exists m. split; [exact Hm|].
    split; [now rewrite Hsh, length_imap|].
    split; [exact Hel|].
    split.
    + rewrite Hel.
      exact (length_concat_spherePoints (atomScale_of atom) (shells atom) 0).
    + now rewrite Hpv, length_map.
  - split.
    + intros shellIndex. eexists. apply build_shell_total.
    + split; [exact orbital_shapes_for_zero | exact createOrbitalShapes_skips_zero].
Qed.

(** C7, counterexample to the claim as stated: the model of an atom whose
    only shell entry holds zero electrons has a ring-path object for that
    shell (and no pivot). *)
Lemma zero_shell_has_ring :
  exists m,
    createAtomModel (mkAtom "X" 1 [0%Z] EmptyString None) v3_zero 15 1 = Some m
    /\ length (shellPaths m) = 1%nat
    /\ electronPivots m = [].
Proof.
  eexists. split; [reflexivity|]. split; reflexivity.
Qed.

(** ** Scene rebuild *)

Lemma rand_mapM_length {A B} (f : A -> Rand B) (l : list A) (g : RandomSource) :
  length (fst (rand_mapM f l g)) = length l.
Proof.
  revert g. induction l as [|a l IH]; intros g; [reflexivity|].
  simpl. unfold rand_bind. destruct (f a g) as [b g1].
  specialize (IH g1). destruct (rand_mapM f l g1) as [bs g2]. simpl in *.
  now rewrite IH.
Qed.

(** Each result of [rand_mapM] is the result of the body on the element
    of the same index, for some state of the random source. *)
Lemma rand_mapM_lookup {A B} (f : A -> Rand B) (l : list A) (g : RandomSource)
      (i : nat) (a : A) :
  l !! i = Some a ->
  exists g', fst (rand_mapM f l g) !! i = Some (fst (f a g')).
Proof.
  revert g i. induction l as [|x l IH]; intros g i Hi; [discriminate|].
  simpl. unfold rand_bind.
  destruct (f x g) as [b g1] eqn:Hf.
  destruct (rand_mapM f l g1) as [bs g2] eqn:Hm. simpl.
  destruct i as [|i]; simpl in *.
  - injection Hi as ->. exists g. now rewrite Hf.
  - destruct (IH g1 i Hi) as [g' Hg']. exists g'. now rewrite Hm in Hg'.
Qed.

Lemma build_bonds_spec (natoms : nat) (bondingPairs0 : list Bond) :
  build_bonds natoms bondingPairs0
  = map new_bond_group
        (List.filter (fun b => (1 <? natoms)%nat && bond_in_range natoms b)
                     bondingPairs0).
Proof.
  unfold build_bonds.
  destruct (Nat.ltb_spec 1 natoms) as [H|H]; simpl.
  - destruct bondingPairs0; reflexivity.
  - rewrite andb_false_r.
    induction bondingPairs0 as [|b l IH]; [reflexivity|exact IH].
Qed.

Lemma createQuantumAtomModel_nucleus (atom : Atom) (position : Vector3)
      (g : RandomSource) :
  q_nucleus (fst (createQuantumAtomModel atom position g)) = new_nucleus atom position.
Proof.
  unfold createQuantumAtomModel.
  destruct (flat_map _ (parseElectronConfiguration _)) as [|k ks]; [reflexivity|].
  unfold rand_bind.
  destruct (rand_mapM _ (k :: ks) g) as [anims g']. reflexivity.
Qed.

(** The Classical models of a rebuild: one per atom, none missing. *)
Lemma rebuild_bohr_objects (atoms0 : list Atom) (atomPositions0 : list Vector3)
      (trailLength0 : Z) (trailOpacity0 : R) :
  exists objs,
    mapM (fun '(index, atom) =>
            match createAtomModel atom (position_of atomPositions0 index)
                                  trailLength0 trailOpacity0 with
            | Some o =>
                Some (mkAnimated (set_userData (nucleus o) (symbol atom) index)
                                 (shellPaths o) (electronPivots o) (electrons o)
                                 (electronTrails o))
            | None => None
            end)
         (imap (fun i a => (i, a)) atoms0) = Some objs
    /\ length objs = length atoms0
    /\ forall i atom, atoms0 !! i = Some atom ->
         exists o, objs !! i = Some o
                   /\ nucleus o = set_userData
                                    (new_nucleus atom (position_of atomPositions0 i))
                                    (symbol atom) i.
Proof.
  set (F := fun '(index, atom) => _).
  assert (Hall : Forall (is_Some ∘ F) (imap (fun i a => (i, a)) atoms0)).
  { apply Forall_forall. intros [i a] _. unfold F; simpl.
    destruct (createAtomModel_total a (position_of atomPositions0 i)
                                    trailLength0 trailOpacity0) as (m & -> & _).
    eexists; reflexivity. }
  apply mapM_is_Some_2 in Hall as [objs Hobjs].
  exists objs. split; [exact Hobjs|].
  pose proof (length_mapM _ _ _ Hobjs) as Hlen. rewrite length_imap in Hlen.
  split; [now symmetry|].
  intros i atom Hi.
  apply mapM_Some_1 in Hobjs.
  assert (Hx : imap (fun i a => (i, a)) atoms0 !! i = Some (i, atom))
    by now rewrite list_lookup_imap, Hi.
  destruct (Forall2_lookup_l _ _ _ _ _ Hobjs Hx) as (o & Ho & HF).
  exists o. split; [exact Ho|].
  unfold F in HF.
  destruct (createAtomModel_total atom (position_of atomPositions0 i)
                                  trailLength0 trailOpacity0) as (m & Hm & Hn & _).
  rewrite Hm in HF. injection HF as <-. simpl. now rewrite Hn.
Qed.

Lemma fst_rand_bind_ret {A B} (m : Rand A) (h : A -> B) (g : RandomSource) :
  fst (rand_bind m (fun a => rand_ret (h a)) g) = h (fst (m g)).
Proof. unfold rand_bind, rand_ret. now destruct (m g). Qed.

(** The Quantum models of a rebuild: one per atom. *)
Lemma rebuild_quantum_objects (atoms0 : list Atom) (atomPositions0 : list Vector3)
      (g : RandomSource) :
  let objs :=
    fst (rand_mapM
           (fun '(index, atom) =>
              let* o := createQuantumAtomModel atom (position_of atomPositions0 index) in
              rand_ret (mkQuantum (set_userData (q_nucleus o) (symbol atom) index)
                                  (orbitals o) (electronCloud o)))
           (imap (fun i a => (i, a)) atoms0) g) in
  length objs = length atoms0
  /\ forall i atom, atoms0 !! i = Some atom ->
       exists o, objs !! i = Some o
                 /\ q_nucleus o = set_userData
                                    (new_nucleus atom (position_of atomPositions0 i))
                                    (symbol atom) i.
Proof.
  intros objs. split.
  - unfold objs. rewrite rand_mapM_length. apply length_imap.
  - intros i atom Hi.
    assert (Hx : imap (fun i a => (i, a)) atoms0 !! i = Some (i, atom))
      by now rewrite list_lookup_imap, Hi.
    unfold objs.
    match goal with
    | |- context [rand_mapM ?F _ _] => destruct (rand_mapM_lookup F _ g _ _ Hx) as [g1 Hg1]
    end.
    eexists. split; [exact Hg1|].
    rewrite fst_rand_bind_ret. simpl.
    now rewrite createQuantumAtomModel_nucleus.
Qed.

(** A rebuild never throws: it returns a scene with the bond groups of
    [build_bonds] and one nucleus per atom, at the atom's position. *)
Lemma rebuild_scene (atoms0 : list Atom) (atomPositions0 : list Vector3)
      (bondingPairs0 : list Bond) (mode : VisualizationMode)
      (trailLength0 : Z) (trailOpacity0 : R) (g : RandomSource) :
  exists scene,
    fst (rebuild atoms0 atomPositions0 bondingPairs0 mode trailLength0 trailOpacity0 g)
    = Some scene
    /\ bonds scene = build_bonds (length atoms0) bondingPairs0
    /\ length (scene_nuclei mode scene) = length atoms0
    /\ (forall i atom, atoms0 !! i = Some atom ->
          scene_nuclei mode scene !! i
          = Some (set_userData (new_nucleus atom (position_of atomPositions0 i))
                               (symbol atom) i)).
Proof.
  unfold rebuild. destruct mode.
  - destruct (rebuild_bohr_objects atoms0 atomPositions0 trailLength0 trailOpacity0)
      as (objs & Hobjs & Hlen & Hnuc).
    unfold rand_ret. simpl. rewrite Hobjs.
    eexists. split; [reflexivity|]. simpl.
    split; [reflexivity|].
    split; [now rewrite length_map|].
    intros i atom Hi. destruct (Hnuc i atom Hi) as (o & Ho & Hn).
    change (map nucleus objs) with (nucleus <$> objs).
    now rewrite list_lookup_fmap, Ho, <- Hn.
  - destruct (rebuild_quantum_objects atoms0 atomPositions0 g) as [Hlen Hnuc].
    rewrite fst_rand_bind_ret.
    eexists. split; [reflexivity|]. simpl.
    split; [reflexivity|].
    split; [now rewrite length_map|].
    intros i atom Hi. destruct (Hnuc i atom Hi) as (o & Ho & Hn).
    match goal with
    | |- map q_nucleus ?l !! _ = _ => change (map q_nucleus l) with (q_nucleus <$> l)
    end.
    now rewrite list_lookup_fmap, Ho, <- Hn.
Qed.

(** C6, as the code has it.  A rebuild never throws; it builds one atom
    model per atom, each nucleus at its position of the position list,
    and the bond groups of exactly those bonds, in order, for which there
    are at least two atoms and both endpoint indices are below the number
    of atoms; every other bond is dropped. *)
Theorem rebuild_bond_models (atoms0 : list Atom) (atomPositions0 : list Vector3)
        (bondingPairs0 : list Bond) (mode : VisualizationMode)
        (trailLength0 : Z) (trailOpacity0 : R) (g : RandomSource) :
  exists scene,
    fst (rebuild atoms0 atomPositions0 bondingPairs0 mode trailLength0 trailOpacity0 g)
    = Some scene
    /\ bonds scene
       = map new_bond_group
             (List.filter (fun b => (1 <? length atoms0)%nat
                                    && bond_in_range (length atoms0) b)
                          bondingPairs0)
    /\ (forall b, In b bondingPairs0 ->
          (In (new_bond_group b) (bonds scene)
           <-> (1 < length atoms0)%nat
               /\ (fst (pair b) < Z.of_nat (length atoms0))%Z
               /\ (snd (pair b) < Z.of_nat (length atoms0))%Z))
    /\ length (scene_nuclei mode scene) = length atoms0
    /\ (forall i atom, atoms0 !! i = Some atom ->
          scene_nuclei mode scene !! i
          = Some (set_userData (new_nucleus atom (position_of atomPositions0 i))
                               (symbol atom) i)).
Proof.
  destruct (rebuild_scene atoms0 atomPositions0 bondingPairs0 mode trailLength0
                          trailOpacity0 g) as (scene & Hs & Hb & Hlen & Hnuc).
  exists scene. split; [exact Hs|].
  rewrite Hb, build_bonds_spec.
  split; [reflexivity|].
  split; [|split; [exact Hlen|exact Hnuc]].
  intros b Hin. rewrite in_map_iff.
  assert (Hc : forall b', (1 <? length atoms0)%nat && bond_in_range (length atoms0) b' = true
                 <-> (1 < length atoms0)%nat
                     /\ (fst (pair b') < Z.of_nat (length atoms0))%Z
                     /\ (snd (pair b') < Z.of_nat (length atoms0))%Z).
  { intros b'. unfold bond_in_range.
    rewrite !andb_true_iff, Nat.ltb_lt, !Z.ltb_lt. tauto. }
  split.
  - intros (b' & Heq & Hb'). apply filter_In in Hb' as [_ Hb'].
    apply Hc in Hb'. unfold new_bond_group in Heq.
    injection Heq as Hp _. now rewrite <- Hp.
  - intros H. exists b. split; [reflexivity|].
    apply filter_In. split; [exact Hin|now apply Hc].
Qed.

(** C6, counterexample to the claim as stated: with a single atom and the
    bond [(0, 0)], both endpoint indices are below the number of atoms,
    yet the rebuild constructs no bond model. *)
Lemma rebuild_single_atom_bond_dropped :
  let atom := mkAtom "H" 1 [1%Z] "1s1" None in
  let bond := mkBond (0, 0)%Z 1 in
  bond_in_range (length [atom]) bond = true
  /\ exists scene,
       fst (rebuild [atom] [v3_zero] [bond] bohr 15 1 (fun _ => 0)) = Some scene
       /\ bonds scene = [].
Proof.
  simpl. split; [reflexivity|].
  destruct (rebuild_scene [mkAtom "H" 1 [1%Z] "1s1" None] [v3_zero]
                          [mkBond (0, 0)%Z 1] bohr 15 1 (fun _ => 0))
    as (scene & Hs & Hb & _).
  exists scene. split; [exact Hs|]. rewrite Hb. reflexivity.
Qed.

(** The scenario of the specification: with three atoms, a bond to atom
    index 5 is dropped and the other bonds are built. *)
Lemma rebuild_drops_bond_to_index_5 (a0 a1 a2 : Atom) (ps : list Vector3)
      (mode : VisualizationMode) (len : Z) (op : R) (g : RandomSource) :
  exists scene,
    fst (rebuild [a0; a1; a2] ps
                 [mkBond (0, 1)%Z 1; mkBond (0, 5)%Z 1; mkBond (1, 2)%Z 2] mode len op g)
    = Some scene
    /\ map bg_pair (bonds scene) = [(0, 1)%Z; (1, 2)%Z]
    /\ length (scene_nuclei mode scene) = 3%nat.
Proof.
  destruct (rebuild_scene [a0; a1; a2] ps
              [mkBond (0, 1)%Z 1; mkBond (0, 5)%Z 1; mkBond (1, 2)%Z 2] mode len op g)
    as (scene & Hs & Hb & Hn & _).
  exists scene. split; [exact Hs|]. split; [now rewrite Hb|exact Hn].
Qed.

(** ** Trail buffers *)

Lemma shift_trail_fold (ps : list Vector3) (s L : nat) :
  shift_trail ps s L
  = fold_right (fun i acc => setXYZ acc (s + i) (getXYZ acc (s + i - 1)))
               ps (seq 1 (L - 1)).
Proof. unfold shift_trail. now rewrite <- fold_left_rev_right, rev_involutive. Qed.

(** The loop that shifts the slots [k .. k+m-1] of the segment at [s]:
    each of them receives the sample before it, the rest is untouched. *)
Lemma shift_loop_lookup (ps : list Vector3) (s : nat) (m k : nat) :
  (1 <= k)%nat -> (s + k + m <= length ps)%nat ->
  let out := fold_right (fun i acc => setXYZ acc (s + i) (getXYZ acc (s + i - 1)))
                        ps (seq k m) in
  length out = length ps
  /\ forall j, out !! j = if decide (s + k <= j < s + k + m)%nat then ps !! (j - 1)%nat
                          else ps !! j.
Proof.
  revert k. induction m as [|m IH]; intros k Hk Hlen out.
  - subst out. simpl. split; [reflexivity|]. intros j.
    destruct (decide _) as [H|H]; [lia|reflexivity].
  - subst out. simpl.
    destruct (IH (S k) ltac:(lia) ltac:(lia)) as [IHlen IHj].
    set (acc := fold_right _ ps (seq (S k) m)) in *.
    unfold setXYZ, getXYZ. split; [now rewrite length_insert|].
    intros j.
    assert (Hprev : acc !! (s + k - 1)%nat = ps !! (s + k - 1)%nat).
    { rewrite IHj. destruct (decide _) as [H|H]; [lia|reflexivity]. }
    destruct (lookup_lt_is_Some_2 ps (s + k - 1)%nat ltac:(lia)) as [v Hv].
    rewrite Hprev, Hv. simpl.
    destruct (decide (j = s + k)%nat) as [->|Hne].
    + rewrite list_lookup_insert_eq by lia.
      destruct (decide _) as [H|H]; [now rewrite Hv|lia].
    + rewrite list_lookup_insert_ne by lia. rewrite IHj.
      destruct (decide _) as [H|H]; destruct (decide _) as [H'|H']; try lia; reflexivity.
Qed.

Lemma shift_trail_length (ps : list Vector3) (s L : nat) :
  length (shift_trail ps s L) = length ps.
Proof.
  rewrite shift_trail_fold.
  induction (seq 1 (L - 1)) as [|i l IH]; simpl; [reflexivity|].
  unfold setXYZ. now rewrite length_insert.
Qed.

Lemma push_sample_length (ps : list Vector3) (e L : nat) (head : Vector3) :
  length (push_sample ps e L head) = length ps.
Proof.
  unfold push_sample, setXYZ. now rewrite length_insert, shift_trail_length.
Qed.

Lemma push_samples_length (heads : list Vector3) (ps : list Vector3) (e L : nat) :
  length (push_samples ps e L heads) = length ps.
Proof.
  revert ps e. induction heads as [|h heads IH]; intros ps e; simpl; [reflexivity|].
  now rewrite IH, push_sample_length.
Qed.

(** One electron's update: the head sample at the first slot of its
    segment, every other slot of the segment holding the sample that was
    one slot before, every slot outside the segment untouched. *)
Lemma push_sample_lookup (ps : list Vector3) (e L : nat) (head : Vector3) :
  (1 <= L)%nat -> (e * L + L <= length ps)%nat ->
  let out := push_sample ps e L head in
  out !! (e * L)%nat = Some head
  /\ (forall i, (1 <= i < L)%nat -> out !! (e * L + i)%nat = ps !! (e * L + i - 1)%nat)
  /\ (forall j, (j < e * L \/ e * L + L <= j)%nat -> out !! j = ps !! j).
Proof.
  intros HL Hlen out. subst out. unfold push_sample. rewrite shift_trail_fold.
  destruct (shift_loop_lookup ps (e * L) (L - 1) 1 ltac:(lia) ltac:(lia)) as [Hl Hj].
  set (sh := fold_right _ ps (seq 1 (L - 1))) in *.
  unfold setXYZ. split; [|split].
  - apply list_lookup_insert_eq. lia.
  - intros i Hi. rewrite list_lookup_insert_ne by lia. rewrite Hj.
    destruct (decide _) as [H|H]; [reflexivity|lia].
  - intros j Hout. rewrite list_lookup_insert_ne by lia. rewrite Hj.
    destruct (decide _) as [H|H]; [lia|reflexivity].
Qed.

(** All electrons of one buffer, from electron [e0] on. *)
Lemma push_samples_lookup (heads : list Vector3) (ps : list Vector3) (e0 L : nat) :
  (1 <= L)%nat -> ((e0 + length heads) * L <= length ps)%nat ->
  let out := push_samples ps e0 L heads in
  (forall k h, heads !! k = Some h -> out !! ((e0 + k) * L)%nat = Some h)
  /\ (forall k i, (k < length heads)%nat -> (1 <= i < L)%nat ->
        out !! ((e0 + k) * L + i)%nat = ps !! ((e0 + k) * L + i - 1)%nat)
  /\ (forall j, (j < e0 * L \/ (e0 + length heads) * L <= j)%nat -> out !! j = ps !! j).
Proof.
  intros HL. revert ps e0.
  induction heads as [|h heads IH]; intros ps e0 Hlen out; subst out; simpl.
  - split; [intros k h Hk; discriminate|].
    split; [intros k i Hk; simpl in Hk; lia|reflexivity].
  - simpl in Hlen.
    assert (Hseg : (e0 * L + L <= length ps)%nat) by nia.
    destruct (push_sample_lookup ps e0 L h HL Hseg) as (Hhead & Hin & Hout).
    set (ps1 := push_sample ps e0 L h) in *.
    assert (Hlen1 : ((S e0 + length heads) * L <= length ps1)%nat).
    { unfold ps1. rewrite push_sample_length. nia. }
    destruct (IH ps1 (S e0) Hlen1) as (IHhead & IHin & IHout).
    split; [|split].
    + intros [|k] h' Hk; simpl in Hk.
      * injection Hk as <-. rewrite IHout by nia.
        replace (e0 + 0)%nat with e0 by lia. exact Hhead.
      * replace (e0 + S k)%nat with (S e0 + k)%nat by lia. now apply IHhead.
    + intros [|k] i Hk Hi.
      * replace (e0 + 0)%nat with e0 by lia.
        rewrite IHout by nia. now apply Hin.
      * replace (e0 + S k)%nat with (S e0 + k)%nat by lia.
        rewrite IHin by (simpl in Hk; lia). apply Hout. nia.
    + intros j Hj. rewrite IHout by nia. apply Hout. nia.
Qed.

(** ** What one tick does to the scene *)

Lemma animate_bohr_objects {threshold : R} (pairs : list Bond) (delta : R)
      (st : AnimationState)
      (scene : Scene) (g : RandomSource) :
  animatedObjects (fst (animate threshold bohr pairs delta st scene g))
  = map bohr_update_trails
        (imap (bohr_update_object delta (speed st) (state_bondingProgress st) pairs
                                  (animatedObjects scene))
              (animatedObjects scene)).
Proof.
  unfold animate, scene_nuclei. rewrite List.length_map.
  destruct (animatedObjects scene) as [|o objs] eqn:Ho; [simpl; now rewrite Ho|].
  reflexivity.
Qed.

Lemma rand_bind_eq {A B} (m : Rand A) (k : A -> Rand B) (g : RandomSource) :
  rand_bind m k g = k (fst (m g)) (snd (m g)).
Proof. unfold rand_bind. now destruct (m g). Qed.

Lemma animate_quantum_objects {threshold : R} (pairs : list Bond) (delta : R)
      (st : AnimationState)
      (scene : Scene) (g : RandomSource) :
  quantumObjects (fst (animate threshold quantum pairs delta st scene g))
  = fst (rand_mapM quantum_update_object (quantumObjects scene) g).
Proof.
  unfold animate, scene_nuclei. rewrite List.length_map.
  destruct (Nat.eqb_spec (length (quantumObjects scene)) 0) as [H0|H0].
  - destruct (quantumObjects scene) as [|o objs] eqn:Ho; [|discriminate].
    simpl. now rewrite Ho.
  - rewrite !rand_bind_eq. reflexivity.
Qed.

Lemma animate_bohr_keeps_quantum {threshold : R} (pairs : list Bond) (delta : R)
      (st : AnimationState)
      (scene : Scene) (g : RandomSource) :
  quantumObjects (fst (animate threshold bohr pairs delta st scene g))
      = quantumObjects scene
  /\ snd (animate threshold bohr pairs delta st scene g) = g.
Proof.
  unfold animate. destruct (length _ =? 0)%nat; split; reflexivity.
Qed.

Lemma animate_quantum_keeps_bohr {threshold : R} (pairs : list Bond) (delta : R)
      (st : AnimationState)
      (scene : Scene) (g : RandomSource) :
  animatedObjects (fst (animate threshold quantum pairs delta st scene g))
      = animatedObjects scene.
Proof.
  unfold animate. destruct (length _ =? 0)%nat; [reflexivity|].
  rewrite !rand_bind_eq. reflexivity.
Qed.

Lemma animate_bonds {threshold : R} (mode : VisualizationMode) (pairs : list Bond)
      (delta : R)
      (st : AnimationState) (scene : Scene) (g : RandomSource) :
  bonds (fst (animate threshold mode pairs delta st scene g))
  = if (0 <? length (bonds scene))%nat && (1 <? length (scene_nuclei mode scene))%nat
    then map (update_bond threshold (scene_nuclei mode scene) (state_bondingProgress st))
             (bonds scene)
    else bonds scene.
Proof.
  unfold animate.
  destruct (Nat.eqb_spec (length (scene_nuclei mode scene)) 0) as [H0|H0].
  - rewrite H0. simpl. now rewrite andb_false_r.
  - destruct mode; rewrite !rand_bind_eq; reflexivity.
Qed.

Lemma quantum_update_electrons_spec (atomScale : R)
      (anims : list ElectronAnimationState) (e : nat) (ps : list Vector3)
      (g : RandomSource) :
  let r := fst (quantum_update_electrons atomScale anims e ps g) in
  length (fst r) = length anims
  /\ snd r = push_samples ps e QUANTUM_TRAIL_LENGTH (map currentPosition (fst r)).
Proof.
  revert e ps g. induction anims as [|a anims IH]; intros e ps g; [split; reflexivity|].
  simpl. rewrite !rand_bind_eq. simpl.
  match goal with
  | |- context [quantum_update_electrons atomScale anims (S e) ?ps1 ?g1] =>
      destruct (IH (S e) ps1 g1) as [IHl IHp]
  end.
  split; [now rewrite IHl|exact IHp].
Qed.

Lemma quantum_update_object_spec (obj : QuantumAnimatedObject) (g : RandomSource) :
  let obj' := fst (quantum_update_object obj g) in
  q_nucleus obj' = q_nucleus obj
  /\ match electronCloud obj with
     | None => electronCloud obj' = None
     | Some cloud =>
         exists cloud',
           electronCloud obj' = Some cloud'
           /\ points_position cloud' = nucleus_position (q_nucleus obj)
           /\ length (electronAnimations cloud') = length (electronAnimations cloud)
           /\ positions cloud'
              = push_samples (positions cloud) 0 QUANTUM_TRAIL_LENGTH
                             (map currentPosition (electronAnimations cloud'))
     end.
Proof.
  unfold quantum_update_object.
  destruct (electronCloud obj) as [cloud|]; [|split; reflexivity].
  rewrite rand_bind_eq. simpl.
  pose proof (quantum_update_electrons_spec (nucleus_scale (q_nucleus obj))
                (electronAnimations cloud) 0 (positions cloud) g) as [Hl Hp].
  split; [reflexivity|].
  eexists. split; [reflexivity|]. simpl. repeat split; assumption.
Qed.

(** A tick moves no nucleus. *)
Lemma animate_keeps_nuclei {threshold : R} (mode : VisualizationMode) (pairs : list Bond)
      (delta : R)
      (st : AnimationState) (scene : Scene) (g : RandomSource) :
  scene_nuclei mode (fst (animate threshold mode pairs delta st scene g))
      = scene_nuclei mode scene.
Proof.
  destruct mode; simpl.
  - rewrite animate_bohr_objects, map_map.
    change (map ?f ?l) with (f <$> l). rewrite fmap_imap.
    rewrite <- (imap_const nucleus). apply imap_ext. intros i o _. simpl.
    unfold bohr_update_trails. simpl.
    destruct (electronTrails o); [|reflexivity].
    now destruct (length (electrons o) =? 0)%nat.
  - rewrite animate_quantum_objects.
    generalize g. induction (quantumObjects scene) as [|o objs IH]; intros g0;
      [reflexivity|].
    simpl. rewrite !rand_bind_eq. simpl.
    pose proof (quantum_update_object_spec o g0) as [Hn _].
    simpl in Hn. now rewrite Hn, IH.
Qed.

Lemma animate_bohr_lookup {threshold : R} (pairs : list Bond) (delta : R)
      (st : AnimationState)
      (scene : Scene) (g : RandomSource) (a : nat) (obj : AnimatedObject) :
  animatedObjects scene !! a = Some obj ->
  animatedObjects (fst (animate threshold bohr pairs delta st scene g)) !! a
  = Some (bohr_update_trails
            (bohr_update_object delta (speed st) (state_bondingProgress st) pairs
                                (animatedObjects scene) a obj)).
Proof.
  intros Ha. rewrite animate_bohr_objects.
  change (map ?f ?l) with (f <$> l).
  now rewrite list_lookup_fmap, list_lookup_imap, Ha.
Qed.

Lemma animate_quantum_lookup {threshold : R} (pairs : list Bond) (delta : R)
      (st : AnimationState)
      (scene : Scene) (g : RandomSource) (a : nat) (obj : QuantumAnimatedObject) :
  quantumObjects scene !! a = Some obj ->
  exists g',
    quantumObjects (fst (animate threshold quantum pairs delta st scene g)) !! a
    = Some (fst (quantum_update_object obj g')).
Proof.
  intros Ha. rewrite animate_quantum_objects. now apply rand_mapM_lookup.
Qed.

(** The Classical trail update of one object whose buffer holds [len]
    samples per electron. *)
Lemma bohr_update_trails_spec (len : nat) (obj : AnimatedObject) (t : Points) :
  bohr_trails_ok len obj -> electronTrails obj = Some t ->
  exists t',
    electronTrails (bohr_update_trails obj) = Some t'
    /\ nucleus (bohr_update_trails obj) = nucleus obj
    /\ electrons (bohr_update_trails obj) = electrons obj
    /\ electronPivots (bohr_update_trails obj) = electronPivots obj
    /\ positions t' = push_samples (positions t) 0 len (electron_world_positions obj).
Proof.
  intros [Hpv Hok] Ht. rewrite Ht in Hok. destruct Hok as (Hlen & Hl & Hn).
  unfold bohr_update_trails. rewrite Ht.
  destruct (Nat.eqb_spec (length (electrons obj)) 0) as [H0|_]; [lia|].
  rewrite Hlen, Nat.mul_comm, Nat.div_mul by lia.
  eexists. split; [reflexivity|]. simpl. repeat split.
Qed.

Lemma bohr_update_object_fields (delta spd bp : R) (pairs : list Bond)
      (objs : list AnimatedObject) (a : nat) (obj : AnimatedObject) :
  let obj1 := bohr_update_object delta spd bp pairs objs a obj in
  nucleus obj1 = nucleus obj
  /\ electrons obj1 = electrons obj
  /\ electronTrails obj1 = electronTrails obj
  /\ length (electronPivots obj1) = length (electronPivots obj)
  /\ length (shellPaths obj1) = length (shellPaths obj).
Proof.
  simpl. repeat split; [apply length_imap|apply List.length_map].
Qed.

Lemma bohr_trails_ok_tick (len : nat) (delta spd bp : R) (pairs : list Bond)
      (objs : list AnimatedObject) (a : nat) (obj : AnimatedObject) :
  bohr_trails_ok len obj ->
  bohr_trails_ok len
    (bohr_update_trails (bohr_update_object delta spd bp pairs objs a obj)).
Proof.
  intros Hok.
  destruct (bohr_update_object_fields delta spd bp pairs objs a obj)
    as (_ & He & Ht & Hp & _).
  set (obj1 := bohr_update_object delta spd bp pairs objs a obj) in *.
  assert (Hok1 : bohr_trails_ok len obj1).
  { destruct Hok as [H1 H2]. split; [now rewrite Hp, He|]. now rewrite Ht, He. }
  destruct (electronTrails obj1) as [t|] eqn:Ht1.
  - destruct (bohr_update_trails_spec len obj1 t Hok1 Ht1)
      as (t' & Ht' & _ & He' & Hp' & Hpos).
    destruct Hok1 as [H1 H2]. rewrite Ht1 in H2.
    split; [now rewrite Hp', He'|].
    rewrite Ht', He', Hpos, push_samples_length. exact H2.
  - unfold bohr_update_trails. now rewrite Ht1.
Qed.

Lemma quantum_trails_ok_tick (obj : QuantumAnimatedObject) (g : RandomSource) :
  quantum_trails_ok obj -> quantum_trails_ok (fst (quantum_update_object obj g)).
Proof.
  unfold quantum_trails_ok. intros Hok.
  pose proof (quantum_update_object_spec obj g) as [_ H].
  destruct (electronCloud obj) as [cloud|].
  - destruct H as (cloud' & -> & _ & Hl & Hp).
    now rewrite Hp, push_samples_length, Hl.
  - simpl in H. now rewrite H.
Qed.

Lemma rand_mapM_Forall {A B} (P : A -> Prop) (Q : B -> Prop) (f : A -> Rand B)
      (l : list A) (g : RandomSource) :
  (forall a g', P a -> Q (fst (f a g'))) ->
  Forall P l -> Forall Q (fst (rand_mapM f l g)).
Proof.
  intros Hf Hl. revert g. induction Hl as [|a l Ha Hl IH]; intros g; [constructor|].
  simpl. rewrite !rand_bind_eq. simpl. constructor; [now apply Hf|apply IH].
Qed.

(** A tick keeps the number of samples per electron. *)
Lemma trails_ok_animate {threshold : R} (len : nat) (mode : VisualizationMode)
      (pairs : list Bond)
      (delta : R) (st : AnimationState) (scene : Scene) (g : RandomSource) :
  trails_ok len scene
      -> trails_ok len (fst (animate threshold mode pairs delta st scene g)).
Proof.
  intros [Hb Hq]. destruct mode; split.
  - rewrite animate_bohr_objects. apply Forall_forall. intros o Ho.
    change (map ?f ?l) with (f <$> l) in Ho.
    apply list_elem_of_fmap in Ho as (o1 & -> & Ho1).
    apply elem_of_lookup_imap_1 in Ho1 as (i & o0 & -> & Hi).
    apply bohr_trails_ok_tick.
    rewrite Forall_forall in Hb. apply Hb. eapply list_elem_of_lookup_2, Hi.
  - now rewrite
      (proj1 (animate_bohr_keeps_quantum (threshold := threshold) pairs delta st scene
      g)).
  - now rewrite animate_quantum_keeps_bohr.
  - rewrite animate_quantum_objects.
    apply (rand_mapM_Forall quantum_trails_ok quantum_trails_ok); [|exact Hq].
    intros a g' Ha. now apply quantum_trails_ok_tick.
Qed.

Lemma trails_ok_run_ticks {threshold : R} (len : nat) (mode : VisualizationMode)
      (pairs : list Bond)
      (inputs : list (R * AnimationState)) (scene : Scene) (g : RandomSource) :
  trails_ok len scene
      -> trails_ok len (fst (run_ticks threshold mode pairs inputs scene g)).
Proof.
  revert scene g. induction inputs as [|[delta st] inputs IH]; intros scene g Hok;
    [exact Hok|].
  simpl. rewrite rand_bind_eq. apply IH. now apply trails_ok_animate.
Qed.

Lemma length_flat_map_replicate {A B} (f : A -> B) (n : nat) (l : list A) :
  length (flat_map (fun a => replicate n (f a)) l) = (length l * n)%nat.
Proof.
  induction l as [|a l IH]; simpl; [reflexivity|].
  now rewrite length_app, length_replicate, IH.
Qed.

Lemma createAtomModel_trails_ok (atom : Atom) (position : Vector3)
      (trailLength0 : Z) (trailOpacity0 : R) (m : AnimatedObject) :
  createAtomModel atom position trailLength0 trailOpacity0 = Some m ->
  bohr_trails_ok (Z.to_nat trailLength0) m.
Proof.
  unfold createAtomModel. rewrite build_shells_total. intros H. injection H as <-.
  split; simpl; [apply List.length_map|].
  destruct (Nat.ltb_spec 0 (length (flat_map snd
              (imap (fun i n => (mkShellPath (shellRadius_at (atomScale_of atom) i)
                                             (2 / 100 * atomScale_of atom) v3_zero (3 / 10),
                                 getSpherePoints n (shellRadius_at (atomScale_of atom) i)))
                    (shells atom))))) as [Hn|Hn]; simpl; [|exact I].
  destruct (Z.ltb_spec 0 trailLength0) as [Hl|Hl]; simpl; [|exact I].
  rewrite length_flat_map_replicate. repeat split; lia.
Qed.

Lemma createQuantumAtomModel_trails_ok (atom : Atom) (position : Vector3)
      (g : RandomSource) :
  quantum_trails_ok (fst (createQuantumAtomModel atom position g)).
Proof.
  unfold createQuantumAtomModel, quantum_trails_ok.
  destruct (flat_map _ (parseElectronConfiguration _)) as [|k ks]; [exact I|].
  rewrite rand_bind_eq. unfold rand_ret.
  cbn [fst electronCloud positions electronAnimations].
  apply (length_flat_map_replicate currentPosition).
Qed.

(** A rebuild allocates [trailLength] samples per electron in Classical
    mode and [QUANTUM_TRAIL_LENGTH] in Quantum mode. *)
Lemma rebuild_trails_ok (atoms0 : list Atom) (atomPositions0 : list Vector3)
      (bondingPairs0 : list Bond) (mode : VisualizationMode)
      (trailLength0 : Z) (trailOpacity0 : R) (g : RandomSource) (scene : Scene) :
  fst (rebuild atoms0 atomPositions0 bondingPairs0 mode trailLength0 trailOpacity0 g)
  = Some scene ->
  trails_ok (Z.to_nat trailLength0) scene.
Proof.
  unfold rebuild. destruct mode.
  - unfold rand_ret. simpl.
    destruct (mapM _ (imap (fun i a => (i, a)) atoms0)) as [objs|] eqn:Hm; [|discriminate].
    intros H. injection H as <-. split; [|constructor]. simpl.
    apply mapM_Some_1 in Hm.
    induction Hm as [|[i atom] o l k Hx _ IH]; constructor; [|exact IH].
    destruct (createAtomModel atom (position_of atomPositions0 i)
                              trailLength0 trailOpacity0) as [m|] eqn:Hc; [|discriminate].
    injection Hx as <-.
    exact (createAtomModel_trails_ok _ _ _ _ _ Hc).
  - rewrite fst_rand_bind_ret. intros H. injection H as <-. split; [constructor|]. simpl.
    apply (rand_mapM_Forall (fun _ => True) quantum_trails_ok).
    + intros [i atom] g' _. rewrite fst_rand_bind_ret.
      pose proof (createQuantumAtomModel_trails_ok atom (position_of atomPositions0 i) g')
        as Hq.
      exact Hq.
    + apply Forall_forall. intros; exact I.
Qed.

Lemma trail_shift_classical {threshold : R} (len : nat) (pairs : list Bond) (delta : R)
      (st : AnimationState) (scene : Scene) (g : RandomSource)
      (a : nat) (obj : AnimatedObject) (t : Points) :
  trails_ok len scene ->
  animatedObjects scene !! a = Some obj -> electronTrails obj = Some t ->
  exists obj' t',
    animatedObjects (fst (animate threshold bohr pairs delta st scene g)) !! a = Some obj'
    /\ electronTrails obj' = Some t'
    /\ electrons obj' = electrons obj
    /\ length (positions t') = (length (electrons obj) * len)%nat
    /\ forall e local, electrons obj' !! e = Some local ->
         exists pv,
           electronPivots obj' !! e = Some pv
           /\ positions t' !! (e * len)%nat = Some (getWorldPosition pv local)
           /\ forall i, (1 <= i < len)%nat ->
                positions t' !! (e * len + i)%nat = positions t !! (e * len + i - 1)%nat.
Proof.
  intros [Hb _] Ha Ht.
  assert (Hok : bohr_trails_ok len obj).
  { rewrite Forall_forall in Hb. apply Hb. eapply list_elem_of_lookup_2, Ha. }
  destruct (bohr_update_object_fields delta (speed st) (state_bondingProgress st) pairs
              (animatedObjects scene) a obj) as (_ & He & Ht1 & Hp & _).
  set (obj1 := bohr_update_object delta (speed st) (state_bondingProgress st) pairs
                                  (animatedObjects scene) a obj) in *.
  assert (Hok1 : bohr_trails_ok len obj1).
  { destruct Hok as [H1 H2]. split; [now rewrite Hp, He|]. now rewrite Ht1, He. }
  rewrite Ht in Ht1.
  destruct (bohr_update_trails_spec len obj1 t Hok1 Ht1)
    as (t' & Ht' & _ & He' & Hp' & Hpos).
  destruct Hok1 as [Hpv1 Hbuf]. rewrite Ht1 in Hbuf. destruct Hbuf as (Hlen & Hl & Hn).
  exists (bohr_update_trails obj1), t'.
  split; [now apply animate_bohr_lookup|].
  split; [exact Ht'|].
  split; [now rewrite He'|].
  split; [rewrite Hpos, push_samples_length, <- He; exact Hlen|].
  intros e local Hloc. rewrite He' in Hloc.
  assert (He_lt : (e < length (electrons obj1))%nat) by (eapply lookup_lt_Some, Hloc).
  destruct (lookup_lt_is_Some_2 (electronPivots obj1) e ltac:(lia)) as [pv Hpv].
  exists pv. split; [now rewrite Hp'|].
  assert (Hhead : electron_world_positions obj1 !! e = Some (getWorldPosition pv local)).
  { unfold electron_world_positions. now rewrite list_lookup_imap, Hloc, Hpv. }
  assert (Hheads : length (electron_world_positions obj1) = length (electrons obj1))
    by apply length_imap.
  destruct (push_samples_lookup (electron_world_positions obj1) (positions t) 0 len Hl)
    as (Hh & Hi & _).
  { rewrite Hheads, Hlen. lia. }
  rewrite Hpos. split.
  - exact (Hh e _ Hhead).
  - intros i Hi'. exact (Hi e i ltac:(lia) Hi').
Qed.

Lemma trail_shift_quantum {threshold : R} (len : nat) (pairs : list Bond) (delta : R)
      (st : AnimationState) (scene : Scene) (g : RandomSource)
      (a : nat) (obj : QuantumAnimatedObject) (cloud : Points) :
  trails_ok len scene ->
  quantumObjects scene !! a = Some obj -> electronCloud obj = Some cloud ->
  exists obj' cloud',
    quantumObjects (fst (animate threshold quantum pairs delta st scene g)) !! a
        = Some obj'
    /\ electronCloud obj' = Some cloud'
    /\ points_position cloud' = nucleus_position (q_nucleus obj')
    /\ length (electronAnimations cloud') = length (electronAnimations cloud)
    /\ length (positions cloud')
       = (length (electronAnimations cloud) * QUANTUM_TRAIL_LENGTH)%nat
    /\ forall e anim', electronAnimations cloud' !! e = Some anim' ->
         positions cloud' !! (e * QUANTUM_TRAIL_LENGTH)%nat = Some (currentPosition anim')
         /\ forall i, (1 <= i < QUANTUM_TRAIL_LENGTH)%nat ->
              positions cloud' !! (e * QUANTUM_TRAIL_LENGTH + i)%nat
              = positions cloud !! (e * QUANTUM_TRAIL_LENGTH + i - 1)%nat.
Proof.
  intros [_ Hq] Ha Hc.
  assert (Hok : quantum_trails_ok obj).
  { rewrite Forall_forall in Hq. apply Hq. eapply list_elem_of_lookup_2, Ha. }
  unfold quantum_trails_ok in Hok. rewrite Hc in Hok.
  destruct (animate_quantum_lookup (threshold := threshold) pairs delta st scene g a obj
      Ha) as [g' Hg'].
  pose proof (quantum_update_object_spec obj g') as [Hn Hcl].
  rewrite Hc in Hcl. destruct Hcl as (cloud' & Hc' & Hpp & Hl & Hpos).
  exists (fst (quantum_update_object obj g')), cloud'.
  split; [exact Hg'|]. split; [exact Hc'|].
  split; [now rewrite Hpp, Hn|]. split; [exact Hl|].
  split; [now rewrite Hpos, push_samples_length|].
  intros e anim' He.
  change (map currentPosition ?l) with (currentPosition <$> l) in Hpos.
  destruct (push_samples_lookup (currentPosition <$> electronAnimations cloud')
                                (positions cloud) 0 QUANTUM_TRAIL_LENGTH)
    as (Hh & Hi & _).
  { unfold QUANTUM_TRAIL_LENGTH. lia. }
  { rewrite length_fmap, Hl, Hok. lia. }
  rewrite Hpos. split.
  - apply (Hh e). now rewrite list_lookup_fmap, He.
  - intros i Hi'. apply (Hi e i); [|exact Hi'].
    rewrite length_fmap. eapply lookup_lt_Some, He.
Qed.

(** C2, as the code has it.  In a scene whose buffers hold [len] samples
    per electron (as every scene a rebuild makes does, with
    [len = trailLength] in Classical mode and 15 in Quantum mode), a tick
    keeps the number of samples of every buffer, and so does any number
    of ticks.  In Classical mode, for every electron with a trail buffer,
    slot 0 of its segment holds after the tick the current world position
    of the electron, and every slot [1 <= i < len] the sample slot [i - 1]
    held before the tick.  In Quantum mode the same holds with the
    electron's current position in the frame of its cloud, which the tick
    places at the nucleus: the sample is relative to the nucleus, not a
    world position. *)
Theorem trail_buffers_shift {threshold : R} (len : nat) (mode : VisualizationMode)
        (pairs : list Bond)
        (delta : R) (st : AnimationState) (scene : Scene) (g : RandomSource) :
  trails_ok len scene ->
  let scene' := fst (animate threshold mode pairs delta st scene g) in
  trails_ok len scene'
  /\ (forall inputs g1, trails_ok len
      (fst (run_ticks threshold mode pairs inputs scene g1)))
  /\ (forall atoms0 ps0 pairs0 tl op g0 s0,
         fst (rebuild atoms0 ps0 pairs0 mode tl op g0) = Some s0 ->
         trails_ok (Z.to_nat tl) s0)
  /\ (mode = bohr ->
      forall a obj t,
        animatedObjects scene !! a = Some obj -> electronTrails obj = Some t ->
        exists obj' t',
          animatedObjects scene' !! a = Some obj'
          /\ electronTrails obj' = Some t'
          /\ electrons obj' = electrons obj
          /\ length (positions t') = (length (electrons obj) * len)%nat
          /\ forall e local, electrons obj' !! e = Some local ->
               exists pv,
                 electronPivots obj' !! e = Some pv
                 /\ positions t' !! (e * len)%nat = Some (getWorldPosition pv local)
                 /\ forall i, (1 <= i < len)%nat ->
                      positions t' !! (e * len + i)%nat
                      = positions t !! (e * len + i - 1)%nat)
  /\ (mode = quantum ->
      forall a obj cloud,
        quantumObjects scene !! a = Some obj -> electronCloud obj = Some cloud ->
        exists obj' cloud',
          quantumObjects scene' !! a = Some obj'
          /\ electronCloud obj' = Some cloud'
          /\ points_position cloud' = nucleus_position (q_nucleus obj')
          /\ length (electronAnimations cloud') = length (electronAnimations cloud)
          /\ length (positions cloud')
             = (length (electronAnimations cloud) * QUANTUM_TRAIL_LENGTH)%nat
          /\ forall e anim', electronAnimations cloud' !! e = Some anim' ->
               positions cloud' !! (e * QUANTUM_TRAIL_LENGTH)%nat
               = Some (currentPosition anim')
               /\ forall i, (1 <= i < QUANTUM_TRAIL_LENGTH)%nat ->
                    positions cloud' !! (e * QUANTUM_TRAIL_LENGTH + i)%nat
                    = positions cloud !! (e * QUANTUM_TRAIL_LENGTH + i - 1)%nat).
Proof.
  intros Hok scene'.
  split; [now apply trails_ok_animate|].
  split; [intros inputs g1; now apply trails_ok_run_ticks|].
  split; [intros atoms0 ps0 pairs0 tl op g0 s0; apply rebuild_trails_ok|].
  split.
  - intros -> a obj t Ha Ht.
    exact (trail_shift_classical (threshold := threshold) len pairs delta st scene g a
        obj t Hok Ha Ht).
  - intros -> a obj cloud Ha Hc.
    exact (trail_shift_quantum (threshold := threshold) len pairs delta st scene g a obj
        cloud Hok Ha Hc).
Qed.

(** ** Bond pose *)

Lemma Number_EPSILON_pos : 0 < Number_EPSILON.
Proof. unfold Number_EPSILON. lra. Qed.

Lemma EPSILON_1e8_pos : 0 < EPSILON_1e8.
Proof. unfold EPSILON_1e8. lra. Qed.

(** The bound of the older releases is below the bound of the newer
    ones, and both are below one. *)
Lemma Number_EPSILON_le_1e8 : Number_EPSILON <= EPSILON_1e8 /\ EPSILON_1e8 < 1.
Proof. unfold Number_EPSILON, EPSILON_1e8. split; lra. Qed.

(** The orientation [setFromUnitVectors] computes from the up axis and a
    unit direction [d] that is not within the bound of the down axis
    turns the up axis into [d], whatever the positive bound is. *)
Lemma setFromUnitVectors_up {threshold : R} (d : Vector3) :
  vx d * vx d + vy d * vy d + vz d * vz d = 1 ->
  0 < threshold ->
  threshold <= 1 + vy d ->
  rotate_by (setFromUnitVectors threshold bondUpVector d) bondUpVector = d.
Proof.
  destruct d as [a b c]. simpl. intros Hunit Hpos Heps.
  unfold setFromUnitVectors, v3_dot, bondUpVector. simpl.
  destruct (Rlt_dec (0 * a + 1 * b + 0 * c + 1) threshold) as [Hlt|_]; [lra|].
  unfold q_normalize, q_length. simpl.
  set (n := (1 * c - 0 * b) * (1 * c - 0 * b) + (0 * a - 0 * c) * (0 * a - 0 * c) +
            (0 * b - 1 * a) * (0 * b - 1 * a) +
            (0 * a + 1 * b + 0 * c + 1) * (0 * a + 1 * b + 0 * c + 1)).
  assert (Hn : n = 2 * (1 + b)) by (unfold n; nra).
  assert (Hn0 : 0 < n) by lra.
  assert (Hl : 0 < sqrt n) by now apply sqrt_lt_R0.
  destruct (Req_dec_T (sqrt n) 0) as [H0|_]; [lra|].
  set (k := 1 / sqrt n).
  assert (Hk : k * k = / n).
  { unfold k. rewrite <- (sqrt_sqrt n) at 3 by lra. field. lra. }
  unfold rotate_by, compose_apply, v3_zero, v3_one. simpl.
  f_equal.
  - match goal with |- ?L = _ => replace L with (a * (2 * (1 + b)) * (k * k)) by ring end.
    rewrite Hk, Hn. field. lra.
  - match goal with |- ?L = _ => replace L with (1 - 2 * (a * a + c * c) * (k * k)) by ring end.
    rewrite Hk, Hn. replace (a * a + c * c) with ((1 - b) * (1 + b)) by lra.
    field. lra.
  - match goal with |- ?L = _ => replace L with (c * (2 * (1 + b)) * (k * k)) by ring end.
    rewrite Hk, Hn. field. lra.
Qed.

(** Within the bound of straight down the orientation is the half turn
    about the z axis, which turns the up axis into the down axis. *)
Lemma setFromUnitVectors_near_down {threshold : R} (d : Vector3) :
  1 + vy d < threshold ->
  rotate_by (setFromUnitVectors threshold bondUpVector d) bondUpVector = mkV3 0 (-1) 0.
Proof.
  intros Hd. unfold setFromUnitVectors, v3_dot, bondUpVector. simpl.
  destruct (Rlt_dec (0 * vx d + 1 * vy d + 0 * vz d + 1) threshold) as [_|Hn];
    [|lra].
  destruct (Rlt_dec (Rabs 0) (Rabs 0)) as [Hlt|_]; [lra|].
  unfold q_normalize, q_length. simpl.
  replace (0 * 0 + - 0 * - 0 + 1 * 1 + 0 * 0) with 1 by ring.
  rewrite sqrt_1.
  destruct (Req_dec_T 1 0) as [H|_]; [lra|].
  unfold rotate_by, compose_apply, v3_zero, v3_one. simpl.
  f_equal; field.
Qed.

Lemma setFromUnitVectors_down {threshold : R} :
  0 < threshold ->
  rotate_by (setFromUnitVectors threshold bondUpVector (mkV3 0 (-1) 0)) bondUpVector
  = mkV3 0 (-1) 0.
Proof.
  intros Hpos. apply setFromUnitVectors_near_down. simpl. lra.
Qed.

(** For two coinciding endpoints the direction is the zero vector and
    the orientation is the identity. *)
Lemma v3_normalize_coincident (a : Vector3) :
  v3_normalize (subVectors a a) = v3_zero.
Proof.
  unfold v3_normalize, subVectors, divideScalar, multiplyScalar, v3_zero. simpl.
  f_equal; ring.
Qed.

Lemma setFromUnitVectors_zero {threshold : R} :
  threshold <= 1 ->
  rotate_by (setFromUnitVectors threshold bondUpVector v3_zero) bondUpVector
      = bondUpVector.
Proof.
  intros Hlt.
  unfold setFromUnitVectors, v3_dot, bondUpVector, v3_zero. simpl.
  destruct (Rlt_dec (0 * 0 + 1 * 0 + 0 * 0 + 1) threshold) as [H|_]; [lra|].
  unfold q_normalize, q_length. simpl.
  replace ((1 * 0 - 0 * 0) * (1 * 0 - 0 * 0) + (0 * 0 - 0 * 0) * (0 * 0 - 0 * 0) +
           (0 * 0 - 1 * 0) * (0 * 0 - 1 * 0) +
           (0 * 0 + 1 * 0 + 0 * 0 + 1) * (0 * 0 + 1 * 0 + 0 * 0 + 1)) with 1 by ring.
  rewrite sqrt_1.
  destruct (Req_dec_T 1 0) as [H|_]; [lra|].
  unfold rotate_by, compose_apply, v3_zero, v3_one. simpl.
  f_equal; field.
Qed.

(** A normalized non-zero vector has length one. *)
Lemma v3_normalize_unit (v : Vector3) :
  v <> v3_zero ->
  let d := v3_normalize v in
  vx d * vx d + vy d * vy d + vz d * vz d = 1.
Proof.
  destruct v as [a b c]. intros Hv.
  assert (Hs : 0 < a * a + b * b + c * c).
  { destruct (Req_dec_T a 0) as [->|Ha]; [|nra].
    destruct (Req_dec_T b 0) as [->|Hb]; [|nra].
    destruct (Req_dec_T c 0) as [->|Hc]; [|nra].
    now contradiction Hv. }
  unfold v3_normalize, v3_length, divideScalar, multiplyScalar. simpl.
  set (n := a * a + b * b + c * c) in *.
  assert (Hl : 0 < sqrt n) by now apply sqrt_lt_R0.
  destruct (Req_dec_T (sqrt n) 0) as [H0|_]; [lra|].
  assert (Hss : sqrt n * sqrt n = n) by (apply sqrt_sqrt; lra).
  remember (sqrt n) as s eqn:Es.
  replace (a * (1 / s) * (a * (1 / s)) + b * (1 / s) * (b * (1 / s))
           + c * (1 / s) * (c * (1 / s)))
    with ((a * a + b * b + c * c) * / (s * s)) by (field; lra).
  rewrite Hss. unfold n. field. fold n. lra.
Qed.

Lemma lerp_half_midpoint (a b : Vector3) : lerp a b (5 / 10) = spec_midpoint a b.
Proof. unfold lerp, spec_midpoint. f_equal; lra. Qed.

Lemma subVectors_zero (a b : Vector3) : subVectors b a = v3_zero -> a = b.
Proof.
  destruct a, b. unfold subVectors, v3_zero. simpl. intros H.
  injection H as H1 H2 H3. f_equal; lra.
Qed.

(** The body of the bond loop on a group whose endpoints are in the list
    of nuclei, and on one with a missing endpoint. *)
Lemma update_bond_posed {threshold : R} (nuclei : list Nucleus) (bp : R) (bg : BondGroup)
      (nA nB : Nucleus) :
  js_index nuclei (fst (bg_pair bg)) = Some nA ->
  js_index nuclei (snd (bg_pair bg)) = Some nB ->
  update_bond threshold nuclei bp bg
  = mkBondGroup (bg_pair bg)
                (map (fun mesh => mkBondMesh (bond_offset mesh) bp) (bg_children bg))
                (lerp (nucleus_position nA) (nucleus_position nB) (5 / 10))
                (setFromUnitVectors threshold bondUpVector
                   (v3_normalize (subVectors (nucleus_position nB) (nucleus_position nA))))
                (mkV3 1 (distanceTo (nucleus_position nA) (nucleus_position nB)) 1)
                true.
Proof. intros HA HB. unfold update_bond. now rewrite HA, HB. Qed.

Lemma update_bond_skipped {threshold : R} (nuclei : list Nucleus) (bp : R)
      (bg : BondGroup) :
  js_index nuclei (fst (bg_pair bg)) = None
  \/ js_index nuclei (snd (bg_pair bg)) = None ->
  update_bond threshold nuclei bp bg
  = mkBondGroup (bg_pair bg)
                (map (fun mesh => mkBondMesh (bond_offset mesh) bp) (bg_children bg))
                (bg_position bg) (bg_quaternion bg) (bg_scale bg) (bg_visible bg).
Proof.
  intros [H|H]; unfold update_bond; rewrite H; [reflexivity|].
  now destruct (js_index nuclei (fst (bg_pair bg))).
Qed.

Lemma update_bond_children {threshold : R} (nuclei : list Nucleus) (bp : R)
      (bg : BondGroup) :
  bg_pair (update_bond threshold nuclei bp bg) = bg_pair bg
  /\ bg_children (update_bond threshold nuclei bp bg)
     = map (fun mesh => mkBondMesh (bond_offset mesh) bp) (bg_children bg).
Proof.
  unfold update_bond.
  destruct (js_index nuclei (fst (bg_pair bg)));
    destruct (js_index nuclei (snd (bg_pair bg))); split; reflexivity.
Qed.

(** C1, as the code has it.  In a tick that sees at least one bond group
    and at least two nuclei, every bond group has the opacity of each of
    its cylinders set to the bonding progress.  A group whose two
    endpoint indices address nuclei of the current list is moved to the
    midpoint of the two nucleus positions, scaled by [(1, distance, 1)],
    oriented by [setFromUnitVectors (0,1,0) direction] and made visible;
    that orientation turns the up axis into the normalized
    endpoint-to-endpoint vector [d] when the endpoints are distinct and
    [1 + d.y] is at least the bound of the installed [setFromUnitVectors]
    ([Number.EPSILON] or [1e-8], by the release of three.js), so for
    every release when [1 + d.y >= 1e-8], and also when [d] is straight
    down.  A group with an endpoint index outside the list of nuclei
    keeps its position, orientation, scale and visibility. *)
Theorem bond_pose_update {threshold : R} (mode : VisualizationMode) (pairs : list Bond)
        (delta : R)
        (st : AnimationState) (scene : Scene) (g : RandomSource) :
  (1 <= length (bonds scene))%nat ->
  (2 <= length (scene_nuclei mode scene))%nat ->
  let scene' := fst (animate threshold mode pairs delta st scene g) in
  let nuclei := scene_nuclei mode scene' in
  nuclei = scene_nuclei mode scene
  /\ length (bonds scene') = length (bonds scene)
  /\ forall k bg, bonds scene !! k = Some bg ->
       exists bg',
         bonds scene' !! k = Some bg'
         /\ bg_pair bg' = bg_pair bg
         /\ map bond_offset (bg_children bg') = map bond_offset (bg_children bg)
         /\ Forall (fun mesh => bond_opacity mesh = state_bondingProgress st)
                   (bg_children bg')
         /\ (forall nA nB,
                js_index nuclei (fst (bg_pair bg)) = Some nA ->
                js_index nuclei (snd (bg_pair bg)) = Some nB ->
                let posA := nucleus_position nA in
                let posB := nucleus_position nB in
                let d := v3_normalize (subVectors posB posA) in
                bg_position bg' = spec_midpoint posA posB
                /\ bg_scale bg' = mkV3 1 (distanceTo posA posB) 1
                /\ bg_visible bg' = true
                /\ bg_quaternion bg' = setFromUnitVectors threshold bondUpVector d
                /\ (posA <> posB ->
                    0 < threshold ->
                    threshold <= 1 + vy d \/ d = mkV3 0 (-1) 0 ->
                    rotate_by (bg_quaternion bg') bondUpVector = d)
                /\ (posA <> posB ->
                    0 < threshold <= EPSILON_1e8 ->
                    EPSILON_1e8 <= 1 + vy d ->
                    rotate_by (bg_quaternion bg') bondUpVector = d))
         /\ (js_index nuclei (fst (bg_pair bg)) = None
             \/ js_index nuclei (snd (bg_pair bg)) = None ->
             bg_position bg' = bg_position bg
             /\ bg_quaternion bg' = bg_quaternion bg
             /\ bg_scale bg' = bg_scale bg
             /\ bg_visible bg' = bg_visible bg).
Proof.
  intros Hb Hn scene' nuclei.
  assert (Hnuc : nuclei = scene_nuclei mode scene) by apply animate_keeps_nuclei.
  assert (Hbonds : bonds scene'
                   = map (update_bond threshold (scene_nuclei mode scene)
                       (state_bondingProgress st))
                         (bonds scene)).
  { unfold scene'. rewrite animate_bonds.
    destruct (Nat.ltb_spec 0 (length (bonds scene))); [|lia].
    destruct (Nat.ltb_spec 1 (length (scene_nuclei mode scene))); [|lia].
    reflexivity. }
  split; [exact Hnuc|].
  split; [now rewrite Hbonds, List.length_map|].
  intros k bg Hk.
  exists (update_bond threshold (scene_nuclei mode scene) (state_bondingProgress st) bg).
  split.
  { rewrite Hbonds. change (map ?f ?l) with (f <$> l).
    now rewrite list_lookup_fmap, Hk. }
  rewrite Hnuc.
  destruct (update_bond_children (threshold := threshold) (scene_nuclei mode scene)
      (state_bondingProgress st) bg)
    as [Hpair Hch].
  split; [exact Hpair|].
  split.
  { rewrite Hch, map_map. reflexivity. }
  split.
  { rewrite Hch. apply Forall_forall. intros m Hm.
    change (map ?f ?l) with (f <$> l) in Hm.
    apply list_elem_of_fmap in Hm as (m0 & -> & _). reflexivity. }
  split.
  - intros nA nB HA HB posA posB d.
    rewrite (update_bond_posed (threshold := threshold) _ _ _ _ _ HA HB). simpl.
    split; [apply lerp_half_midpoint|].
    split; [reflexivity|]. split; [reflexivity|]. split; [reflexivity|].
    assert (Hunit : posA <> posB ->
                    vx d * vx d + vy d * vy d + vz d * vz d = 1).
    { intros Hne. apply v3_normalize_unit. intros H0. apply Hne.
      now apply subVectors_zero. }
    split.
    + intros Hne Hpos [Heps|Hdown].
      * apply setFromUnitVectors_up; [now apply Hunit|exact Hpos|exact Heps].
      * fold posA posB d. rewrite Hdown. now apply setFromUnitVectors_down.
    + intros Hne [Hpos Hle] Heps.
      apply setFromUnitVectors_up; [now apply Hunit|exact Hpos|].
      exact (Rle_trans _ _ _ Hle Heps).
  - intros Hmiss. rewrite (update_bond_skipped (threshold := threshold) _ _ _ Hmiss).
      simpl. tauto.
Qed.

Lemma bond_pose_update_witness :
  length (bonds
      (fst (animate Number_EPSILON bohr [mkBond (0, 1)%Z 1] (1 / 60) example_state
                              example_bohr_scene (fun _ => 0))))
  = length (bonds example_bohr_scene).
Proof.
  assert (Hb : (1 <= length (bonds example_bohr_scene))%nat) by (simpl; lia).
  assert (Hn : (2 <= length (scene_nuclei bohr example_bohr_scene))%nat) by (simpl; lia).
  exact (proj1 (proj2
      (bond_pose_update (threshold := Number_EPSILON) bohr [mkBond (0, 1)%Z 1] (1 / 60)
      example_state
                                        example_bohr_scene (fun _ => 0) Hb Hn))).
Defined.

(** A tick over the scene a rebuild makes of two atoms and one bond that
    passes the guard of the bond loop. *)
Lemma tick_after_rebuild {threshold : R} (a0 a1 : Atom) (p0 p1 : Vector3) (b : Bond)
      (mode : VisualizationMode) (delta : R) (st : AnimationState)
      (g g' : RandomSource) :
  bond_in_range 2 b = true ->
  exists scene n0 n1,
    fst (rebuild [a0; a1] [p0; p1] [b] mode 15 1 g) = Some scene
    /\ bonds scene = [new_bond_group b]
    /\ scene_nuclei mode scene = [n0; n1]
    /\ nucleus_position n0 = p0 /\ nucleus_position n1 = p1
    /\ bonds (fst (animate threshold mode [b] delta st scene g'))
       = [update_bond threshold [n0; n1] (state_bondingProgress st) (new_bond_group b)].
Proof.
  intros Hb.
  destruct (rebuild_scene [a0; a1] [p0; p1] [b] mode 15 1 g)
    as (scene & Hs & Hbonds & Hlen & Hnuc).
  unfold build_bonds in Hbonds. simpl in Hbonds. rewrite Hb in Hbonds. simpl in Hbonds.
  pose proof (Hnuc 0%nat a0 eq_refl) as H0. pose proof (Hnuc 1%nat a1 eq_refl) as H1.
  destruct (scene_nuclei mode scene) as [|n0 [|n1 [|n2 ns]]] eqn:Hn; try discriminate.
  simpl in H0, H1. injection H0 as H0. injection H1 as H1.
  exists scene, n0, n1.
  split; [exact Hs|]. split; [exact Hbonds|]. split; [exact Hn|].
  split; [now rewrite H0|]. split; [now rewrite H1|].
  rewrite animate_bonds, Hbonds, Hn. reflexivity.
Qed.

(** C1, counterexamples to the claim as stated, each in a tick with one
    bond group and two nuclei, for every bound the installed
    [setFromUnitVectors] can have.  (1) The bond [(-1, 0)] passes the
    guard of the rebuild, its group is built, and the tick leaves it
    invisible and at the origin: index [-1] addresses no nucleus.
    (2) With both nuclei at the same point the orientation is the
    identity, and the up axis is not turned into the (zero) direction.
    (3) With the second nucleus almost straight below the first, closer
    to it than [Number.EPSILON], the orientation turns the up axis into
    the down axis, not into the direction. *)
Lemma bond_pose_counterexamples :
  (forall threshold,
      exists scene bg',
        fst (rebuild [hydrogen; hydrogen] [v3_zero; mkV3 1 0 0] [mkBond (-1, 0)%Z 1]
                     bohr 15 1 (fun _ => 0)) = Some scene
        /\ length (bonds scene) = 1%nat
        /\ length (scene_nuclei bohr scene) = 2%nat
        /\ bonds (fst (animate threshold bohr [mkBond (-1, 0)%Z 1] (1 / 60)
                               example_state scene (fun _ => 0))) = [bg']
        /\ bg_visible bg' = false
        /\ bg_position bg' = v3_zero)
  /\ (forall threshold,
         threshold <= 1 ->
         exists scene bg',
           fst (rebuild [hydrogen; hydrogen] [v3_zero; v3_zero] [mkBond (0, 1)%Z 1]
                        bohr 15 1 (fun _ => 0)) = Some scene
           /\ bonds (fst (animate threshold bohr [mkBond (0, 1)%Z 1] (1 / 60)
                                  example_state scene (fun _ => 0))) = [bg']
           /\ rotate_by (bg_quaternion bg') bondUpVector
              <> v3_normalize (subVectors v3_zero v3_zero))
  /\ (forall threshold,
         Number_EPSILON <= threshold ->
         let t := / 2 ^ 27 in
         let below := mkV3 (2 * t) (- (1 - t * t)) 0 in
         exists scene bg',
           fst (rebuild [hydrogen; hydrogen] [v3_zero; below] [mkBond (0, 1)%Z 1]
                        bohr 15 1 (fun _ => 0)) = Some scene
           /\ bonds (fst (animate threshold bohr [mkBond (0, 1)%Z 1] (1 / 60)
                                  example_state scene (fun _ => 0))) = [bg']
           /\ rotate_by (bg_quaternion bg') bondUpVector
              <> v3_normalize (subVectors below v3_zero)).
Proof.
  split; [|split].
  - intros threshold.
    destruct (tick_after_rebuild (threshold := threshold) hydrogen hydrogen v3_zero
                (mkV3 1 0 0)
                (mkBond (-1, 0)%Z 1) bohr (1 / 60) example_state (fun _ => 0) (fun _ => 0)
                eq_refl) as (scene & n0 & n1 & Hs & Hb & Hn & _ & _ & Ht).
    exists scene. eexists.
    split; [exact Hs|]. split; [now rewrite Hb|]. split; [now rewrite Hn|].
    split; [exact Ht|]. split; reflexivity.
  - intros threshold Hle.
    destruct (tick_after_rebuild (threshold := threshold) hydrogen hydrogen v3_zero
                v3_zero
                (mkBond (0, 1)%Z 1) bohr (1 / 60) example_state (fun _ => 0) (fun _ => 0)
                eq_refl) as (scene & n0 & n1 & Hs & Hb & Hn & H0 & H1 & Ht).
    exists scene. eexists.
    split; [exact Hs|]. split; [exact Ht|].
    unfold update_bond. simpl. rewrite H0, H1.
    rewrite v3_normalize_coincident, (setFromUnitVectors_zero Hle).
    unfold bondUpVector, v3_zero. intros H. injection H as H. lra.
  - intros threshold Hge t below.
    destruct (tick_after_rebuild (threshold := threshold) hydrogen hydrogen v3_zero
                below
                (mkBond (0, 1)%Z 1) bohr (1 / 60) example_state (fun _ => 0) (fun _ => 0)
                eq_refl) as (scene & n0 & n1 & Hs & Hb & Hn & H0 & H1 & Ht).
    exists scene. eexists.
    split; [exact Hs|]. split; [exact Ht|].
    unfold update_bond. simpl. rewrite H0, H1.
    assert (Ht0 : 0 < t < 1) by (unfold t; lra).
    assert (Hlen : v3_length (subVectors below v3_zero) = 1 + t * t).
    { unfold v3_length, subVectors, below, v3_zero. simpl.
      replace ((2 * t - 0) * (2 * t - 0) + (- (1 - t * t) - 0) * (- (1 - t * t) - 0)
               + (0 - 0) * (0 - 0))
        with ((1 + t * t) * (1 + t * t)) by ring.
      apply sqrt_square. nra. }
    assert (Hd : v3_normalize (subVectors below v3_zero)
                 = mkV3 (2 * t / (1 + t * t)) (- (1 - t * t) / (1 + t * t)) 0).
    { unfold v3_normalize. rewrite Hlen.
      destruct (Req_dec_T (1 + t * t) 0) as [H|_]; [nra|].
      unfold divideScalar, multiplyScalar, subVectors, below, v3_zero. simpl.
      f_equal; field; nra. }
    rewrite Hd.
    rewrite setFromUnitVectors_near_down.
    + intros H. injection H as Hx _.
      assert (0 < 2 * t / (1 + t * t)).
      { apply Rdiv_lt_0_compat; nra. }
      lra.
    + simpl. apply Rlt_le_trans with Number_EPSILON; [|exact Hge].
      assert (Hq : 1 + - (1 - t * t) / (1 + t * t) = 2 * (t * t) / (1 + t * t))
        by (field; nra).
      rewrite Hq.
      apply Rlt_le_trans with (2 * (t * t)).
      * assert (Htt : 0 < t * t) by nra.
        apply Rmult_lt_reg_r with (1 + t * t); [lra|].
        unfold Rdiv. rewrite Rmult_assoc, Rinv_l by lra.
        remember (t * t) as s eqn:Es. clear - Htt. nra.
      * unfold t, Number_EPSILON. lra.
Qed.

Lemma example_bohr_scene_ok : trails_ok 2 example_bohr_scene.
Proof. split; repeat constructor. Qed.

Lemma example_quantum_scene_ok : trails_ok 15 example_quantum_scene.
Proof. split; repeat constructor. Qed.

Lemma trail_buffers_shift_witness :
  trails_ok 2 example_bohr_scene
  /\ trails_ok 2
      (fst (animate Number_EPSILON bohr [mkBond (0, 1)%Z 1] (1 / 60) example_state
                               example_bohr_scene (fun _ => 0))).
Proof.
  assert (Hok : trails_ok 2 example_bohr_scene) by (split; repeat constructor).
  split; [exact Hok|].
  exact (proj1 (trail_buffers_shift (threshold := Number_EPSILON) 2 bohr
      [mkBond (0, 1)%Z 1] (1 / 60) example_state
                                    example_bohr_scene (fun _ => 0) Hok)).
Defined.

(** C2, counterexample to the claim as stated: after a Quantum tick the
    cloud of the first atom of the example sits at its nucleus, at
    [(1, 0, 0)], and slot 0 of the buffer holds the electron's position
    within the cloud, which is not where the electron is in the world. *)
Lemma quantum_sample_is_not_world_position :
  exists obj' cloud' anim',
    quantumObjects
        (fst (animate Number_EPSILON quantum [mkBond (0, 1)%Z 1] (1 / 60) example_state
                                 example_quantum_scene (fun _ => 0))) !! 0%nat
    = Some obj'
    /\ electronCloud obj' = Some cloud'
    /\ electronAnimations cloud' !! 0%nat = Some anim'
    /\ positions cloud' !! 0%nat = Some (currentPosition anim')
    /\ points_position cloud' = mkV3 1 0 0
    /\ currentPosition anim' <> points_world cloud' (currentPosition anim').
Proof.
  destruct (trail_shift_quantum (threshold := Number_EPSILON) 15 [mkBond (0, 1)%Z 1]
      (1 / 60) example_state
              example_quantum_scene (fun _ => 0) 0
              (example_quantum_object (mkV3 1 0 0)) _
              example_quantum_scene_ok eq_refl eq_refl)
    as (obj' & cloud' & Ho & Hc & Hpp & Hl & _ & Hs).
  pose proof (animate_keeps_nuclei (threshold := Number_EPSILON) quantum
      [mkBond (0, 1)%Z 1] (1 / 60) example_state
                example_quantum_scene (fun _ => 0)) as Hn.
  simpl in Hn.
  destruct (quantumObjects _) as [|o os]; [discriminate|].
  simpl in Ho. injection Ho as ->. simpl in Hn. injection Hn as Hn _.
  destruct (electronAnimations cloud') as [|anim' rest] eqn:Ha; [discriminate|].
  exists obj', cloud', anim'.
  split; [reflexivity|]. split; [exact Hc|]. split; [now rewrite Ha|].
  split; [exact (proj1 (Hs 0%nat anim' eq_refl))|].
  assert (Hpos : points_position cloud' = mkV3 1 0 0) by now rewrite Hpp, Hn.
  split; [exact Hpos|].
  unfold points_world, v3_add. rewrite Hpos.
  destruct (currentPosition anim') as [x y z]. simpl.
  intros H. injection H as H _ _. lra.
Qed.

(** ** Classical mode: where the electron pivots go *)

(** The source marks "no partner" with index [-1]; as no model has that
    index, the positions it collects are those of the partners of the
    specification. *)
Lemma bondPartnersPositions_spec (pairs : list Bond) (objs : list AnimatedObject)
      (a : nat) :
  bondPartnersPositions pairs objs a = spec_partner_positions pairs objs a.
Proof.
  unfold bondPartnersPositions, spec_partner_positions, spec_partners.
  induction pairs as [|b pairs IH]; [reflexivity|].
  simpl. rewrite flat_map_app, <- IH. f_equal.
  destruct (fst (pair b) =? Z.of_nat a)%Z.
  - simpl. rewrite app_nil_r.
    destruct (Z.eqb_spec (snd (pair b)) (-1)) as [->|_]; [|reflexivity].
    reflexivity.
  - destruct (snd (pair b) =? Z.of_nat a)%Z; [|reflexivity].
    simpl. rewrite app_nil_r.
    destruct (Z.eqb_spec (fst (pair b)) (-1)) as [->|_]; [|reflexivity].
    reflexivity.
Qed.

Lemma fold_left_v3_add (ps : list Vector3) (acc : Vector3) :
  fold_left v3_add ps acc
  = mkV3 (vx acc + fold_right Rplus 0 (map vx ps))
         (vy acc + fold_right Rplus 0 (map vy ps))
         (vz acc + fold_right Rplus 0 (map vz ps)).
Proof.
  revert acc. induction ps as [|p ps IH]; intros acc; simpl.
  - destruct acc. simpl. f_equal; ring.
  - rewrite IH. unfold v3_add. simpl. f_equal; ring.
Qed.

Lemma centroid_spec (ps : list Vector3) : centroid ps = spec_centroid ps.
Proof.
  unfold centroid, spec_centroid, divideScalar, multiplyScalar.
  rewrite fold_left_v3_add. unfold v3_zero. simpl.
  unfold Rdiv. f_equal; ring.
Qed.

Lemma lerpVectors_spec (a b : Vector3) (t : R) : lerpVectors a b t = spec_lerp a b t.
Proof. unfold lerpVectors, spec_lerp. f_equal; ring. Qed.

Lemma lerpVectors_same (a : Vector3) (t : R) : lerpVectors a a t = a.
Proof. destruct a. unfold lerpVectors. simpl. f_equal; ring. Qed.

Lemma update_pivot_position (delta spd bp : R) (own target : Vector3) (i : nat)
      (pivot : Pivot) :
  pivot_position (update_pivot delta spd bp own target i pivot)
  = lerpVectors own target bp.
Proof. reflexivity. Qed.

Lemma bohr_update_trails_pivots (obj : AnimatedObject) :
  electronPivots (bohr_update_trails obj) = electronPivots obj
  /\ nucleus (bohr_update_trails obj) = nucleus obj
  /\ shellPaths (bohr_update_trails obj) = shellPaths obj.
Proof.
  unfold bohr_update_trails. destruct (electronTrails obj); [|repeat split].
  destruct (length (electrons obj) =? 0)%nat; repeat split.
Qed.

(** The pivots of an atom after a Classical tick, with the mean taken
    over the entries of [spec_partner_positions]: one per bond. *)
Lemma bohr_tick_pivot_position {threshold : R} (pairs : list Bond) (delta : R)
        (st : AnimationState)
        (scene : Scene) (g : RandomSource) (a : nat) (obj : AnimatedObject) :
  animatedObjects scene !! a = Some obj ->
  let bp := state_bondingProgress st in
  let own := nucleus_position (nucleus obj) in
  let partners := spec_partner_positions pairs (animatedObjects scene) a in
  exists obj',
    animatedObjects (fst (animate threshold bohr pairs delta st scene g)) !! a = Some obj'
    /\ nucleus obj' = nucleus obj
    /\ length (electronPivots obj') = length (electronPivots obj)
    /\ forall pv, In pv (electronPivots obj') ->
         (0 < bp -> partners <> [] ->
          pivot_position pv = spec_lerp own (spec_centroid partners) bp)
         /\ (bp <= 0 \/ partners = [] -> pivot_position pv = own).
Proof.
  intros Ha bp own partners.
  exists (bohr_update_trails
            (bohr_update_object delta (speed st) (state_bondingProgress st) pairs
                                (animatedObjects scene) a obj)).
  split; [exact
      (animate_bohr_lookup (threshold := threshold) pairs delta st scene g a obj Ha)|].
  destruct (bohr_update_trails_pivots
              (bohr_update_object delta (speed st) (state_bondingProgress st) pairs
                                  (animatedObjects scene) a obj)) as (Hp & Hn & _).
  rewrite Hp, Hn.
  split; [reflexivity|].
  split; [apply length_imap|].
  intros pv Hpv. simpl in Hpv.
  apply list_elem_of_In, elem_of_lookup_imap_1 in Hpv as (i & p0 & -> & _).
  rewrite update_pivot_position.
  unfold bonding_target. rewrite bondPartnersPositions_spec.
  fold bp own partners.
  split.
  - intros Hbp Hne.
    destruct (Rlt_dec 0 bp) as [_|Hn0]; [|lra].
    destruct partners as [|p ps] eqn:Hps; [now contradiction Hne|].
    now rewrite centroid_spec, lerpVectors_spec.
  - intros [Hbp|Hnil].
    + destruct (Rlt_dec 0 bp) as [H|_]; [lra|]. apply lerpVectors_same.
    + rewrite Hnil. destruct (Rlt_dec 0 bp); apply lerpVectors_same.
Qed.

(** C4, as the code has it.  In a Classical tick, for every atom: when the
    bonding progress is positive and the atom has at least one bond
    partner with a built model, every electron pivot of the atom is
    placed at the linear interpolation, by the bonding progress, between
    the atom's nucleus position and the mean of the current nucleus
    positions of its bond partners, taken with one entry per bond of the
    list and with the partners without a model left out; otherwise every
    pivot is placed at the nucleus position.  The tick moves no nucleus.
    When no two bonds of the list join the atom to the same partner, the
    entries are the partner atoms, each once, and the mean is the
    centroid of the partners that the specification names. *)
Theorem classical_pivot_position {threshold : R} (pairs : list Bond) (delta : R)
        (st : AnimationState)
        (scene : Scene) (g : RandomSource) (a : nat) (obj : AnimatedObject) :
  animatedObjects scene !! a = Some obj ->
  let bp := state_bondingProgress st in
  let own := nucleus_position (nucleus obj) in
  let partners := spec_partner_positions pairs (animatedObjects scene) a in
  exists obj',
    animatedObjects (fst (animate threshold bohr pairs delta st scene g)) !! a = Some obj'
    /\ nucleus obj' = nucleus obj
    /\ length (electronPivots obj') = length (electronPivots obj)
    /\ (forall pv, In pv (electronPivots obj') ->
         (0 < bp -> partners <> [] ->
          pivot_position pv = spec_lerp own (spec_centroid partners) bp)
         /\ (bp <= 0 \/ partners = [] -> pivot_position pv = own))
    /\ (List.NoDup (spec_partners pairs a) ->
        partners = spec_partner_atom_positions pairs (animatedObjects scene) a).
Proof.
  intros Ha bp own partners.
  destruct (bohr_tick_pivot_position (threshold := threshold) pairs delta st scene g
              a obj Ha) as (obj' & Ho & Hn & Hl & Hpv).
  exists obj'.
  split; [exact Ho|]. split; [exact Hn|]. split; [exact Hl|]. split; [exact Hpv|].
  intros Hnd.
  unfold partners, spec_partner_positions, spec_partner_atom_positions,
    spec_partner_atoms.
  now rewrite (nodup_fixed_point Z.eq_dec Hnd).
Qed.

Lemma classical_pivot_position_witness :
  exists obj',
    animatedObjects
        (fst (animate Number_EPSILON bohr [mkBond (0, 1)%Z 1] (1 / 60) example_state
                                  example_bohr_scene (fun _ => 0))) !! 0%nat
    = Some obj'
    /\ forall pv, In pv (electronPivots obj') ->
         pivot_position pv
         = spec_lerp v3_zero (spec_centroid [mkV3 0 2 0]) (1 / 2).
Proof.
  destruct (classical_pivot_position (threshold := Number_EPSILON) [mkBond (0, 1)%Z 1]
      (1 / 60) example_state
              example_bohr_scene (fun _ => 0) 0 (example_bohr_object v3_zero) eq_refl)
    as (obj' & Ho & _ & _ & Hpv & _).
  exists obj'. split; [exact Ho|].
  intros pv Hin. apply (Hpv pv Hin).
  - simpl. lra.
  - discriminate.
Defined.

(** The model a Classical rebuild stores for an atom is the one
    [createAtomModel] builds at the atom's position. *)
Lemma rebuild_bohr_lookup (atoms0 : list Atom) (atomPositions0 : list Vector3)
      (bondingPairs0 : list Bond) (trailLength0 : Z) (trailOpacity0 : R)
      (g : RandomSource) (scene : Scene) (i : nat) (atom : Atom) :
  fst (rebuild atoms0 atomPositions0 bondingPairs0 bohr trailLength0 trailOpacity0 g)
  = Some scene ->
  atoms0 !! i = Some atom ->
  exists m,
    createAtomModel atom (position_of atomPositions0 i) trailLength0 trailOpacity0
    = Some m
    /\ animatedObjects scene !! i
       = Some (mkAnimated (set_userData (nucleus m) (symbol atom) i) (shellPaths m)
                          (electronPivots m) (electrons m) (electronTrails m)).
Proof.
  unfold rebuild, rand_ret. cbn [fst]. intros H Hatom.
  destruct (mapM _ _) as [objs|] eqn:E; [|discriminate]. injection H as <-.
  cbn [animatedObjects].
  apply mapM_Some in E.
  assert (Hi : imap (fun i a => (i, a)) atoms0 !! i = Some (i, atom))
    by now rewrite list_lookup_imap, Hatom.
  destruct (Forall2_lookup_l _ _ _ _ _ E Hi) as (o & Ho & Hf).
  cbv beta iota in Hf.
  destruct (createAtomModel atom _ _ _) as [m|] eqn:Em; [|discriminate].
  injection Hf as <-. exists m. split; [reflexivity|exact Ho].
Qed.

(** C4, counterexample to the claim as stated.  Three hydrogen atoms at
    the origin, at [(4, 0, 0)] and at [(0, 6, 0)]; the bond list names the
    bond between the first two twice and the bond between the first and
    the third once, and the bonding progress is one.  The partners of
    the first atom are the other two, with centroid [(2, 3, 0)]; the tick
    places the pivot of the first atom at [(8/3, 2, 0)], the mean over
    the three bonds. *)
Lemma classical_pivot_bond_weighted :
  exists scene,
    fst (rebuild [hydrogen; hydrogen; hydrogen] [v3_zero; mkV3 4 0 0; mkV3 0 6 0]
                 example_repeated_bonds bohr 15 1 (fun _ => 0))
    = Some scene
    /\ spec_partner_atom_positions example_repeated_bonds (animatedObjects scene) 0
       = [mkV3 4 0 0; mkV3 0 6 0]
    /\ spec_lerp v3_zero (spec_centroid [mkV3 4 0 0; mkV3 0 6 0]) 1 = mkV3 2 3 0
    /\ forall threshold,
         exists obj',
           animatedObjects
             (fst (animate threshold bohr example_repeated_bonds (1 / 60)
                           (mkAnimationState (2 / 10) 1) scene (fun _ => 0))) !! 0%nat
           = Some obj'
           /\ electronPivots obj' <> []
           /\ forall pv, In pv (electronPivots obj') ->
                pivot_position pv = mkV3 (8 / 3) 2 0
                /\ pivot_position pv <> mkV3 2 3 0.
Proof.
  destruct (rebuild_scene [hydrogen; hydrogen; hydrogen]
              [v3_zero; mkV3 4 0 0; mkV3 0 6 0] example_repeated_bonds bohr 15 1
              (fun _ => 0)) as (scene & Hs & _).
  exists scene. split; [exact Hs|].
  destruct (rebuild_bohr_lookup _ _ _ _ _ _ scene 0 hydrogen Hs eq_refl)
    as (m0 & Hm0 & Ho0).
  destruct (rebuild_bohr_lookup _ _ _ _ _ _ scene 1 hydrogen Hs eq_refl)
    as (m1 & Hm1 & Ho1).
  destruct (rebuild_bohr_lookup _ _ _ _ _ _ scene 2 hydrogen Hs eq_refl)
    as (m2 & Hm2 & Ho2).
  assert (Hnuc : forall p m, createAtomModel hydrogen p 15 1 = Some m ->
                             nucleus_position (nucleus m) = p
                             /\ length (electronPivots m) = 1%nat).
  { intros p m Hm.
    destruct (createAtomModel_total hydrogen p 15 1) as (m' & Hm' & Hn & _ & He & Hp).
    rewrite Hm in Hm'. injection Hm' as <-.
    split; [now rewrite Hn|].
    rewrite Hp, length_map, He. cbn [shells hydrogen imap concat].
    now rewrite length_app, getSpherePoints_length. }
  destruct (Hnuc _ _ Hm0) as [Hp0 Hl0].
  destruct (Hnuc _ _ Hm1) as [Hp1 _].
  destruct (Hnuc _ _ Hm2) as [Hp2 _].
  cbn [position_of] in Hp0, Hp1, Hp2.
  assert (Hpos : forall js,
             Forall (fun j => j = 1%Z \/ j = 2%Z) js ->
             flat_map (fun j => match js_index (animatedObjects scene) j with
                                | Some o => [nucleus_position (nucleus o)]
                                | None => []
                                end) js
             = map (fun j => if (j =? 1)%Z then mkV3 4 0 0 else mkV3 0 6 0) js).
  { intros js Hjs. induction Hjs as [|j js Hj _ IH]; [reflexivity|].
    cbn [flat_map map]. rewrite IH.
    destruct Hj as [-> | ->].
    - change (js_index (animatedObjects scene) 1)
        with (animatedObjects scene !! 1%nat).
      rewrite Ho1. cbn [nucleus set_userData nucleus_position app Z.eqb Pos.eqb].
      now rewrite Hp1.
    - change (js_index (animatedObjects scene) 2)
        with (animatedObjects scene !! 2%nat).
      rewrite Ho2. cbn [nucleus set_userData nucleus_position app Z.eqb Pos.eqb].
      now rewrite Hp2. }
  split.
  { unfold spec_partner_atom_positions.
    change (spec_partner_atoms example_repeated_bonds 0) with [1%Z; 2%Z].
    rewrite Hpos; [reflexivity|].
    constructor; [now left|]. constructor; [now right|]. constructor. }
  split.
  { unfold spec_lerp, spec_centroid. cbn [length map fold_right vx vy vz INR].
    f_equal; field. }
  intros threshold.
  destruct (bohr_tick_pivot_position (threshold := threshold) example_repeated_bonds
              (1 / 60) (mkAnimationState (2 / 10) 1) scene (fun _ => 0) 0 _ Ho0)
    as (obj' & Ho' & _ & Hlen & Hpv).
  exists obj'. split; [exact Ho'|].
  cbn [electronPivots] in Hlen.
  split.
  { intros E. rewrite E, Hl0 in Hlen. discriminate. }
  intros pv Hin.
  destruct (Hpv pv Hin) as [Hbond _].
  assert (Hat : pivot_position pv = mkV3 (8 / 3) 2 0).
  { rewrite Hbond.
    - cbn [nucleus set_userData nucleus_position]. rewrite Hp0.
      unfold spec_partner_positions.
      change (spec_partners example_repeated_bonds 0) with [1%Z; 1%Z; 2%Z].
      rewrite Hpos
        by (repeat (constructor; [first [now left|now right]|]); constructor).
      unfold spec_lerp, spec_centroid, v3_zero.
      cbn [map Z.eqb Pos.eqb length fold_right vx vy vz INR state_bondingProgress].
      f_equal; field.
    - cbn [state_bondingProgress]. lra.
    - unfold spec_partner_positions.
      change (spec_partners example_repeated_bonds 0) with [1%Z; 1%Z; 2%Z].
      rewrite Hpos
        by (repeat (constructor; [first [now left|now right]|]); constructor).
      discriminate. }
  split; [exact Hat|].
  rewrite Hat. intros E. injection E as E _. lra.
Qed.

(** ** React effects *)

Lemma mode_eqb_eq (a b : VisualizationMode) : mode_eqb a b = true <-> a = b.
Proof. destruct a, b; simpl; split; intros H; try reflexivity; discriminate. Qed.

Lemma dep_same_eq (a b : Dep) : dep_same a b = true <-> a = b.
Proof.
  destruct a, b; simpl; split; intros H; try discriminate; try (injection H as H).
  - apply Nat.eqb_eq in H. now subst.
  - now apply Nat.eqb_eq.
  - destruct (Req_dec_T r r0); [now subst|discriminate].
  - destruct (Req_dec_T r r0); [reflexivity|contradiction].
  - apply Z.eqb_eq in H. now subst.
  - now apply Z.eqb_eq.
  - apply mode_eqb_eq in H. now subst.
  - now apply mode_eqb_eq.
Qed.

Lemma deps_same_eq (old new : list Dep) :
  length old = length new -> (deps_same old new = true <-> old = new).
Proof.
  revert new. induction old as [|a old IH]; intros [|b new] Hlen; try discriminate.
  - split; reflexivity.
  - simpl in *. rewrite andb_true_iff, dep_same_eq, IH by lia.
    split; [intros [-> ->]; reflexivity|intros H; injection H as -> ->; split; reflexivity].
Qed.

(** The animation-state ref holds what the effect computes from the
    props of the latest render: the effect runs whenever one of the three
    props it reads has changed. *)
Lemma animationState_commit_effect (prev : option AtomViewerProps)
      (cur : AtomViewerProps) (st : AnimationState) :
  match prev with Some q => st = animationState_effect q | None => True end ->
  animationState_commit prev cur st = animationState_effect cur.
Proof.
  unfold animationState_commit, effect_fires. destruct prev as [q|]; [|reflexivity].
  intros ->.
  destruct (deps_same (animationState_deps q) (animationState_deps cur)) eqn:Hd;
    [|reflexivity].
  simpl. apply deps_same_eq in Hd; [|reflexivity].
  unfold animationState_deps in Hd. injection Hd as Hs Hb Hm.
  unfold animationState_effect. now rewrite Hs, Hb, Hm.
Qed.

Lemma animationState_after_last (renders : list AtomViewerProps)
      (prev : option AtomViewerProps) (st : AnimationState) (p : AtomViewerProps) :
  match prev with Some q => st = animationState_effect q | None => True end ->
  animationState_after prev st (renders ++ [p]) = animationState_effect p.
Proof.
  revert prev st. induction renders as [|r renders IH]; intros prev st Hc; simpl.
  - now apply animationState_commit_effect.
  - apply IH. now apply animationState_commit_effect.
Qed.

(** The Quantum branch of the tick does not use the speed. *)
Lemma animate_quantum_speed {threshold : R} (pairs : list Bond) (delta : R)
      (st1 st2 : AnimationState)
      (scene : Scene) (g : RandomSource) :
  state_bondingProgress st1 = state_bondingProgress st2 ->
  animate threshold quantum pairs delta st1 scene g
      = animate threshold quantum pairs delta st2 scene g.
Proof. intros H. unfold animate. now rewrite H. Qed.

(** C10.  After any sequence of renders that ends in a render whose mode
    is not Classical, the animation state holds speed 0 whatever the
    electron speeds of the renders were; a Quantum tick computes the same
    scene and draws the same random numbers whatever speed the animation
    state holds; so two runs of Quantum ticks whose inputs differ only in
    the speed end in the same scene, electron clouds and bond groups
    included. *)
Theorem quantum_independent_of_electronSpeed {threshold : R}
        (renders : list AtomViewerProps) (p : AtomViewerProps) (st0 : AnimationState)
        (pairs : list Bond) (inputs1 inputs2 : list (R * AnimationState))
        (scene : Scene) (g : RandomSource) :
  visualizationMode p = quantum ->
  map (fun i => (fst i, state_bondingProgress (snd i))) inputs1
  = map (fun i => (fst i, state_bondingProgress (snd i))) inputs2 ->
  animationState_after None st0 (renders ++ [p])
  = mkAnimationState 0 (bondingProgress p)
  /\ (forall v, animationState_after None st0 (renders ++ [with_electronSpeed p v])
                = animationState_after None st0 (renders ++ [p]))
  /\ (forall delta s1 s2 bp,
         animate threshold quantum pairs delta (mkAnimationState s1 bp) scene g
         = animate threshold quantum pairs delta (mkAnimationState s2 bp) scene g)
  /\ run_ticks threshold quantum pairs inputs1 scene g
      = run_ticks threshold quantum pairs inputs2 scene g.
Proof.
  intros Hm Hin.
  assert (Hst : forall q, visualizationMode q = quantum ->
                  animationState_after None st0 (renders ++ [q])
                  = mkAnimationState 0 (bondingProgress q)).
  { intros q Hq. rewrite animationState_after_last by exact I.
    unfold animationState_effect. now rewrite Hq. }
  split; [now apply Hst|].
  split; [intros v; now rewrite !Hst|].
  split; [intros delta s1 s2 bp; now apply animate_quantum_speed|].
  revert inputs2 scene g Hin.
  induction inputs1 as [|[d1 st1] inputs1 IH]; intros [|[d2 st2] inputs2] scene g Hin;
    try discriminate; [reflexivity|].
  simpl in Hin. injection Hin as Hd Hb Hrest. subst d2.
  simpl. rewrite !rand_bind_eq.
  rewrite (animate_quantum_speed (threshold := threshold) pairs d1 st1 st2 scene g Hb).
  now apply IH.
Qed.

Lemma quantum_independent_of_electronSpeed_witness :
  run_ticks Number_EPSILON quantum [mkBond (0, 1)%Z 1]
            [(1 / 60, mkAnimationState 0 (1 / 2)); (1 / 60, mkAnimationState 0 (1 / 2))]
            example_quantum_scene (fun _ => 0)
  = run_ticks Number_EPSILON quantum [mkBond (0, 1)%Z 1]
              [(1 / 60, mkAnimationState 3 (1 / 2)); (1 / 60, mkAnimationState 7 (1 / 2))]
              example_quantum_scene (fun _ => 0).
Proof.
  apply (quantum_independent_of_electronSpeed
           [example_props]
           (mkProps (atoms example_props) (atomPositions example_props) 3
                    (bondingPairs example_props) (1 / 2) 3 5 6 quantum 15 1)
           (mkAnimationState 3 (1 / 2))); reflexivity.
Defined.

Lemma rebuild_fires_iff (prev cur : AtomViewerProps) :
  rebuild_fires prev cur = true <-> rebuild_deps prev <> rebuild_deps cur.
Proof.
  unfold rebuild_fires, effect_fires. rewrite negb_true_iff.
  destruct (deps_same (rebuild_deps prev) (rebuild_deps cur)) eqn:Hd.
  - apply deps_same_eq in Hd; [|reflexivity]. split; [discriminate|congruence].
  - split; [|reflexivity]. intros _ Heq.
    apply deps_same_eq in Heq; [congruence|reflexivity].
Qed.

(** C5, as the code has it by design.  Between two renders with the same
    trail opacity, a scene rebuild is scheduled exactly when the atom
    array, the position array, the bond array, the visualization mode,
    the trail length or one of the two callbacks the effect uses has
    changed; so a change of the bonding progress or of the electron
    speed alone schedules none, and does not re-run the effect that
    sets up (and on clean-up disposes) the scene.  The bonding progress
    reaches the frame
    loop through the animation state, and the trail-opacity effect writes
    the opacity into the material of every Classical trail. *)
Theorem rebuild_trigger (prev cur : AtomViewerProps) :
  trailOpacity prev = trailOpacity cur ->
  (rebuild_fires prev cur = true
   <-> ref_id (atoms prev) <> ref_id (atoms cur)
       \/ ref_id (atomPositions prev) <> ref_id (atomPositions cur)
       \/ ref_id (bondingPairs prev) <> ref_id (bondingPairs cur)
       \/ visualizationMode prev <> visualizationMode cur
       \/ trailLength prev <> trailLength cur
       \/ setIsLoading prev <> setIsLoading cur
       \/ onAtomPositionChange prev <> onAtomPositionChange cur)
  /\ (forall bp es,
         rebuild_fires prev (with_electronSpeed (with_bondingProgress prev bp) es) = false
         /\ effect_fires init_deps (Some prev)
                         (with_electronSpeed (with_bondingProgress prev bp) es) = false)
  /\ state_bondingProgress
       (animationState_commit (Some prev) cur (animationState_effect prev))
     = bondingProgress cur
  /\ (visualizationMode cur = bohr ->
      forall objs obj t,
        In obj (trailOpacity_effect cur objs) -> electronTrails obj = Some t ->
        points_opacity t = trailOpacity cur).
Proof.
  intros Hop. split; [|split; [|split]].
  - rewrite rebuild_fires_iff. unfold rebuild_deps. rewrite Hop. split.
    + intros Hne.
      destruct (Nat.eq_dec (ref_id (atoms prev)) (ref_id (atoms cur))) as [E1|]; [|tauto].
      destruct (Nat.eq_dec (ref_id (atomPositions prev)) (ref_id (atomPositions cur)))
        as [E2|]; [|tauto].
      destruct (Nat.eq_dec (ref_id (bondingPairs prev)) (ref_id (bondingPairs cur)))
        as [E3|]; [|tauto].
      destruct (Nat.eq_dec (setIsLoading prev) (setIsLoading cur)) as [E4|]; [|tauto].
      destruct (Nat.eq_dec (onAtomPositionChange prev) (onAtomPositionChange cur))
        as [E5|]; [|tauto].
      destruct (Z.eq_dec (trailLength prev) (trailLength cur)) as [E6|]; [|tauto].
      assert (visualizationMode prev <> visualizationMode cur); [|tauto].
      intros E7. apply Hne. now rewrite E1, E2, E3, E4, E5, E6, E7.
    + intros H Heq. injection Heq as E1 E2 E3 E4 E5 E7 E6.
      destruct H as [H|[H|[H|[H|[H|[H|H]]]]]]; now apply H.
  - intros bp es. split.
    + apply not_true_iff_false. rewrite rebuild_fires_iff.
      intros H. now apply H.
    + unfold effect_fires, init_deps. simpl. now rewrite !Nat.eqb_refl.
  - now rewrite animationState_commit_effect.
  - intros Hm objs obj t Hin Ht. unfold trailOpacity_effect in Hin. rewrite Hm in Hin.
    apply in_map_iff in Hin as (o & <- & _).
    destruct (electronTrails o) as [t0|] eqn:Ho; simpl in Ht.
    + injection Ht as <-. reflexivity.
    + congruence.
Qed.

Lemma rebuild_trigger_witness :
  rebuild_fires example_props
                (with_electronSpeed (with_bondingProgress example_props (1 / 2)) 3)
  = false.
Proof.
  exact (proj1 (proj1 (proj2 (rebuild_trigger example_props example_props eq_refl))
                      (1 / 2) 3)).
Defined.

(** C5, counterexample to the claim as stated: a render in which only
    the position array is new (the atoms, the bonds, the mode and the
    trail length are those of the render before, as after a drag)
    schedules a rebuild. *)
Lemma rebuild_on_position_change :
  let cur := with_atomPositions example_props
                                (mkRef 7 [v3_zero; mkV3 0 15 0; mkV3 3 (-15) 0]) in
  rebuild_fires example_props cur = true
  /\ atoms cur = atoms example_props
  /\ bondingPairs cur = bondingPairs example_props
  /\ visualizationMode cur = visualizationMode example_props
  /\ trailLength cur = trailLength example_props.
Proof. repeat split. Qed.

(** The dependency array of the rebuild effect also lists the trail
    opacity, which the trail-opacity effect exists to apply without a
    rebuild: a change of the trail opacity alone schedules a rebuild. *)
Lemma rebuild_on_trailOpacity_change :
  rebuild_fires example_props (with_trailOpacity example_props (1 / 2)) = true.
Proof.
  apply rebuild_fires_iff. unfold rebuild_deps. simpl.
  intros H. injection H as H. lra.
Qed.

(** The trail-opacity effect runs when the trail opacity has changed. *)
Lemma trailOpacity_effect_fires (prev cur : AtomViewerProps) :
  trailOpacity prev <> trailOpacity cur ->
  effect_fires trailOpacity_deps (Some prev) cur = true.
Proof.
  intros Hne. unfold effect_fires, trailOpacity_deps. simpl.
  destruct (Req_dec_T (trailOpacity prev) (trailOpacity cur)); [contradiction|reflexivity].
Qed.

(** [animate] is defined inside the effect whose dependencies are
    [onAtomRightClick] and [bondingPairs]: a render that changes the
    visualization mode alone rebuilds the scene in the new mode and
    leaves the running [animate] with the mode it captured. *)
Lemma mode_switch_keeps_closure (p : AtomViewerProps) (m : VisualizationMode) :
  visualizationMode p <> m ->
  effect_fires init_deps (Some p) (with_visualizationMode p m) = false
  /\ rebuild_fires p (with_visualizationMode p m) = true.
Proof.
  intros Hne. split.
  - unfold effect_fires, init_deps. simpl. now rewrite !Nat.eqb_refl.
  - apply rebuild_fires_iff. unfold rebuild_deps. simpl.
    intros H. injection H as H. contradiction.
Qed.

(** A tick whose mode has no model in the scene changes nothing. *)
Lemma animate_without_models {threshold : R} (mode : VisualizationMode)
      (pairs : list Bond)
      (delta : R) (st : AnimationState) (scene : Scene) (g : RandomSource) :
  scene_nuclei mode scene = [] ->
  animate threshold mode pairs delta st scene g = (scene, g).
Proof. intros H. unfold animate. now rewrite H. Qed.

(** ** The bond list *)

Lemma sort_pair_sorted (a b : Z) : (fst (sort_pair a b) <= snd (sort_pair a b))%Z.
Proof. unfold sort_pair. destruct (Z.ltb_spec b a); simpl; lia. Qed.

Lemma handleAddBond_sorted (a b ty : Z) (bs : list Bond) :
  Forall bond_sorted bs -> Forall bond_sorted (handleAddBond a b ty bs).
Proof.
  intros H. unfold handleAddBond. destruct (negb _); [|exact H].
  apply Forall_app. split; [exact H|].
  constructor; [|constructor]. apply sort_pair_sorted.
Qed.

Lemma handleRemoveBonds_sorted (a : Z) (bs : list Bond) :
  Forall bond_sorted bs -> Forall bond_sorted (handleRemoveBonds a bs).
Proof.
  intros H. unfold handleRemoveBonds. rewrite List.Forall_forall in *.
  intros b Hb. apply filter_In in Hb as [Hb _]. now apply H.
Qed.

Lemma handleAddBond_existing (a b ty : Z) (bs : list Bond) :
  Forall bond_sorted bs -> share_bond bs a b -> handleAddBond a b ty bs = bs.
Proof.
  intros Hs (bd & Hin & Hp). unfold handleAddBond.
  assert (Hsorted : bond_sorted bd).
  { rewrite List.Forall_forall in Hs. now apply Hs. }
  assert (Heq : pair bd = sort_pair a b).
  { unfold bond_sorted in Hsorted. unfold sort_pair.
    destruct Hp as [Hp|Hp]; rewrite Hp in *; simpl in Hsorted;
      destruct (Z.ltb_spec b a); try reflexivity; try lia.
    f_equal; lia. }
  assert (Hex : existsb (fun b0 => (fst (pair b0) =? fst (sort_pair a b))%Z
                                   && (snd (pair b0) =? snd (sort_pair a b))%Z) bs = true).
  { apply existsb_exists. exists bd. split; [exact Hin|].
    rewrite Heq, !Z.eqb_refl. reflexivity. }
  now rewrite Hex.
Qed.

Lemma knownMolecules_sorted (signature name : string) (pairs : list Bond) :
  In (signature, (name, pairs)) knownMolecules -> Forall bond_sorted pairs.
Proof.
  unfold knownMolecules. simpl. intros H.
  repeat (destruct H as [H|H];
          [injection H as _ _ <-; repeat constructor; unfold bond_sorted; simpl; lia|]).
  contradiction.
Qed.

Section ParserBonds.

Variable parseFloat : list ascii -> option R.

Lemma sdf_bond_sorted (lines : list (list ascii)) (start : Z) (i : nat) (b : Bond) :
  sdf_bond lines start i = Some b -> bond_sorted b.
Proof.
  unfold sdf_bond.
  destruct (js_index lines (start + Z.of_nat i)) as [[|c line]|]; try discriminate.
  destruct (parseInt_at _ 0) as [f|]; [|discriminate].
  destruct (parseInt_at _ 1) as [t|]; [|discriminate].
  destruct (parseInt_at _ 2) as [ty|]; [|discriminate].
  destruct (_ || _); [|discriminate].
  intros H. injection H as <-. unfold bond_sorted. simpl. lia.
Qed.

Lemma parseSDF_sorted (sdfData name : string) (data : ParsedMoleculeData) :
  parseSDF parseFloat sdfData name = inr data -> Forall bond_sorted (pm_bonds data).
Proof.
  unfold parseSDF.
  destruct (length _ <? 4)%nat; [discriminate|].
  destruct (parseInt_at _ 0) as [atomCount|]; [|discriminate].
  destruct (parseInt_at _ 1) as [bondCount|]; [|discriminate].
  destruct (100 <? atomCount)%Z; [discriminate|].
  intros H. injection H as <-. simpl.
  apply Forall_forall. intros b Hb.
  apply list_elem_of_omap in Hb as (i & _ & Hi).
  exact (sdf_bond_sorted _ _ _ _ Hi).
Qed.

Lemma conect_targets_sorted (atomMap : list (option Z * nat)) (fromIndex : nat)
      (targets : list (option Z)) (acc : list Bond * list (nat * nat)) :
  Forall bond_sorted (fst acc) ->
  Forall bond_sorted (fst (conect_targets atomMap fromIndex targets acc)).
Proof.
  revert acc. induction targets as [|t targets IH]; intros acc Hacc; [exact Hacc|].
  simpl. apply IH.
  destruct (atomMap_get atomMap t) as [toIndex|]; [|exact Hacc].
  destruct (bondSet_has _ _); [exact Hacc|].
  simpl. apply Forall_app. split; [exact Hacc|].
  constructor; [|constructor]. unfold bond_sorted. simpl. lia.
Qed.

Lemma conect_lines_sorted (atomMap : list (option Z * nat))
      (conectLines : list (list ascii)) (acc : list Bond * list (nat * nat)) :
  Forall bond_sorted (fst acc) ->
  Forall bond_sorted (fst (conect_lines atomMap conectLines acc)).
Proof.
  revert acc. induction conectLines as [|line rest IH]; intros acc Hacc; [exact Hacc|].
  simpl. apply IH.
  destruct (map parseInt _) as [|fromSerial targets]; [exact Hacc|].
  destruct (atomMap_get atomMap fromSerial) as [fromIndex|]; [|exact Hacc].
  now apply conect_targets_sorted.
Qed.

Lemma inferred_bonds_sorted (ps : list Vector3) (syms : list string) :
  Forall bond_sorted (inferred_bonds ps syms).
Proof.
  unfold inferred_bonds. rewrite List.Forall_forall. intros b Hb.
  apply in_flat_map in Hb as (i & _ & Hb).
  apply in_flat_map in Hb as (j & Hj & Hb).
  apply in_seq in Hj.
  destruct (Rlt_dec _ _); [|contradiction].
  destruct Hb as [<-|[]]. unfold bond_sorted. simpl. lia.
Qed.

Lemma parsePDB_sorted (pdbData name : string) (data : ParsedMoleculeData) :
  parsePDB parseFloat pdbData name = inr data -> Forall bond_sorted (pm_bonds data).
Proof.
  unfold parsePDB.
  destruct (PDB_MAX_ATOMS <? _)%nat; [discriminate|].
  destruct (pdb_atoms parseFloat _ 0 ([], [], [])) as [[ps syms] atomMap].
  intros H. injection H as <-. simpl.
  destruct (_ && _).
  - apply inferred_bonds_sorted.
  - apply conect_lines_sorted. constructor.
Qed.

Lemma bond_list_state_sorted (bs : list Bond) :
  bond_list_state parseFloat bs -> Forall bond_sorted bs.
Proof.
  induction 1 as [|sig name prs Hin|text name d Hd|text name d Hd
                  |bs a b ty _ IH|bs a _ IH].
  - constructor.
  - exact (knownMolecules_sorted _ _ _ Hin).
  - exact (parseSDF_sorted _ _ _ Hd).
  - exact (parsePDB_sorted _ _ _ Hd).
  - now apply handleAddBond_sorted.
  - now apply handleRemoveBonds_sorted.
Qed.

End ParserBonds.

(** C9.  Every value of the application's bond list, whether it comes
    from the table of known molecules, from the SDF parser, from the PDB
    parser or from the interactive handlers, holds only bonds whose pair
    is in ascending order; and on such a list [handleAddBond] between two
    atoms that already share a bond, in either order of the arguments and
    for every requested bond order, returns the list unchanged. *)
Theorem bond_pairs_ascending (parseFloat : list ascii -> option R) (bs : list Bond) :
  bond_list_state parseFloat bs ->
  Forall bond_sorted bs
  /\ (forall fromIndex toIndex ty,
         Forall bond_sorted (handleAddBond fromIndex toIndex ty bs))
  /\ (forall sdfData name data,
         parseSDF parseFloat sdfData name = inr data -> Forall bond_sorted (pm_bonds data))
  /\ (forall pdbData name data,
         parsePDB parseFloat pdbData name = inr data -> Forall bond_sorted (pm_bonds data))
  /\ (forall a b ty,
         share_bond bs a b ->
         handleAddBond a b ty bs = bs /\ handleAddBond b a ty bs = bs).
Proof.
  intros Hbs. pose proof (bond_list_state_sorted parseFloat bs Hbs) as Hs.
  split; [exact Hs|].
  split; [intros a b ty; now apply handleAddBond_sorted|].
  split; [apply parseSDF_sorted|].
  split; [apply parsePDB_sorted|].
  intros a b ty Hsh. split; apply handleAddBond_existing; try exact Hs.
  - exact Hsh.
  - destruct Hsh as (bd & Hin & Hp). exists bd. tauto.
Qed.

Lemma bond_pairs_ascending_witness :
  let bs := handleAddBond 2 1 3 [single 0 1; single 0 2] in
  Forall bond_sorted bs /\ handleAddBond 1 2 1 bs = bs.
Proof.
  assert (Hst : bond_list_state (fun _ => Some 0)
                                (handleAddBond 2 1 3 [single 0 1; single 0 2])).
  { apply bls_add. apply (bls_known _ "OHH" "Water"). simpl. left. reflexivity. }
  destruct (bond_pairs_ascending (fun _ => Some 0) _ Hst) as (Hs & _ & _ & _ & Hadd).
  split; [exact Hs|].
  apply (Hadd 1%Z 2%Z 1%Z).
  exists (mkBond (1, 2)%Z 3). split; [simpl; tauto|left; reflexivity].
Defined.

(** ** Examples *)

Example parseElectronConfiguration_iron :
  parseElectronConfiguration "[Ar] 3d6 4s2" = [("3d", 6%Z); ("4s", 2%Z)]%string.
Proof. reflexivity. Qed.

Example parseElectronConfiguration_oxygen :
  parseElectronConfiguration "1s2 2s2 2p4" = [("1s", 2%Z); ("2s", 2%Z); ("2p", 4%Z)]%string.
Proof. reflexivity. Qed.

Example handleAddBond_new :
  handleAddBond 2 1 3 [single 0 1] = [single 0 1; mkBond (1, 2)%Z 3].
Proof. reflexivity. Qed.

(** A bond line of an SDF file that names atom 0 (atoms are numbered
    from 1) yields the index [-1]. *)
Example parseSDF_atom_zero :
  match parseSDF (fun _ => Some 0) "mol
  viewer

  2  1
    0.0    0.0    0.0 H
    1.0    0.0    0.0 H
  0  1  1
M  END" "H2" with
  | inr data => pm_bonds data = [mkBond (-1, 0)%Z 1] /\ length (pm_symbols data) = 2%nat
  | inl _ => False
  end.
Proof. vm_compute. split; reflexivity. Qed.

Example parsePDB_conect :
  match parsePDB (fun _ => Some 0)
"HETATM    1  O   HOH A   1       0.000   0.000   0.000  1.00  0.00           O
HETATM    2  H1  HOH A   1       0.957   0.000   0.000  1.00  0.00           H
HETATM    3  H2  HOH A   1      -0.240   0.927   0.000  1.00  0.00           H
CONECT    2    1
CONECT    1    2    3
END" "water" with
  | inr data => pm_bonds data = [single 0 1; single 0 2]
                /\ pm_symbols data = ["O"; "H"; "H"]%string
  | inl _ => False
  end.
Proof. vm_compute. split; reflexivity. Qed.

Lemma rebuild_bond_models_witness :
  exists scene,
    fst (rebuild [oxygen; hydrogen; hydrogen] [v3_zero; mkV3 0 15 0; mkV3 0 (-15) 0]
                 [mkBond (0, 1)%Z 1; mkBond (0, 5)%Z 1] bohr 15 1 (fun _ => 0))
    = Some scene
    /\ In (new_bond_group (mkBond (0, 1)%Z 1)) (bonds scene)
    /\ ~ In (new_bond_group (mkBond (0, 5)%Z 1)) (bonds scene).
Proof.
  destruct (rebuild_bond_models [oxygen; hydrogen; hydrogen]
              [v3_zero; mkV3 0 15 0; mkV3 0 (-15) 0]
              [mkBond (0, 1)%Z 1; mkBond (0, 5)%Z 1] bohr 15 1 (fun _ => 0))
    as (scene & Hs & _ & Hin & _).
  exists scene. split; [exact Hs|]. split.
  - apply Hin; simpl; [tauto|lia].
  - intros H. apply Hin in H; simpl in *; [lia|tauto].
Defined.

(* ================================================================== *)
(** * Properties of the rest of the application *)
(* ================================================================== *)

(** ** Shared facts *)

(** ** List facts *)

Lemma filter_all {A} (f : A -> bool) (l : list A) :
  (forall x, In x l -> f x = true) -> List.filter f l = l.
Proof.
  induction l as [|a l IH]; intros H; simpl; [reflexivity|].
  rewrite (H a) by now left. f_equal. apply IH. intros x Hx. apply H. now right.
Qed.

Lemma centeredPositions_length (positions : list Vector3) :
  length (centeredPositions positions) = length positions.
Proof. destruct positions; [reflexivity|]. simpl. now rewrite List.length_map. Qed.

(** ** Character classes *)

Lemma upper_facts (c : ascii) :
  is_upper c = true ->
  is_lower c = false /\ is_digit c = false /\ is_space c = false /\ c <> "."%char.
Proof.
  unfold is_upper, is_lower, is_digit, is_space.
  rewrite andb_true_iff, !Nat.leb_le. intros [H1 H2].
  repeat split.
  - apply andb_false_iff. left. apply Nat.leb_gt. lia.
  - apply andb_false_iff. right. apply Nat.leb_gt. lia.
  - apply orb_false_iff. split.
    + apply andb_false_iff. right. apply Nat.leb_gt. lia.
    + apply Nat.eqb_neq. lia.
  - intros ->. vm_compute in H1. lia.
Qed.

Lemma lower_facts (c : ascii) :
  is_lower c = true -> is_space c = false /\ c <> "."%char.
Proof.
  unfold is_lower, is_space.
  rewrite andb_true_iff, !Nat.leb_le. intros [H1 H2].
  split.
  - apply orb_false_iff. split.
    + apply andb_false_iff. right. apply Nat.leb_gt. lia.
    + apply Nat.eqb_neq. lia.
  - intros ->. vm_compute in H1. lia.
Qed.

Lemma digit_facts (c : ascii) :
  is_digit c = true ->
  is_lower c = false /\ is_upper c = false /\ is_space c = false /\ c <> "."%char.
Proof.
  unfold is_upper, is_lower, is_digit, is_space.
  rewrite andb_true_iff, !Nat.leb_le. intros [H1 H2].
  repeat split.
  - apply andb_false_iff. left. apply Nat.leb_gt. lia.
  - apply andb_false_iff. left. apply Nat.leb_gt. lia.
  - apply orb_false_iff. split.
    + apply andb_false_iff. right. apply Nat.leb_gt. lia.
    + apply Nat.eqb_neq. lia.
  - intros ->. vm_compute in H1. lia.
Qed.

Lemma span_app_stop (p : ascii -> bool) (l r : list ascii) :
  Forall (fun c => p c = true) l ->
  match r with [] => True | c :: _ => p c = false end ->
  span p (l ++ r) = (l, r).
Proof.
  intros Hl Hr. induction Hl as [|c l Hc _ IH]; simpl.
  - destruct r as [|c r]; [reflexivity|]. simpl. now rewrite Hr.
  - cbv beta in Hc. now rewrite Hc, IH.
Qed.

Lemma atomScale_of_ge (atom : Atom) : 5 / 10 <= atomScale_of atom.
Proof. unfold atomScale_of. apply Rmax_l. Qed.

(** ** The SDF parser *)

Lemma length_omap_le {A B} (f : A -> option B) (l : list A) :
  (length (omap f l) <= length l)%nat.
Proof.
  induction l as [|a l IH]; [simpl; lia|].
  change (omap f (a :: l))
    with (match f a with Some y => y :: omap f l | None => omap f l end).
  destruct (f a); simpl; lia.
Qed.

Lemma length_split_on (sep : ascii) (s : list ascii) :
  length (split_on sep s) = S (count_occ ascii_dec s sep).
Proof.
  induction s as [|c s IH]; [reflexivity|].
  simpl. destruct (Ascii.eqb_spec c sep) as [->|Hne].
  - destruct (ascii_dec sep sep) as [_|H]; [|contradiction]. simpl. now rewrite IH.
  - destruct (ascii_dec c sep) as [H|_]; [contradiction|].
    destruct (split_on sep s) as [|h t]; simpl in *; [discriminate|exact IH].
Qed.

Section SdfShape.

Variable parseFloat : list ascii -> option R.

Lemma sdf_atom_symbol (lines : list (list ascii)) (i : nat) (p : Vector3) (s : string) :
  sdf_atom parseFloat lines i = Some (p, s) -> s <> EmptyString.
Proof.
  unfold sdf_atom.
  destruct (lines !! (4 + i)%nat) as [[|c0 line]|]; try discriminate.
  destruct (parseFloat_at _ _ 0); [|discriminate].
  destruct (parseFloat_at _ _ 1); [|discriminate].
  destruct (parseFloat_at _ _ 2); [|discriminate].
  destruct (_ !! 3%nat) as [[|c sym]|]; try discriminate.
  intros H. injection H as _ <-. discriminate.
Qed.

Lemma sdf_bond_type (lines : list (list ascii)) (start : Z) (i : nat) (b : Bond) :
  sdf_bond lines start i = Some b -> (type b = 1 \/ type b = 2 \/ type b = 3)%Z.
Proof.
  unfold sdf_bond.
  destruct (js_index lines (start + Z.of_nat i)) as [[|c line]|]; try discriminate.
  destruct (parseInt_at _ 0) as [f|]; [|discriminate].
  destruct (parseInt_at _ 1) as [t|]; [|discriminate].
  destruct (parseInt_at _ 2) as [ty|]; [|discriminate].
  destruct (Z.eqb_spec ty 1); [intros H; injection H as <-; simpl; tauto|].
  destruct (Z.eqb_spec ty 2); [intros H; injection H as <-; simpl; tauto|].
  destruct (Z.eqb_spec ty 3); [intros H; injection H as <-; simpl; tauto|].
  discriminate.
Qed.

(** X10. When parseSDF returns a molecule, parseInt reads two integers
    from the first two fields of the fourth line of the text, an atom
    count of at most 100 and a bond count. The molecule carries the given
    name and as many symbols as positions, at most the atom count and none
    of them empty, and at most the bond count of bonds, each of type 1, 2
    or 3: atom and bond lines that cannot be read are left out without an
    error. *)
Theorem parseSDF_result (sdfData name : string) (data : ParsedMoleculeData) :
  parseSDF parseFloat sdfData name = inr data ->
  let lines := split_on "010"%char (list_ascii_of_string sdfData) in
  let countsLine := split_ws (trim (default [] (lines !! 3%nat))) in
  exists atomCount bondCount,
    parseInt_at countsLine 0 = Some atomCount
    /\ parseInt_at countsLine 1 = Some bondCount
    /\ (atomCount <= 100)%Z
    /\ pm_name data = name
    /\ length (pm_symbols data) = length (pm_positions data)
    /\ (length (pm_symbols data) <= Z.to_nat atomCount)%nat
    /\ (length (pm_bonds data) <= Z.to_nat bondCount)%nat
    /\ Forall (fun s => s <> EmptyString) (pm_symbols data)
    /\ Forall (fun b => type b = 1 \/ type b = 2 \/ type b = 3)%Z (pm_bonds data).
Proof.
  intros H lines countsLine. unfold parseSDF in H. fold lines in H. fold countsLine in H.
  destruct (length lines <? 4)%nat; [discriminate|].
  destruct (parseInt_at countsLine 0) as [atomCount|]; [|discriminate].
  destruct (parseInt_at countsLine 1) as [bondCount|]; [|discriminate].
  destruct (Z.ltb_spec 100 atomCount) as [|Hle]; [discriminate|].
  injection H as <-. exists atomCount, bondCount. simpl.
  split; [reflexivity|]. split; [reflexivity|]. split; [exact Hle|].
  split; [reflexivity|].
  split; [now rewrite !List.length_map|].
  split.
  { rewrite List.length_map.
    etransitivity; [apply length_omap_le|]. now rewrite length_seq. }
  split.
  { etransitivity; [apply length_omap_le|]. now rewrite length_seq. }
  split.
  - apply Forall_forall. intros s Hs.
    change (map snd ?l) with (snd <$> l) in Hs.
    apply list_elem_of_fmap in Hs as ([p s'] & -> & Hin).
    apply list_elem_of_omap in Hin as (i & _ & Hi).
    exact (sdf_atom_symbol _ _ _ _ Hi).
  - apply Forall_forall. intros b Hb.
    apply list_elem_of_omap in Hb as (i & _ & Hi).
    exact (sdf_bond_type _ _ _ _ Hi).
Qed.

(** X11. parseSDF rejects a text as an invalid SDF exactly when the text
    has fewer than four lines, that is fewer than three line feeds. It
    reports a molecule as too large only for an atom count above 100, and
    it returns a molecule only for a text of at least four lines. *)
Theorem parseSDF_errors (sdfData name : string) :
  let newlines := count_occ ascii_dec (list_ascii_of_string sdfData) "010"%char in
  (parseSDF parseFloat sdfData name = inl InvalidSDF <-> (newlines < 3)%nat)
  /\ (forall n, parseSDF parseFloat sdfData name = inl (TooLarge n) -> (100 < n)%Z)
  /\ (forall data, parseSDF parseFloat sdfData name = inr data -> (3 <= newlines)%nat).
Proof.
  intros newlines. unfold parseSDF.
  rewrite length_split_on. fold newlines.
  destruct (Nat.ltb_spec (S newlines) 4) as [Hlt|Hge].
  - split; [split; [lia|reflexivity]|]. split; intros; discriminate.
  - destruct (parseInt_at _ 0) as [atomCount|].
    + destruct (parseInt_at _ 1) as [bondCount|].
      * destruct (Z.ltb_spec 100 atomCount) as [Hl|Hl].
        -- split; [split; [discriminate|lia]|].
           split; [intros n H; injection H as <-; exact Hl|intros; discriminate].
        -- split; [split; [discriminate|lia]|].
           split; [intros; discriminate|intros; lia].
      * split; [split; [discriminate|lia]|]. split; intros; discriminate.
    + split; [split; [discriminate|lia]|]. split; intros; discriminate.
Qed.

End SdfShape.

(** ** The PDB parser *)

Lemma NoDup_flat_map {A B} (f : A -> list B) (l : list A) :
  NoDup l ->
  (forall x, In x l -> NoDup (f x)) ->
  (forall x1 x2 y, In x1 l -> In x2 l -> In y (f x1) -> In y (f x2) -> x1 = x2) ->
  NoDup (flat_map f l).
Proof.
  induction l as [|a l IH]; intros Hl Hf Hinj; simpl; [constructor|].
  apply NoDup_cons in Hl as [Ha Hl].
  apply NoDup_app. split; [apply Hf; now left|]. split.
  - intros y Hy Hy'. apply list_elem_of_In in Hy, Hy'.
    apply in_flat_map in Hy' as (x & Hx & Hyx).
    assert (a = x) by (apply (Hinj a x y); simpl; auto).
    subst x. apply Ha. now apply list_elem_of_In.
  - apply IH; [exact Hl| |].
    + intros x Hx. apply Hf. now right.
    + intros x1 x2 y H1 H2. apply Hinj; now right.
Qed.

Lemma map_flat_map {A B C} (h : B -> C) (f : A -> list B) (l : list A) :
  map h (flat_map f l) = flat_map (fun a => map h (f a)) l.
Proof.
  induction l as [|a l IH]; simpl; [reflexivity|].
  now rewrite map_app, IH.
Qed.

Lemma inferred_bonds_In (ps : list Vector3) (syms : list string) (b : Bond) :
  In b (inferred_bonds ps syms) ->
  exists i j, (i < j < length ps)%nat /\ b = mkBond (Z.of_nat i, Z.of_nat j) 1.
Proof.
  unfold inferred_bonds. intros Hb.
  apply in_flat_map in Hb as (i & Hi & Hb).
  apply in_flat_map in Hb as (j & Hj & Hb).
  apply in_seq in Hi, Hj.
  destruct (Rlt_dec _ _); [|destruct Hb].
  destruct Hb as [<-|[]]. exists i, j. split; [lia|reflexivity].
Qed.

Lemma inferred_bonds_NoDup (ps : list Vector3) (syms : list string) :
  NoDup (map pair (inferred_bonds ps syms)).
Proof.
  unfold inferred_bonds. rewrite map_flat_map.
  apply NoDup_flat_map.
  - apply NoDup_ListNoDup, seq_NoDup.
  - intros i _. rewrite map_flat_map. apply NoDup_flat_map.
    + apply NoDup_ListNoDup, seq_NoDup.
    + intros j _. destruct (Rlt_dec _ _); cbn [map]; [|constructor].
      apply NoDup_singleton.
    + intros j1 j2 y _ _ H1 H2.
      destruct (Rlt_dec _ _) in H1; [|destruct H1].

      destruct (Rlt_dec _ _) in H2; [|destruct H2].

      destruct H1 as [<-|[]]. destruct H2 as [H2|[]]. injection H2 as H2. lia.
  - intros i1 i2 y _ _ H1 H2. rewrite map_flat_map in H1, H2.

    apply in_flat_map in H1 as (j1 & _ & H1).
    apply in_flat_map in H2 as (j2 & _ & H2).
    destruct (Rlt_dec _ _) in H1; [|destruct H1].
    destruct (Rlt_dec _ _) in H2; [|destruct H2].
    destruct H1 as [<-|[]]. destruct H2 as [H2|[]]. injection H2 as H2 _. lia.
Qed.

Section PdbShape.

Variable parseFloat : list ascii -> option R.

Lemma pdb_atoms_inv (atomLines : list (list ascii)) (index : nat)
      (ps : list Vector3) (syms : list string) (atomMap : list (option Z * nat)) :
  length ps = length syms ->
  Forall (fun s => s <> EmptyString) syms ->
  Forall (fun e => (snd e < index)%nat) atomMap ->
  match pdb_atoms parseFloat atomLines index (ps, syms, atomMap) with
  | (ps', syms', atomMap') =>
      length ps' = length syms'
      /\ (length ps' <= length ps + length atomLines)%nat
      /\ Forall (fun s => s <> EmptyString) syms'
      /\ Forall (fun e => (snd e < index + length atomLines)%nat) atomMap'
  end.
Proof.
  revert index ps syms atomMap.
  induction atomLines as [|line rest IH]; intros index ps syms atomMap Hlen Hsym Hmap.
  - cbn [pdb_atoms length]. rewrite !Nat.add_0_r. repeat split; try assumption. lia.
  - cbn [pdb_atoms length].
    assert (Hmap' : Forall (fun e => (snd e < S index)%nat) atomMap).
    { eapply Forall_impl; [exact Hmap|]. simpl. intros; lia. }
    assert (Hskip :
              match pdb_atoms parseFloat rest (S index) (ps, syms, atomMap) with
              | (ps', syms', atomMap') =>
                  length ps' = length syms'
                  /\ (length ps' <= length ps + S (length rest))%nat
                  /\ Forall (fun s => s <> EmptyString) syms'
                  /\ Forall (fun e => (snd e < index + S (length rest))%nat) atomMap'
              end).
    { specialize (IH (S index) ps syms atomMap Hlen Hsym Hmap').
      destruct (pdb_atoms _ rest (S index) _) as [[ps' syms'] atomMap'].
      destruct IH as (H1 & H2 & H3 & H4).
      repeat split; try assumption; [lia|].
      eapply Forall_impl; [exact H4|]. simpl. intros; lia. }
    destruct (parseFloat (substring 30 38 line)) as [x|]; [|exact Hskip].
    destruct (parseFloat (substring 38 46 line)) as [y|]; [|exact Hskip].
    destruct (parseFloat (substring 46 54 line)) as [z|]; [|exact Hskip].
    destruct (pdb_symbol line) as [|c sym]; [exact Hskip|].
    specialize (IH (S index) (ps ++ [mkV3 x y z])
                   (syms ++ [string_of_list_ascii (c :: sym)])
                   ((parseInt (substring 6 11 line), index) :: atomMap)).
    destruct (pdb_atoms _ rest (S index) _) as [[ps' syms'] atomMap'].
    destruct IH as (H1 & H2 & H3 & H4).
    + rewrite !length_app. simpl. lia.
    + apply Forall_app. split; [exact Hsym|]. constructor; [discriminate|constructor].
    + constructor; [simpl; lia|exact Hmap'].
    + rewrite length_app in H2. simpl in H2.
      repeat split; try assumption; [lia|].
      eapply Forall_impl; [exact H4|]. simpl. intros; lia.
Qed.

Lemma atomMap_get_In (atomMap : list (option Z * nat)) (serial : option Z) (i : nat) :
  atomMap_get atomMap serial = Some i -> exists k, In (k, i) atomMap.
Proof.
  induction atomMap as [|[k v] m IH]; simpl; [discriminate|].
  destruct (serial_eqb k serial).
  - intros H. injection H as ->. exists k. now left.
  - intros H. destruct (IH H) as [k' Hk']. exists k'. now right.
Qed.

Lemma conect_targets_ok (N : nat) (atomMap : list (option Z * nat)) (fromIndex : nat)
      (targets : list (option Z)) (acc : list Bond * list (nat * nat)) :
  Forall (fun e => (snd e < N)%nat) atomMap -> (fromIndex < N)%nat ->
  conect_ok N acc -> conect_ok N (conect_targets atomMap fromIndex targets acc).
Proof.
  intros Hmap Hfrom. revert acc.
  induction targets as [|t targets IH]; intros acc Hacc; [exact Hacc|].
  simpl. apply IH.
  destruct (atomMap_get atomMap t) as [toIndex|] eqn:Hget; [|exact Hacc].
  assert (Hto : (toIndex < N)%nat).
  { apply atomMap_get_In in Hget as [k Hk].
    rewrite List.Forall_forall in Hmap. exact (Hmap _ Hk). }
  destruct (bondSet_has (snd acc) _) eqn:Hhas; [exact Hacc|].
  destruct Hacc as (Hty & Hnd & Hrange & Hset).
  set (pr := (Nat.min fromIndex toIndex, Nat.max fromIndex toIndex)) in *.
  unfold conect_ok. simpl.
  split; [apply Forall_app; split; [exact Hty|repeat constructor]|].
  split.
  { rewrite map_app. simpl. apply NoDup_app. split; [exact Hnd|].
    split; [|apply NoDup_singleton].
    intros y Hy Hy'. apply list_elem_of_In in Hy.
    apply list_elem_of_singleton in Hy'. subst y.
    apply (Hset pr) in Hy. congruence. }
  split.
  { apply Forall_app. split; [exact Hrange|]. constructor; [|constructor]. simpl. lia. }
  intros pr'. unfold bondSet_has in *. simpl.
  rewrite orb_true_iff, map_app, in_app_iff. simpl.
  rewrite (Hset pr'). split.
  - intros [H|H]; [right; left|now left].
    apply andb_true_iff in H as [H1 H2].
    apply Nat.eqb_eq in H1, H2. now rewrite H1, H2.
  - intros [H|[H|[]]]; [now right|left].
    injection H as H1 H2. apply Nat2Z.inj in H1, H2.
    rewrite H1, H2, !Nat.eqb_refl. reflexivity.
Qed.

Lemma conect_lines_ok (N : nat) (atomMap : list (option Z * nat))
      (conectLines : list (list ascii)) (acc : list Bond * list (nat * nat)) :
  Forall (fun e => (snd e < N)%nat) atomMap ->
  conect_ok N acc -> conect_ok N (conect_lines atomMap conectLines acc).
Proof.
  intros Hmap. revert acc.
  induction conectLines as [|line rest IH]; intros acc Hacc; [exact Hacc|].
  simpl. apply IH.
  destruct (map parseInt _) as [|fromSerial targets]; [exact Hacc|].
  destruct (atomMap_get atomMap fromSerial) as [fromIndex|] eqn:Hget; [|exact Hacc].
  apply conect_targets_ok; [exact Hmap| |exact Hacc].
  apply atomMap_get_In in Hget as [k Hk].
  rewrite List.Forall_forall in Hmap. exact (Hmap _ Hk).
Qed.

(** X12. When parsePDB returns a molecule, it carries the given name and
    as many symbols as positions, none of them empty, at most one per ATOM
    or HETATM line, of which there are at most 500. Every bond has type 1,
    no pair occurs twice, and every pair is ascending with both indices
    from 0 to below the number of ATOM and HETATM lines; this is the
    number of atoms, so that every bond joins two atoms of the molecule,
    when no such line was skipped. *)
Theorem parsePDB_result (pdbData name : string) (data : ParsedMoleculeData) :
  parsePDB parseFloat pdbData name = inr data ->
  let atomLines :=
    List.filter (fun line => startsWith line (list_ascii_of_string "ATOM")
                             || startsWith line (list_ascii_of_string "HETATM"))
                (split_on "010"%char (list_ascii_of_string pdbData)) in
  pm_name data = name
  /\ length (pm_symbols data) = length (pm_positions data)
  /\ (length (pm_symbols data) <= length atomLines)%nat
  /\ (length atomLines <= PDB_MAX_ATOMS)%nat
  /\ Forall (fun s => s <> EmptyString) (pm_symbols data)
  /\ Forall (fun b => type b = 1%Z) (pm_bonds data)
  /\ NoDup (map pair (pm_bonds data))
  /\ Forall (fun b => (0 <= fst (pair b) <= snd (pair b))%Z
                      /\ (snd (pair b) < Z.of_nat (length atomLines))%Z)
            (pm_bonds data)
  /\ (length (pm_positions data) = length atomLines ->
      Forall (fun b => (0 <= fst (pair b) < Z.of_nat (length (pm_positions data)))%Z
                       /\ (0 <= snd (pair b) < Z.of_nat (length (pm_positions data)))%Z)
             (pm_bonds data)).
Proof.
  intros H atomLines. unfold parsePDB in H. fold atomLines in H.
  destruct (Nat.ltb_spec PDB_MAX_ATOMS (length atomLines)) as [|Hmax]; [discriminate|].
  pose proof (pdb_atoms_inv atomLines 0 [] [] [] eq_refl ltac:(constructor)
                            ltac:(constructor)) as Hinv.
  destruct (pdb_atoms parseFloat atomLines 0 ([], [], [])) as [[ps syms] atomMap].
  destruct Hinv as (Hlen & Hle & Hsym & Hmap). cbn [length Nat.add] in Hle, Hmap.
  injection H as <-. cbn [pm_name pm_symbols pm_positions pm_bonds].
  split; [reflexivity|]. split; [now symmetry|]. split; [lia|]. split; [exact Hmax|].
  split; [exact Hsym|].
  set (conectLines := List.filter _ _).
  assert (Hc : conect_ok (length atomLines) (conect_lines atomMap conectLines ([], []))).
  { apply conect_lines_ok; [exact Hmap|].
    repeat split; simpl; try constructor; try discriminate; try contradiction. }
  destruct Hc as (Hty & Hnd & Hrange & _).
  assert (Hinf : Forall (fun b => (0 <= fst (pair b) <= snd (pair b))%Z
                                  /\ (snd (pair b) < Z.of_nat (length ps))%Z
                                  /\ type b = 1%Z) (inferred_bonds ps syms)).
  { rewrite List.Forall_forall. intros b Hb.
    apply inferred_bonds_In in Hb as (i & j & Hij & ->).
    cbn [pair type fst snd]. lia. }
  destruct (_ && _).
  - split; [eapply Forall_impl; [exact Hinf|]; simpl; tauto|].
    split; [apply inferred_bonds_NoDup|].
    split.
    + eapply Forall_impl; [exact Hinf|]. simpl. intros b Hb. lia.
    + intros _. eapply Forall_impl; [exact Hinf|]. simpl. intros b Hb. lia.
  - split; [exact Hty|]. split; [exact Hnd|]. split; [exact Hrange|].
    intros Heq. rewrite Heq. eapply Forall_impl; [exact Hrange|]. simpl. intros b Hb. lia.
Qed.

End PdbShape.

(** ** The context menu and the bond handlers *)

Lemma handleRemoveBonds_In (a : Z) (bs : list Bond) (b : Bond) :
  In b (handleRemoveBonds a bs)
  <-> In b bs /\ fst (pair b) <> a /\ snd (pair b) <> a.
Proof.
  unfold handleRemoveBonds. rewrite filter_In, negb_true_iff, orb_false_iff.
  rewrite !Z.eqb_neq. tauto.
Qed.

Lemma hasBonds_false (bs : list Bond) (a : Z) :
  hasBonds bs a = false
  <-> forall b, In b bs -> fst (pair b) <> a /\ snd (pair b) <> a.
Proof.
  unfold hasBonds. split.
  - intros H b Hb.
    destruct (Z.eqb_spec (fst (pair b)) a) as [E1|N1];
      destruct (Z.eqb_spec (snd (pair b)) a) as [E2|N2]; try tauto;
      exfalso; apply not_true_iff_false in H; apply H;
      apply existsb_exists; exists b; (split; [exact Hb|]);
      rewrite orb_true_iff, !Z.eqb_eq; tauto.
  - intros H. apply not_true_iff_false. intros Hex.
    apply existsb_exists in Hex as (b & Hb & Hor).
    rewrite orb_true_iff, !Z.eqb_eq in Hor.
    destruct (H b Hb). tauto.
Qed.

Lemma existingBond_None (bs : list Bond) (a i : Z) :
  existingBond bs a i = None
  <-> forall b, In b bs -> pair b <> (a, i) /\ pair b <> (i, a).
Proof.
  unfold existingBond. split.
  - intros H b Hb.
    pose proof (find_none _ _ H b Hb) as Hf. simpl in Hf.
    rewrite orb_false_iff, !andb_false_iff, !Z.eqb_neq in Hf.
    destruct (pair b) as [p q]. simpl in Hf.
    split; intros E; injection E as -> ->; lia.
  - intros H. destruct (List.find _ bs) as [b|] eqn:Hf; [|reflexivity].
    apply find_some in Hf as [Hb Hf].
    rewrite orb_true_iff, !andb_true_iff, !Z.eqb_eq in Hf.
    destruct (H b Hb) as [H1 H2]. destruct (pair b) as [p q]. simpl in Hf.
    exfalso. destruct Hf as [[-> ->]|[-> ->]]; [now apply H1|now apply H2].
Qed.

Lemma existingBond_Some (bs : list Bond) (a i : Z) (b : Bond) :
  existingBond bs a i = Some b -> In b bs /\ (pair b = (a, i) \/ pair b = (i, a)).
Proof.
  unfold existingBond. intros Hf. apply find_some in Hf as [Hb Hf].
  split; [exact Hb|].
  rewrite orb_true_iff, !andb_true_iff, !Z.eqb_eq in Hf.
  destruct (pair b) as [p q]. simpl in Hf.
  destruct Hf as [[-> ->]|[-> ->]]; [now left|now right].
Qed.

Lemma handleAddBond_fresh (a i ty : Z) (bs : list Bond) :
  existingBond bs a i = None ->
  handleAddBond a i ty bs = bs ++ [mkBond (sort_pair a i) ty].
Proof.
  intros Hnone. unfold handleAddBond.
  destruct (existsb _ bs) eqn:Hex; [|reflexivity].
  exfalso. apply existsb_exists in Hex as (b & Hb & Hp).
  rewrite andb_true_iff, !Z.eqb_eq in Hp. destruct Hp as [H1 H2].
  destruct (proj1 (existingBond_None bs a i) Hnone b Hb) as [N1 N2].
  destruct (pair b) as [p q]. simpl in H1, H2. subst p q.
  unfold sort_pair in N1, N2. destruct (i <? a)%Z; simpl in *; congruence.
Qed.

Lemma existingBond_after_remove (atomIndex a i : Z) (bs : list Bond) :
  a <> atomIndex -> i <> atomIndex ->
  existingBond (handleRemoveBonds atomIndex bs) a i = existingBond bs a i.
Proof.
  intros Ha Hi. unfold existingBond, handleRemoveBonds.
  induction bs as [|b bs IH]; [reflexivity|]. simpl.
  destruct (Z.eqb_spec (fst (pair b)) atomIndex) as [E1|N1]; simpl.
  - rewrite IH.
    destruct (Z.eqb_spec (fst (pair b)) a) as [E|_]; [congruence|].
    destruct (Z.eqb_spec (fst (pair b)) i) as [E|_]; [congruence|]. reflexivity.
  - destruct (Z.eqb_spec (snd (pair b)) atomIndex) as [E2|N2]; simpl.
    + rewrite IH.
      destruct (Z.eqb_spec (snd (pair b)) a) as [E|_]; [congruence|].
      destruct (Z.eqb_spec (snd (pair b)) i) as [E|_]; [congruence|].
      now rewrite !andb_false_r.
    + now rewrite IH.
Qed.

Lemma hasBonds_after_remove (atomIndex : Z) (bs : list Bond) :
  hasBonds (handleRemoveBonds atomIndex bs) atomIndex = false.
Proof.
  apply hasBonds_false. intros b Hb. now apply handleRemoveBonds_In in Hb.
Qed.

Lemma handleRemoveBonds_fixed (atomIndex : Z) (bs : list Bond) :
  hasBonds bs atomIndex = false <-> handleRemoveBonds atomIndex bs = bs.
Proof.
  split.
  - intros H. apply filter_all. intros b Hb.
    destruct (proj1 (hasBonds_false bs atomIndex) H b Hb) as [N1 N2].
    apply Z.eqb_neq in N1, N2. now rewrite N1, N2.
  - intros H. rewrite <- H. apply hasBonds_after_remove.
Qed.

(** X22. handleRemoveBonds(atomIndex) keeps exactly the bonds that do not
    have the atom at either end. Afterwards the context menu finds no bond
    of the atom and finds the bonds between other atoms as before; the
    list is unchanged exactly when the atom had no bond; and removing a
    second time changes nothing. *)
Theorem handleRemoveBonds_spec (atomIndex : Z) (bs : list Bond) :
  let bs' := handleRemoveBonds atomIndex bs in
  hasBonds bs' atomIndex = false
  /\ (forall index, existingBond bs' atomIndex index = None)
  /\ (forall b, In b bs' <-> In b bs /\ fst (pair b) <> atomIndex
                                     /\ snd (pair b) <> atomIndex)
  /\ (forall a i, a <> atomIndex -> i <> atomIndex ->
                  existingBond bs' a i = existingBond bs a i)
  /\ (hasBonds bs atomIndex = false <-> bs' = bs)
  /\ handleRemoveBonds atomIndex bs' = bs'.
Proof.
  intros bs'.
  split; [apply hasBonds_after_remove|].
  split.
  { intros index. apply existingBond_None. intros b Hb.
    apply handleRemoveBonds_In in Hb as (_ & N1 & N2).
    destruct (pair b) as [p q]. simpl in *. split; congruence. }
  split; [intros b; apply handleRemoveBonds_In|].
  split; [intros a i; apply existingBond_after_remove|].
  split; [apply handleRemoveBonds_fixed|].
  apply handleRemoveBonds_fixed, hasBonds_after_remove.
Qed.

(** X23. For a bond list with ascending pairs, the context menu is
    rendered only for an atom index within the atoms and has one row for
    each of the other atoms. A row with the three add buttons belongs to
    an atom for which handleAddBond appends a bond with the sorted pair
    and the chosen type; a row with a Single, Double or Triple label
    belongs to an atom for which handleAddBond changes nothing, and the
    label is that of a bond between the two atoms. Remove All Bonds is
    shown exactly when handleRemoveBonds would change the list. *)
Theorem contextMenu_agrees_with_handlers
        (x y w h iw ih : R) (atomIndex : Z) (natoms : nat) (bs : list Bond) (menu : Menu) :
  Forall bond_sorted bs ->
  ContextMenu x y w h iw ih atomIndex natoms bs = Some menu ->
  (0 <= atomIndex < Z.of_nat natoms)%Z
  /\ length (menu_rows menu) = (natoms - 1)%nat
  /\ (forall index, In (AddButtons index) (menu_rows menu) ->
        (index < natoms)%nat /\ Z.of_nat index <> atomIndex
        /\ forall ty,
             handleAddBond atomIndex (Z.of_nat index) ty bs
             = bs ++ [mkBond (sort_pair atomIndex (Z.of_nat index)) ty])
  /\ (forall index label, In (BondLabel index label) (menu_rows menu) ->
        (index < natoms)%nat /\ Z.of_nat index <> atomIndex
        /\ (forall ty, handleAddBond atomIndex (Z.of_nat index) ty bs = bs)
        /\ exists b, In b bs /\ pair b = sort_pair atomIndex (Z.of_nat index)
                     /\ label = bond_label (type b))
  /\ (menu_remove menu = true <-> handleRemoveBonds atomIndex bs <> bs).
Proof.
  intros Hs. unfold ContextMenu.
  destruct (Z.leb_spec 0 atomIndex) as [H0|]; [|discriminate].
  destruct (Z.ltb_spec atomIndex (Z.of_nat natoms)) as [Hn|]; [|discriminate].
  simpl. intros H. injection H as <-. simpl.
  assert (Hother : forall index, In index (otherAtoms natoms atomIndex)
                     <-> (index < natoms)%nat /\ Z.of_nat index <> atomIndex).
  { intros index. unfold otherAtoms.
    rewrite filter_In, in_seq, negb_true_iff, Z.eqb_neq. lia. }
  split; [lia|].
  split.
  { rewrite List.length_map. unfold otherAtoms.
    replace natoms with (Z.to_nat atomIndex + (1 + (natoms - 1 - Z.to_nat atomIndex)))%nat
      at 1 by lia.
    rewrite !seq_app, !List.filter_app, !length_app. simpl.
    rewrite Z2Nat.id, Z.eqb_refl by lia. simpl.
    rewrite !filter_all.
    - rewrite !length_seq. lia.
    - intros i Hi. apply in_seq in Hi. apply negb_true_iff, Z.eqb_neq. lia.
    - intros i Hi. apply in_seq in Hi. apply negb_true_iff, Z.eqb_neq. lia. }
  split.
  { intros index Hin. apply in_map_iff in Hin as (i & Hrow & Hi).
    destruct (existingBond bs atomIndex (Z.of_nat i)) as [b|] eqn:He; [discriminate|].
    injection Hrow as ->. apply Hother in Hi as [Hi1 Hi2].
    split; [exact Hi1|]. split; [exact Hi2|].
    intros ty. now apply handleAddBond_fresh. }
  split.
  { intros index label Hin. apply in_map_iff in Hin as (i & Hrow & Hi).
    destruct (existingBond bs atomIndex (Z.of_nat i)) as [b|] eqn:He; [|discriminate].
    injection Hrow as -> <-. apply Hother in Hi as [Hi1 Hi2].
    split; [exact Hi1|]. split; [exact Hi2|].
    apply existingBond_Some in He as [Hb Hp].
    split.
    - intros ty. apply handleAddBond_existing; [exact Hs|].
      exists b. split; [exact Hb|exact Hp].
    - exists b. split; [exact Hb|]. split; [|reflexivity].
      rewrite List.Forall_forall in Hs. pose proof (Hs b Hb) as Hsb.
      unfold bond_sorted in Hsb. unfold sort_pair.
      destruct Hp as [Hp|Hp]; rewrite Hp in *; simpl in Hsb;
        destruct (Z.ltb_spec (Z.of_nat index) atomIndex); try reflexivity; try lia;
        f_equal; lia. }
  pose proof (handleRemoveBonds_fixed atomIndex bs) as Hiff.
  destruct (hasBonds bs atomIndex) eqn:Hh.
  - split; [|reflexivity]. intros _ Heq. apply Hiff in Heq. discriminate.
  - split; [discriminate|]. intros Hne. exfalso. apply Hne. now apply Hiff.
Qed.

(** ** The formula input *)

Lemma elementSymbolMap_get_known (els : list ElementInfo) (key : list ascii) (s : string) :
  elementSymbolMap_get els key = Some s -> known_symbol els s.
Proof.
  unfold elementSymbolMap_get.
  destruct (List.find _ (rev els)) as [el|] eqn:Hf; [|discriminate].
  intros H. injection H as <-. apply find_some in Hf as [Hin _].
  exists el. split; [|reflexivity]. now apply in_rev.
Qed.

Lemma scan_part_known (fuel : nat) (els : list ElementInfo) (part rem : list ascii)
      (acc out : list string) :
  Forall (known_symbol els) acc ->
  scan_part fuel els part rem acc = inr out -> Forall (known_symbol els) out.
Proof.
  revert rem acc. induction fuel as [|fuel IH]; intros rem acc Hacc.
  - cbn [scan_part]. destruct (find_upper rem) as [[c after]|]; [discriminate|].
    destruct rem; [|discriminate]. intros H. now injection H as <-.
  - cbn [scan_part]. destruct (find_upper rem) as [[c after]|].
    + destruct (match after with
                | [] => ([], [])
                | l :: after' => if is_lower l then ([l], after') else ([], after)
                end) as [low after1].
      destruct (span is_digit after1) as [digits after2].
      destruct (elementSymbolMap_get els (toLowerCase (c :: low))) as [sym|] eqn:Hg;
        [|discriminate].
      destruct (_ <? 1)%Z; [discriminate|].
      apply IH. apply Forall_app. split; [exact Hacc|].
      apply Forall_forall. intros s Hs. apply elem_of_replicate in Hs as [-> _].
      exact (elementSymbolMap_get_known _ _ _ Hg).
    + destruct rem; [|discriminate]. intros H. now injection H as <-.
Qed.

Lemma scan_parts_known (els : list ElementInfo) (parts : list (list ascii))
      (acc out : list string) :
  Forall (known_symbol els) acc ->
  scan_parts els parts acc = inr out -> Forall (known_symbol els) out.
Proof.
  revert acc. induction parts as [|part parts IH]; intros acc Hacc.
  - simpl. intros H. now injection H as <-.
  - simpl. destruct part as [|c part]; [now apply IH|].
    destruct (scan_part _ els (c :: part) (c :: part) acc) as [e|acc'] eqn:Hs;
      [discriminate|].
    apply IH. exact (scan_part_known _ _ _ _ _ _ Hacc Hs).
Qed.

Lemma find_upper_In (s : list ascii) (c : ascii) (after : list ascii) :
  find_upper s = Some (c, after) -> In c s /\ is_upper c = true.
Proof.
  induction s as [|x s IH]; simpl; [discriminate|].
  destruct (is_upper x) eqn:Hx.
  - intros H. injection H as -> _. split; [now left|exact Hx].
  - intros H. destruct (IH H). split; [now right|assumption].
Qed.

Lemma scan_part_upper (fuel : nat) (els : list ElementInfo) (part rem : list ascii)
      (acc out : list string) :
  scan_part fuel els part rem acc = inr out ->
  out = acc \/ exists c, In c rem /\ is_upper c = true.
Proof.
  destruct fuel as [|fuel]; cbn [scan_part];
    (destruct (find_upper rem) as [[c after]|] eqn:Hf;
     [intros _; right; exists c; exact (find_upper_In _ _ _ Hf)|]);
    (destruct rem; [|discriminate]); intros H; injection H as <-; now left.
Qed.

Lemma scan_parts_upper (els : list ElementInfo) (parts : list (list ascii))
      (acc out : list string) :
  scan_parts els parts acc = inr out ->
  out = acc \/ exists part c, In part parts /\ In c part /\ is_upper c = true.
Proof.
  revert acc. induction parts as [|part parts IH]; intros acc.
  - simpl. intros H. injection H as <-. now left.
  - simpl. destruct part as [|c0 part].
    + intros H. destruct (IH _ H) as [->|(p & c & Hp & Hc)]; [now left|].
      right. exists p, c. split; [now right|exact Hc].
    + destruct (scan_part _ els (c0 :: part) (c0 :: part) acc) as [e|acc'] eqn:Hs;
        [discriminate|].
      intros H.
      destruct (scan_part_upper _ _ _ _ _ _ Hs) as [->|(c & Hc)].
      * destruct (IH _ H) as [->|(p & c & Hp & Hc)]; [now left|].
        right. exists p, c. split; [now right|exact Hc].
      * right. exists (c0 :: part), c. split; [now left|exact Hc].
Qed.

Lemma split_on_In (sep : ascii) (s part : list ascii) (c : ascii) :
  In part (split_on sep s) -> In c part -> In c s.
Proof.
  revert part. induction s as [|x s IH]; intros part; simpl.
  - intros [<-|[]] [].
  - destruct (Ascii.eqb x sep).
    + intros [<-|Hp] Hc; [destruct Hc|]. right. now apply (IH part).
    + destruct (split_on sep s) as [|h t] eqn:Hs.
      * intros [<-|[]] [<-|[]]. now left.
      * intros [<-|Hp] Hc.
        -- destruct Hc as [<-|Hc]; [now left|]. right. apply (IH h); [now left|exact Hc].
        -- right. apply (IH part); [now right|exact Hc].
Qed.

(** X17. When handleFormulaCreate accepts a formula, it yields between 1
    and 100 atom symbols, each the symbol of an element of the loaded
    element list as the list spells it; this happens only with a non-empty
    element list and a formula that holds a capital letter. *)
Theorem handleFormulaCreate_symbols (elementList : list ElementInfo) (formula : string)
        (newSymbols : list string) :
  handleFormulaCreate elementList formula = inr newSymbols ->
  (1 <= length newSymbols <= 100)%nat
  /\ Forall (known_symbol elementList) newSymbols
  /\ elementList <> []
  /\ (exists c, In c (list_ascii_of_string formula) /\ is_upper c = true).
Proof.
  unfold handleFormulaCreate.
  destruct (Nat.eqb_spec (length elementList) 0) as [|Hne]; [discriminate|].
  destruct (trim _) as [|t ts]; [discriminate|].
  destruct (scan_parts elementList _ []) as [e|syms] eqn:Hs; [discriminate|].
  destruct (Nat.eqb_spec (length syms) 0) as [|Hlen]; [discriminate|].
  destruct (Nat.ltb_spec 100 (length syms)) as [|Hmax]; [discriminate|].
  intros H. injection H as <-.
  split; [lia|].
  split; [exact (scan_parts_known _ _ _ _ ltac:(constructor) Hs)|].
  split; [intros ->; now apply Hne|].
  destruct (scan_parts_upper _ _ _ _ Hs) as [->|(part & c & Hp & Hc & Hu)];
    [now contradiction Hlen|].
  exists c. split; [|exact Hu].
  pose proof (split_on_In _ _ _ _ Hp Hc) as Hin.
  now apply filter_In in Hin as [Hin _].
Qed.

(** *** Formulas in the documented format *)

Lemma item_text_plain (it : FormulaItem) :
  item_ok it ->
  Forall (fun c => is_space c = false /\ c <> "."%char) (item_text it).
Proof.
  intros (Hu & Hl & Hd). unfold item_text, item_symbol.
  apply Forall_app. split.
  - constructor; [destruct (upper_facts _ Hu) as (_ & _ & ? & ?); tauto|].
    destruct (item_lower it) as [l|]; [|constructor].
    constructor; [|constructor]. exact (lower_facts _ (Hl l eq_refl)).
  - eapply Forall_impl; [exact Hd|]. intros c Hc.
    destruct (digit_facts _ Hc) as (_ & _ & ? & ?). tauto.
Qed.

Lemma group_text_plain (g : list FormulaItem) :
  Forall item_ok g ->
  Forall (fun c => is_space c = false /\ c <> "."%char) (concat (map item_text g)).
Proof.
  induction 1 as [|it g Hit _ IH]; cbn [map concat]; [constructor|].
  apply Forall_app. split; [now apply item_text_plain|exact IH].
Qed.

(** The text of a list of items is empty or starts with a capital. *)
Lemma group_text_head (g : list FormulaItem) :
  Forall item_ok g ->
  match concat (map item_text g) with
  | [] => g = []
  | c :: _ => is_upper c = true
  end.
Proof.
  intros Hg. destruct Hg as [|it g (Hu & _) _]; simpl; [reflexivity|exact Hu].
Qed.

Lemma split_on_plain (sep : ascii) (s : list ascii) :
  Forall (fun c => c <> sep) s -> split_on sep s = [s].
Proof.
  induction 1 as [|c s Hc _ IH]; simpl; [reflexivity|].
  destruct (Ascii.eqb_spec c sep) as [E|_]; [contradiction|]. now rewrite IH.
Qed.

Lemma split_on_app_sep (sep : ascii) (p r : list ascii) :
  Forall (fun c => c <> sep) p -> split_on sep (p ++ sep :: r) = p :: split_on sep r.
Proof.
  induction 1 as [|c p Hc _ IH]; simpl.
  - now rewrite Ascii.eqb_refl.
  - destruct (Ascii.eqb_spec c sep) as [E|_]; [contradiction|]. now rewrite IH.
Qed.

Lemma split_on_join_dots (parts : list (list ascii)) :
  parts <> [] ->
  Forall (Forall (fun c => c <> "."%char)) parts ->
  split_on "."%char (join_dots parts) = parts.
Proof.
  intros Hne Hall. induction Hall as [|p parts Hp Hall IH]; [contradiction|].
  destruct parts as [|q parts].
  - simpl. now apply split_on_plain.
  - change (join_dots (p :: q :: parts)) with (p ++ "."%char :: join_dots (q :: parts)).
    rewrite split_on_app_sep by exact Hp. f_equal. apply IH. discriminate.
Qed.

Lemma span_snd_head (p : ascii -> bool) (s : list ascii) :
  (exists c, In c s /\ p c = false) ->
  exists c r, snd (span p s) = c :: r /\ p c = false.
Proof.
  induction s as [|x s IH]; intros (c & Hc & Hp); [destruct Hc|].
  simpl. destruct (p x) eqn:Hx.
  - destruct Hc as [->|Hc]; [congruence|].
    destruct (IH (ex_intro _ c (conj Hc Hp))) as (c' & r & Hs & Hp').
    destruct (span p s) as [a b]. simpl in *. now exists c', r.
  - simpl. now exists x, s.
Qed.

Lemma trim_nonempty (s : list ascii) :
  (exists c, In c s /\ is_space c = false) -> trim s <> [].
Proof.
  intros H. unfold trim.
  destruct (span_snd_head is_space s H) as (c & r & Hs & Hc).
  rewrite Hs.
  destruct (span_snd_head is_space (rev (c :: r))) as (c' & r' & Hs' & _).
  { exists c. split; [apply in_rev; rewrite rev_involutive; now left|exact Hc]. }
  rewrite Hs'. simpl. intros E. apply app_eq_nil in E as [_ E]. discriminate.
Qed.

Section GrammarFacts.

Variable elementList : list ElementInfo.
Variable symbol_of : FormulaItem -> string.

Lemma scan_part_items (fuel : nat) (part : list ascii) (items : list FormulaItem)
      (acc : list string) :
  Forall item_ok items -> items_known elementList symbol_of items -> (length items <= fuel)%nat ->
  scan_part fuel elementList part (concat (map item_text items)) acc
  = inr (acc ++ expansion symbol_of items).
Proof.
  intros Hok. revert fuel acc.
  induction Hok as [|it items Hit Hok IH]; intros fuel acc Hknown Hfuel.
  - destruct fuel; cbn [scan_part map concat find_upper]; now rewrite app_nil_r.
  - destruct fuel as [|fuel]; [simpl in Hfuel; lia|].
    destruct (Hknown it ltac:(now left)) as [Hget Hcount].
    pose proof (group_text_head items Hok) as Hhead.
    set (rest := concat (map item_text items)) in *.
    assert (Hrest : forall p, (forall c, is_upper c = true -> p c = false) ->
                              match rest with [] => True | c :: _ => p c = false end).
    { intros p Hp. destruct rest as [|c rest']; [exact I|]. now apply Hp. }
    destruct Hit as (Hu & Hl & Hd).
    change (concat (map item_text (it :: items))) with (item_text it ++ rest).
    unfold item_text at 1. unfold item_symbol at 1.
    cbn [scan_part app find_upper]. rewrite Hu.
    assert (Hlow :
              match (match item_lower it with Some l => [l] | None => [] end
                     ++ item_digits it) ++ rest with
              | [] => ([], [])
              | l :: after' =>
                  if is_lower l then ([l], after')
                  else ([], (match item_lower it with Some l => [l] | None => [] end
                             ++ item_digits it) ++ rest)
              end
              = (match item_lower it with Some l => [l] | None => [] end,
                 item_digits it ++ rest)).
    { destruct (item_lower it) as [l|] eqn:El.
      - simpl. now rewrite (Hl l eq_refl).
      - simpl. destruct (item_digits it) as [|d ds] eqn:Ed; simpl.
        + destruct rest as [|c rest'] eqn:Er; [reflexivity|].
          now rewrite (proj1 (upper_facts c Hhead)).
        + apply Forall_cons in Hd as [Hd _].
          now rewrite (proj1 (digit_facts d Hd)). }
    rewrite Hlow.
    rewrite (span_app_stop is_digit (item_digits it) rest Hd)
      by (apply Hrest; intros c Hc; apply (upper_facts c Hc)).
    unfold item_symbol in Hget. rewrite Hget.
    fold (item_count it).
    destruct (Z.ltb_spec (item_count it) 1) as [|_]; [lia|].
    rewrite IH.
    + unfold expansion. simpl. now rewrite app_assoc.
    + intros it' Hin. apply Hknown. now right.
    + simpl in Hfuel. lia.
Qed.

Lemma length_group_text (g : list FormulaItem) :
  (length g <= length (concat (map item_text g)))%nat.
Proof.
  induction g as [|it g IH]; cbn [map concat length]; [lia|].
  rewrite length_app. unfold item_text at 1. unfold item_symbol.
  rewrite length_app. cbn [length]. lia.
Qed.

Lemma scan_parts_groups (groups : list (list FormulaItem)) (acc : list string) :
  Forall (Forall item_ok) groups -> items_known elementList symbol_of (concat groups) ->
  scan_parts elementList (map (fun g => concat (map item_text g)) groups) acc
  = inr (acc ++ expansion symbol_of (concat groups)).
Proof.
  intros Hok. revert acc. induction Hok as [|g groups Hg Hok IH]; intros acc Hknown.
  - simpl. now rewrite app_nil_r.
  - cbn [map scan_parts].
    assert (Hk1 : items_known elementList symbol_of g).
    { intros it Hin. apply Hknown. simpl. apply in_app_iff. now left. }
    assert (Hk2 : items_known elementList symbol_of (concat groups)).
    { intros it Hin. apply Hknown. simpl. apply in_app_iff. now right. }
    pose proof (group_text_head g Hg) as Hhead.
    pose proof (length_group_text g) as Hlen.
    destruct (concat (map item_text g)) as [|c text] eqn:Ht.
    + subst g. simpl. now apply IH.
    + rewrite <- Ht in Hlen |- *. rewrite (scan_part_items _ _ g acc Hg Hk1 Hlen).
      rewrite IH by exact Hk2.
      unfold expansion. simpl. now rewrite flat_map_app, app_assoc.
Qed.

(** X18. A formula in the documented format, parts separated by dots with
    every part a sequence of items (a capital letter, an optional small
    letter, optional digits), is accepted when the element list is not
    empty, every item names an element of the list, compared without
    regard to case, with a count of at least one (no digits standing for
    one), and the counts add up to between 1 and 100. The result lists,
    item by item in the order of the formula, the symbol of the element as
    often as the count says. *)
Theorem handleFormulaCreate_grammar (groups : list (list FormulaItem)) :
  elementList <> [] ->
  Forall (Forall item_ok) groups ->
  items_known elementList symbol_of (concat groups) ->
  (1 <= length (expansion symbol_of (concat groups)) <= 100)%nat ->
  handleFormulaCreate elementList (string_of_list_ascii (formula_text groups))
  = inr (expansion symbol_of (concat groups)).
Proof.
  intros Hne Hok Hknown Hlen.
  assert (Hgroups : groups <> []).
  { intros ->. simpl in Hlen. lia. }
  assert (Hplain : Forall (Forall (fun c => is_space c = false /\ c <> "."%char))
                          (map (fun g => concat (map item_text g)) groups)).
  { apply Forall_fmap. eapply Forall_impl; [exact Hok|].
    intros g Hg. now apply group_text_plain. }
  assert (Hnospace : Forall (fun c => is_space c = false) (formula_text groups)).
  { unfold formula_text. clear - Hplain.
    induction Hplain as [|p parts Hp _ IH]; [constructor|].
    destruct parts as [|q parts].
    - simpl. eapply Forall_impl; [exact Hp|]. simpl. tauto.
    - change (join_dots (p :: q :: parts)) with (p ++ "."%char :: join_dots (q :: parts)).
      apply Forall_app. split; [eapply Forall_impl; [exact Hp|]; simpl; tauto|].
      constructor; [reflexivity|exact IH]. }
  unfold handleFormulaCreate.
  destruct (Nat.eqb_spec (length elementList) 0) as [H0|_].
  { destruct elementList; [now contradiction Hne|discriminate]. }
  rewrite list_ascii_of_string_of_list_ascii.
  destruct (trim (formula_text groups)) as [|t ts] eqn:Htrim.
  { exfalso. revert Htrim. apply trim_nonempty.
    assert (Hex : exists it, In it (concat groups)).
    { destruct (concat groups) as [|it its]; [simpl in Hlen; lia|].
      exists it. now left. }
    destruct Hex as (it & Hin).
    destruct (formula_text groups) as [|c text] eqn:Ht.
    - exfalso. unfold formula_text in Ht.
      apply in_concat in Hin as (g & Hg & Hit).
      clear - Ht Hg Hit Hgroups.
      induction groups as [|g0 gs IH]; [destruct Hg|].
      destruct gs as [|g1 gs].
      + simpl in Ht. destruct Hg as [->|[]].
        destruct g as [|it0 g]; [destruct Hit|]. discriminate.
      + change (join_dots (map _ (g0 :: g1 :: gs)))
          with (concat (map item_text g0) ++ "."%char
                  :: join_dots (map (fun g => concat (map item_text g)) (g1 :: gs))) in Ht.
        apply app_eq_nil in Ht as [_ Ht]. discriminate.
    - exists c. split; [now left|]. now apply Forall_cons in Hnospace as [Hc _]. }
  rewrite filter_all.
  2: { intros c Hc. rewrite List.Forall_forall in Hnospace.
       now rewrite (Hnospace c Hc). }
  unfold formula_text. rewrite split_on_join_dots.
  - rewrite scan_parts_groups by assumption. simpl.
    destruct (Nat.eqb_spec (length (expansion symbol_of (concat groups))) 0) as [E|_]; [lia|].
    destruct (Nat.ltb_spec 100 (length (expansion symbol_of (concat groups)))) as [E|_]; [lia|].
    reflexivity.
  - destruct groups; [now contradiction Hgroups|discriminate].
  - eapply Forall_impl; [exact Hplain|]. intros p Hp.
    eapply Forall_impl; [exact Hp|]. simpl. tauto.
Qed.

End GrammarFacts.

(** *** Characters before the first symbol *)

Lemma find_upper_app (junk s : list ascii) :
  Forall (fun c => is_upper c = false) junk -> find_upper (junk ++ s) = find_upper s.
Proof.
  induction 1 as [|c junk Hc _ IH]; simpl; [reflexivity|]. now rewrite Hc.
Qed.

(** A successful scan does not depend on the part it reports in its
    error message, and succeeds with any larger bound as well. *)
Lemma scan_part_more_fuel (f f' : nat) (els : list ElementInfo)
      (part part' rem : list ascii) (acc out : list string) :
  scan_part f els part rem acc = inr out -> (f <= f')%nat ->
  scan_part f' els part' rem acc = inr out.
Proof.
  revert f' rem acc. induction f as [|f IH]; intros f' rem acc.
  - cbn [scan_part]. destruct (find_upper rem) as [[c after]|] eqn:Hf; [discriminate|].
    destruct rem; [|discriminate]. intros H _. destruct f'; cbn [scan_part find_upper];
      exact H.
  - intros H Hle. destruct f' as [|f']; [lia|]. revert H. cbn [scan_part].
    destruct (find_upper rem) as [[c after]|].
    + destruct (match after with
                | [] => ([], [])
                | l :: after' => if is_lower l then ([l], after') else ([], after)
                end) as [low after1].
      destruct (span is_digit after1) as [digits after2].
      destruct (elementSymbolMap_get els _) as [sym|]; [|discriminate].
      destruct (_ <? 1)%Z; [discriminate|].
      intros H. apply (IH f'); [exact H|lia].
    + destruct rem; [|discriminate]. exact (fun H => H).
Qed.

Lemma scan_part_skips (f : nat) (els : list ElementInfo) (part junk rem : list ascii)
      (acc : list string) :
  Forall (fun c => is_upper c = false) junk ->
  match rem with c :: _ => is_upper c = true | [] => False end ->
  scan_part f els part (junk ++ rem) acc = scan_part f els part rem acc.
Proof.
  intros Hj Hr. destruct rem as [|c rem]; [destruct Hr|].
  destruct f; cbn [scan_part]; rewrite (find_upper_app junk (c :: rem) Hj);
    cbn [find_upper]; rewrite Hr; reflexivity.
Qed.

Lemma split_on_cons_head (sep c : ascii) (s : list ascii) :
  c <> sep -> exists h t, split_on sep (c :: s) = (c :: h) :: t.
Proof.
  intros Hc. simpl. destruct (Ascii.eqb_spec c sep) as [E|_]; [contradiction|].
  destruct (split_on sep s) as [|h t]; [now exists [], []|now exists h, t].
Qed.

Lemma split_on_app_plain (sep : ascii) (junk s : list ascii) (h : list ascii)
      (t : list (list ascii)) :
  Forall (fun c => c <> sep) junk -> split_on sep s = h :: t ->
  split_on sep (junk ++ s) = (junk ++ h) :: t.
Proof.
  intros Hj Hs. induction Hj as [|c junk Hc _ IH]; simpl; [exact Hs|].
  destruct (Ascii.eqb_spec c sep) as [E|_]; [contradiction|]. now rewrite IH.
Qed.

(** X19. Characters in front of the first capital letter of a formula are
    ignored without an error: when a formula that starts with a capital
    letter is accepted, the same formula with any run of characters other
    than capitals and dots put in front of it is accepted with the same
    result, so x2C2H6O yields what C2H6O yields. *)
Theorem handleFormulaCreate_skips_prefix (elementList : list ElementInfo)
        (junk body : list ascii) (newSymbols : list string) :
  Forall (fun c => is_upper c = false /\ c <> "."%char) junk ->
  match body with c :: _ => is_upper c = true | [] => False end ->
  handleFormulaCreate elementList (string_of_list_ascii body) = inr newSymbols ->
  handleFormulaCreate elementList (string_of_list_ascii (junk ++ body)) = inr newSymbols.
Proof.
  intros Hjunk Hbody. destruct body as [|c body]; [destruct Hbody|].
  destruct (upper_facts c Hbody) as (_ & _ & Hcs & Hcd).
  unfold handleFormulaCreate. rewrite !list_ascii_of_string_of_list_ascii.
  destruct (length elementList =? 0)%nat; [discriminate|].
  destruct (trim (c :: body)) as [|t0 ts0]; [discriminate|].
  destruct (trim (junk ++ c :: body)) as [|t1 ts1] eqn:Htrim.
  { exfalso. revert Htrim. apply trim_nonempty. exists c.
    split; [apply in_app_iff; right; now left|exact Hcs]. }
  rewrite List.filter_app. cbn [List.filter]. rewrite Hcs. cbn [negb].
  set (junk' := List.filter (fun c0 => negb (is_space c0)) junk).
  set (body' := List.filter (fun c0 => negb (is_space c0)) body).
  assert (Hj' : Forall (fun c0 => is_upper c0 = false /\ c0 <> "."%char) junk').
  { rewrite List.Forall_forall in *. intros x Hx. apply filter_In in Hx as [Hx _].
    now apply Hjunk. }
  destruct (split_on_cons_head "."%char c body' Hcd) as (h & t & Hsplit).
  rewrite Hsplit.
  rewrite (split_on_app_plain "."%char junk' (c :: body') (c :: h) t).
  2: { eapply Forall_impl; [exact Hj'|]. simpl. tauto. }
  2: exact Hsplit.
  cbn [scan_parts].
  destruct (junk' ++ c :: h) as [|x xs] eqn:Hx.
  { apply app_eq_nil in Hx as [_ Hx]. discriminate. }
  rewrite <- Hx.
  destruct (scan_part (length (c :: h)) elementList (c :: h) (c :: h) [])
    as [e|acc] eqn:Hscan; [discriminate|].
  rewrite scan_part_skips.
  - rewrite (scan_part_more_fuel _ (length (junk' ++ c :: h)) _ _ (junk' ++ c :: h)
                                 _ _ _ Hscan).
    + exact (fun H => H).
    + rewrite length_app. lia.
  - eapply Forall_impl; [exact Hj'|]. simpl. tauto.
  - exact Hbody.
Qed.

(** ** Centring and scaling a loaded molecule *)

Lemma Rmin_affine (a b c s : R) :
  0 <= s -> Rmin ((a - c) * s) ((b - c) * s) = (Rmin a b - c) * s.
Proof.
  intros Hs. unfold Rmin.
  destruct (Rle_dec a b), (Rle_dec ((a - c) * s) ((b - c) * s)); try reflexivity; nra.
Qed.

Lemma Rmax_affine (a b c s : R) :
  0 <= s -> Rmax ((a - c) * s) ((b - c) * s) = (Rmax a b - c) * s.
Proof.
  intros Hs. unfold Rmax.
  destruct (Rle_dec a b), (Rle_dec ((a - c) * s) ((b - c) * s)); try reflexivity; nra.
Qed.

Lemma box_min_recenter (c : Vector3) (s : R) (p : Vector3) (ps : list Vector3) :
  0 <= s ->
  box_min (recenter c s p) (map (recenter c s) ps) = recenter c s (box_min p ps).
Proof.
  intros Hs. unfold box_min. revert p.
  induction ps as [|q ps IH]; intros p; simpl; [reflexivity|].
  rewrite <- IH. f_equal.
  unfold v3_min, recenter, multiplyScalar, subVectors. simpl.
  now rewrite !Rmin_affine.
Qed.

Lemma box_max_recenter (c : Vector3) (s : R) (p : Vector3) (ps : list Vector3) :
  0 <= s ->
  box_max (recenter c s p) (map (recenter c s) ps) = recenter c s (box_max p ps).
Proof.
  intros Hs. unfold box_max. revert p.
  induction ps as [|q ps IH]; intros p; simpl; [reflexivity|].
  rewrite <- IH. f_equal.
  unfold v3_max, recenter, multiplyScalar, subVectors. simpl.
  now rewrite !Rmax_affine.
Qed.

(** The box holds its points. *)
Lemma box_min_le (p : Vector3) (ps : list Vector3) (q : Vector3) :
  In q (p :: ps) ->
  vx (box_min p ps) <= vx q /\ vy (box_min p ps) <= vy q /\ vz (box_min p ps) <= vz q.
Proof.
  unfold box_min. revert p.
  assert (Hmono : forall ps p,
             vx (fold_left v3_min ps p) <= vx p /\ vy (fold_left v3_min ps p) <= vy p
             /\ vz (fold_left v3_min ps p) <= vz p).
  { intros ps0. induction ps0 as [|r ps0 IH]; intros p; simpl; [lra|].
    destruct (IH (v3_min p r)) as (H1 & H2 & H3). simpl in *.
    pose proof (Rmin_l (vx p) (vx r)). pose proof (Rmin_l (vy p) (vy r)).
    pose proof (Rmin_l (vz p) (vz r)). lra. }
  induction ps as [|r ps IH]; intros p [<-|Hin].
  - simpl. lra.
  - destruct Hin.
  - apply Hmono.
  - simpl. destruct Hin as [<-|Hin].
    + destruct (Hmono ps (v3_min p r)) as (H1 & H2 & H3). simpl in *.
      pose proof (Rmin_r (vx p) (vx r)). pose proof (Rmin_r (vy p) (vy r)).
      pose proof (Rmin_r (vz p) (vz r)). lra.
    + apply IH. now right.
Qed.

Lemma box_max_ge (p : Vector3) (ps : list Vector3) (q : Vector3) :
  In q (p :: ps) ->
  vx q <= vx (box_max p ps) /\ vy q <= vy (box_max p ps) /\ vz q <= vz (box_max p ps).
Proof.
  unfold box_max. revert p.
  assert (Hmono : forall ps p,
             vx p <= vx (fold_left v3_max ps p) /\ vy p <= vy (fold_left v3_max ps p)
             /\ vz p <= vz (fold_left v3_max ps p)).
  { intros ps0. induction ps0 as [|r ps0 IH]; intros p; simpl; [lra|].
    destruct (IH (v3_max p r)) as (H1 & H2 & H3). simpl in *.
    pose proof (Rmax_l (vx p) (vx r)). pose proof (Rmax_l (vy p) (vy r)).
    pose proof (Rmax_l (vz p) (vz r)). lra. }
  induction ps as [|r ps IH]; intros p [<-|Hin].
  - simpl. lra.
  - destruct Hin.
  - apply Hmono.
  - simpl. destruct Hin as [<-|Hin].
    + destruct (Hmono ps (v3_max p r)) as (H1 & H2 & H3). simpl in *.
      pose proof (Rmax_r (vx p) (vx r)). pose proof (Rmax_r (vy p) (vy r)).
      pose proof (Rmax_r (vz p) (vz r)). lra.
    + apply IH. now right.
Qed.

Lemma load_maxDim_nonneg (p : Vector3) (ps : list Vector3) : 0 <= load_maxDim p ps.
Proof.
  unfold load_maxDim, subVectors. simpl.
  destruct (box_min_le p ps p ltac:(now left)) as (H1 & _).
  destruct (box_max_ge p ps p ltac:(now left)) as (H2 & _).
  eapply Rle_trans; [|apply Rmax_l]. eapply Rle_trans; [|apply Rmax_l]. lra.
Qed.

Lemma load_scale_pos (p : Vector3) (ps : list Vector3) : 0 < load_scale p ps.
Proof.
  unfold load_scale. destruct (Rlt_dec 0 (load_maxDim p ps)) as [H|_]; [|lra].
  apply Rdiv_lt_0_compat; lra.
Qed.

Lemma centeredPositions_cons (p : Vector3) (ps : list Vector3) :
  centeredPositions (p :: ps)
  = recenter (load_center p ps) (load_scale p ps) p
    :: map (recenter (load_center p ps) (load_scale p ps)) ps.
Proof. reflexivity. Qed.

Lemma Rmax_scale (a b s : R) : 0 <= s -> Rmax (a * s) (b * s) = Rmax a b * s.
Proof.
  intros Hs. unfold Rmax.
  destruct (Rle_dec a b), (Rle_dec (a * s) (b * s)); try reflexivity; nra.
Qed.

(** The box of the centred positions. *)
Lemma centered_box (p : Vector3) (ps : list Vector3) :
  let c := load_center p ps in
  let s := load_scale p ps in
  let p' := recenter c s p in
  let ps' := map (recenter c s) ps in
  load_center p' ps' = v3_zero
  /\ load_maxDim p' ps' = load_maxDim p ps * s.
Proof.
  intros c s p' ps'.
  assert (Hs : 0 <= s) by (left; apply load_scale_pos).
  unfold load_center, load_maxDim.
  unfold p', ps'. rewrite box_min_recenter, box_max_recenter by exact Hs.
  fold c. split.
  - unfold c, load_center, recenter, multiplyScalar, subVectors, v3_add, v3_zero. simpl.
    f_equal; field.
  - unfold recenter, multiplyScalar, subVectors. simpl.
    rewrite <- !Rmax_scale by exact Hs. f_equal; [f_equal|]; ring.
Qed.

(** X15. handleLoadMoleculeFromData stores as many positions as it is
    given. When the bounding box of the given positions has a positive
    largest side, the stored positions have a bounding box centred at the
    origin whose largest side is exactly 25, every stored coordinate is
    within 12.5 of zero, and centring the stored positions again returns
    them unchanged. When the largest side is zero, all stored positions
    are the origin. *)
Theorem centeredPositions_box (p : Vector3) (ps : list Vector3) :
  let cs := centeredPositions (p :: ps) in
  length cs = length (p :: ps)
  /\ (0 < load_maxDim p ps ->
      match cs with
      | [] => False
      | p' :: ps' => load_center p' ps' = v3_zero /\ load_maxDim p' ps' = 25
      end
      /\ Forall (fun q => Rabs (vx q) <= 25 / 2 /\ Rabs (vy q) <= 25 / 2
                          /\ Rabs (vz q) <= 25 / 2) cs
      /\ centeredPositions cs = cs)
  /\ (load_maxDim p ps <= 0 -> Forall (fun q => q = v3_zero) cs).
Proof.
  intros cs. unfold cs. rewrite centeredPositions_cons.
  set (c := load_center p ps). set (s := load_scale p ps).
  split; [simpl; now rewrite List.length_map|].
  destruct (centered_box p ps) as [Hc Hm]. fold c s in Hc, Hm.
  split.
  - intros Hpos.
    assert (Hs : s = 25 / load_maxDim p ps).
    { unfold s, load_scale. destruct (Rlt_dec 0 (load_maxDim p ps)); [reflexivity|lra]. }
    assert (Hm25 : load_maxDim (recenter c s p) (map (recenter c s) ps) = 25).
    { rewrite Hm, Hs. field. lra. }
    split; [split; assumption|].
    split.
    + apply List.Forall_forall. intros q Hq.
      destruct (box_min_le _ _ q Hq) as (L1 & L2 & L3).
      destruct (box_max_ge _ _ q Hq) as (U1 & U2 & U3).
      set (mn := box_min (recenter c s p) (map (recenter c s) ps)) in *.
      set (mx := box_max (recenter c s p) (map (recenter c s) ps)) in *.
      assert (Hcz : v3_add mn mx = v3_zero).
      { unfold load_center in Hc. fold mn mx in Hc.
        unfold multiplyScalar, v3_zero in *. injection Hc as E1 E2 E3.
        unfold v3_add. simpl. f_equal; lra. }
      unfold v3_add, v3_zero in Hcz. injection Hcz as E1 E2 E3.
      unfold load_maxDim in Hm25. fold mn mx in Hm25.
      unfold subVectors in Hm25. simpl in Hm25.
      pose proof (Rmax_l (Rmax (vx mx - vx mn) (vy mx - vy mn)) (vz mx - vz mn)).
      pose proof (Rmax_r (Rmax (vx mx - vx mn) (vy mx - vy mn)) (vz mx - vz mn)).
      pose proof (Rmax_l (vx mx - vx mn) (vy mx - vy mn)).
      pose proof (Rmax_r (vx mx - vx mn) (vy mx - vy mn)).
      repeat split; apply Rabs_le; lra.
    + rewrite centeredPositions_cons. rewrite Hc.
      assert (Hs1 : load_scale (recenter c s p) (map (recenter c s) ps) = 1).
      { unfold load_scale. rewrite Hm25.
        destruct (Rlt_dec 0 25); [field|lra]. }
      rewrite Hs1.
      assert (Hid : forall q, recenter v3_zero 1 q = q).
      { intros [x y z]. unfold recenter, multiplyScalar, subVectors, v3_zero. simpl.
        f_equal; ring. }
      rewrite Hid. f_equal.
      rewrite <- (map_id (map (recenter c s) ps)) at 2.
      apply map_ext. exact Hid.
  - intros Hz.
    pose proof (load_maxDim_nonneg p ps) as Hnn.
    assert (H0 : load_maxDim p ps = 0) by lra.
    apply List.Forall_forall. intros q' Hq'.
    change (recenter c s p :: map (recenter c s) ps)
      with (map (recenter c s) (p :: ps)) in Hq'.
    apply in_map_iff in Hq' as (q & <- & Hq).
    destruct (box_min_le p ps q Hq) as (L1 & L2 & L3).
    destruct (box_max_ge p ps q Hq) as (U1 & U2 & U3).
    unfold load_maxDim, subVectors in H0. simpl in H0.
    set (mn := box_min p ps) in *. set (mx := box_max p ps) in *.
    pose proof (Rmax_l (Rmax (vx mx - vx mn) (vy mx - vy mn)) (vz mx - vz mn)).
    pose proof (Rmax_r (Rmax (vx mx - vx mn) (vy mx - vy mn)) (vz mx - vz mn)).
    pose proof (Rmax_l (vx mx - vx mn) (vy mx - vy mn)).
    pose proof (Rmax_r (vx mx - vx mn) (vy mx - vy mn)).
    unfold recenter, c, load_center, multiplyScalar, subVectors, v3_add, v3_zero. simpl.
    fold mn mx.
    f_equal; replace (_ - _) with 0 by lra; ring.
Qed.

Lemma distanceTo_recenter (c : Vector3) (s : R) (a b : Vector3) :
  0 <= s -> distanceTo (recenter c s a) (recenter c s b) = s * distanceTo a b.
Proof.
  intros Hs. unfold distanceTo, distanceToSquared, recenter, multiplyScalar, subVectors.
  simpl.
  replace ((vx a - vx c) * s - (vx b - vx c) * s) with ((vx a - vx b) * s) by ring.
  replace ((vy a - vy c) * s - (vy b - vy c) * s) with ((vy a - vy b) * s) by ring.
  replace ((vz a - vz c) * s - (vz b - vz c) * s) with ((vz a - vz b) * s) by ring.
  match goal with
  | |- sqrt ?L = _ =>
      replace L with ((s * s) * ((vx a - vx b) * (vx a - vx b)
                                 + (vy a - vy b) * (vy a - vy b)
                                 + (vz a - vz b) * (vz a - vz b))) by ring
  end.
  rewrite sqrt_mult_alt by nra. f_equal. now apply sqrt_square.
Qed.

(** X16. The centring of a loaded molecule keeps its shape: the scale
    factor is positive, it is 25 divided by the largest side of the
    bounding box when that side is positive, and the distance between any
    two stored positions is the scale factor times the distance between
    the two given positions. *)
Theorem centeredPositions_similarity (p : Vector3) (ps : list Vector3) :
  let positions := p :: ps in
  let s := load_scale p ps in
  0 < s
  /\ (0 < load_maxDim p ps -> s * load_maxDim p ps = 25)
  /\ forall i j a b,
       positions !! i = Some a -> positions !! j = Some b ->
       exists a' b',
         centeredPositions positions !! i = Some a'
         /\ centeredPositions positions !! j = Some b'
         /\ distanceTo a' b' = s * distanceTo a b.
Proof.
  intros positions s.
  pose proof (load_scale_pos p ps) as Hs. fold s in Hs.
  split; [exact Hs|].
  split.
  { intros Hpos. unfold s, load_scale.
    destruct (Rlt_dec 0 (load_maxDim p ps)); [field; lra|lra]. }
  intros i j a b Ha Hb.
  assert (Hmap : centeredPositions positions
                 = recenter (load_center p ps) s <$> positions) by reflexivity.
  exists (recenter (load_center p ps) s a), (recenter (load_center p ps) s b).
  rewrite Hmap, !list_lookup_fmap, Ha, Hb.
  split; [reflexivity|]. split; [reflexivity|].
  apply distanceTo_recenter. lra.
Qed.

(** ** The symbols of the composer *)

(** X20. The effect on totalAtoms resizes the list of atom symbols to
    totalAtoms, for a count that is not negative: the symbols at the
    indices that remain are unchanged, every new place holds H, and a list
    that already has the length is returned as it is. *)
Theorem resize_symbols_spec (totalAtoms : Z) (currentSymbols : list string) :
  (0 <= totalAtoms)%Z ->
  let newSymbols := resize_symbols totalAtoms currentSymbols in
  length newSymbols = Z.to_nat totalAtoms
  /\ (forall i, (i < Z.to_nat totalAtoms)%nat -> (i < length currentSymbols)%nat ->
                newSymbols !! i = currentSymbols !! i)
  /\ (forall i, (length currentSymbols <= i < Z.to_nat totalAtoms)%nat ->
                newSymbols !! i = Some "H"%string)
  /\ (totalAtoms = Z.of_nat (length currentSymbols) -> newSymbols = currentSymbols).
Proof.
  intros H0 newSymbols. unfold newSymbols, resize_symbols.
  destruct (Z.ltb_spec (Z.of_nat (length currentSymbols)) totalAtoms) as [Hgrow|Hge].
  - split; [rewrite length_app, length_replicate; lia|].
    split; [intros i _ Hi; now rewrite lookup_app_l|].
    split; [|lia].
    intros i Hi. rewrite lookup_app_r by lia. apply lookup_replicate_2. lia.
  - destruct (Z.ltb_spec totalAtoms (Z.of_nat (length currentSymbols))) as [Hshrink|Hle].
    + unfold slice_to. destruct (Z.ltb_spec totalAtoms 0) as [|_]; [lia|].
      split; [rewrite length_firstn; lia|].
      split; [intros i Hi _; now apply lookup_take_lt|].
      split; lia.
    + split; [lia|]. split; [reflexivity|]. split; [lia|reflexivity].
Qed.

(** ** The default layout of the atoms *)

(** X21. The loading effect leaves the atom positions it sees as they are
    when their number equals the number of loaded atoms. Otherwise it lays
    the atoms out anew, one position per atom: the first at the origin and
    every other one at distance exactly 15 from the origin. *)
Theorem layout_positions_spec (atomPositions : list Vector3) (validAtoms : nat) :
  let ps := layout_positions atomPositions validAtoms in
  length ps = validAtoms
  /\ (length atomPositions = validAtoms -> ps = atomPositions)
  /\ (length atomPositions <> validAtoms ->
      (forall p, ps !! 0%nat = Some p -> p = v3_zero)
      /\ forall i p, (1 <= i)%nat -> ps !! i = Some p ->
                     distanceTo p v3_zero = 15 /\ p <> v3_zero).
Proof.
  intros ps. unfold ps, layout_positions.
  destruct (Nat.eqb_spec (length atomPositions) validAtoms) as [E|N].
  - split; [exact E|]. split; [reflexivity|]. intros H. contradiction.
  - assert (Hlen : length (default_positions validAtoms) = validAtoms).
    { unfold default_positions.
      destruct (Nat.ltb_spec 0 validAtoms); [|simpl; lia].
      destruct (Nat.ltb_spec 1 validAtoms); simpl; [|lia].
      rewrite getSpherePoints_length. lia. }
    split; [exact Hlen|]. split; [intros H; contradiction|]. intros _.
    unfold default_positions.
    destruct (Nat.ltb_spec 0 validAtoms) as [H0|H0].
    + split; [intros p H; simpl in H; now injection H as <-|].
      intros [|i] p Hi Hp; [lia|]. simpl in Hp.
      destruct (Nat.ltb_spec 1 validAtoms); [|discriminate].
      assert (Hl : v3_length p = 15).
      { rewrite (getSpherePoints_on_sphere (Z.of_nat validAtoms - 1) 15 p).
        - apply Rabs_right. lra.
        - apply list_elem_of_In. eapply list_elem_of_lookup_2, Hp. }
      split.
      * rewrite <- Hl. unfold distanceTo, distanceToSquared, v3_length, v3_zero. simpl.
        f_equal. ring.
      * intros ->. unfold v3_length, v3_zero in Hl. simpl in Hl.
        replace (0 * 0 + 0 * 0 + 0 * 0) with 0 in Hl by ring.
        rewrite sqrt_0 in Hl. lra.
    + split; intros; discriminate.
Qed.

(** ** The visual radius of an atom *)

Lemma shellRadius_at_mono (scale : R) (i j : nat) :
  0 <= scale -> (i <= j)%nat -> 0 <= shellRadius_at scale i <= shellRadius_at scale j.
Proof.
  intros Hs Hij. unfold shellRadius_at, SHELL_BASE_RADIUS, SHELL_SPACING.
  pose proof (pos_INR i) as Hi. apply le_INR in Hij. split; nra.
Qed.

Lemma getAtomVisualRadius_shell (atom : Atom) :
  getAtomVisualRadius atom
  = shellRadius_at (atomScale_of atom) (length (shells atom) - 1).
Proof.
  unfold getAtomVisualRadius, shellRadius_at, atomScale_of.
  destruct (Nat.ltb_spec 0 (length (shells atom))) as [H|H]; [reflexivity|].
  replace (length (shells atom) - 1)%nat with 0%nat by lia. simpl. f_equal. ring.
Qed.

(** X9. getAtomVisualRadius(atom) is at least 1.25 and equals the radius
    of the atom's outermost shell as createAtomModel draws it, (2.5 + 1.8
    * (shells.length - 1)) * atomScale, with shell index 0 for an atom
    without shells. It bounds the radius of every shell ring and the
    distance of every electron from the centre in the Classical model of
    the atom, and the last ring has exactly this radius. *)
Theorem getAtomVisualRadius_extent (atom : Atom) (position : Vector3)
        (trailLength : Z) (trailOpacity : R) :
  125 / 100 <= getAtomVisualRadius atom
  /\ getAtomVisualRadius atom
     = shellRadius_at (atomScale_of atom) (length (shells atom) - 1)
  /\ exists m,
       createAtomModel atom position trailLength trailOpacity = Some m
       /\ Forall (fun ring => 0 <= shell_radius ring <= getAtomVisualRadius atom)
                 (shellPaths m)
       /\ (forall ring, last (shellPaths m) = Some ring ->
                        shell_radius ring = getAtomVisualRadius atom)
       /\ Forall (fun e => v3_length e <= getAtomVisualRadius atom) (electrons m).
Proof.
  pose proof (atomScale_of_ge atom) as Hscale.
  pose proof (getAtomVisualRadius_shell atom) as Hshell.
  split.
  { rewrite Hshell. unfold shellRadius_at, SHELL_BASE_RADIUS, SHELL_SPACING.
    pose proof (pos_INR (length (shells atom) - 1)). nra. }
  split; [exact Hshell|].
  destruct (createAtomModel_total atom position trailLength trailOpacity)
    as (m & Hm & _ & Hsh & Hel & _).
  exists m. split; [exact Hm|].
  split.
  { rewrite Hsh, Hshell. apply Forall_forall. intros ring Hr.
    apply elem_of_lookup_imap_1 in Hr as (i & n & -> & Hi). simpl.
    apply shellRadius_at_mono; [lra|].
    apply lookup_lt_Some in Hi. lia. }
  split.
  { intros ring Hlast. rewrite Hsh in Hlast. rewrite Hshell.
    rewrite last_lookup, length_imap, list_lookup_imap in Hlast.
    replace (Nat.pred (length (shells atom))) with (length (shells atom) - 1)%nat
      in Hlast by lia.
    destruct (shells atom !! (length (shells atom) - 1)%nat); simpl in Hlast;
      [|discriminate].
    now injection Hlast as <-. }
  rewrite Hel, Hshell. apply Forall_forall. intros e He.
  apply list_elem_of_In, in_concat in He as (pts & Hpts & He).
  apply list_elem_of_In, elem_of_lookup_imap_1 in Hpts as (i & n & -> & Hi).
  rewrite (getSpherePoints_on_sphere _ _ _ He).
  apply lookup_lt_Some in Hi.
  destruct (shellRadius_at_mono (atomScale_of atom) i (length (shells atom) - 1)
              ltac:(lra) ltac:(lia)) as [H0 H1].
  rewrite Rabs_right by lra. exact H1.
Qed.

(** ** The electron-speed controls *)

(** X24. handleSpeedInputBlur always sets an electron speed between 0 and
    1000, that is 0 to 100000 percent, reading a text that is not a number
    as 0. When the speed and the speed remembered for slow motion are in
    that range, they stay in it after handleSpeedInputChange,
    handleSpeedInputBlur and handleSlowMotionToggle.
    handleSpeedInputChange changes the speed only when the text parses to
    a percentage between 0 and 100000, and then to the percentage divided
    by 100. *)
Theorem speed_handlers_range (parseFloat : list ascii -> option R) (st : SpeedControls) :
  (forall value, 0 <= sp_electronSpeed (handleSpeedInputBlur parseFloat value st) <= 1000)
  /\ (speed_in_range st ->
      forall value checked,
        speed_in_range (handleSpeedInputChange parseFloat value st)
        /\ speed_in_range (handleSpeedInputBlur parseFloat value st)
        /\ speed_in_range (handleSlowMotionToggle checked st))
  /\ (forall value,
        sp_electronSpeed (handleSpeedInputChange parseFloat value st)
        <> sp_electronSpeed st ->
        exists percentage,
          parseFloat value = Some percentage /\ 0 <= percentage <= 100000
          /\ sp_electronSpeed (handleSpeedInputChange parseFloat value st)
             = percentage / 100).
Proof.
  assert (Hblur : forall value,
             0 <= sp_electronSpeed (handleSpeedInputBlur parseFloat value st) <= 1000).
  { intros value. unfold handleSpeedInputBlur. simpl.
    destruct (parseFloat value) as [p|]; [|lra].
    destruct (Rlt_dec p 0); [lra|]. destruct (Rlt_dec 100000 p); lra. }
  split; [exact Hblur|]. split.
  - intros [Hs Hp] value checked. unfold speed_in_range. split; [|split].
    + unfold handleSpeedInputChange.
      destruct value as [|c value]; [simpl; lra|].
      destruct (endsWith_dot (c :: value)); [simpl; lra|].
      destruct (parseFloat (c :: value)) as [p|]; [|simpl; lra].
      destruct (Rle_dec 0 p); [|simpl; lra].
      destruct (Rle_dec p 100000); simpl; lra.
    + split; [apply Hblur|exact Hp].
    + unfold handleSlowMotionToggle. destruct checked; simpl; lra.
  - intros value. unfold handleSpeedInputChange.
    destruct value as [|c value]; [simpl; intros H; now contradiction H|].
    destruct (endsWith_dot (c :: value)); [simpl; intros H; now contradiction H|].
    destruct (parseFloat (c :: value)) as [p|]; [|simpl; intros H; now contradiction H].
    destruct (Rle_dec 0 p); [|simpl; intros H; now contradiction H].
    destruct (Rle_dec p 100000); [|simpl; intros H; now contradiction H].
    simpl. intros _. exists p. repeat split; assumption.
Qed.

Lemma speed_edits_keep_previous (parseFloat : list ascii -> option R)
      (edits : list SpeedEdit) (st : SpeedControls) :
  sp_previousElectronSpeed (speed_edits parseFloat edits st)
  = sp_previousElectronSpeed st.
Proof.
  revert st. induction edits as [|e edits IH]; intros st; [reflexivity|].
  cbn [speed_edits fold_left]. unfold speed_edits in IH. rewrite IH.
  destruct e as [value|value]; cbn [speed_edit].
  - unfold handleSpeedInputChange.
    destruct value as [|c value]; [reflexivity|].
    destruct (endsWith_dot (c :: value)); [reflexivity|].
    destruct (parseFloat (c :: value)) as [p|]; [|reflexivity].
    destruct (Rle_dec 0 p); [|reflexivity].
    destruct (Rle_dec p 100000); reflexivity.
  - reflexivity.
Qed.

(** X25. Switching slow motion on divides the electron speed by 100.
    Whatever is typed into the speed input while slow motion is on,
    through any sequence of change and blur events, slow motion stays on
    and switching it off sets the speed back to the value it had when slow
    motion was switched on, so a speed entered in between is discarded. *)
Theorem slowMotion_restores (parseFloat : list ascii -> option R)
        (edits : list SpeedEdit) (st : SpeedControls) :
  let slow := handleSlowMotionToggle true st in
  let edited := speed_edits parseFloat edits slow in
  let back := handleSlowMotionToggle false edited in
  sp_electronSpeed slow = sp_electronSpeed st / 100
  /\ sp_isSlowMotion edited = true
  /\ sp_electronSpeed back = sp_electronSpeed st
  /\ sp_isSlowMotion back = false.
Proof.
  intros slow edited back.
  split; [reflexivity|]. split.
  { unfold edited. generalize slow (eq_refl : sp_isSlowMotion slow = true).
    induction edits as [|e edits IH]; intros s Hs; [exact Hs|].
    cbn [speed_edits fold_left]. apply IH.
    destruct e as [value|value]; cbn [speed_edit]; [|exact Hs].
    unfold handleSpeedInputChange.
    destruct value as [|c value]; [exact Hs|].
    destruct (endsWith_dot (c :: value)); [exact Hs|].
    destruct (parseFloat (c :: value)) as [p|]; [|exact Hs].
    destruct (Rle_dec 0 p); [|exact Hs].
    destruct (Rle_dec p 100000); exact Hs. }
  split.
  { unfold back, handleSlowMotionToggle. cbn [sp_electronSpeed].
    unfold edited. now rewrite speed_edits_keep_previous. }
  reflexivity.
Qed.

(** ** The database search *)

Section SearchFacts.

Variable parseFloat : list ascii -> option R.

Lemma parseSDF_lengths (sdfData name : string) (data : ParsedMoleculeData) :
  parseSDF parseFloat sdfData name = inr data ->
  pm_name data = name /\ length (pm_symbols data) = length (pm_positions data).
Proof.
  unfold parseSDF.
  destruct (length _ <? 4)%nat; [discriminate|].
  destruct (parseInt_at _ 0) as [atomCount|]; [|discriminate].
  destruct (parseInt_at _ 1) as [bondCount|]; [|discriminate].
  destruct (100 <? atomCount)%Z; [discriminate|].
  intros H. injection H as <-. cbn [pm_name pm_symbols pm_positions].
  split; [reflexivity|]. now rewrite !List.length_map.
Qed.

Lemma pdb_atoms_lengths (atomLines : list (list ascii)) (index : nat)
      (ps : list Vector3) (syms : list string) (atomMap : list (option Z * nat)) :
  length ps = length syms ->
  match pdb_atoms parseFloat atomLines index (ps, syms, atomMap) with
  | (ps', syms', _) => length ps' = length syms'
  end.
Proof.
  revert index ps syms atomMap.
  induction atomLines as [|line rest IH]; intros index ps syms atomMap Hlen.
  - exact Hlen.
  - cbn [pdb_atoms].
    destruct (parseFloat (substring 30 38 line)) as [x|]; [|now apply IH].
    destruct (parseFloat (substring 38 46 line)) as [y|]; [|now apply IH].
    destruct (parseFloat (substring 46 54 line)) as [z|]; [|now apply IH].
    destruct (pdb_symbol line) as [|c sym]; [now apply IH|].
    apply IH. rewrite !length_app. simpl. lia.
Qed.

Lemma parsePDB_lengths (pdbData name : string) (data : ParsedMoleculeData) :
  parsePDB parseFloat pdbData name = inr data ->
  pm_name data = name /\ length (pm_symbols data) = length (pm_positions data).
Proof.
  unfold parsePDB.
  destruct (PDB_MAX_ATOMS <? _)%nat; [discriminate|].
  match goal with
  | |- context [pdb_atoms parseFloat ?l 0 ([], [], [])] =>
      pose proof (pdb_atoms_lengths l 0 [] [] [] eq_refl) as Hl;
      destruct (pdb_atoms parseFloat l 0 ([], [], [])) as [[ps syms] atomMap]
  end.
  intros H. injection H as <-. cbn [pm_name pm_symbols pm_positions].
  split; [reflexivity|now symmetry].
Qed.

(** What loading a parsed molecule does to the state. *)
Lemma handleLoadMoleculeFromData_loaded (data : ParsedMoleculeData) (st : AppState) :
  length (pm_symbols data) = length (pm_positions data) ->
  pm_symbols data <> [] ->
  let st' := handleLoadMoleculeFromData (Some data) st in
  atomSymbols st' = pm_symbols data
  /\ totalAtoms st' = Z.of_nat (length (pm_symbols data))
  /\ app_bondingPairs st' = pm_bonds data
  /\ app_atomPositions st' = centeredPositions (pm_positions data)
  /\ length (app_atomPositions st') = length (atomSymbols st')
  /\ moleculeName st' = Some (pm_name data)
  /\ formula st' = pm_name data
  /\ app_bondingProgress st' = (if (0 <? length (pm_bonds data))%nat then 1 else 0)
  /\ formulaError st' = formulaError st.
Proof.
  intros Hlen Hne st'. unfold st', handleLoadMoleculeFromData.
  destruct (pm_symbols data) as [|s syms] eqn:Hs; [now contradiction Hne|].
  destruct (pm_positions data) as [|p ps] eqn:Hp; [discriminate|].
  cbn [length Nat.eqb].
  cbn [atomSymbols totalAtoms app_bondingPairs app_atomPositions moleculeName formula
       app_bondingProgress formulaError].
  repeat split.
  rewrite centeredPositions_length. exact (eq_sym Hlen).
Qed.

(** X14. The state updates of one run of handleSearch, with no other event
    in between: a blank query only reports that a query is missing and
    leaves the application state as it is. Any other query first calls
    onMoleculeLoad(null), which sets the application's formula error to
    the message that the data could not be parsed, and the handler never
    clears it, also when the search succeeds. When the search fails it
    changes nothing else. When it succeeds, the response was parsed (by
    parseSDF for PubChem, by parsePDB for a PDB id of four letters or
    digits) and, for a molecule with at least one atom, the handler sets
    the parsed symbols, their number as atom count, as many positions, the
    parsed bonds, the query as name, and bonding progress 1 with bonds or
    0 without. *)
Theorem handleSearch_spec (query : string) (database : Database)
        (response : option string) (st : AppState) :
  let r := handleSearch parseFloat query database response st in
  (trim (list_ascii_of_string query) = [] -> r = (Some EnterQuery, st))
  /\ (trim (list_ascii_of_string query) <> [] ->
      formulaError (snd r) = Some DatabaseParseFailed
      /\ (fst r <> None -> snd r = handleLoadMoleculeFromData None st)
      /\ (fst r = None ->
          exists sdfOrPdb data,
            response = Some sdfOrPdb
            /\ match database with
               | pubchem => parseSDF parseFloat sdfOrPdb query = inr data
               | pdb => parsePDB parseFloat sdfOrPdb query = inr data
                        /\ pdb_id_ok (list_ascii_of_string query) = true
               end
            /\ (pm_symbols data = [] -> snd r = handleLoadMoleculeFromData None st)
            /\ (pm_symbols data <> [] ->
                atomSymbols (snd r) = pm_symbols data
                /\ totalAtoms (snd r) = Z.of_nat (length (pm_symbols data))
                /\ length (app_atomPositions (snd r)) = length (pm_symbols data)
                /\ app_bondingPairs (snd r) = pm_bonds data
                /\ moleculeName (snd r) = Some query
                /\ app_bondingProgress (snd r)
                   = (if (0 <? length (pm_bonds data))%nat then 1 else 0)))).
Proof.
  intros r. unfold r, handleSearch.
  destruct (trim (list_ascii_of_string query)) as [|t ts].
  { split; [reflexivity|]. intros H. now contradiction H. }
  split; [discriminate|]. intros _.
  set (st1 := handleLoadMoleculeFromData None st).
  assert (Hload : forall name data,
             pm_name data = name ->
             length (pm_symbols data) = length (pm_positions data) ->
             let st2 := handleLoadMoleculeFromData (Some data) st1 in
             formulaError st2 = Some DatabaseParseFailed
             /\ (pm_symbols data = [] -> st2 = st1)
             /\ (pm_symbols data <> [] ->
                 atomSymbols st2 = pm_symbols data
                 /\ totalAtoms st2 = Z.of_nat (length (pm_symbols data))
                 /\ length (app_atomPositions st2) = length (pm_symbols data)
                 /\ app_bondingPairs st2 = pm_bonds data
                 /\ moleculeName st2 = Some name
                 /\ app_bondingProgress st2
                    = (if (0 <? length (pm_bonds data))%nat then 1 else 0))).
  { intros name data Hname Hlen st2.
    destruct (pm_symbols data) as [|s syms] eqn:Hs.
    - unfold st2, handleLoadMoleculeFromData. rewrite Hs. cbn [length Nat.eqb].
      split; [reflexivity|]. split; [reflexivity|]. intros H. now contradiction H.
    - assert (Hne : pm_symbols data <> []) by (rewrite Hs; discriminate).
      rewrite <- Hs in *.
      destruct (handleLoadMoleculeFromData_loaded data st1 Hlen Hne)
        as (H1 & H2 & H3 & _ & H5 & H6 & _ & H8 & H9).
      fold st2 in H1, H2, H3, H5, H6, H8, H9.
      split; [rewrite H9; reflexivity|].
      split; [intros E; now contradiction Hne|]. intros _.
      rewrite H1 in H5. rewrite Hname in H6. repeat split; assumption. }
  destruct database.
  - destruct response as [sdfData|].
    + destruct (parseSDF parseFloat sdfData query) as [e|data] eqn:Hparse.
      * cbn [fst snd]. split; [reflexivity|].
        split; [reflexivity|discriminate].
      * destruct (parseSDF_lengths _ _ _ Hparse) as [Hname Hlen].
        destruct (Hload query data Hname Hlen) as (H1 & H2 & H3).
        cbn [fst snd]. split; [exact H1|].
        split; [intros H; now contradiction H|]. intros _.
        exists sdfData, data. split; [reflexivity|]. split; [exact Hparse|].
        split; assumption.
    + cbn [fst snd]. split; [reflexivity|]. split; [reflexivity|discriminate].
  - destruct (pdb_id_ok (list_ascii_of_string query)) eqn:Hid.
    + destruct response as [pdbData|].
      * destruct (parsePDB parseFloat pdbData query) as [e|data] eqn:Hparse.
        -- cbn [fst snd]. split; [reflexivity|].
           split; [reflexivity|discriminate].
        -- destruct (parsePDB_lengths _ _ _ Hparse) as [Hname Hlen].
           destruct (Hload query data Hname Hlen) as (H1 & H2 & H3).
           cbn [fst snd]. split; [exact H1|].
           split; [intros H; now contradiction H|]. intros _.
           exists pdbData, data. split; [reflexivity|].
           split; [split; [exact Hparse|reflexivity]|]. split; assumption.
      * cbn [fst snd]. split; [reflexivity|]. split; [reflexivity|discriminate].
    + cbn [fst snd]. split; [reflexivity|]. split; [reflexivity|discriminate].
Qed.

End SearchFacts.

(** ** Computations that draw random numbers *)

Lemma rand_post_ret {A} (a : A) (Q : A -> Prop) : Q a -> rand_post (rand_ret a) Q.
Proof. intros Ha g Hg. split; assumption. Qed.

Lemma rand_post_bind {A B} (m : Rand A) (k : A -> Rand B) (P : A -> Prop)
      (Q : B -> Prop) :
  rand_post m P -> (forall a, P a -> rand_post (k a) Q) -> rand_post (rand_bind m k) Q.
Proof.
  intros Hm Hk g Hg. rewrite rand_bind_eq.
  destruct (Hm g Hg) as [Ha Hg']. exact (Hk _ Ha _ Hg').
Qed.

Lemma rand_post_weaken {A} (m : Rand A) (P Q : A -> Prop) :
  rand_post m P -> (forall a, P a -> Q a) -> rand_post m Q.
Proof. intros Hm HPQ g Hg. destruct (Hm g Hg). split; auto. Qed.

Lemma rand_post_Math_random : rand_post Math_random (fun u => 0 <= u < 1).
Proof.
  intros g Hg. split; [apply Hg|]. intros n. apply Hg.
Qed.

Lemma rand_post_mapM {A B} (f : A -> Rand B) (P : A -> Prop) (Q : B -> Prop)
      (l : list A) :
  (forall a, P a -> rand_post (f a) Q) -> Forall P l ->
  rand_post (rand_mapM f l) (Forall Q).
Proof.
  intros Hf Hl. induction Hl as [|a l Ha _ IH]; simpl.
  - apply rand_post_ret. constructor.
  - eapply rand_post_bind; [exact (Hf a Ha)|]. intros b Hb.
    eapply rand_post_bind; [exact IH|]. intros bs Hbs.
    apply rand_post_ret. now constructor.
Qed.

(** ** Where the orbital sampler places an electron *)

Lemma v3_length_nonneg (v : Vector3) : 0 <= v3_length v.
Proof. apply sqrt_pos. Qed.

Lemma v3_length_sq (v : Vector3) : v3_length v * v3_length v = v3_dot v v.
Proof. unfold v3_length, v3_dot. apply sqrt_sqrt. nra. Qed.

(** A vector is within [B] of the origin when its square is. *)
Lemma v3_length_le (v : Vector3) (B : R) :
  0 <= B -> v3_dot v v <= B * B -> v3_length v <= B.
Proof.
  intros HB Hv. unfold v3_length. fold (v3_dot v v).
  rewrite <- (sqrt_square B) by exact HB.
  apply sqrt_le_1_alt. exact Hv.
Qed.

Lemma v3_length_le_inv (v : Vector3) (B : R) :
  v3_length v <= B -> v3_dot v v <= B * B.
Proof.
  intros Hv. rewrite <- v3_length_sq.
  pose proof (v3_length_nonneg v). nra.
Qed.

Lemma getRandomPointInSphere_post (radius : R) :
  0 <= radius ->
  rand_post (getRandomPointInSphere radius) (fun p => v3_length p <= radius).
Proof.
  intros Hr g Hg.
  assert (Heq : getRandomPointInSphere radius g
                = (spec_spherical (radius * Math_cbrt (g 2%nat)) (2 * PI * g 0%nat)
                                  (acos (2 * g 1%nat - 1)),
                   fun n => g (S (S (S n))))) by reflexivity.
  rewrite Heq. simpl. split.
  - rewrite spec_spherical_length.
    destruct (Math_cbrt_unit (g 2%nat)) as [H0 H1]; [destruct (Hg 2%nat); lra|].
    rewrite Rabs_right by nra. nra.
  - intros n. apply Hg.
Qed.

Lemma parseInt_digit (c : ascii) :
  is_digit c = true ->
  parseInt [c] = Some (digit_value c) /\ (0 <= digit_value c <= 9)%Z.
Proof.
  destruct c as [b0 b1 b2 b3 b4 b5 b6 b7].
  destruct b0, b1, b2, b3, b4, b5, b6, b7; intros H;
    try (vm_compute in H; discriminate H); vm_compute; (split; [reflexivity|]);
    split; intros E; discriminate E.
Qed.

Lemma principal_of_digit (key : string) :
  key_has_principal key -> 0 <= principal_of key <= 9.
Proof.
  intros (c & Hc & Hd). unfold principal_of, charAt. rewrite Hc.
  destruct (parseInt_digit c Hd) as [-> [H0 H9]].
  split; apply IZR_le; assumption.
Qed.

Lemma baseRadius_of_nonneg (key : string) (scale : R) :
  key_has_principal key -> 0 <= scale -> 0 <= baseRadius_of key scale.
Proof.
  intros Hk Hs. destruct (principal_of_digit key Hk) as [H0 _].
  unfold baseRadius_of. nra.
Qed.

(** A point of a lobe, moved along an axis by the base radius. *)
Lemma lobe_shift_within (x y z b d : R) :
  0 <= b -> d = 1 \/ d = -1 ->
  x * x + y * y + z * z <= (b * (7 / 10)) * (b * (7 / 10)) ->
  (x + d * b) * (x + d * b) + y * y + z * z <= (18 / 10 * b) * (18 / 10 * b).
Proof.
  intros Hb Hd Hp.
  pose proof (Rle_0_sqr (x - 7 / 10 * (d * b))) as Hsq. unfold Rsqr in Hsq.
  assert (Hdd : (d * b) * (d * b) = b * b) by (destruct Hd as [-> | ->]; ring).
  nra.
Qed.

Lemma getRandomPointInOrbital_post (key : string) (scale : R) :
  key_has_principal key -> 0 <= scale ->
  rand_post (getRandomPointInOrbital key scale)
            (fun p => v3_length p <= orbital_reach key scale).
Proof.
  intros Hk Hs.
  pose proof (baseRadius_of_nonneg key scale Hk Hs) as Hb.
  unfold getRandomPointInOrbital, orbital_reach. fold (baseRadius_of key scale).
  set (b := baseRadius_of key scale) in *.
  destruct (type_is key "s").
  { eapply rand_post_weaken; [apply getRandomPointInSphere_post; exact Hb|].
    simpl. intros p Hp. lra. }
  destruct (type_is key "p").
  { eapply rand_post_bind; [apply rand_post_Math_random|]. intros a Ha.
    eapply rand_post_bind; [apply rand_post_Math_random|]. intros d Hd.
    eapply rand_post_bind; [apply (getRandomPointInSphere_post (b * (7 / 10))); lra|].
    intros p Hp. apply rand_post_ret.
    apply v3_length_le_inv in Hp. unfold v3_dot in Hp.
    assert (Hdir : (if Rlt_dec d (5 / 10) then 1 else -1) = 1
                   \/ (if Rlt_dec d (5 / 10) then 1 else -1) = -1)
      by (destruct (Rlt_dec d (5 / 10)); [now left|now right]).
    set (dir := if Rlt_dec d (5 / 10) then 1 else -1) in *.
    apply v3_length_le; [lra|]. unfold v3_dot.
    destruct (Zfloor (a * 3) =? 0)%Z; [|destruct (Zfloor (a * 3) =? 1)%Z]; simpl.
    - apply lobe_shift_within; assumption.
    - replace (vx p * vx p + (vy p + dir * b) * (vy p + dir * b) + vz p * vz p)
        with ((vy p + dir * b) * (vy p + dir * b) + vx p * vx p + vz p * vz p) by ring.
      apply lobe_shift_within; [assumption|assumption|lra].
    - replace (vx p * vx p + vy p * vy p + (vz p + dir * b) * (vz p + dir * b))
        with ((vz p + dir * b) * (vz p + dir * b) + vx p * vx p + vy p * vy p) by ring.
      apply lobe_shift_within; [assumption|assumption|lra]. }
  destruct (type_is key "d").
  { eapply rand_post_weaken; [apply (getRandomPointInSphere_post (b * (15 / 10))); lra|].
    simpl. intros p Hp. lra. }
  destruct (type_is key "f").
  { eapply rand_post_weaken; [apply (getRandomPointInSphere_post (b * (18 / 10))); lra|].
    simpl. intros p Hp. lra. }
  apply rand_post_ret. unfold v3_length, v3_zero. simpl.
  replace (0 * 0 + 0 * 0 + 0 * 0) with 0 by ring. rewrite sqrt_0. lra.
Qed.

(** X3. For an orbital key whose first character is a digit n, a scale
    that is not negative and Math.random values in [0, 1), the point that
    getRandomPointInOrbital returns is at distance at most 1.8 * (0.9 * n
    * scale) from the origin, for every orbital type, where 0 <= n <= 9.
    For a key whose second character is none of s, p, d, f the function
    returns the origin and draws no random number. *)
Theorem getRandomPointInOrbital_bounded (orbitalKey : string) (scale : R)
        (g : RandomSource) :
  key_has_principal orbitalKey -> 0 <= scale -> unit_draws g ->
  let p := fst (getRandomPointInOrbital orbitalKey scale g) in
  0 <= principal_of orbitalKey <= 9
  /\ v3_length p <= 18 / 10 * (9 / 10 * principal_of orbitalKey * scale)
  /\ distanceTo p v3_zero <= 18 / 10 * (9 / 10 * principal_of orbitalKey * scale)
  /\ unit_draws (snd (getRandomPointInOrbital orbitalKey scale g))
  /\ (type_is orbitalKey "s" = false -> type_is orbitalKey "p" = false ->
      type_is orbitalKey "d" = false -> type_is orbitalKey "f" = false ->
      getRandomPointInOrbital orbitalKey scale g = (v3_zero, g)).
Proof.
  intros Hk Hs Hg p.
  destruct (getRandomPointInOrbital_post orbitalKey scale Hk Hs g Hg) as [Hp Hg'].
  fold p in Hp. unfold orbital_reach, baseRadius_of in Hp.
  split; [now apply principal_of_digit|].
  split; [exact Hp|].
  split.
  { replace (distanceTo p v3_zero) with (v3_length p); [exact Hp|].
    unfold distanceTo, distanceToSquared, v3_length, v3_zero; simpl. f_equal. ring. }
  split; [exact Hg'|].
  intros H1 H2 H3 H4. unfold getRandomPointInOrbital. now rewrite H1, H2, H3, H4.
Qed.

(** ** The sampler and the shapes that are drawn *)

Lemma type_is_unique (key : string) (a b : ascii) :
  type_is key a = true -> type_is key b = true -> a = b.
Proof.
  unfold type_is. destruct (charAt key 1) as [|c [|c' l]]; try discriminate.
  intros Ha Hb. apply Ascii.eqb_eq in Ha, Hb. congruence.
Qed.

Lemma distanceTo_shift (p c : Vector3) (d : Vector3) :
  vx p - vx c = vx d -> vy p - vy c = vy d -> vz p - vz c = vz d ->
  distanceTo p c = v3_length d.
Proof.
  intros Hx Hy Hz. unfold distanceTo, distanceToSquared, v3_length. simpl.
  now rewrite Hx, Hy, Hz.
Qed.

(** X4. For an s, p or f orbital with a count that is not zero (key
    starting with a digit, scale not negative, Math.random values in [0,
    1)), the point that getRandomPointInOrbital samples lies inside one of
    the sphere meshes that createOrbitalShapes draws for that orbital at
    the same scale: the s or f sphere, or one of the six lobes of the
    three p dumbbells. *)
Theorem sampled_point_in_shape (orbitalKey : string) (count : Z) (scale : R)
        (g : RandomSource) :
  key_has_principal orbitalKey -> 0 <= scale -> unit_draws g -> count <> 0%Z ->
  type_is orbitalKey "s" = true \/ type_is orbitalKey "p" = true
  \/ type_is orbitalKey "f" = true ->
  exists shape,
    In shape (orbital_shapes_for orbitalKey count scale)
    /\ shape_contains shape (fst (getRandomPointInOrbital orbitalKey scale g)).
Proof.
  intros Hk Hs Hg Hc Hty.
  pose proof (baseRadius_of_nonneg orbitalKey scale Hk Hs) as Hb.
  unfold orbital_shapes_for, getRandomPointInOrbital.
  destruct (Z.eqb_spec count 0) as [|_]; [contradiction|].
  fold (baseRadius_of orbitalKey scale). set (b := baseRadius_of orbitalKey scale) in *.
  assert (Hin0 : forall p c, distanceTo p c = v3_length (subVectors p c)).
  { intros p c. now apply distanceTo_shift. }
  destruct (type_is orbitalKey "s") eqn:Ts.
  { destruct (getRandomPointInSphere_post b Hb g Hg) as [Hp _].
    eexists. split; [now left|]. simpl.
    rewrite (distanceTo_shift _ _ (fst (getRandomPointInSphere b g))); simpl;
      [exact Hp|ring|ring|ring]. }
  destruct (type_is orbitalKey "p") eqn:Tp.
  { rewrite !rand_bind_eq.
    destruct (rand_post_Math_random g Hg) as [_ Hg1].
    destruct (rand_post_Math_random _ Hg1) as [_ Hg2].
    set (g2 := snd (Math_random (snd (Math_random g)))) in *.
    destruct (getRandomPointInSphere_post (b * (7 / 10)) ltac:(lra) g2 Hg2) as [Hp _].
    set (pl := fst (getRandomPointInSphere (b * (7 / 10)) g2)) in *.
    set (a := fst (Math_random g)). set (d := fst (Math_random (snd (Math_random g)))).
    unfold rand_ret. cbn [fst].
    destruct (Zfloor (a * 3) =? 0)%Z; [|destruct (Zfloor (a * 3) =? 1)%Z];
      destruct (Rlt_dec d (5 / 10)).
    - eexists. split; [left; reflexivity|]. simpl.
      split; [reflexivity|]. split; [reflexivity|].
      eexists. split; [left; reflexivity|]. simpl.
      rewrite (distanceTo_shift _ _ pl); simpl; [exact Hp|ring|ring|ring].
    - eexists. split; [left; reflexivity|]. simpl.
      split; [reflexivity|]. split; [reflexivity|].
      eexists. split; [right; left; reflexivity|]. simpl.
      rewrite (distanceTo_shift _ _ pl); simpl; [exact Hp|ring|ring|ring].
    - eexists. split; [right; left; reflexivity|]. simpl.
      split; [reflexivity|]. split; [reflexivity|].
      eexists. split; [left; reflexivity|]. simpl.
      rewrite (distanceTo_shift _ _ pl); simpl; [exact Hp|ring|ring|ring].
    - eexists. split; [right; left; reflexivity|]. simpl.
      split; [reflexivity|]. split; [reflexivity|].
      eexists. split; [right; left; reflexivity|]. simpl.
      rewrite (distanceTo_shift _ _ pl); simpl; [exact Hp|ring|ring|ring].
    - eexists. split; [right; right; left; reflexivity|]. simpl.
      split; [reflexivity|]. split; [reflexivity|].
      eexists. split; [left; reflexivity|]. simpl.
      rewrite (distanceTo_shift _ _ pl); simpl; [exact Hp|ring|ring|ring].
    - eexists. split; [right; right; left; reflexivity|]. simpl.
      split; [reflexivity|]. split; [reflexivity|].
      eexists. split; [right; left; reflexivity|]. simpl.
      rewrite (distanceTo_shift _ _ pl); simpl; [exact Hp|ring|ring|ring]. }
  destruct Hty as [H|[H|Tf]]; try discriminate.
  destruct (type_is orbitalKey "d") eqn:Td.
  { pose proof (type_is_unique _ _ _ Td Tf). discriminate. }
  rewrite Tf.
  destruct (getRandomPointInSphere_post (b * (18 / 10)) ltac:(lra) g Hg) as [Hp _].
  eexists. split; [now left|]. simpl.
  rewrite (distanceTo_shift _ _ (fst (getRandomPointInSphere (b * (18 / 10)) g))); simpl;
    [exact Hp|ring|ring|ring].
Qed.

(** ** The electron configuration *)

Lemma span_fst_Forall (p : ascii -> bool) (s : list ascii) :
  Forall (fun c => p c = true) (fst (span p s)).
Proof.
  induction s as [|c s IH]; simpl; [constructor|].
  destruct (p c) eqn:Hc; [|constructor].
  destruct (span p s) as [a b]. simpl in *. now constructor.
Qed.

Lemma span_length (p : ascii -> bool) (s : list ascii) :
  (length (fst (span p s)) + length (snd (span p s)) = length s)%nat.
Proof.
  induction s as [|c s IH]; simpl; [reflexivity|].
  destruct (p c); [|reflexivity].
  destruct (span p s) as [a b]. simpl in *. lia.
Qed.

Lemma decimal_value_nonneg (ds : list ascii) :
  Forall (fun c => is_digit c = true) ds -> (0 <= decimal_value ds)%Z.
Proof.
  unfold decimal_value. intros Hds.
  assert (H : forall acc, (0 <= acc)%Z ->
                (0 <= fold_left (fun a c => (a * 10 + digit_value c)%Z) ds acc)%Z).
  { induction Hds as [|c ds Hc _ IH]; intros acc Hacc; simpl; [exact Hacc|].
    apply IH. unfold is_digit in Hc. apply andb_true_iff in Hc as [H1 _].
    apply Nat.leb_le in H1. unfold digit_value. lia. }
  apply H. lia.
Qed.

Lemma obj_set_keys_In {V} (o : JsObject V) (k : string) (v : V) (k' : string) :
  In k' (map fst (obj_set o k v)) <-> k' = k \/ In k' (map fst o).
Proof.
  induction o as [|[k0 v0] o IH]; simpl.
  - split; [intros [<-|[]]; now left|intros [->|[]]; now left].
  - destruct (String.eqb_spec k0 k) as [->|Hne]; simpl.
    + split; [intros [<-|H]; [now left|right; now right]|].
      intros [->|[<-|H]]; [now left|now left|now right].
    + rewrite IH. split.
      * intros [<-|[->|H]]; [right; now left|now left|right; now right].
      * intros [->|[<-|H]]; [right; now left|now left|right; now right].
Qed.

Lemma obj_set_NoDup {V} (o : JsObject V) (k : string) (v : V) :
  NoDup (map fst o) -> NoDup (map fst (obj_set o k v)).
Proof.
  induction o as [|[k0 v0] o IH]; simpl; intros Hnd.
  - apply NoDup_singleton.
  - apply NoDup_cons in Hnd as [Hk0 Hnd].
    destruct (String.eqb_spec k0 k) as [->|Hne]; simpl.
    + apply NoDup_cons. split; [exact Hk0|exact Hnd].
    + apply NoDup_cons. split; [|now apply IH].
      intros Hin. apply list_elem_of_In, obj_set_keys_In in Hin as [E|Hin];
        [now apply Hne|]. apply Hk0. now apply list_elem_of_In.
Qed.

Lemma obj_set_Forall {V} (P : string * V -> Prop) (o : JsObject V) (k : string) (v : V) :
  Forall P o -> P (k, v) -> Forall P (obj_set o k v).
Proof.
  intros Ho Hkv. induction Ho as [|[k0 v0] o H0 Ho IH]; simpl.
  - now constructor.
  - destruct (String.eqb k0 k); constructor; assumption.
Qed.

(** After the assignment [config[k] = v] the key [k] has the value [v]
    and every other key its old value. *)
Lemma obj_get_set {V} (o : JsObject V) (k : string) (v : V) (k' : string) :
  obj_get (obj_set o k v) k' = if String.eqb k k' then Some v else obj_get o k'.
Proof.
  induction o as [|[k0 v0] o IH]; simpl.
  - reflexivity.
  - destruct (String.eqb_spec k0 k) as [->|Hne]; simpl.
    + destruct (String.eqb_spec k k'); reflexivity.
    + rewrite IH. destruct (String.eqb_spec k0 k') as [->|Hne'].
      * destruct (String.eqb_spec k k') as [E|_]; [now contradiction Hne|reflexivity].
      * reflexivity.
Qed.

Lemma scan_orbitals_ok (fuel : nat) (s : list ascii) (config : JsObject Z) :
  config_ok config -> config_ok (scan_orbitals fuel s config).
Proof.
  revert s config. induction fuel as [|fuel IH]; intros s config Hc; [exact Hc|].
  cbn [scan_orbitals]. destruct s as [|c rest]; [exact Hc|].
  pose proof (span_fst_Forall is_digit (c :: rest)) as Hds.
  destruct (span is_digit (c :: rest)) as [[|d ds] [|t after]]; try now apply IH.
  destruct (is_spdf t) eqn:Ht; [|now apply IH].
  pose proof (span_fst_Forall is_digit after) as Hcnt.
  destruct (span is_digit after) as [[|n cnt] after']; [now apply IH|].
  apply IH. destruct Hc as [Hall Hnd]. split.
  - apply obj_set_Forall; [exact Hall|]. simpl. split.
    + exists (d :: ds), t. repeat split; [discriminate|exact Hds|exact Ht].
    + now apply decimal_value_nonneg.
  - now apply obj_set_NoDup.
Qed.

Lemma parseElectronConfiguration_ok (semanticConfig : string) :
  config_ok (parseElectronConfiguration semanticConfig).
Proof.
  unfold parseElectronConfiguration. apply scan_orbitals_ok.
  split; constructor.
Qed.

Lemma orbital_key_principal (key : string) : orbital_key key -> key_has_principal key.
Proof.
  intros (ds & t & -> & Hne & Hds & _).
  destruct ds as [|d ds]; [now contradiction Hne|].
  apply Forall_cons in Hds as [Hd _]. exists d. split; [reflexivity|exact Hd].
Qed.

Lemma obj_get_In {V} (o : JsObject V) (k : string) (v : V) :
  NoDup (map fst o) -> (In (k, v) o <-> obj_get o k = Some v).
Proof.
  induction o as [|[k0 v0] o IH]; simpl; intros Hnd.
  - split; [intros []|discriminate].
  - apply NoDup_cons in Hnd as [Hk0 Hnd]. simpl in Hk0.
    destruct (String.eqb_spec k0 k) as [->|Hne].
    + split.
      * intros [E|Hin]; [now injection E as ->|].
        exfalso. apply Hk0. apply list_elem_of_In, in_map_iff. now exists (k, v).
      * intros E. injection E as ->. now left.
    + rewrite <- (IH Hnd). split; [intros [E|Hin]; [congruence|exact Hin]|now right].
Qed.

(** X1. Every key of the object that parseElectronConfiguration returns is
    a non-empty run of digits followed by one of the letters s, p, d, f,
    so it starts with a digit, the principal quantum number that the
    orbital code reads from it. No key occurs twice, no count is negative,
    looking a key up returns exactly the count listed for it, and the base
    radius 0.9 * n * scale of every listed orbital is not negative for a
    scale that is not negative. *)
Theorem parseElectronConfiguration_keys (semanticConfig : string) :
  let config := parseElectronConfiguration semanticConfig in
  Forall (fun kv => orbital_key (fst kv) /\ key_has_principal (fst kv)
                    /\ (0 <= snd kv)%Z) config
  /\ NoDup (map fst config)
  /\ (forall key count, In (key, count) config <-> obj_get config key = Some count)
  /\ (forall key count scale,
        In (key, count) config -> 0 <= scale -> 0 <= baseRadius_of key scale).
Proof.
  intros config.
  destruct (parseElectronConfiguration_ok semanticConfig) as [Hall Hnd].
  fold config in Hall, Hnd.
  split.
  { eapply Forall_impl; [exact Hall|]. intros kv [Hk Hc].
    split; [exact Hk|]. split; [now apply orbital_key_principal|exact Hc]. }
  split; [exact Hnd|].
  split; [intros key count; now apply obj_get_In|].
  intros key count scale Hin Hs.
  rewrite List.Forall_forall in Hall. destruct (Hall _ Hin) as [Hk _].
  apply baseRadius_of_nonneg; [now apply orbital_key_principal|exact Hs].
Qed.

Lemma strip_core_plain (s : list ascii) :
  ~ In "["%char s -> strip_core s = s.
Proof.
  induction s as [|c s IH]; intros Hn; [reflexivity|].
  simpl. destruct (Ascii.eqb_spec c "[") as [->|_].
  - exfalso. apply Hn. now left.
  - f_equal. apply IH. intros H. apply Hn. now right.
Qed.

(** X2. A bracketed noble-gas core at the start of a configuration, with
    the white space after it, does not change what
    parseElectronConfiguration returns: for a core of one or more letters
    and a rest that holds no opening bracket and does not start with white
    space, the text [core] rest parses to the same object as rest alone. *)
Theorem parseElectronConfiguration_core (core ws rest : list ascii) :
  core <> [] ->
  Forall (fun c => is_alpha c = true) core ->
  Forall (fun c => is_space c = true) ws ->
  match rest with c :: _ => is_space c = false | [] => True end ->
  ~ In "["%char rest ->
  parseElectronConfiguration
    (string_of_list_ascii ("["%char :: core ++ "]"%char :: ws ++ rest))
  = parseElectronConfiguration (string_of_list_ascii rest).
Proof.
  intros Hne Hcore Hws Hrest Hplain.
  unfold parseElectronConfiguration.
  rewrite !list_ascii_of_string_of_list_ascii.
  rewrite (strip_core_plain rest Hplain).
  assert (Hstrip : strip_core ("["%char :: core ++ "]"%char :: ws ++ rest) = rest).
  { cbn [strip_core]. rewrite Ascii.eqb_refl.
    rewrite (span_app_stop is_alpha core ("]"%char :: ws ++ rest) Hcore) by reflexivity.
    destruct core as [|c core]; [now contradiction Hne|].
    now rewrite (span_app_stop is_space ws rest Hws Hrest). }
  now rewrite Hstrip.
Qed.

(** ** The Quantum random walk *)

Lemma atomScale_of_pos (atom : Atom) : 0 <= atomScale_of atom.
Proof.
  unfold atomScale_of.
  pose proof (Rmax_l (5 / 10) (Math_cbrt (atomicMass atom) * NUCLEUS_SCALE_FACTOR)). lra.
Qed.

Lemma lerp_within (c t : Vector3) (B alpha : R) :
  0 <= alpha <= 1 -> v3_length c <= B -> v3_length t <= B ->
  v3_length (lerp c t alpha) <= B.
Proof.
  intros Ha Hc Ht.
  assert (HB : 0 <= B) by (pose proof (v3_length_nonneg c); lra).
  apply v3_length_le_inv in Hc. apply v3_length_le_inv in Ht.
  apply v3_length_le; [exact HB|].
  destruct c as [cx cy cz], t as [tx ty tz].
  unfold lerp, v3_dot in *. simpl in *.
  set (a := alpha) in *. set (b := 1 - a).
  assert (Hb : 0 <= b) by (unfold b; lra).
  replace (cx + (tx - cx) * a) with (b * cx + a * tx) by (unfold b; ring).
  replace (cy + (ty - cy) * a) with (b * cy + a * ty) by (unfold b; ring).
  replace (cz + (tz - cz) * a) with (b * cz + a * tz) by (unfold b; ring).
  assert (Hx : 2 * (cx * tx) <= cx * cx + tx * tx)
    by (pose proof (Rle_0_sqr (cx - tx)) as Hsq; unfold Rsqr in Hsq; lra).
  assert (Hy : 2 * (cy * ty) <= cy * cy + ty * ty)
    by (pose proof (Rle_0_sqr (cy - ty)) as Hsq; unfold Rsqr in Hsq; lra).
  assert (Hz : 2 * (cz * tz) <= cz * cz + tz * tz)
    by (pose proof (Rle_0_sqr (cz - tz)) as Hsq; unfold Rsqr in Hsq; lra).
  assert (Hab : 0 <= a * b) by (apply Rmult_le_pos; lra).
  assert (Hcross : 2 * (a * b) * (cx * tx + cy * ty + cz * tz)
                   <= (a * b) * (cx * cx + cy * cy + cz * cz
                                 + tx * tx + ty * ty + tz * tz)) by nra.
  assert (Hcc : b * b * (cx * cx + cy * cy + cz * cz) <= b * b * (B * B)).
  { apply Rmult_le_compat_l; [nra|lra]. }
  assert (Htt : a * a * (tx * tx + ty * ty + tz * tz) <= a * a * (B * B)).
  { apply Rmult_le_compat_l; [nra|lra]. }
  assert (Hct : (a * b) * (cx * cx + cy * cy + cz * cz + tx * tx + ty * ty + tz * tz)
                <= (a * b) * (2 * (B * B))).
  { apply Rmult_le_compat_l; [exact Hab|lra]. }
  replace (B * B) with ((b * b + 2 * (a * b) + a * a) * (B * B)) at 1
    by (unfold b; ring).
  nra.
Qed.

Lemma createQuantumAtomModel_post (atom : Atom) (position : Vector3) :
  rand_post (createQuantumAtomModel atom position)
            (fun obj => cloud_within obj
                        /\ nucleus_scale (q_nucleus obj) = atomScale_of atom).
Proof.
  unfold createQuantumAtomModel.
  pose proof (parseElectronConfiguration_ok (electronConfigurationSemantic atom))
    as [Hall _].
  set (config := parseElectronConfiguration (electronConfigurationSemantic atom)) in *.
  assert (Hkeys : Forall key_has_principal
                    (flat_map (fun kv => replicate (Z.to_nat (snd kv)) (fst kv)) config)).
  { rewrite List.Forall_forall. intros key Hin.
    apply in_flat_map in Hin as [kv [Hkv Hin]].
    apply list_elem_of_In, elem_of_replicate in Hin as [-> _].
    rewrite List.Forall_forall in Hall. destruct (Hall _ Hkv) as [Hk _].
    now apply orbital_key_principal. }
  destruct (flat_map _ config) as [|k ks] eqn:E.
  - apply rand_post_ret. split; [|reflexivity].
    split; [apply atomScale_of_pos|exact I].
  - eapply rand_post_bind.
    + apply (rand_post_mapM _ key_has_principal
               (electron_within (atomScale_of atom))); [|exact Hkeys].
      intros key Hkey.
      eapply rand_post_bind;
        [apply getRandomPointInOrbital_post; [exact Hkey|apply atomScale_of_pos]|].
      intros startPos Hs. cbv beta in Hs.
      eapply rand_post_bind;
        [apply getRandomPointInOrbital_post; [exact Hkey|apply atomScale_of_pos]|].
      intros target Ht. cbv beta in Ht.
      apply rand_post_ret. repeat split; assumption.
    + intros anims Hanims. apply rand_post_ret. split; [|reflexivity].
      split; [apply atomScale_of_pos|exact Hanims].
Qed.

Lemma rebuild_quantum_post (atoms : list Atom) (atomPositions : list Vector3)
      (bondingPairs : list Bond) (trailLength : Z) (trailOpacity : R) :
  rand_post (rebuild atoms atomPositions bondingPairs quantum trailLength trailOpacity)
            (fun o => exists scene, o = Some scene
                                    /\ Forall cloud_within (quantumObjects scene)).
Proof.
  unfold rebuild.
  eapply rand_post_bind.
  - apply (rand_post_mapM _ (fun _ => True) cloud_within).
    + intros [index atom] _.
      eapply rand_post_bind; [apply createQuantumAtomModel_post|].
      intros o [Ho _]. apply rand_post_ret. exact Ho.
    + rewrite List.Forall_forall. intros; exact I.
  - intros objs Hobjs. apply rand_post_ret. eexists. split; [reflexivity|exact Hobjs].
Qed.

Lemma quantum_update_electrons_post (atomScale : R)
      (animations : list ElectronAnimationState) (electronIndex : nat)
      (ps : list Vector3) :
  0 <= atomScale -> Forall (electron_within atomScale) animations ->
  rand_post (quantum_update_electrons atomScale animations electronIndex ps)
            (fun r => Forall (electron_within atomScale) (fst r)).
Proof.
  intros Hs. revert electronIndex ps.
  induction animations as [|anim rest IH]; intros electronIndex ps Hall.
  - apply rand_post_ret. constructor.
  - apply Forall_cons in Hall as [[Hk [Hc Ht]] Hrest].
    cbn [quantum_update_electrons].
    eapply (rand_post_bind _ _
              (fun t => v3_length t <= orbital_reach (orbitalKey anim) atomScale)).
    + destruct (Rlt_dec _ _).
      * apply getRandomPointInOrbital_post; assumption.
      * apply rand_post_ret. exact Ht.
    + intros target Htarget.
      eapply rand_post_bind; [apply IH; exact Hrest|].
      intros r Hr. apply rand_post_ret. cbn [fst].
      constructor; [|exact Hr].
      split; [exact Hk|]. split; [|exact Htarget].
      cbn [currentPosition orbitalKey].
      apply lerp_within; [unfold ELECTRON_MOVE_SPEED; lra|exact Hc|exact Htarget].
Qed.

Lemma quantum_update_object_post (obj : QuantumAnimatedObject) :
  cloud_within obj -> rand_post (quantum_update_object obj) cloud_within.
Proof.
  intros [Hs Hc]. unfold quantum_update_object.
  destruct (electronCloud obj) as [cloud|] eqn:E.
  - eapply rand_post_bind; [apply quantum_update_electrons_post; [exact Hs|exact Hc]|].
    intros r Hr. apply rand_post_ret. split; [exact Hs|exact Hr].
  - apply rand_post_ret. split; [exact Hs|exact I].
Qed.

Lemma animate_quantum_post {threshold : R} (bondingPairs : list Bond) (delta : R)
      (st : AnimationState) (scene : Scene) :
  Forall cloud_within (quantumObjects scene) ->
  rand_post (animate threshold quantum bondingPairs delta st scene)
            (fun s => Forall cloud_within (quantumObjects s)).
Proof.
  intros Hall. unfold animate.
  destruct (_ =? 0)%nat; [apply rand_post_ret; exact Hall|].
  eapply rand_post_bind.
  - eapply rand_post_bind.
    + apply (rand_post_mapM _ cloud_within cloud_within); [|exact Hall].
      intros obj Hobj. now apply quantum_update_object_post.
    + intros qs Hqs. apply rand_post_ret.
      instantiate (1 := fun s => Forall cloud_within (quantumObjects s)). exact Hqs.
  - intros scene1 H1. apply rand_post_ret. exact H1.
Qed.

Lemma run_ticks_quantum_post {threshold : R} (bondingPairs : list Bond)
      (inputs : list (R * AnimationState)) (scene : Scene) :
  Forall cloud_within (quantumObjects scene) ->
  rand_post (run_ticks threshold quantum bondingPairs inputs scene)
            (fun s => Forall cloud_within (quantumObjects s)).
Proof.
  revert scene. induction inputs as [|[delta st] rest IH]; intros scene Hall.
  - apply rand_post_ret. exact Hall.
  - cbn [run_ticks]. eapply rand_post_bind; [now apply animate_quantum_post|].
    intros scene' H'. now apply IH.
Qed.

(** X6. With Math.random values in [0, 1), a rebuild in Quantum mode
    always yields a scene, and after any number of animation ticks every
    electron of every cloud, and the target it moves towards, is at
    distance at most 1.8 * (0.9 * n * s) from the origin of its cloud,
    where n is the principal quantum number read from the electron's
    orbital key and s the scale of the atom's nucleus: the random walk
    never leaves the reach of the orbital. *)
Theorem quantum_electrons_within_reach {threshold : R} (atoms : list Atom)
        (atomPositions : list Vector3) (bondingPairs closureBonds : list Bond)
        (trailLength : Z) (trailOpacity : R)
        (inputs : list (R * AnimationState)) (g : RandomSource) :
  unit_draws g ->
  exists scene,
    fst (rebuild atoms atomPositions bondingPairs quantum trailLength trailOpacity g)
    = Some scene
    /\ let g' := snd (rebuild atoms atomPositions bondingPairs quantum
                              trailLength trailOpacity g) in
       let final := fst (run_ticks threshold quantum closureBonds inputs scene g') in
       forall obj cloud anim,
         In obj (quantumObjects final) ->
         electronCloud obj = Some cloud ->
         In anim (electronAnimations cloud) ->
         v3_length (currentPosition anim)
         <= 18 / 10 * (9 / 10 * principal_of (orbitalKey anim)
                       * nucleus_scale (q_nucleus obj))
         /\ v3_length (targetPosition anim)
            <= 18 / 10 * (9 / 10 * principal_of (orbitalKey anim)
                          * nucleus_scale (q_nucleus obj)).
Proof.
  intros Hg.
  destruct (rebuild_quantum_post atoms atomPositions bondingPairs trailLength
              trailOpacity g Hg) as [[scene [Hscene Hall]] Hg'].
  exists scene. split; [exact Hscene|].
  intros g' final obj cloud anim Hobj Hcloud Hanim.
  destruct (run_ticks_quantum_post (threshold := threshold) closureBonds inputs scene
      Hall g' Hg') as [Hfinal _].
  fold final in Hfinal.
  rewrite List.Forall_forall in Hfinal.
  destruct (Hfinal _ Hobj) as [_ Hc]. rewrite Hcloud in Hc.
  rewrite List.Forall_forall in Hc.
  destruct (Hc _ Hanim) as [_ [H1 H2]].
  split; [exact H1|exact H2].
Qed.

(** ** The Classical orbits *)

Lemma q_multiply_unit (a b : Quaternion) : q_unit a -> q_unit b -> q_unit (q_multiply a b).
Proof.
  unfold q_unit, q_multiply. destruct a as [ax ay az aw], b as [bx by' bz bw].
  cbn [qx qy qz qw]. intros Ha Hb.
  replace 1 with ((ax * ax + ay * ay + az * az + aw * aw)
                  * (bx * bx + by' * by' + bz * bz + bw * bw))
    by (rewrite Ha, Hb; ring).
  ring.
Qed.

Lemma setFromAxisAngle_unit (axis : Vector3) (angle : R) :
  vx axis * vx axis + vy axis * vy axis + vz axis * vz axis = 1 ->
  q_unit (setFromAxisAngle axis angle).
Proof.
  intros Hax. unfold q_unit, setFromAxisAngle. cbn [qx qy qz qw].
  pose proof (sin2_cos2 (angle / 2)) as H. unfold Rsqr in H.
  replace (vx axis * sin (angle / 2) * (vx axis * sin (angle / 2))
           + vy axis * sin (angle / 2) * (vy axis * sin (angle / 2))
           + vz axis * sin (angle / 2) * (vz axis * sin (angle / 2)))
    with ((vx axis * vx axis + vy axis * vy axis + vz axis * vz axis)
          * (sin (angle / 2) * sin (angle / 2))) by ring.
  rewrite Hax. lra.
Qed.

(** The rotation of a unit quaternion keeps distances: a point of the
    local frame of an unscaled object is as far from the object's
    position as from the local origin. *)
Lemma compose_apply_unit_distance (position : Vector3) (q : Quaternion) (v : Vector3) :
  q_unit q ->
  distanceToSquared (compose_apply position q v3_one v) position
  = vx v * vx v + vy v * vy v + vz v * vz v.
Proof.
  unfold q_unit. destruct q as [x y z w], v as [a b c], position as [px py pz].
  unfold distanceToSquared, compose_apply, v3_one. cbn [qx qy qz qw vx vy vz].
  intros Hq.
  assert (Hgen : forall n, n = x * x + y * y + z * z + w * w ->
    (((n - (y * (y + y) + z * (z + z))) * 1 * a + (x * (y + y) - w * (z + z)) * 1 * b
      + (x * (z + z) + w * (y + y)) * 1 * c + px - px)
     * ((n - (y * (y + y) + z * (z + z))) * 1 * a + (x * (y + y) - w * (z + z)) * 1 * b
        + (x * (z + z) + w * (y + y)) * 1 * c + px - px)
     + ((x * (y + y) + w * (z + z)) * 1 * a + (n - (x * (x + x) + z * (z + z))) * 1 * b
        + (y * (z + z) - w * (x + x)) * 1 * c + py - py)
       * ((x * (y + y) + w * (z + z)) * 1 * a + (n - (x * (x + x) + z * (z + z))) * 1 * b
          + (y * (z + z) - w * (x + x)) * 1 * c + py - py)
     + ((x * (z + z) - w * (y + y)) * 1 * a + (y * (z + z) + w * (x + x)) * 1 * b
        + (n - (x * (x + x) + y * (y + y))) * 1 * c + pz - pz)
       * ((x * (z + z) - w * (y + y)) * 1 * a + (y * (z + z) + w * (x + x)) * 1 * b
          + (n - (x * (x + x) + y * (y + y))) * 1 * c + pz - pz))
    = n * n * (a * a + b * b + c * c)).
  { intros n ->. ring. }
  rewrite (Hgen 1 (eq_sym Hq)). ring.
Qed.

Lemma getWorldPosition_distance (pv : Pivot) (e : Vector3) :
  q_unit (pivot_quaternion pv) ->
  distanceTo (getWorldPosition pv e) (pivot_position pv) = v3_length e.
Proof.
  intros Hq. unfold distanceTo, getWorldPosition, v3_length.
  now rewrite compose_apply_unit_distance.
Qed.

Lemma update_pivot_unit (delta spd bp : R) (own target : Vector3) (i : nat) (pv : Pivot) :
  q_unit (pivot_quaternion pv) ->
  q_unit (pivot_quaternion (update_pivot delta spd bp own target i pv)).
Proof.
  intros Hq. unfold update_pivot, rotateX, rotateY. cbn [pivot_quaternion].
  apply q_multiply_unit; [apply q_multiply_unit; [exact Hq|]|];
    apply setFromAxisAngle_unit; cbn [vx vy vz]; ring.
Qed.

Lemma createAtomModel_on_shells (atom : Atom) (position : Vector3)
      (trailLength : Z) (trailOpacity : R) (m : AnimatedObject) :
  createAtomModel atom position trailLength trailOpacity = Some m -> on_shells atom m.
Proof.
  intros Hm.
  destruct (createAtomModel_total atom position trailLength trailOpacity)
    as (m' & Hm' & _ & _ & He & Hp).
  rewrite Hm in Hm'. injection Hm' as <-.
  split; [exact He|]. rewrite Hp. split; [now rewrite length_map|].
  rewrite List.Forall_forall. intros pv Hin. apply in_map_iff in Hin as [_ [<- _]].
  unfold q_unit, new_pivot, q_identity. cbn [pivot_quaternion qx qy qz qw]. ring.
Qed.

Lemma bohr_update_on_shells (atom : Atom) (delta spd bp : R) (pairs : list Bond)
      (objs : list AnimatedObject) (a : nat) (obj : AnimatedObject) :
  on_shells atom obj ->
  on_shells atom (bohr_update_trails (bohr_update_object delta spd bp pairs objs a obj)).
Proof.
  intros (He & Hl & Hq).
  assert (H : on_shells atom (bohr_update_object delta spd bp pairs objs a obj)).
  { unfold bohr_update_object, on_shells.
    cbn [electrons electronPivots]. split; [exact He|].
    split; [now rewrite length_imap|].
    rewrite List.Forall_forall. intros pv Hin.
    apply list_elem_of_In, elem_of_lookup_imap in Hin as (i & pv0 & -> & Hi).
    apply update_pivot_unit. rewrite List.Forall_forall in Hq. apply Hq.
    apply list_elem_of_In. eapply list_elem_of_lookup_2. exact Hi. }
  revert H. generalize (bohr_update_object delta spd bp pairs objs a obj). intros o H.
  unfold bohr_update_trails.
  destruct (electronTrails o); [|exact H].
  destruct (_ =? 0)%nat; exact H.
Qed.

Lemma animate_on_shells {threshold : R} (atoms : list Atom) (pairs : list Bond)
      (delta : R)
      (st : AnimationState) (scene : Scene) (g : RandomSource) :
  scene_on_shells atoms scene ->
  scene_on_shells atoms (fst (animate threshold bohr pairs delta st scene g)).
Proof.
  unfold scene_on_shells. intros H.
  destruct (length (scene_nuclei bohr scene) =? 0)%nat eqn:E.
  - unfold animate. rewrite E. exact H.
  - rewrite animate_bohr_objects.
    generalize (animatedObjects scene) at 1 as all.
    intros all.
    apply Forall2_same_length_lookup. apply Forall2_same_length_lookup in H as [Hlen H].
    split; [now rewrite length_map, length_imap|].
    intros i atom o' Hatom Ho'.
    rewrite list_lookup_fmap, list_lookup_imap in Ho'.
    destruct (animatedObjects scene !! i) as [o|] eqn:Eo; [|discriminate].
    simpl in Ho'. injection Ho' as <-.
    apply bohr_update_on_shells. now apply (H i).
Qed.

Lemma run_ticks_on_shells {threshold : R} (atoms : list Atom) (pairs : list Bond)
      (inputs : list (R * AnimationState)) (scene : Scene) (g : RandomSource) :
  scene_on_shells atoms scene ->
  scene_on_shells atoms (fst (run_ticks threshold bohr pairs inputs scene g)).
Proof.
  revert scene g. induction inputs as [|[delta st] rest IH]; intros scene g H.
  - exact H.
  - cbn [run_ticks]. unfold rand_bind.
    pose proof (animate_on_shells (threshold := threshold) atoms pairs delta st scene g
        H) as H1.
    destruct (animate threshold bohr pairs delta st scene g) as [scene' g']. now apply IH.
Qed.

Lemma rebuild_on_shells (atoms : list Atom) (atomPositions : list Vector3)
      (bondingPairs : list Bond) (trailLength : Z) (trailOpacity : R)
      (g : RandomSource) (scene : Scene) :
  fst (rebuild atoms atomPositions bondingPairs bohr trailLength trailOpacity g)
  = Some scene ->
  scene_on_shells atoms scene.
Proof.
  unfold rebuild, rand_ret. cbn [fst]. intros H.
  destruct (mapM _ _) as [objs|] eqn:E; [|discriminate]. injection H as <-.
  unfold scene_on_shells. cbn [animatedObjects].
  apply mapM_Some in E.
  apply Forall2_same_length_lookup. apply Forall2_same_length_lookup in E as [Hlen E].
  rewrite length_imap in Hlen. split; [exact Hlen|].
  intros i atom o Hatom Ho.
  specialize (E i (i, atom) o).
  rewrite list_lookup_imap, Hatom in E. specialize (E eq_refl Ho). cbv beta iota in E.
  destruct (createAtomModel atom _ _ _) as [m|] eqn:Em; [|discriminate].
  injection E as <-.
  apply createAtomModel_on_shells in Em. exact Em.
Qed.

Lemma In_concat_imap {A B} (f : nat -> A -> list B) (l : list A) (b : B) :
  In b (concat (imap f l)) -> exists i a, l !! i = Some a /\ In b (f i a).
Proof.
  intros H. apply in_concat in H as (bs & Hbs & Hb).
  apply list_elem_of_In, elem_of_lookup_imap in Hbs as (i & a & -> & Hi).
  now exists i, a.
Qed.

Lemma shellRadius_at_nonneg (atom : Atom) (i : nat) :
  0 <= shellRadius_at (atomScale_of atom) i.
Proof.
  unfold shellRadius_at, SHELL_BASE_RADIUS, SHELL_SPACING.
  pose proof (atomScale_of_ge atom) as Hs. pose proof (pos_INR i) as Hi.
  apply Rmult_le_pos; nra.
Qed.

(** X7. After a rebuild in Classical mode and any number of animation
    ticks, the scene has one model per atom; every model has one pivot per
    electron and as many electrons as its shells list; and the world
    position of every electron is at distance exactly (2.5 + 1.8 * k) *
    atomScale from the position of its pivot, for a shell index k of the
    atom: turning the pivots never changes the radius of an orbit. *)
Theorem classical_electrons_on_shell {threshold : R} (atoms : list Atom)
        (atomPositions : list Vector3) (bondingPairs closureBonds : list Bond)
        (trailLength : Z) (trailOpacity : R)
        (inputs : list (R * AnimationState)) (g : RandomSource) (scene : Scene) :
  fst (rebuild atoms atomPositions bondingPairs bohr trailLength trailOpacity g)
  = Some scene ->
  let final := fst (run_ticks threshold bohr closureBonds inputs scene g) in
  length (animatedObjects final) = length atoms
  /\ forall a atom obj,
       atoms !! a = Some atom -> animatedObjects final !! a = Some obj ->
       length (electronPivots obj) = length (electrons obj)
       /\ length (electrons obj)
          = list_sum (map (fun n => Z.to_nat n) (shells atom))
       /\ forall i pv e,
            electronPivots obj !! i = Some pv -> electrons obj !! i = Some e ->
            exists shellIndex numElectrons,
              shells atom !! shellIndex = Some numElectrons
              /\ distanceTo (getWorldPosition pv e) (pivot_position pv)
                 = shellRadius_at (atomScale_of atom) shellIndex.
Proof.
  intros Hscene final.
  pose proof (run_ticks_on_shells (threshold := threshold) atoms closureBonds inputs
      scene g
                (rebuild_on_shells _ _ _ _ _ _ _ Hscene)) as H.
  fold final in H. unfold scene_on_shells in H.
  apply Forall2_same_length_lookup in H as [Hlen H].
  split; [now symmetry|].
  intros a atom obj Hatom Hobj.
  destruct (H a atom obj Hatom Hobj) as (He & Hl & Hq).
  split; [exact Hl|]. split.
  { rewrite He. clear. generalize (shellRadius_at (atomScale_of atom)) as rad.
    induction (shells atom) as [|n l IH]; intros rad; [reflexivity|].
    cbn [imap concat]. rewrite length_app, getSpherePoints_length.
    change (list_sum (map (fun n0 : Z => Z.to_nat n0) (n :: l)))
      with (Z.to_nat n + list_sum (map (fun n0 : Z => Z.to_nat n0) l))%nat.
    f_equal. apply (IH (fun i => rad (S i))). }
  intros i pv e Hpv Hel.
  assert (Hin : In e (electrons obj))
    by (apply list_elem_of_In; eapply list_elem_of_lookup_2; exact Hel).
  rewrite He in Hin. apply In_concat_imap in Hin as (s & n & Hs & Hin).
  exists s, n. split; [exact Hs|].
  rewrite getWorldPosition_distance.
  - rewrite (getSpherePoints_on_sphere _ _ _ Hin).
    apply Rabs_right, Rle_ge, shellRadius_at_nonneg.
  - rewrite List.Forall_forall in Hq. apply Hq.
    apply list_elem_of_In. eapply list_elem_of_lookup_2. exact Hpv.
Qed.

(** ** The ends of a bond cylinder *)

Lemma q_normalize_unit (q : Quaternion) : q_length q <> 0 -> q_unit (q_normalize q).
Proof.
  intros Hl. unfold q_normalize. destruct (Req_dec_T _ _) as [E|_]; [contradiction|].
  unfold q_unit. cbn [qx qy qz qw].
  assert (Hsq : q_length q * q_length q
                = qx q * qx q + qy q * qy q + qz q * qz q + qw q * qw q).
  { unfold q_length. apply sqrt_sqrt. nra. }
  replace (qx q * (1 / q_length q) * (qx q * (1 / q_length q))
           + qy q * (1 / q_length q) * (qy q * (1 / q_length q))
           + qz q * (1 / q_length q) * (qz q * (1 / q_length q))
           + qw q * (1 / q_length q) * (qw q * (1 / q_length q)))
    with ((qx q * qx q + qy q * qy q + qz q * qz q + qw q * qw q)
          / (q_length q * q_length q)) by (field; exact Hl).
  rewrite <- Hsq. field. exact Hl.
Qed.

(** [normalize()] always returns a quaternion of length one: the
    identity for the zero quaternion. *)
Lemma q_normalize_unit_always (q : Quaternion) : q_unit (q_normalize q).
Proof.
  destruct (Req_dec_T (q_length q) 0) as [E|E]; [|now apply q_normalize_unit].
  unfold q_normalize. destruct (Req_dec_T _ _) as [_|H]; [|contradiction].
  unfold q_unit, q_identity. cbn [qx qy qz qw]. ring.
Qed.

Lemma setFromUnitVectors_unit {threshold : R} (vFrom vTo : Vector3) :
  q_unit (setFromUnitVectors threshold vFrom vTo).
Proof. unfold setFromUnitVectors. cbv zeta. apply q_normalize_unit_always. Qed.

Lemma bond_world_split (position : Vector3) (q : Quaternion) (s o h : R) :
  compose_apply position q (mkV3 1 s 1) (mkV3 o h 0)
  = v3_add (v3_add position (multiplyScalar (rotate_by q (mkV3 1 0 0)) o))
           (multiplyScalar (rotate_by q bondUpVector) (h * s)).
Proof.
  unfold rotate_by, compose_apply, v3_add, multiplyScalar, bondUpVector, v3_zero, v3_one.
  cbn [vx vy vz]. cbv zeta. apply f_equal3; ring.
Qed.

Lemma rotate_by_unit_length (q : Quaternion) (v : Vector3) :
  q_unit q ->
  v3_dot (rotate_by q v) (rotate_by q v) = v3_dot v v.
Proof.
  intros Hq. pose proof (compose_apply_unit_distance v3_zero q v Hq) as H.
  unfold rotate_by, v3_dot. unfold distanceToSquared, v3_zero in H.
  cbn [vx vy vz] in H. cbv zeta in H. rewrite <- H. unfold v3_zero. ring.
Qed.

Lemma normalize_times_distance (a b : Vector3) :
  a <> b ->
  multiplyScalar (v3_normalize (subVectors b a)) (distanceTo a b) = subVectors b a.
Proof.
  intros Hab.
  assert (Hd : distanceTo a b = v3_length (subVectors b a)).
  { unfold distanceTo, distanceToSquared, v3_length, subVectors. cbn [vx vy vz].
    f_equal. ring. }
  assert (Hne : v3_length (subVectors b a) <> 0).
  { intros E. unfold v3_length in E. apply sqrt_eq_0 in E; [|nra].
    apply Hab. destruct a as [ax ay az], b as [bx by' bz].
    unfold subVectors in E. cbn [vx vy vz] in E.
    pose proof (Rle_0_sqr (bx - ax)) as Hx. pose proof (Rle_0_sqr (by' - ay)) as Hy.
    pose proof (Rle_0_sqr (bz - az)) as Hz. unfold Rsqr in Hx, Hy, Hz.
    assert (Ex : bx - ax = 0) by (apply Rsqr_0_uniq; unfold Rsqr; lra).
    assert (Ey : by' - ay = 0) by (apply Rsqr_0_uniq; unfold Rsqr; lra).
    assert (Ez : bz - az = 0) by (apply Rsqr_0_uniq; unfold Rsqr; lra).
    f_equal; lra. }
  rewrite Hd. unfold v3_normalize. destruct (Req_dec_T _ _) as [E|_]; [contradiction|].
  unfold divideScalar, multiplyScalar. cbn [vx vy vz].
  destruct (subVectors b a) as [x y z]. cbn [vx vy vz].
  f_equal; field; exact Hne.
Qed.

(** X8. When a tick poses a bond whose two nuclei exist at different
    positions A and B, and the unit direction d from A to B either has 1 +
    d.y at least the bound of the test for opposite vectors in the
    installed setFromUnitVectors (Number.EPSILON in older three.js
    releases, 1e-8 in newer ones, so in both when 1 + d.y >= 1e-8) or is
    exactly (0, -1, 0), then the axis of every cylinder of the bond group
    (height 1 in the group's frame) is carried to a segment with end minus
    start equal to B - A, whose ends are at distance |x| from B and from
    A, x being the sideways offset of the cylinder. A cylinder without
    offset (a single bond, the middle of a triple bond) runs exactly from
    A to B. *)
Theorem bond_cylinder_ends {threshold : R} (nuclei : list Nucleus) (bondingProgress : R)
        (bondGroup : BondGroup) (nA nB : Nucleus) :
  js_index nuclei (fst (bg_pair bondGroup)) = Some nA ->
  js_index nuclei (snd (bg_pair bondGroup)) = Some nB ->
  let posA := nucleus_position nA in
  let posB := nucleus_position nB in
  let d := v3_normalize (subVectors posB posA) in
  posA <> posB ->
  0 < threshold ->
  threshold <= 1 + vy d \/ d = mkV3 0 (-1) 0 ->
  let bg' := update_bond threshold nuclei bondingProgress bondGroup in
  map bond_offset (bg_children bg') = map bond_offset (bg_children bondGroup)
  /\ forall mesh, In mesh (bg_children bg') ->
       distanceTo (bond_world bg' (bond_axis_end mesh true)) posB
       = Rabs (bond_offset mesh)
       /\ distanceTo (bond_world bg' (bond_axis_end mesh false)) posA
          = Rabs (bond_offset mesh)
       /\ subVectors (bond_world bg' (bond_axis_end mesh true))
                     (bond_world bg' (bond_axis_end mesh false))
          = subVectors posB posA
       /\ (bond_offset mesh = 0 ->
           bond_world bg' (bond_axis_end mesh true) = posB
           /\ bond_world bg' (bond_axis_end mesh false) = posA).
Proof.
  intros HA HB posA posB d Hne Hpos Hd bg'.
  unfold bg'. rewrite (update_bond_posed (threshold := threshold) _ _ _ _ _ HA HB).
  fold posA posB d. cbn [bg_children].
  split; [rewrite map_map; reflexivity|].
  intros mesh _. unfold bond_world, bond_axis_end.
  cbn [bg_position bg_quaternion bg_scale].
  set (q := setFromUnitVectors threshold bondUpVector d).
  assert (Hq : q_unit q) by apply setFromUnitVectors_unit.
  assert (Hup : rotate_by q bondUpVector = d).
  { unfold q. destruct Hd as [Hd|Hd].
    - apply setFromUnitVectors_up; [|exact Hpos|exact Hd].
      apply v3_normalize_unit. intros E. apply Hne.
      destruct posA as [ax ay az], posB as [bx by' bz].
      unfold subVectors, v3_zero in E. cbn [vx vy vz] in E.
      injection E as E1 E2 E3. f_equal; lra.
    - rewrite Hd. now apply setFromUnitVectors_down. }
  pose proof (normalize_times_distance posA posB Hne) as Hnd. fold d in Hnd.
  pose proof (rotate_by_unit_length q (mkV3 1 0 0) Hq) as Hex.
  rewrite !bond_world_split, Hup.
  set (ex := rotate_by q (mkV3 1 0 0)) in *.
  set (o := bond_offset mesh).
  set (dist := distanceTo posA posB) in *.
  assert (Htop : v3_add (v3_add (lerp posA posB (5 / 10)) (multiplyScalar ex o))
                        (multiplyScalar d (1 / 2 * dist))
                 = v3_add posB (multiplyScalar ex o)).
  { destruct posA as [ax ay az], posB as [bx by' bz], d as [dx dy dz], ex as [ex1 ex2 ex3].
    unfold multiplyScalar, subVectors in Hnd. cbn [vx vy vz] in Hnd.
    injection Hnd as H1 H2 H3.
    unfold v3_add, lerp, multiplyScalar. cbn [vx vy vz]. f_equal; lra. }
  assert (Hbot : v3_add (v3_add (lerp posA posB (5 / 10)) (multiplyScalar ex o))
                        (multiplyScalar d (- (1 / 2) * dist))
                 = v3_add posA (multiplyScalar ex o)).
  { destruct posA as [ax ay az], posB as [bx by' bz], d as [dx dy dz], ex as [ex1 ex2 ex3].
    unfold multiplyScalar, subVectors in Hnd. cbn [vx vy vz] in Hnd.
    injection Hnd as H1 H2 H3.
    unfold v3_add, lerp, multiplyScalar. cbn [vx vy vz]. f_equal; lra. }
  rewrite Htop, Hbot.
  assert (Hdist : forall p, distanceTo (v3_add p (multiplyScalar ex o)) p = Rabs o).
  { intros p. unfold distanceTo, distanceToSquared, v3_add, multiplyScalar.
    cbn [vx vy vz]. cbv zeta.
    unfold v3_dot in Hex. cbn [vx vy vz] in Hex.
    replace ((vx p + vx ex * o - vx p) * (vx p + vx ex * o - vx p)
             + (vy p + vy ex * o - vy p) * (vy p + vy ex * o - vy p)
             + (vz p + vz ex * o - vz p) * (vz p + vz ex * o - vz p))
      with ((vx ex * vx ex + vy ex * vy ex + vz ex * vz ex) * (o * o)) by ring.
    rewrite Hex. replace ((1 * 1 + 0 * 0 + 0 * 0) * (o * o)) with (Rsqr o)
      by (unfold Rsqr; ring).
    apply sqrt_Rsqr_abs. }
  split; [apply Hdist|]. split; [apply Hdist|]. split.
  { unfold subVectors, v3_add, multiplyScalar. cbn [vx vy vz]. f_equal; ring. }
  intros Ho. rewrite Ho.
  split; unfold v3_add, multiplyScalar; cbn [vx vy vz];
    [destruct posB as [p1 p2 p3]|destruct posA as [p1 p2 p3]];
    cbn [vx vy vz]; f_equal; ring.
Qed.

(** ** The electron cloud of a Quantum model *)

Lemma rand_mapM_map {A B} (f : A -> Rand B) (h : B -> A) (l : list A)
      (g : RandomSource) :
  (forall a g', h (fst (f a g')) = a) -> map h (fst (rand_mapM f l g)) = l.
Proof.
  intros Hf. revert g. induction l as [|a l IH]; intros g; [reflexivity|].
  simpl. rewrite !rand_bind_eq. simpl. now rewrite Hf, IH.
Qed.

Lemma rand_mapM_keys (atomScale : R) (keys : list string) (g : RandomSource) :
  map orbitalKey
      (fst (rand_mapM (fun key =>
                         let* startPos := getRandomPointInOrbital key atomScale in
                         let* target := getRandomPointInOrbital key atomScale in
                         rand_ret (mkAnim key startPos target)) keys g))
  = keys.
Proof.
  apply rand_mapM_map. intros key g'. rewrite !rand_bind_eq. reflexivity.
Qed.

Lemma lookup_flat_map_blocks {A B} (f : A -> list B) (n : nat) (l : list A)
      (e i : nat) (a : A) :
  (forall x, length (f x) = n) -> l !! e = Some a -> (i < n)%nat ->
  flat_map f l !! (e * n + i)%nat = f a !! i.
Proof.
  intros Hlen. revert e. induction l as [|x l IH]; intros e He Hi; [discriminate|].
  cbn [flat_map]. destruct e as [|e].
  - injection He as ->. rewrite lookup_app_l by (rewrite Hlen; lia). reflexivity.
  - rewrite lookup_app_r by (rewrite Hlen; lia).
    rewrite Hlen. replace (S e * n + i - n)%nat with (e * n + i)%nat by lia.
    now apply IH.
Qed.

Lemma length_flat_map_blocks {A B} (f : A -> list B) (n : nat) (l : list A) :
  (forall x, length (f x) = n) -> length (flat_map f l) = (length l * n)%nat.
Proof.
  intros Hlen. induction l as [|x l IH]; [reflexivity|].
  cbn [flat_map length]. rewrite length_app, Hlen, IH. lia.
Qed.

Lemma length_valence_list (config : JsObject Z) :
  length (flat_map (fun kv => replicate (Z.to_nat (snd kv)) (fst kv)) config)
  = electron_count config.
Proof.
  unfold electron_count. induction config as [|kv config IH]; [reflexivity|].
  cbn [flat_map map]. rewrite length_app, length_replicate, IH. reflexivity.
Qed.

Lemma trail_brightness_lookup (n i : nat) :
  (i < n)%nat -> trail_brightness n !! i = Some (1 - INR i / INR n).
Proof.
  intros Hi. unfold trail_brightness.
  change (map ?f ?l) with (f <$> l). rewrite list_lookup_fmap.
  rewrite lookup_seq_lt by exact Hi. reflexivity.
Qed.

(** X5. createQuantumAtomModel gives the model a nucleus at the given
    position and the orbital shapes of the parsed configuration at the
    atom's scale. The model has no electron cloud exactly when the
    configuration lists no electron. Otherwise the cloud has one animation
    state per listed electron, in the order of the configuration with
    every orbital key repeated as often as its count, and its position and
    colour buffers hold 15 slots per electron: every slot of an electron
    starts at the electron's start position, with brightness 1 - i/15 at
    slot i. *)
Theorem createQuantumAtomModel_cloud (atom : Atom) (position : Vector3)
        (g : RandomSource) :
  let config := parseElectronConfiguration (electronConfigurationSemantic atom) in
  let obj := fst (createQuantumAtomModel atom position g) in
  q_nucleus obj = new_nucleus atom position
  /\ orbitals obj = createOrbitalShapes config (atomScale_of atom)
  /\ (electronCloud obj = None <-> electron_count config = 0%nat)
  /\ forall cloud,
       electronCloud obj = Some cloud ->
       map orbitalKey (electronAnimations cloud)
       = flat_map (fun kv => replicate (Z.to_nat (snd kv)) (fst kv)) config
       /\ length (electronAnimations cloud) = electron_count config
       /\ length (positions cloud) = (electron_count config * QUANTUM_TRAIL_LENGTH)%nat
       /\ length (brightness cloud) = (electron_count config * QUANTUM_TRAIL_LENGTH)%nat
       /\ forall e anim i,
            electronAnimations cloud !! e = Some anim ->
            (i < QUANTUM_TRAIL_LENGTH)%nat ->
            positions cloud !! (e * QUANTUM_TRAIL_LENGTH + i)%nat
            = Some (currentPosition anim)
            /\ brightness cloud !! (e * QUANTUM_TRAIL_LENGTH + i)%nat
               = Some (1 - INR i / INR QUANTUM_TRAIL_LENGTH).
Proof.
  intros config obj. unfold obj, createQuantumAtomModel. fold config.
  pose proof (length_valence_list config) as Hcount.
  pose proof (rand_mapM_keys (atomScale_of atom)
                (flat_map (fun kv => replicate (Z.to_nat (snd kv)) (fst kv)) config))
    as Hkeys.
  destruct (flat_map _ config) as [|k ks] eqn:E.
  - unfold rand_ret. cbn [fst q_nucleus orbitals electronCloud].
    split; [reflexivity|]. split; [reflexivity|].
    split; [split; [intros _; now rewrite <- Hcount|reflexivity]|].
    intros cloud Hc. discriminate.
  - rewrite rand_bind_eq. specialize (Hkeys g).
    set (anims := fst (rand_mapM _ (k :: ks) g)) in *.
    unfold rand_ret. cbn [fst q_nucleus orbitals electronCloud] in *.
    split; [reflexivity|]. split; [reflexivity|].
    split.
    { split; [discriminate|]. intros H0. rewrite <- Hcount in H0. discriminate. }
    intros cloud Hc. injection Hc as <-.
    cbn [electronAnimations positions brightness].
    assert (Hlen : length anims = electron_count config).
    { rewrite <- Hcount, <- Hkeys. now rewrite length_map. }
    split; [exact Hkeys|]. split; [exact Hlen|].
    split.
    { rewrite (length_flat_map_blocks _ QUANTUM_TRAIL_LENGTH);
        [now rewrite Hlen|intros x; exact (length_replicate QUANTUM_TRAIL_LENGTH _)]. }
    split.
    { rewrite (length_flat_map_blocks _ QUANTUM_TRAIL_LENGTH);
        [now rewrite Hlen|].
      intros x. unfold trail_brightness. now rewrite length_map, length_seq. }
    intros e anim i He Hi. split.
    + rewrite (lookup_flat_map_blocks _ QUANTUM_TRAIL_LENGTH _ e i anim);
        [|intros x; exact (length_replicate QUANTUM_TRAIL_LENGTH _)|exact He|exact Hi].
      exact (lookup_replicate_2 QUANTUM_TRAIL_LENGTH (currentPosition anim) i Hi).
    + rewrite (lookup_flat_map_blocks _ QUANTUM_TRAIL_LENGTH _ e i anim);
        [|intros x; unfold trail_brightness; now rewrite length_map, length_seq
         |exact He|exact Hi].
      exact (trail_brightness_lookup QUANTUM_TRAIL_LENGTH i Hi).
Qed.

(** ** The GLB export *)

Lemma export_baseName_chars (moleculeName : option string) :
  Forall (fun c => file_char c = true) (export_baseName moleculeName).
Proof.
  unfold export_baseName, toLowerCase. rewrite map_map.
  rewrite List.Forall_forall. intros c Hin. apply in_map_iff in Hin as [c0 [<- _]].
  unfold file_char.
  destruct (is_digit c0) eqn:Ed.
  - cbn [orb]. destruct (digit_facts c0 Ed) as (_ & Hu & _). now rewrite Hu, Ed.
  - cbn [orb]. destruct (is_alpha c0) eqn:Ea.
    + destruct (is_upper c0) eqn:Eu.
      * assert (Hl : is_lower (ascii_of_nat (nat_of_ascii c0 + 32)) = true).
        { unfold is_upper in Eu. unfold is_lower.
          apply andb_true_iff in Eu as [H1 H2]. apply Nat.leb_le in H1, H2.
          rewrite nat_ascii_embedding by lia.
          apply andb_true_iff. split; apply Nat.leb_le; lia. }
        rewrite Hl. now rewrite orb_true_r.
      * assert (Hl : is_lower c0 = true).
        { unfold is_alpha in Ea. unfold is_upper in Eu. unfold is_lower.
          cbv zeta in *. rewrite Eu in Ea. exact Ea. }
        rewrite Hl. now rewrite orb_true_r.
    + reflexivity.
Qed.

Lemma js_index_map {A B} (f : A -> B) (l : list A) (i : Z) :
  js_index (map f l) i = option_map f (js_index l i).
Proof.
  unfold js_index. destruct (i <? 0)%Z; [reflexivity|].
  change (map f l) with (f <$> l). rewrite list_lookup_fmap.
  now destruct (l !! Z.to_nat i).
Qed.

Lemma export_bond_as_update {threshold : R} (nuclei : list Nucleus) (bond : Bond)
      (bg : BondGroup) :
  export_bond threshold (map nucleus_position nuclei) bond = Some bg ->
  bg = update_bond threshold nuclei 1 (new_bond_group bond).
Proof.
  unfold export_bond. rewrite !js_index_map.
  destruct (js_index nuclei (fst (pair bond))) as [nA|] eqn:EA; [|discriminate].
  destruct (js_index nuclei (snd (pair bond))) as [nB|] eqn:EB; [|discriminate].
  cbn [option_map]. intros H. injection H as <-.
  rewrite (update_bond_posed (threshold := threshold) nuclei 1 (new_bond_group bond) nA
      nB EA EB).
  unfold new_bond_group, bondUpVector. cbn [bg_pair bg_children].
  f_equal. unfold export_bond_children, bond_children.
  destruct (type bond =? 3)%Z; [reflexivity|].
  destruct (type bond =? 2)%Z; reflexivity.
Qed.

Lemma distanceTo_add (c p : Vector3) : distanceTo (v3_add c p) c = v3_length p.
Proof.
  unfold distanceTo, distanceToSquared, v3_add, v3_length. cbn [vx vy vz].
  f_equal. ring.
Qed.

(** X26. handleExportGLTF exports nothing exactly when there is no atom.
    Otherwise the file name consists of digits, small letters and
    underscores followed by .glb; every exported nucleus belongs to an
    atom that has a position and has the atom's scale as radius; every
    exported electron is at distance exactly a shell radius of its atom
    from the atom's position; and the exported bond groups are exactly
    those of the bonds whose two ends have a position, each one posed and
    built as the animation tick of the viewer poses that bond at bonding
    progress 1. *)
Theorem handleExportGLTF_spec {threshold : R} (atoms : list Atom) (nuclei : list Nucleus)
        (bondingPairs : list Bond) (moleculeName : option string) :
  let atomPositions := map nucleus_position nuclei in
  (handleExportGLTF threshold atoms atomPositions bondingPairs moleculeName = None
   <-> atoms = [])
  /\ forall fileName meshes bondGroups,
       handleExportGLTF threshold atoms atomPositions bondingPairs moleculeName
       = Some (fileName, meshes, bondGroups) ->
       (exists base,
           fileName = base ++ list_ascii_of_string ".glb"
           /\ Forall (fun c => file_char c = true) base)
       /\ (forall radius color position,
             In (ExportNucleus radius color position) meshes ->
             exists index atom,
               atoms !! index = Some atom
               /\ atomPositions !! index = Some position
               /\ radius = atomScale_of atom)
       /\ (forall pos,
             In (ExportElectron pos) meshes ->
             exists index atom center shellIndex numElectrons,
               atoms !! index = Some atom
               /\ atomPositions !! index = Some center
               /\ shells atom !! shellIndex = Some numElectrons
               /\ distanceTo pos center
                  = shellRadius_at (atomScale_of atom) shellIndex)
       /\ (forall bg,
             In bg bondGroups ->
             exists bond,
               In bond bondingPairs
               /\ bg = update_bond threshold nuclei 1 (new_bond_group bond)
               /\ js_index atomPositions (fst (pair bond)) <> None
               /\ js_index atomPositions (snd (pair bond)) <> None)
       /\ (forall bond,
             In bond bondingPairs ->
             js_index atomPositions (fst (pair bond)) <> None ->
             js_index atomPositions (snd (pair bond)) <> None ->
             In (update_bond threshold nuclei 1 (new_bond_group bond)) bondGroups).
Proof.
  intros atomPositions. unfold handleExportGLTF.
  destruct atoms as [|atom0 atoms'] eqn:Eatoms.
  { split; [split; reflexivity|]. intros ? ? ? H. discriminate. }
  rewrite <- Eatoms. replace (length atoms =? 0)%nat with false
    by (rewrite Eatoms; reflexivity).
  split; [split; [discriminate|intros H; rewrite Eatoms in H; discriminate]|].
  intros fileName meshes bondGroups H. injection H as <- <- <-.
  split.
  { exists (export_baseName moleculeName). split; [reflexivity|].
    apply export_baseName_chars. }
  assert (Hmesh : forall m, In m (concat (imap (export_atom atomPositions) atoms)) ->
            exists index atom center,
              atoms !! index = Some atom /\ atomPositions !! index = Some center
              /\ (m = ExportNucleus (atomScale_of atom) (css_color atom "cccccc") center
                  \/ exists shellIndex numElectrons p,
                       shells atom !! shellIndex = Some numElectrons
                       /\ In p (getSpherePoints numElectrons
                                  (shellRadius_at (atomScale_of atom) shellIndex))
                       /\ m = ExportElectron (v3_add center p))).
  { intros m Hm. apply In_concat_imap in Hm as (index & atom & Hatom & Hm).
    exists index, atom. unfold export_atom in Hm.
    destruct (atomPositions !! index) as [center|] eqn:Ec; [|destruct Hm].
    exists center. split; [exact Hatom|]. split; [reflexivity|].
    destruct Hm as [<-|Hm]; [left; reflexivity|right].
    apply In_concat_imap in Hm as (s & n & Hs & Hm).
    apply in_map_iff in Hm as (p & <- & Hp).
    exists s, n, p. repeat split; assumption. }
  split.
  { intros radius color position Hin.
    destruct (Hmesh _ Hin) as (index & atom & center & Ha & Hc & [E|E]).
    - injection E as -> -> ->. now exists index, atom.
    - destruct E as (? & ? & ? & _ & _ & E). discriminate. }
  split.
  { intros pos Hin.
    destruct (Hmesh _ Hin) as (index & atom & center & Ha & Hc & [E|E]);
      [discriminate|].
    destruct E as (s & n & p & Hs & Hp & E). injection E as ->.
    exists index, atom, center, s, n. repeat split; try assumption.
    rewrite distanceTo_add, (getSpherePoints_on_sphere _ _ _ Hp).
    apply Rabs_right, Rle_ge, shellRadius_at_nonneg. }
  split.
  { intros bg Hin. apply list_elem_of_In, list_elem_of_omap in Hin as (bond & Hb & Hbg).
    exists bond. split; [now apply list_elem_of_In|].
    split; [now apply export_bond_as_update|].
    unfold export_bond in Hbg. fold atomPositions in Hbg.
    destruct (js_index atomPositions (fst (pair bond))); [|discriminate].
    destruct (js_index atomPositions (snd (pair bond))); [|discriminate].
    split; discriminate. }
  intros bond Hin HA HB.
  apply list_elem_of_In, list_elem_of_omap. exists bond.
  split; [now apply list_elem_of_In|].
  destruct (export_bond threshold atomPositions bond) as [bg|] eqn:E.
  - f_equal. now apply export_bond_as_update.
  - exfalso. unfold export_bond in E.
    destruct (js_index atomPositions (fst (pair bond))); [|now apply HA].
    destruct (js_index atomPositions (snd (pair bond))); [discriminate|now apply HB].
Qed.

(** ** Bonds that the PDB parser infers *)

Lemma toUpperCase_no_lower (s : list ascii) :
  Forall (fun c => is_lower c = false) (toUpperCase s).
Proof.
  unfold toUpperCase. rewrite List.Forall_forall. intros c Hin.
  apply in_map_iff in Hin as [c0 [<- _]]. cbv zeta.
  destruct ((97 <=? nat_of_ascii c0)%nat && (nat_of_ascii c0 <=? 122)%nat) eqn:E.
  - apply andb_true_iff in E as [H1 H2]. apply Nat.leb_le in H1, H2.
    unfold is_lower. rewrite nat_ascii_embedding by lia.
    apply andb_false_iff. left. apply Nat.leb_gt. lia.
  - exact E.
Qed.

Lemma pdb_symbol_no_lower (line : list ascii) :
  Forall (fun c => is_lower c = false) (pdb_symbol line).
Proof.
  unfold pdb_symbol.
  pose proof (toUpperCase_no_lower (trim (substring 76 78 line))) as H.
  destruct (toUpperCase (trim (substring 76 78 line))); [|exact H].
  apply toUpperCase_no_lower.
Qed.

Lemma obj_get_key {V} (o : JsObject V) (k : string) (v : V) :
  obj_get o k = Some v -> In k (map fst o).
Proof.
  induction o as [|[k0 v0] o IH]; [discriminate|]. cbn [obj_get map fst].
  destruct (String.eqb_spec k0 k) as [->|_]; [now left|].
  intros H. right. now apply IH.
Qed.

Lemma covalent_radius_upper (sym : string) :
  Forall (fun c => is_lower c = false) (list_ascii_of_string sym) ->
  (2 <= String.length sym)%nat ->
  covalent_radius sym = 1.
Proof.
  intros Hup Hlen.
  assert (Hb : forallb (fun c => negb (is_lower c)) (list_ascii_of_string sym)
               && (2 <=? String.length sym)%nat = true).
  { apply andb_true_iff. split; [|now apply Nat.leb_le].
    apply forallb_forall. intros c Hc. rewrite List.Forall_forall in Hup.
    now rewrite (Hup c Hc). }
  unfold covalent_radius.
  destruct (obj_get covalentRadii sym) as [r|] eqn:E; [|reflexivity].
  pose proof (obj_get_key _ _ _ E) as Hk.
  cbv [covalentRadii map fst] in Hk.
  repeat (destruct Hk as [<-|Hk]; [try (vm_compute in Hb; discriminate)|]).
  - simpl in E. injection E as <-. lra.
  - destruct Hk.
Qed.

Lemma inferred_bonds_iff (ps : list Vector3) (syms : list string) (b : Bond) :
  In b (inferred_bonds ps syms) <->
  exists i j,
    (i < j < length ps)%nat
    /\ b = mkBond (Z.of_nat i, Z.of_nat j) 1
    /\ distanceTo (default v3_zero (ps !! i)) (default v3_zero (ps !! j))
       < covalent_radius (default EmptyString (syms !! i))
         + covalent_radius (default EmptyString (syms !! j)) + 45 / 100.
Proof.
  unfold inferred_bonds. split.
  - intros Hb.
    apply in_flat_map in Hb as (i & Hi & Hb).
    apply in_flat_map in Hb as (j & Hj & Hb).
    apply in_seq in Hi, Hj. cbv zeta in Hb.
    destruct (Rlt_dec _ _) as [Hd|] in Hb; [|destruct Hb].
    destruct Hb as [<-|[]]. exists i, j. split; [lia|]. split; [reflexivity|exact Hd].
  - intros (i & j & Hij & -> & Hd).
    apply in_flat_map. exists i. split; [apply in_seq; lia|].
    apply in_flat_map. exists j. split; [apply in_seq; lia|].
    cbv zeta. destruct (Rlt_dec _ _) as [|Hn]; [now left|contradiction].
Qed.

Section PdbInference.

Variable parseFloat : list ascii -> option R.

Lemma pdb_atoms_no_lower (atomLines : list (list ascii)) (index : nat)
      (ps : list Vector3) (syms : list string) (atomMap : list (option Z * nat)) :
  Forall (fun sym => Forall (fun c => is_lower c = false) (list_ascii_of_string sym))
         syms ->
  Forall (fun sym => Forall (fun c => is_lower c = false) (list_ascii_of_string sym))
         (snd (fst (pdb_atoms parseFloat atomLines index (ps, syms, atomMap)))).
Proof.
  revert index ps syms atomMap.
  induction atomLines as [|line rest IH]; intros index ps syms atomMap Hs; [exact Hs|].
  cbn [pdb_atoms].
  pose proof (pdb_symbol_no_lower line) as Hsym.
  destruct (parseFloat (substring 30 38 line)); [|now apply IH].
  destruct (parseFloat (substring 38 46 line)); [|now apply IH].
  destruct (parseFloat (substring 46 54 line)); [|now apply IH].
  destruct (pdb_symbol line) as [|c sym] eqn:E; [now apply IH|].
  apply IH. apply Forall_app. split; [exact Hs|].
  constructor; [|constructor].
  now rewrite list_ascii_of_string_of_list_ascii.
Qed.

(** X13. For a PDB text without CONECT lines, the bonds parsePDB returns
    are exactly the pairs i < j of parsed atoms whose distance is less
    than r_i + r_j + 0.45, with type 1, where r is the entry of the
    covalent radii table for the atom's symbol, or 1.0 without an entry.
    No symbol parsePDB produces holds a small letter, since it is made
    upper case, so every symbol of two or more characters misses the
    table, whose two-letter keys end in a small letter, and gets the
    radius 1.0. *)
Theorem parsePDB_inferred_bonds (pdbData name : string) (data : ParsedMoleculeData) :
  parsePDB parseFloat pdbData name = inr data ->
  Forall (fun line => startsWith line (list_ascii_of_string "CONECT") = false)
         (split_on "010"%char (list_ascii_of_string pdbData)) ->
  let radius i := covalent_radius (default EmptyString (pm_symbols data !! i)) in
  let position i := default v3_zero (pm_positions data !! i) in
  (forall b,
      In b (pm_bonds data) <->
      exists i j,
        (i < j < length (pm_positions data))%nat
        /\ b = mkBond (Z.of_nat i, Z.of_nat j) 1
        /\ distanceTo (position i) (position j) < radius i + radius j + 45 / 100)
  /\ Forall (fun sym =>
               Forall (fun c => is_lower c = false) (list_ascii_of_string sym)
               /\ ((2 <= String.length sym)%nat -> covalent_radius sym = 1))
            (pm_symbols data).
Proof.
  intros H Hno radius position. unfold parsePDB in H.
  set (lines := split_on "010"%char (list_ascii_of_string pdbData)) in *.
  set (atomLines := List.filter _ lines) in H.
  destruct (Nat.ltb_spec PDB_MAX_ATOMS (length atomLines)) as [|Hmax]; [discriminate|].
  pose proof (pdb_atoms_inv parseFloat atomLines 0 [] [] [] eq_refl ltac:(constructor)
                            ltac:(constructor)) as Hlen.
  pose proof (pdb_atoms_no_lower atomLines 0 [] [] [] ltac:(constructor)) as Hup.
  destruct (pdb_atoms parseFloat atomLines 0 ([], [], [])) as [[ps syms] atomMap].
  cbn [fst snd] in Hup, Hlen.
  assert (Hc : List.filter (fun line => startsWith line (list_ascii_of_string "CONECT"))
                           lines = []).
  { clear -Hno. induction Hno as [|line l Hl _ IH]; [reflexivity|].
    cbn [List.filter]. cbv beta in Hl. now rewrite Hl. }
  rewrite Hc in H. cbn [conect_lines fst length Nat.eqb andb] in H.
  injection H as <-. unfold radius, position.
  cbn [pm_symbols pm_positions pm_bonds].
  split.
  - intros b. destruct (Nat.ltb_spec 1 (length atomLines)) as [Hgt|Hle].
    + apply inferred_bonds_iff.
    + split; [intros []|]. intros (i & j & Hij & _). exfalso.
      destruct Hlen as (_ & Hle' & _). cbn [length] in Hle'. lia.
  - eapply Forall_impl; [exact Hup|]. intros sym Hsym. split; [exact Hsym|].
    now apply covalent_radius_upper.
Qed.

End PdbInference.

(** ** The properties at example inputs *)

Lemma example_sdf_parsed :
  parseSDF example_parseFloat example_sdf "water" = inr example_sdf_data.
Proof. vm_compute. reflexivity. Qed.

Lemma example_pdb_parsed :
  parsePDB example_parseFloat example_pdb "cc" = inr example_pdb_data.
Proof. vm_compute. reflexivity. Qed.

Lemma parseSDF_result_witness :
  parseSDF example_parseFloat example_sdf "water" = inr example_sdf_data
  /\ length (pm_symbols example_sdf_data) = length (pm_positions example_sdf_data)
  /\ Forall (fun b => type b = 1 \/ type b = 2 \/ type b = 3)%Z
            (pm_bonds example_sdf_data).
Proof.
  split; [exact example_sdf_parsed|].
  destruct (parseSDF_result example_parseFloat example_sdf "water" example_sdf_data
              example_sdf_parsed)
    as (atomCount & bondCount & _ & _ & _ & _ & Hlen & _ & _ & _ & Hty).
  split; [exact Hlen|exact Hty].
Defined.

Lemma parsePDB_result_witness :
  parsePDB example_parseFloat example_pdb "cc" = inr example_pdb_data
  /\ length (pm_symbols example_pdb_data) = length (pm_positions example_pdb_data)
  /\ NoDup (map pair (pm_bonds example_pdb_data)).
Proof.
  split; [exact example_pdb_parsed|].
  destruct (parsePDB_result example_parseFloat example_pdb "cc" example_pdb_data
              example_pdb_parsed)
    as (_ & Hlen & _ & _ & _ & _ & Hnd & _).
  split; [exact Hlen|exact Hnd].
Defined.

Lemma example_pdb_no_conect :
  Forall (fun line => startsWith line (list_ascii_of_string "CONECT") = false)
         (split_on "010"%char (list_ascii_of_string example_pdb)).
Proof. vm_compute. repeat constructor. Qed.

Lemma parsePDB_inferred_bonds_witness :
  In (mkBond (0, 1)%Z 1) (pm_bonds example_pdb_data).
Proof.
  destruct (parsePDB_inferred_bonds example_parseFloat example_pdb "cc" example_pdb_data
              example_pdb_parsed example_pdb_no_conect) as [Hiff _].
  apply Hiff. exists 0%nat, 1%nat. split; [simpl; lia|]. split; [reflexivity|].
  unfold example_pdb_data, pm_symbols, pm_positions, covalent_radius. simpl.
  unfold distanceTo, distanceToSquared. simpl.
  replace ((0 - 1) * (0 - 1) + (0 - 0) * (0 - 0) + (0 - 0) * (0 - 0)) with (Rsqr 1)
    by (unfold Rsqr; ring).
  rewrite sqrt_Rsqr by lra. lra.
Defined.

Lemma contextMenu_agrees_with_handlers_witness :
  exists menu,
    ContextMenu 10 10 200 100 800 600 0 3 [mkBond (0, 1)%Z 2] = Some menu
    /\ length (menu_rows menu) = 2%nat
    /\ (menu_remove menu = true
        <-> handleRemoveBonds 0 [mkBond (0, 1)%Z 2] <> [mkBond (0, 1)%Z 2]).
Proof.
  assert (Hs : Forall bond_sorted [mkBond (0, 1)%Z 2]).
  { constructor; [unfold bond_sorted; simpl; lia|constructor]. }
  eexists. split; [reflexivity|].
  destruct (contextMenu_agrees_with_handlers 10 10 200 100 800 600 0 3
              [mkBond (0, 1)%Z 2] _ Hs eq_refl) as (_ & Hlen & _ & _ & Hrem).
  split; [exact Hlen|exact Hrem].
Defined.

Lemma example_formula_created :
  handleFormulaCreate example_elements "C2H6O"
  = inr ["C"; "C"; "H"; "H"; "H"; "H"; "H"; "H"; "O"]%string.
Proof. vm_compute. reflexivity. Qed.

Lemma handleFormulaCreate_symbols_witness :
  Forall (known_symbol example_elements)
         ["C"; "C"; "H"; "H"; "H"; "H"; "H"; "H"; "O"]%string.
Proof.
  exact (proj1 (proj2 (handleFormulaCreate_symbols example_elements "C2H6O" _
                         example_formula_created))).
Defined.

Lemma example_items_ok : Forall (Forall item_ok) example_items.
Proof.
  repeat constructor; simpl; try discriminate; try (intros l H; discriminate).
Qed.

Lemma example_items_known :
  items_known example_elements example_symbol_of (concat example_items).
Proof.
  intros it Hin. simpl in Hin.
  destruct Hin as [<-|[<-|[<-|[]]]]; (split; [reflexivity|vm_compute; discriminate]).
Qed.

Lemma handleFormulaCreate_grammar_witness :
  handleFormulaCreate example_elements
    (string_of_list_ascii (formula_text example_items))
  = inr (expansion example_symbol_of (concat example_items)).
Proof.
  apply (handleFormulaCreate_grammar example_elements example_symbol_of example_items).
  - discriminate.
  - exact example_items_ok.
  - exact example_items_known.
  - vm_compute. lia.
Defined.

Lemma handleFormulaCreate_skips_prefix_witness :
  handleFormulaCreate example_elements "x2C2H6O"
  = inr ["C"; "C"; "H"; "H"; "H"; "H"; "H"; "H"; "O"]%string.
Proof.
  apply (handleFormulaCreate_skips_prefix example_elements
           (list_ascii_of_string "x2") (list_ascii_of_string "C2H6O")).
  - repeat constructor; discriminate.
  - reflexivity.
  - exact example_formula_created.
Defined.

Lemma resize_symbols_spec_witness :
  length (resize_symbols 3 ["O"; "H"; "H"; "C"]%string) = 3%nat
  /\ length (resize_symbols 3 ["O"]%string) = 3%nat.
Proof.
  split.
  - exact (proj1 (resize_symbols_spec 3 ["O"; "H"; "H"; "C"]%string ltac:(lia))).
  - exact (proj1 (resize_symbols_spec 3 ["O"]%string ltac:(lia))).
Defined.

Lemma example_key_principal : key_has_principal "2p".
Proof. exists "2"%char. split; reflexivity. Qed.

Lemma example_draws_unit : unit_draws example_draws.
Proof. intros n. unfold example_draws. lra. Qed.

Lemma getRandomPointInOrbital_bounded_witness :
  v3_length (fst (getRandomPointInOrbital "2p" 1 example_draws))
  <= 18 / 10 * (9 / 10 * principal_of "2p" * 1).
Proof.
  exact (proj1 (proj2 (getRandomPointInOrbital_bounded "2p" 1 example_draws
                         example_key_principal ltac:(lra) example_draws_unit))).
Defined.

Lemma sampled_point_in_shape_witness :
  exists shape,
    In shape (orbital_shapes_for "2p" 4 1)
    /\ shape_contains shape (fst (getRandomPointInOrbital "2p" 1 example_draws)).
Proof.
  apply (sampled_point_in_shape "2p" 4 1 example_draws example_key_principal).
  - lra.
  - exact example_draws_unit.
  - discriminate.
  - right. left. reflexivity.
Defined.

Lemma parseElectronConfiguration_core_witness :
  parseElectronConfiguration "[He] 2s2 2p4" = parseElectronConfiguration "2s2 2p4".
Proof.
  apply (parseElectronConfiguration_core
           (list_ascii_of_string "He") (list_ascii_of_string " ")
           (list_ascii_of_string "2s2 2p4")).
  - discriminate.
  - repeat constructor.
  - repeat constructor.
  - reflexivity.
  - simpl. intros H. repeat (destruct H as [H|H]; [discriminate|]). exact H.
Defined.

Lemma quantum_electrons_within_reach_witness :
  exists scene,
    fst (rebuild [oxygen; hydrogen; hydrogen] [v3_zero; mkV3 0 15 0; mkV3 0 (-15) 0]
                 [mkBond (0, 1)%Z 1] quantum 15 1 example_draws)
    = Some scene.
Proof.
  destruct (quantum_electrons_within_reach (threshold := Number_EPSILON)
      [oxygen; hydrogen; hydrogen]
              [v3_zero; mkV3 0 15 0; mkV3 0 (-15) 0] [mkBond (0, 1)%Z 1]
              [mkBond (0, 1)%Z 1] 15 1 [(1 / 60, example_state)] example_draws
              example_draws_unit) as (scene & Hs & _).
  exists scene. exact Hs.
Defined.

Lemma classical_electrons_on_shell_witness :
  exists scene,
    fst (rebuild [oxygen; hydrogen; hydrogen] [v3_zero; mkV3 0 15 0; mkV3 0 (-15) 0]
                 [mkBond (0, 1)%Z 1] bohr 15 1 example_draws)
    = Some scene
    /\ length (animatedObjects
                 (fst (run_ticks Number_EPSILON bohr [mkBond (0, 1)%Z 1]
                     [(1 / 60, example_state)]
                                 scene example_draws)))
       = 3%nat.
Proof.
  destruct (rebuild_scene [oxygen; hydrogen; hydrogen]
              [v3_zero; mkV3 0 15 0; mkV3 0 (-15) 0] [mkBond (0, 1)%Z 1] bohr 15 1
              example_draws) as (scene & Hs & _).
  exists scene. split; [exact Hs|].
  exact (proj1 (classical_electrons_on_shell (threshold := Number_EPSILON)
      [oxygen; hydrogen; hydrogen]
                  [v3_zero; mkV3 0 15 0; mkV3 0 (-15) 0] [mkBond (0, 1)%Z 1]
                  [mkBond (0, 1)%Z 1] 15 1 [(1 / 60, example_state)] example_draws
                  scene Hs)).
Defined.

Lemma example_bond_direction :
  EPSILON_1e8 <= 1 + vy (v3_normalize (subVectors (mkV3 0 2 0) v3_zero)).
Proof.
  pose proof Number_EPSILON_le_1e8 as [_ He].
  unfold v3_normalize, divideScalar, multiplyScalar, subVectors, v3_zero.
  cbn [vx vy vz].
  set (l := v3_length _).
  assert (Hl : 0 <= l) by apply v3_length_nonneg.
  destruct (Req_dec_T l 0) as [_|Hne]; [lra|].
  assert (0 < 1 / l) by (apply Rdiv_lt_0_compat; lra).
  nra.
Qed.

Lemma bond_cylinder_ends_witness :
  bond_world (update_bond EPSILON_1e8 example_nuclei 1
                          (new_bond_group (mkBond (0, 1)%Z 1)))
             (bond_axis_end (mkBondMesh 0 1) true)
  = mkV3 0 2 0
  /\ bond_world (update_bond EPSILON_1e8 example_nuclei 1
                             (new_bond_group (mkBond (0, 1)%Z 1)))
                (bond_axis_end (mkBondMesh 0 1) false)
     = v3_zero.
Proof.
  assert (Hne : v3_zero <> mkV3 0 2 0).
  { unfold v3_zero. intros E. injection E as E. lra. }
  destruct (bond_cylinder_ends (threshold := EPSILON_1e8) example_nuclei 1
              (new_bond_group (mkBond (0, 1)%Z 1))
              (mkNucleus v3_zero 1 "#ffffff" None)
              (mkNucleus (mkV3 0 2 0) 1 "#ffffff" None)
              eq_refl eq_refl Hne EPSILON_1e8_pos (or_introl example_bond_direction))
    as [_ Hends].
  destruct (Hends (mkBondMesh 0 1)) as (_ & _ & _ & Hzero).
  { rewrite (update_bond_posed (threshold := EPSILON_1e8) example_nuclei 1
               (new_bond_group (mkBond (0, 1)%Z 1))
               (mkNucleus v3_zero 1 "#ffffff" None)
               (mkNucleus (mkV3 0 2 0) 1 "#ffffff" None) eq_refl eq_refl).
    left. reflexivity. }
  exact (Hzero eq_refl).
Defined.
